(** * NBA expression synthesis: omega-regular expressions, transition graphs
      and the lasso drivers.

    A shallow embedding of
      - [syntax/omega_regex.py]  (expressions and their measures),
      - [synthesis/graph.py] and [synthesis/transition_graph_to_regex.py]
        (the transition graph, state elimination, McNaughton-Yamada and the
        lasso drivers),
      - [synthesis/transition_graph_pipeline.py] (the importer),
      - [regex_methods.py] (the choice between automaton shapes).

    Python exceptions are values of [exn] in the error monad [result];
    mutable [Edge] objects live in a store addressed by object identity. *)

From Stdlib Require Import String List Arith Bool Lia PeanoNat.
Import ListNotations.
Open Scope string_scope.
Open Scope nat_scope.
Open Scope list_scope.

Set Implicit Arguments.

(* ================================================================== *)
(** ** The error monad *)
(* ================================================================== *)

(** The exceptions the modelled code can raise.  [DanglingRef] and
    [OutOfFuel] have no Python counterpart: the first is a store lookup of an
    identity that was never allocated, the second a loop that was cut before
    it ended; the theorems show where they cannot occur. *)
Inductive exn : Type :=
| KeyError | ValueError | IndexError | AssertionError
| DanglingRef | OutOfFuel.

Inductive result (A : Type) : Type :=
| Ok (a : A)
| Err (e : exn).

Arguments Ok {A} a.
Arguments Err {A} e.

Definition bind {A B : Type} (m : result A) (k : A -> result B) : result B :=
  match m with
  | Ok a => k a
  | Err e => Err e
  end.

Notation "x <- m ;; k" := (bind m (fun x => k))
  (at level 61, m at next level, right associativity).
Notation "' p <- m ;; k" := (bind m (fun p => k))
  (at level 61, p pattern, m at next level, right associativity).


(* ================================================================== *)
(** ** Expressions ([syntax/omega_regex.py]) *)
(* ================================================================== *)

Inductive Regex : Type :=
| Epsilon
| Empty
| Symbol (symbol : string)
| Concat (l r : Regex)
| Union (l r : Regex)
| Star (regex : Regex).

Inductive OmegaRegex : Type :=
| OmegaEmpty
| Repeat (regex : Regex)
| ConcatOmega (l : Regex) (r : OmegaRegex)
| UnionOmega (l r : OmegaRegex).

(** Structural equality of the frozen dataclasses. *)
Fixpoint regex_eqb (a b : Regex) : bool :=
  match a, b with
  | Epsilon, Epsilon => true
  | Empty, Empty => true
  | Symbol s, Symbol t => String.eqb s t
  | Concat a1 a2, Concat b1 b2 => regex_eqb a1 b1 && regex_eqb a2 b2
  | Union a1 a2, Union b1 b2 => regex_eqb a1 b1 && regex_eqb a2 b2
  | Star a1, Star b1 => regex_eqb a1 b1
  | _, _ => false
  end.


(** *** The token sequence of the iterative traversal *)

(** The deque holds ints and the strings ["+"] and ["?"]. *)
Inductive token : Type :=
| Num (n : nat)
| Plus
| Quest.

(** [determine_size]: every marker counts one, every number its value. *)
Fixpoint determine_size (dq : list token) : nat :=
  match dq with
  | [] => 0
  | Plus :: dq' => 1 + determine_size dq'
  | Quest :: dq' => 1 + determine_size dq'
  | Num x :: dq' => x + determine_size dq'
  end.

(** The number of constructors of an expression bounds the iterations of the
    traversal loop: every iteration pops one node. *)
Fixpoint weight (r : Regex) : nat :=
  match r with
  | Epsilon | Empty | Symbol _ => 1
  | Concat a b | Union a b => 1 + weight a + weight b
  | Star a => 1 + weight a
  end.

(** The [while stack:] loop of [postorderTraversal].  The Python list [stack]
    is kept top first, the deque [ret_val] left end first ([appendleft] is a
    cons).  The [Empty()] case returns the empty list at once. *)
Fixpoint postorder_loop (fuel : nat) (size : bool)
    (stack : list Regex) (ret_val : list token) : result (list token) :=
  match stack with
  | [] => Ok ret_val
  | node :: stack' =>
    match fuel with
    | 0 => Err OutOfFuel
    | S fuel' =>
      match node with
      | Empty => Ok []
      | Epsilon => postorder_loop fuel' size stack' (Num 0 :: ret_val)
      | Symbol _ => postorder_loop fuel' size stack' (Num 1 :: ret_val)
      | Concat r1 r2 =>
          postorder_loop fuel' size (r1 :: r2 :: stack') (Plus :: ret_val)
      | Union r1 r2 =>
          postorder_loop fuel' size (r1 :: r2 :: stack') (Quest :: ret_val)
      | Star r =>
          postorder_loop fuel' size (r :: stack')
            (if size then Num 1 :: ret_val else ret_val)
      end
    end
  end.

(** [postorderTraversal]: the two tests [regex is Empty] and
    [regex is Symbol] compare an instance with a class object and are never
    true; [lru_cache(maxsize=-1)] caches nothing. *)
Definition postorderTraversal (regex : Regex) (size : bool) : result (list token) :=
  postorder_loop (weight regex) size [regex] [].

(** The fold of [solve_postorder].  The deque [stack] is kept right end
    first: [append] is a cons, [pop] takes the head, [appendleft] adds at the
    far end. *)
Fixpoint solve_loop (postorder : list token) (stack : list nat) : result nat :=
  match postorder with
  | [] =>
    match stack with
    | [] => Ok 0
    | x :: _ => Ok x
    end
  | Plus :: rest =>
    match stack with
    | rgt :: lft :: stack' => solve_loop rest (stack' ++ [rgt + lft])
    | _ => Err IndexError
    end
  | Quest :: rest =>
    match stack with
    | rgt :: lft :: stack' =>
        solve_loop rest (stack' ++ [if lft <? rgt then rgt else lft])
    | _ => Err IndexError
    end
  | Num n :: rest => solve_loop rest (n :: stack)
  end.

Definition solve_postorder (postorder : list token) : result nat :=
  solve_loop postorder [].

(** [solve_postorderOmega] is the same function, written a second time. *)
Definition solve_postorderOmega (postorder : list token) : result nat :=
  solve_loop postorder [].

Definition regex_tllen (regex : Regex) (size : bool) : result nat :=
  pT <- postorderTraversal regex size ;;
  if negb size then solve_postorder pT else Ok (determine_size pT).

(** [Regex.__len__] and [Regex.size]. *)
Definition regex_len (regex : Regex) : result nat := regex_tllen regex false.
Definition regex_size (regex : Regex) : result nat := regex_tllen regex true.

Fixpoint regex_star_height (regex : Regex) : nat :=
  match regex with
  | Epsilon | Empty | Symbol _ => 0
  | Concat r1 r2 => Nat.max (regex_star_height r1) (regex_star_height r2)
  | Union r1 r2 => Nat.max (regex_star_height r1) (regex_star_height r2)
  | Star r => regex_star_height r + 1
  end.

Fixpoint omega_weight (o : OmegaRegex) : nat :=
  match o with
  | OmegaEmpty | Repeat _ => 1
  | ConcatOmega _ r => 1 + omega_weight r
  | UnionOmega a b => 1 + omega_weight a + omega_weight b
  end.

(** The loop of [postorderTraversalOmega]; an [OmegaEmpty] node matches no
    case and is only popped. *)
Fixpoint postorder_omega_loop (fuel : nat) (size : bool)
    (stack : list OmegaRegex) (ret_val : list token) : result (list token) :=
  match stack with
  | [] => Ok ret_val
  | node :: stack' =>
    match fuel with
    | 0 => Err OutOfFuel
    | S fuel' =>
      match node with
      | OmegaEmpty => postorder_omega_loop fuel' size stack' ret_val
      | Repeat s =>
          n <- regex_tllen s size ;;
          postorder_omega_loop fuel' size stack'
            (Num n :: (if size then Num 1 :: ret_val else ret_val))
      | ConcatOmega r1 r2 =>
          n <- regex_tllen r1 size ;;
          postorder_omega_loop fuel' size (r2 :: stack')
            (Num n :: Plus :: ret_val)
      | UnionOmega r1 r2 =>
          postorder_omega_loop fuel' size (r1 :: r2 :: stack')
            (Quest :: ret_val)
      end
    end
  end.

Definition postorderTraversalOmega (regex : OmegaRegex) (size : bool)
  : result (list token) :=
  postorder_omega_loop (omega_weight regex) size [regex] [].

Definition omega_regex_tllen (omega_regex : OmegaRegex) (size : bool) : result nat :=
  dq <- postorderTraversalOmega omega_regex size ;;
  if negb size then solve_postorderOmega dq else Ok (determine_size dq).

Definition omega_len (o : OmegaRegex) : result nat := omega_regex_tllen o false.
Definition omega_size (o : OmegaRegex) : result nat := omega_regex_tllen o true.

Fixpoint omega_regex_star_height (o : OmegaRegex) : nat :=
  match o with
  | OmegaEmpty => 0
  | Repeat r => regex_star_height r
  | ConcatOmega r1 r2 => Nat.max (regex_star_height r1) (omega_regex_star_height r2)
  | UnionOmega r1 r2 =>
      Nat.max (omega_regex_star_height r1) (omega_regex_star_height r2)
  end.


(* ================================================================== *)
(** ** The transition graph ([synthesis/graph.py], [tGraph]) *)
(* ================================================================== *)

(** An [Edge] object.  [accepting] is a field but no part of [__eq__]. *)
Record Edge : Type := mkEdge {
  src : nat;
  dst : nat;
  label : Regex;
  accepting : bool
}.

(** [Edge.__eq__]: source, destination and label. *)
Definition edge_eqb (a b : Edge) : bool :=
  (src a =? src b) && (dst a =? dst b) && regex_eqb (label a) (label b).

Definition set_label (e : Edge) (l : Regex) : Edge :=
  mkEdge (src e) (dst e) l (accepting e).

(** A [Vertex]: its two adjacency lists hold [Edge] objects, here their
    identities in the store.  [Graph.add_edge] puts one and the same object
    in the source's [out_edges] and in the destination's [in_edges]. *)
Record Vertex : Type := mkVertex {
  number : nat;
  out_edges : list nat;
  in_edges : list nat
}.

Definition set_out (v : Vertex) (l : list nat) : Vertex :=
  mkVertex (number v) l (in_edges v).
Definition set_in (v : Vertex) (l : list nat) : Vertex :=
  mkVertex (number v) (out_edges v) l.

(** A [tGraph].  [vertices] is the dict in insertion order; [final_states],
    a set of ints, is kept as the ascending list of its members, which is the
    order the drivers visit them in (the spec fixes ascending state id);
    [heap] holds the [Edge] objects of the adjacency lists by identity (an
    identity is the position in [heap]).  The objects of [acc_trans] and
    [nonacc_trans] are objects of their own, built by [tGraph.add_edge] and
    referenced from nowhere else, so these two lists hold values. *)
Record tGraph : Type := mktGraph {
  num_states : nat;
  initial_state : nat;
  final_states : list nat;
  vertices : list Vertex;
  heap : list Edge;
  acc_trans : list Edge;
  nonacc_trans : list Edge
}.

Definition set_vertices (g : tGraph) (vs : list Vertex) : tGraph :=
  mktGraph (num_states g) (initial_state g) (final_states g) vs (heap g)
           (acc_trans g) (nonacc_trans g).
Definition set_heap (g : tGraph) (h : list Edge) : tGraph :=
  mktGraph (num_states g) (initial_state g) (final_states g) (vertices g) h
           (acc_trans g) (nonacc_trans g).
Definition set_final_states (g : tGraph) (fs : list nat) : tGraph :=
  mktGraph (num_states g) (initial_state g) fs (vertices g) (heap g)
           (acc_trans g) (nonacc_trans g).
Definition set_acc_trans (g : tGraph) (l : list Edge) : tGraph :=
  mktGraph (num_states g) (initial_state g) (final_states g) (vertices g) (heap g)
           l (nonacc_trans g).
Definition set_nonacc_trans (g : tGraph) (l : list Edge) : tGraph :=
  mktGraph (num_states g) (initial_state g) (final_states g) (vertices g) (heap g)
           (acc_trans g) l.
Definition set_num_states (g : tGraph) (n : nat) : tGraph :=
  mktGraph n (initial_state g) (final_states g) (vertices g) (heap g)
           (acc_trans g) (nonacc_trans g).

(** [tGraph.__init__]. *)
Definition new_tGraph (n initial : nat) : tGraph :=
  mktGraph n initial [] (map (fun i => mkVertex i [] []) (seq 0 n)) [] [] [].

(** *** Sets of ints and the object store *)

Definition set_mem (x : nat) (s : list nat) : bool := existsb (Nat.eqb x) s.

Fixpoint set_add (x : nat) (s : list nat) : list nat :=
  match s with
  | [] => [x]
  | y :: s' =>
    if x <? y then x :: s
    else if x =? y then s
    else y :: set_add x s'
  end.

Definition set_remove (x : nat) (s : list nat) : list nat :=
  filter (fun y => negb (y =? x)) s.

Definition lookup_edge (h : list Edge) (i : nat) : result Edge :=
  match nth_error h i with
  | Some e => Ok e
  | None => Err DanglingRef
  end.

Fixpoint edges_of (h : list Edge) (ids : list nat) : result (list Edge) :=
  match ids with
  | [] => Ok []
  | i :: rest =>
    e <- lookup_edge h i ;;
    es <- edges_of h rest ;;
    Ok (e :: es)
  end.

(** The object [i] gets the label [l] ([e.label = l]). *)
Fixpoint assign_label (h : list Edge) (i : nat) (l : Regex) : list Edge :=
  match h, i with
  | [], _ => []
  | e :: h', 0 => set_label e l :: h'
  | e :: h', S i' => e :: assign_label h' i' l
  end.

(** [list.remove(e)] on a list of [Edge] objects: the first object equal to
    [e] goes, [ValueError] when there is none. *)
Fixpoint list_remove_edge (h : list Edge) (e : Edge) (ids : list nat)
  : result (list nat) :=
  match ids with
  | [] => Err ValueError
  | i :: rest =>
    x <- lookup_edge h i ;;
    if edge_eqb x e then Ok rest
    else (rest' <- list_remove_edge h e rest ;; Ok (i :: rest'))
  end.

(** The same on the lists of values [acc_trans] and [nonacc_trans]. *)
Fixpoint trans_remove (e : Edge) (l : list Edge) : result (list Edge) :=
  match l with
  | [] => Err ValueError
  | x :: rest =>
    if edge_eqb x e then Ok rest
    else (rest' <- trans_remove e rest ;; Ok (x :: rest'))
  end.

(** *** Vertices by number *)

Definition find_vertex (vs : list Vertex) (v : nat) : option Vertex :=
  find (fun x => number x =? v) vs.

(** [g.vertices[v]]. *)
Definition get_vertex (g : tGraph) (v : nat) : result Vertex :=
  match find_vertex (vertices g) v with
  | Some x => Ok x
  | None => Err KeyError
  end.

Definition update_vertex (v : nat) (f : Vertex -> Vertex) (vs : list Vertex)
  : list Vertex :=
  map (fun x => if number x =? v then f x else x) vs.

(** *** [Graph.add_edge], [Graph.remove_edge] *)

Definition Graph_add_edge (g : tGraph) (s d : nat) (l : Regex) (a : bool)
  : result tGraph :=
  let id := length (heap g) in
  let g0 := set_heap g (heap g ++ [mkEdge s d l a]) in
  vs <- get_vertex g0 s ;;
  let g1 := set_vertices g0
              (update_vertex s (fun x => set_out x (out_edges x ++ [id])) (vertices g0)) in
  vd <- get_vertex g1 d ;;
  Ok (set_vertices g1
        (update_vertex d (fun x => set_in x (in_edges x ++ [id])) (vertices g1))).

Definition Graph_remove_edge (g : tGraph) (s d : nat) (l : Regex) : result tGraph :=
  let e := mkEdge s d l false in
  vs <- get_vertex g s ;;
  outs <- list_remove_edge (heap g) e (out_edges vs) ;;
  let g1 := set_vertices g (update_vertex s (fun x => set_out x outs) (vertices g)) in
  vd <- get_vertex g1 d ;;
  ins <- list_remove_edge (heap g1) e (in_edges vd) ;;
  Ok (set_vertices g1 (update_vertex d (fun x => set_in x ins) (vertices g1))).

(** *** The queries of [tGraph] *)

Definition filter_edges (h : list Edge) (p : Edge -> bool) (ids : list nat)
  : result (list Edge) :=
  es <- edges_of h ids ;; Ok (filter p es).

Definition get_accepting_transitions_from (g : tGraph) (s : nat) : result (list Edge) :=
  v <- get_vertex g s ;; filter_edges (heap g) accepting (out_edges v).

Definition get_accepting_transitions_to (g : tGraph) (d : nat) : result (list Edge) :=
  v <- get_vertex g d ;; filter_edges (heap g) accepting (in_edges v).

Definition get_nonaccepting_transitions_from (g : tGraph) (s : nat) : result (list Edge) :=
  v <- get_vertex g s ;;
  filter_edges (heap g) (fun e => negb (accepting e)) (out_edges v).

Definition get_nonaccepting_transitions_to (g : tGraph) (d : nat) : result (list Edge) :=
  v <- get_vertex g d ;;
  filter_edges (heap g) (fun e => negb (accepting e)) (in_edges v).

Definition state_pseudoaccepting (g : tGraph) (state : nat) : result bool :=
  non <- get_nonaccepting_transitions_from g state ;;
  if 0 <? length non then
    (acc <- get_accepting_transitions_from g state ;; Ok (0 <? length acc))
  else Ok false.

(** *** [tGraph.add_edge], [tGraph.remove_edge] *)

Definition add_edge (g : tGraph) (s d : nat) (l : Regex) (a : bool) : result tGraph :=
  g1 <- Graph_add_edge g s d l a ;;
  if a then
    Ok (set_final_states (set_acc_trans g1 (acc_trans g1 ++ [mkEdge s d l a]))
                         (set_add s (final_states g1)))
  else
    Ok (set_nonacc_trans g1 (nonacc_trans g1 ++ [mkEdge s d l false])).

Definition remove_edge (g : tGraph) (s d : nat) (l : Regex) (a : bool) : result tGraph :=
  g1 <- Graph_remove_edge g s d l ;;
  let e := mkEdge s d l a in
  g2 <- (if a then (t <- trans_remove e (acc_trans g1) ;; Ok (set_acc_trans g1 t))
         else (t <- trans_remove e (nonacc_trans g1) ;; Ok (set_nonacc_trans g1 t))) ;;
  if set_mem s (final_states g2) then
    (acc <- get_accepting_transitions_from g2 s ;;
     if length acc =? 0 then Ok (set_final_states g2 (set_remove s (final_states g2)))
     else Ok g2)
  else Ok g2.

(* ================================================================== *)
(** ** McNaughton-Yamada ([mcnaughton_yamada]) *)
(* ================================================================== *)

(** [r1 = e.label if r1 is None else Union(r1, e.label)]. *)
Definition union_opt (r : option Regex) (l : Regex) : option Regex :=
  match r with
  | None => Some l
  | Some r1 => Some (Union r1 l)
  end.

(** The base case folds the labels of the parallel edges from the left:
    [result = trans[0].label; for t in trans[1:]: result = Union(result, t.label)]. *)
Definition union_labels (trans : list Edge) : option Regex :=
  match trans with
  | [] => None
  | t :: ts => Some (fold_left (fun result t' => Union result (label t')) ts (label t))
  end.

(** The table [transitions]: per vertex number the objects of its
    [out_edges], read once before the recursion starts. *)
Fixpoint precompute (h : list Edge) (vs : list Vertex)
  : result (list (nat * list Edge)) :=
  match vs with
  | [] => Ok []
  | v :: vs' =>
    es <- edges_of h (out_edges v) ;;
    rest <- precompute h vs' ;;
    Ok ((number v, es) :: rest)
  end.

(** [transitions.get(i_p, {}).get(j_p, [])]: the edges from [i_p] to [j_p]
    in the order of [out_edges]. *)
Definition transitions_get (table : list (nat * list Edge)) (i_p j_p : nat)
  : list Edge :=
  match find (fun p => fst p =? i_p) table with
  | Some (_, es) => filter (fun e => dst e =? j_p) es
  | None => []
  end.

Section McNaughtonYamada.

Variable table : list (nat * list Edge).
(** The arguments [i] and [acc] of the enclosing call. *)
Variable i : nat.
Variable acc : option bool.

(** The inner function [r(i_p, j_p, k)], by recursion on [k + 1]: [kk = 0]
    is the call with [k = -1], and [kk = S k] the call with that [k >= 0].
    The cache changes no result. *)
Fixpoint r (kk : nat) (i_p j_p : nat) : option Regex :=
  match kk with
  | 0 =>
    let trans := transitions_get table i_p j_p in
    let trans :=
      if i_p =? i then
        match acc with
        | Some true => filter accepting trans
        | Some false => filter (fun x => negb (accepting x)) trans
        | None => trans
        end
      else trans in
    union_labels trans
  | S k =>
    if k =? j_p then r k i_p j_p
    else if k =? i_p then
      let rep := r k i_p i_p in
      let go := r k i_p j_p in
      match rep, go with
      | None, _ => go
      | Some _, None => None
      | Some rep', Some go' => Some (Concat (Star rep') go')
      end
    else
      let prev := r k i_p k in
      let rep := r k k k in
      let go := r k k j_p in
      let i_j := r k i_p j_p in
      match prev, go with
      | Some prev', Some go' =>
        let result :=
          match rep with
          | None => Concat prev' go'
          | Some rep' => Concat prev' (Concat (Star rep') go')
          end in
        match i_j with
        | Some i_j' => Some (Union i_j' result)
        | None => Some result
        end
      | _, _ => i_j
      end
  end.

End McNaughtonYamada.

(** [mcnaughton_yamada(tba, i, j, acc)] with [j] given, as every caller
    does. *)
Definition mcnaughton_yamada (tba : tGraph) (i j : nat) (acc : option bool)
  : result (option Regex) :=
  table <- precompute (heap tba) (vertices tba) ;;
  Ok (r table i acc (num_states tba) i j).

(* ================================================================== *)
(** ** State elimination *)
(* ================================================================== *)

Fixpoint list_min (l : list nat) : option nat :=
  match l with
  | [] => None
  | x :: l' =>
    match list_min l' with
    | None => Some x
    | Some m => Some (Nat.min x m)
    end
  end.

(** [find_rip_vertex]: the least vertex other than the two endpoints. *)
Definition find_rip_vertex (g : tGraph) (v_start v_end : nat) : result (option nat) :=
  let keys := map number (vertices g) in
  if negb (set_mem v_start keys) then Err KeyError
  else if negb (v_start =? v_end) && negb (set_mem v_end keys) then Err KeyError
  else
    Ok (list_min (filter (fun s => negb (s =? v_start) && negb (s =? v_end)) keys)).

(** [contain_self_loop]: the first self-loop among the out-edges. *)
Definition contain_self_loop (g : tGraph) (v : nat) : result (option Edge) :=
  vx <- get_vertex g v ;;
  es <- edges_of (heap g) (out_edges vx) ;;
  Ok (find (fun e => src e =? dst e) es).

(** The new edges of [rip], in the order of the double loop. *)
Definition added_edges (v_rip : nat) (r_rip : option Regex) (ins outs : list Edge)
  : list (nat * nat * Regex * bool) :=
  flat_map (fun e_in =>
    flat_map (fun e_out =>
      if (src e_in =? v_rip) || (dst e_out =? v_rip) then []
      else
        let r_in := label e_in in
        let r_out := label e_out in
        let r' := match r_rip with
                  | None => Concat r_in r_out
                  | Some rr => Concat r_in (Concat (Star rr) r_out)
                  end in
        [(src e_in, dst e_out, r', accepting e_in)]) outs) ins.

(** [for e_in in g.vertices[v_rip].in_edges:
       g.vertices[e_in.src].out_edges.remove(e_in)]. *)
Fixpoint detach_in_edges (g : tGraph) (ids : list nat) : result tGraph :=
  match ids with
  | [] => Ok g
  | i :: rest =>
    e_in <- lookup_edge (heap g) i ;;
    u <- get_vertex g (src e_in) ;;
    outs <- list_remove_edge (heap g) e_in (out_edges u) ;;
    detach_in_edges
      (set_vertices g (update_vertex (src e_in) (fun x => set_out x outs) (vertices g)))
      rest
  end.

(** [for e_out in g.vertices[v_rip].out_edges:
       g.vertices[e_out.dst].in_edges.remove(e_out)]. *)
Fixpoint detach_out_edges (g : tGraph) (ids : list nat) : result tGraph :=
  match ids with
  | [] => Ok g
  | i :: rest =>
    e_out <- lookup_edge (heap g) i ;;
    w <- get_vertex g (dst e_out) ;;
    ins <- list_remove_edge (heap g) e_out (in_edges w) ;;
    detach_out_edges
      (set_vertices g (update_vertex (dst e_out) (fun x => set_in x ins) (vertices g)))
      rest
  end.

Fixpoint add_edges (g : tGraph) (l : list (nat * nat * Regex * bool)) : result tGraph :=
  match l with
  | [] => Ok g
  | (s, t, r', a) :: rest =>
    g1 <- add_edge g s t r' a ;;
    add_edges g1 rest
  end.

(** [rip(g, v_rip, acc, v_start, v_end)]; the last three arguments are not
    used by the body. *)
Definition rip (g : tGraph) (v_rip : nat) : result tGraph :=
  loop <- contain_self_loop g v_rip ;;
  let r_rip := option_map label loop in
  v <- get_vertex g v_rip ;;
  ins <- edges_of (heap g) (in_edges v) ;;
  outs <- edges_of (heap g) (out_edges v) ;;
  let added := added_edges v_rip r_rip ins outs in
  g1 <- detach_in_edges g (in_edges v) ;;
  v1 <- get_vertex g1 v_rip ;;
  g2 <- detach_out_edges g1 (out_edges v1) ;;
  g3 <- add_edges g2 added ;;
  Ok (set_num_states
        (set_vertices g3 (filter (fun x => negb (number x =? v_rip)) (vertices g3)))
        (num_states g3 - 1)).

(* ================================================================== *)
(** ** [combine_duplicate_edge] *)
(* ================================================================== *)

(** The keys [(e.src, e.dst, e.accepting)] of [edge_dict]. *)
Definition edge_key : Type := (nat * nat * bool)%type.

Definition key_of (e : Edge) : edge_key := (src e, dst e, accepting e).

Definition key_eqb (a b : edge_key) : bool :=
  let '(s1, d1, a1) := a in
  let '(s2, d2, a2) := b in
  (s1 =? s2) && (d1 =? d2) && Bool.eqb a1 a2.

(** [edge_dict], a [defaultdict(list)] in insertion order; the lists hold
    the objects of the out-lists. *)
Definition edge_dict : Type := list (edge_key * list nat).

(** [edge_dict[key].append(e)]. *)
Fixpoint dict_append (key : edge_key) (id : nat) (d : edge_dict) : edge_dict :=
  match d with
  | [] => [(key, [id])]
  | (k, l) :: d' =>
    if key_eqb k key then (k, l ++ [id]) :: d'
    else (k, l) :: dict_append key id d'
  end.

Definition dict_get (d : edge_dict) (key : edge_key) : list nat :=
  match find (fun p => key_eqb (fst p) key) d with
  | Some (_, l) => l
  | None => []
  end.

Definition dict_set (key : edge_key) (l : list nat) (d : edge_dict) : edge_dict :=
  map (fun p => if key_eqb (fst p) key then (fst p, l) else p) d.

Definition dict_del (key : edge_key) (d : edge_dict) : edge_dict :=
  filter (fun p => negb (key_eqb (fst p) key)) d.

Fixpoint dict_add_edges (h : list Edge) (ids : list nat) (d : edge_dict)
  : result edge_dict :=
  match ids with
  | [] => Ok d
  | i :: rest =>
    e <- lookup_edge h i ;;
    dict_add_edges h rest (dict_append (key_of e) i d)
  end.

Fixpoint build_edge_dict (h : list Edge) (vs : list Vertex) (d : edge_dict)
  : result edge_dict :=
  match vs with
  | [] => Ok d
  | v :: vs' =>
    d1 <- dict_add_edges h (out_edges v) d ;;
    build_edge_dict h vs' d1
  end.

(** [edge_dict[key].remove(e)]: the first entry that is [e] itself or equal
    to it. *)
Fixpoint list_remove_obj (h : list Edge) (id : nat) (e : Edge) (ids : list nat)
  : result (list nat) :=
  match ids with
  | [] => Err ValueError
  | i :: rest =>
    if i =? id then Ok rest
    else
      x <- lookup_edge h i ;;
      if edge_eqb x e then Ok rest
      else (rest' <- list_remove_obj h id e rest ;; Ok (i :: rest'))
  end.

(** The first entry with more than one edge, as the [for] loop of
    [combine_one_duplicate_edge] meets it. *)
Fixpoint find_duplicate (d : edge_dict) : option (edge_key * list nat) :=
  match d with
  | [] => None
  | (k, l) :: d' => if 1 <? length l then Some (k, l) else find_duplicate d'
  end.

(** [for e in edges[1:]: g.remove_edge(e.src, e.dst, e.label, e.accepting);
                         edge_dict[key].remove(e)]. *)
Fixpoint remove_others (g : tGraph) (d : edge_dict) (key : edge_key)
    (others : list nat) : result (tGraph * edge_dict) :=
  match others with
  | [] => Ok (g, d)
  | id :: rest =>
    e <- lookup_edge (heap g) id ;;
    g1 <- remove_edge g (src e) (dst e) (label e) (accepting e) ;;
    l <- list_remove_obj (heap g1) id e (dict_get d key) ;;
    remove_others g1 (dict_set key l d) key rest
  end.

(** [combined_label = edges[0].label;
     for e in edges[1:]: combined_label = Union(combined_label, e.label)]. *)
Definition combined_label (e0 : Edge) (es : list Edge) : Regex :=
  fold_left (fun c e => Union c (label e)) es (label e0).

(** The body of [combine_one_duplicate_edge] for the entry it stops at: the
    labels are folded into the first edge, the others go. *)
Definition combine_entry (g : tGraph) (d : edge_dict) (key : edge_key)
    (edges : list nat) : result (tGraph * edge_dict) :=
  match edges with
  | [] => Err IndexError
  | id0 :: others =>
    e0 <- lookup_edge (heap g) id0 ;;
    es <- edges_of (heap g) others ;;
    let g1 := set_heap g (assign_label (heap g) id0 (combined_label e0 es)) in
    '(g2, d2) <- remove_others g1 d key others ;;
    Ok (g2, if length (dict_get d2 key) =? 1 then dict_del key d2 else d2)
  end.

(** [while combine_one_duplicate_edge(): pass]. *)
Fixpoint combine_loop (fuel : nat) (g : tGraph) (d : edge_dict) : result tGraph :=
  match find_duplicate d with
  | None => Ok g
  | Some (key, edges) =>
    match fuel with
    | 0 => Err OutOfFuel
    | S fuel' =>
      '(g1, d1) <- combine_entry g d key edges ;;
      combine_loop fuel' g1 d1
    end
  end.

(** [combine_duplicate_edge(g)] works on [g] itself and returns it. *)
Definition combine_duplicate_edge (g : tGraph) : result tGraph :=
  d <- build_edge_dict (heap g) (vertices g) [] ;;
  combine_loop (length d) g d.

(* ================================================================== *)
(** ** The path queries of state elimination *)
(* ================================================================== *)

(** The [while v_rip is not None] loop shared by the three queries; it runs
    on the deep copy, which in a value model is the graph value itself. *)
Fixpoint rip_loop (fuel : nat) (g : tGraph) (v_start v_end : nat) : result tGraph :=
  v_rip <- find_rip_vertex g v_start v_end ;;
  match v_rip with
  | None => Ok g
  | Some v =>
    match fuel with
    | 0 => Err OutOfFuel
    | S fuel' =>
      g1 <- rip g v ;;
      g2 <- combine_duplicate_edge g1 ;;
      rip_loop fuel' g2 v_start v_end
    end
  end.

Definition combine_final (r1 : option Regex) (r2 : Regex)
    (r3 r4 : option Regex) : Regex :=
  match r1 with
  | None => r2
  | Some r1' => Concat (Star r1') r2
  end.

(** The three flavours of the first [for] loop, one step each. *)
Definition path_step (v_start v_end : nat) (st : option Regex * option Regex)
    (e : Edge) : option Regex * option Regex :=
  let '(r1, r2) := st in
  let r1 := if dst e =? v_start then union_opt r1 (label e) else r1 in
  let r2 := if dst e =? v_end then union_opt r2 (label e) else r2 in
  (r1, r2).

Definition accpath_step (v_start v_end : nat) (st : option Regex * option Regex)
    (e : Edge) : option Regex * option Regex :=
  let '(r1, r2) := st in
  if (dst e =? v_start) && negb (dst e =? v_end) && negb (accepting e) then (r1, r2)
  else
    let r1 := if (dst e =? v_start) && negb (dst e =? v_end)
              then union_opt r1 (label e) else r1 in
    if dst e =? v_end then
      if (src e =? v_start) && negb (accepting e) then (r1, r2)
      else (r1, union_opt r2 (label e))
    else (r1, r2).

Definition nonaccpath_step (v_start v_end : nat) (st : option Regex * option Regex)
    (e : Edge) : option Regex * option Regex :=
  let '(r1, r2) := st in
  if (dst e =? v_start) && negb (dst e =? v_end) && accepting e then (r1, r2)
  else
    let r1 := if (dst e =? v_start) && negb (dst e =? v_end)
              then union_opt r1 (label e) else r1 in
    if dst e =? v_end then
      if (src e =? v_start) && accepting e then (r1, r2)
      else (r1, union_opt r2 (label e))
    else (r1, r2).

(** The second loop, over the out-edges of [v_end], fills [r3] and [r4]. *)
Definition back_step (v_start v_end : nat) (st : option Regex * option Regex)
    (e : Edge) : option Regex * option Regex :=
  let '(r3, r4) := st in
  let r3 := if dst e =? v_start then union_opt r3 (label e) else r3 in
  let r4 := if dst e =? v_end then union_opt r4 (label e) else r4 in
  (r3, r4).

(** What follows the ripping in the three queries, with the step of the
    first loop as argument. *)
Definition assemble
    (step : nat -> nat -> option Regex * option Regex -> Edge
            -> option Regex * option Regex)
    (g : tGraph) (v_start v_end : nat) : result (option Regex) :=
  vs <- get_vertex g v_start ;;
  es <- edges_of (heap g) (out_edges vs) ;;
  let '(r1, r2) := fold_left (step v_start v_end) es (None, None) in
  ve <- get_vertex g v_end ;;
  es' <- edges_of (heap g) (out_edges ve) ;;
  let '(r3, r4) := fold_left (back_step v_start v_end) es' (None, None) in
  match r2 with
  | None => Ok None
  | Some r2' =>
    if v_start =? v_end then Ok (Some r2')
    else Ok (Some (combine_final r1 r2' r3 r4))
  end.

Definition find_path (g : tGraph) (v_start v_end : nat) : result (option Regex) :=
  g' <- rip_loop (length (vertices g)) g v_start v_end ;;
  assemble path_step g' v_start v_end.

Definition find_accpath (g : tGraph) (v_start v_end : nat) : result (option Regex) :=
  g' <- rip_loop (length (vertices g)) g v_start v_end ;;
  assemble accpath_step g' v_start v_end.

Definition find_nonaccpath (g : tGraph) (v_start v_end : nat) : result (option Regex) :=
  g' <- rip_loop (length (vertices g)) g v_start v_end ;;
  assemble nonaccpath_step g' v_start v_end.

(* ================================================================== *)
(** ** The lasso drivers *)
(* ================================================================== *)

(** The path queries a driver issues, kept as a trace beside its result. *)
Inductive query : Type :=
| PrefixQuery (f : nat)
| AccCycleQuery (f : nat)
| NonaccCycleQuery (f : nat).

(** A computation that may raise and that records the queries it issued. *)
Definition traced (A : Type) : Type := result (list query * A).

Definition tret {A} (a : A) : traced A := Ok ([], a).

Definition tbind {A B} (m : traced A) (k : A -> traced B) : traced B :=
  '(q1, a) <- m ;;
  '(q2, b) <- k a ;;
  Ok (q1 ++ q2, b).

(** Issue the query [q], computed by [m]. *)
Definition issue {A} (q : query) (m : result A) : traced A :=
  a <- m ;; Ok ([q], a).

(** A computation outside the queries. *)
Definition lift {A} (m : result A) : traced A :=
  a <- m ;; Ok ([], a).

Notation "x <~ m ;; k" := (tbind m (fun x => k))
  (at level 61, m at next level, right associativity).

(** The [if]/[elif] that turns the three paths of a final state into its
    contribution to [all_paths]. *)
Definition contribution (path1 path2 path3 : option Regex) : list OmegaRegex :=
  match path1, path2 with
  | None, Some p2 =>
    match path3 with
    | None => [Repeat p2]
    | Some p3 => [Repeat (Concat (Star p3) p2)]
    end
  | Some p1, Some p2 =>
    match path3 with
    | None => [ConcatOmega p1 (Repeat p2)]
    | Some p3 => [ConcatOmega p1 (Repeat (Concat (Star p3) p2))]
    end
  | _, None => []
  end.

(** The end of every driver:
    [p = all_paths[0]; for i in range(1, len(all_paths)): p = UnionOmega(p, all_paths[i])]. *)
Definition union_all (all_paths : list OmegaRegex) : OmegaRegex :=
  match all_paths with
  | [] => OmegaEmpty
  | p :: rest => fold_left UnionOmega rest p
  end.

(** [for f in g.final_states: ... all_paths.append(...)]. *)
Fixpoint for_finals (body : nat -> traced (list OmegaRegex)) (fs : list nat)
  : traced (list OmegaRegex) :=
  match fs with
  | [] => tret []
  | f :: fs' =>
    c <~ body f ;;
    cs <~ for_finals body fs' ;;
    tret (c ++ cs)
  end.

(** What a driver leaves behind: the expression it returns, the state of
    the graph object it was given, and the queries it issued. *)
Record outcome : Type := mkOutcome {
  returned : OmegaRegex;
  graph_after : tGraph;
  queries : list query
}.

Definition body_mny (g : tGraph) (f : nat) : traced (list OmegaRegex) :=
  path1 <~ (if negb (initial_state g =? f)
            then issue (PrefixQuery f) (mcnaughton_yamada g (initial_state g) f None)
            else tret None) ;;
  path2 <~ issue (AccCycleQuery f) (mcnaughton_yamada g f f (Some true)) ;;
  pseudo <~ lift (state_pseudoaccepting g f) ;;
  path3 <~ (if pseudo
            then issue (NonaccCycleQuery f) (mcnaughton_yamada g f f (Some false))
            else tret None) ;;
  tret (contribution path1 path2 path3).

Definition body_bmc (g : tGraph) (f : nat) : traced (list OmegaRegex) :=
  path1 <~ (if negb (initial_state g =? f)
            then issue (PrefixQuery f) (find_path g (initial_state g) f)
            else tret None) ;;
  path2 <~ issue (AccCycleQuery f) (find_accpath g f f) ;;
  pseudo <~ lift (state_pseudoaccepting g f) ;;
  path3 <~ (if pseudo
            then issue (NonaccCycleQuery f) (find_nonaccpath g f f)
            else tret None) ;;
  tret (contribution path1 path2 path3).

(** The loop body of [simp_taut_to_regex_bmc]: [path3] has no guard. *)
Definition body_simp_bmc (g : tGraph) (f : nat) : traced (list OmegaRegex) :=
  path1 <~ (if negb (initial_state g =? f)
            then issue (PrefixQuery f) (find_path g (initial_state g) f)
            else tret None) ;;
  path2 <~ issue (AccCycleQuery f) (find_accpath g f f) ;;
  path3 <~ issue (NonaccCycleQuery f) (find_nonaccpath g f f) ;;
  tret (contribution path1 path2 path3).

(** The frame shared by the four drivers: coalesce the duplicate edges of
    the graph that was passed in, visit its final states, fold the union. *)
Definition drive (body : tGraph -> nat -> traced (list OmegaRegex))
    (post : OmegaRegex -> OmegaRegex) (g : tGraph) : result outcome :=
  g' <- combine_duplicate_edge g ;;
  '(qs, all_paths) <- for_finals (body g') (final_states g') ;;
  Ok (mkOutcome (post (union_all all_paths)) g' qs).

Definition taut_to_regex_mny (g : tGraph) : result outcome :=
  drive body_mny (fun p => p) g.

Definition taut_to_regex_bmc (g : tGraph) : result outcome :=
  drive body_bmc (fun p => p) g.

Section Simplified.

(** Modelled from the spec: the decorator [simplify] of
    [syntax/regex_utils.py], which is not among the sources; the spec
    describes it as a function on expressions run on the driver's output. *)
Variable simplify : OmegaRegex -> OmegaRegex.

Definition simp_taut_to_regex_mny (g : tGraph) : result outcome :=
  drive body_mny simplify g.

Definition simp_taut_to_regex_bmc (g : tGraph) : result outcome :=
  drive body_simp_bmc simplify g.

End Simplified.

(* ================================================================== *)
(** ** The importer ([aut_to_tgraph]) *)
(* ================================================================== *)

(** What the importer reads of an automaton of the translator: per edge the
    source, the destination, the printed condition and [t.acc.has(0)]. *)
Record AutEdge : Type := mkAutEdge {
  t_src : nat;
  t_dst : nat;
  t_cond : string;
  t_acc : bool
}.

Record Automaton : Type := mkAutomaton {
  aut_num_sets : nat;
  aut_num_states : nat;
  aut_init_state_number : nat;
  aut_edges : list AutEdge
}.

Fixpoint import_edges (graph : tGraph) (ts : list AutEdge) : result tGraph :=
  match ts with
  | [] => Ok graph
  | t :: ts' =>
    graph1 <- add_edge graph (t_src t) (t_dst t) (Symbol (t_cond t)) (t_acc t) ;;
    import_edges graph1 ts'
  end.

Definition aut_to_tgraph (aut : Automaton) : result tGraph :=
  if negb (aut_num_sets aut =? 1) then Err AssertionError
  else import_edges (new_tGraph (aut_num_states aut) (aut_init_state_number aut))
                    (aut_edges aut).

(* ================================================================== *)
(** ** The choice of the automaton shape ([regex_methods.py]) *)
(* ================================================================== *)

(** [Graph.get_finals]: [[self.vertices[v] for v in self.final_states]]. *)
Fixpoint get_finals_of (g : tGraph) (fs : list nat) : result (list Vertex) :=
  match fs with
  | [] => Ok []
  | v :: fs' =>
    x <- get_vertex g v ;;
    xs <- get_finals_of g fs' ;;
    Ok (x :: xs)
  end.

Definition get_finals (g : tGraph) : result (list Vertex) :=
  get_finals_of g (final_states g).

Definition num_accepting_states (aut : tGraph) : result nat :=
  fs <- get_finals aut ;; Ok (length fs).

(** The local [num_states(aut)]: [len(aut.vertices.keys())]. *)
Definition count_states (aut : tGraph) : nat := length (vertices aut).

Section ShapeChoice.

(** The type of the elapsed times, which are only passed on. *)
Variable time : Type.

(** [transition_or_state_aut], from the point where the two constructions
    have come back: [None] is a construction that failed or timed out. *)
Definition transition_or_state_aut
    (result_transition result_state : option (tGraph * time))
    (aut_timeout : time) : result (option tGraph * time) :=
  match result_transition, result_state with
  | None, None => Ok (None, aut_timeout)
  | None, Some (automaton, aut_time) => Ok (Some automaton, aut_time)
  | Some (automaton, aut_time), None => Ok (Some automaton, aut_time)
  | Some (automaton_transition, aut_time_transition),
    Some (automaton_state, aut_time_state) =>
    n_acc_state <- num_accepting_states automaton_state ;;
    n_acc_transition <- num_accepting_states automaton_transition ;;
    if (n_acc_transition <? n_acc_state)
       || ((n_acc_state =? n_acc_transition)
           && (count_states automaton_transition <? count_states automaton_state))
    then Ok (Some automaton_transition, aut_time_transition)
    else Ok (Some automaton_state, aut_time_state)
  end.

End ShapeChoice.

(* ================================================================== *)
(** ** Reference notions for the measures *)
(* ================================================================== *)

(** An expression without an [Empty] leaf. *)
Fixpoint empty_free (r : Regex) : bool :=
  match r with
  | Empty => false
  | Epsilon | Symbol _ => true
  | Concat a b | Union a b => empty_free a && empty_free b
  | Star a => empty_free a
  end.

Fixpoint omega_empty_free (o : OmegaRegex) : bool :=
  match o with
  | OmegaEmpty => true
  | Repeat a => empty_free a
  | ConcatOmega a b => empty_free a && omega_empty_free b
  | UnionOmega a b => omega_empty_free a && omega_empty_free b
  end.

(** The count of the nodes other than [Epsilon]: one for every symbol and
    every operator, the children added up. *)
Fixpoint node_count (r : Regex) : nat :=
  match r with
  | Epsilon | Empty => 0
  | Symbol _ => 1
  | Concat a b | Union a b => 1 + node_count a + node_count b
  | Star a => 1 + node_count a
  end.

Fixpoint omega_node_count (o : OmegaRegex) : nat :=
  match o with
  | OmegaEmpty => 0
  | Repeat a => 1 + node_count a
  | ConcatOmega a b => 1 + node_count a + omega_node_count b
  | UnionOmega a b => 1 + omega_node_count a + omega_node_count b
  end.

Definition total {A} (f : A -> nat) (l : list A) : nat := list_sum (map f l).

(* ================================================================== *)
(** ** The language of an expression *)
(* ================================================================== *)

(** The language of a finite expression, over the labels as letters. *)
Inductive matches : Regex -> list string -> Prop :=
| m_epsilon : matches Epsilon []
| m_symbol s : matches (Symbol s) [s]
| m_concat a b u v : matches a u -> matches b v -> matches (Concat a b) (u ++ v)
| m_union_l a b w : matches a w -> matches (Union a b) w
| m_union_r a b w : matches b w -> matches (Union a b) w
| m_star_nil a : matches (Star a) []
| m_star_app a u v : matches a u -> matches (Star a) v -> matches (Star a) (u ++ v).

(** Whether the empty word is in the language. *)
Fixpoint nullable (r : Regex) : bool :=
  match r with
  | Epsilon => true
  | Empty => false
  | Symbol _ => false
  | Concat a b => nullable a && nullable b
  | Union a b => nullable a || nullable b
  | Star _ => true
  end.

(** A label that is not [Empty] and whose language has no empty word. *)
Definition proper (r : Regex) : Prop := nullable r = false /\ r <> Empty.

Definition opt_proper (o : option Regex) : Prop :=
  forall r, o = Some r -> proper r.

Definition is_symbol (r : Regex) : bool :=
  match r with
  | Symbol _ => true
  | _ => false
  end.

(* ================================================================== *)
(** ** Shapes of graphs *)
(* ================================================================== *)

(** The keys of the dict [vertices]. *)
Definition states_of (g : tGraph) : list nat := map number (vertices g).

(** Every identity of [ids] is allocated and its object passes [p]. *)
Definition ids_check (h : list Edge) (p : Edge -> bool) (ids : list nat) : bool :=
  forallb (fun i => match nth_error h i with
                    | Some e => p e
                    | None => false
                    end) ids.

(** Every edge of the adjacency lists carries a [Symbol], as after
    [aut_to_tgraph]. *)
Definition symbol_labelled (g : tGraph) : bool :=
  forallb (fun v => ids_check (heap g) (fun e => is_symbol (label e)) (out_edges v)
                    && ids_check (heap g) (fun e => is_symbol (label e)) (in_edges v))
          (vertices g).

Fixpoint nodupb (l : list nat) : bool :=
  match l with
  | [] => true
  | x :: l' => negb (set_mem x l') && nodupb l'
  end.

(** The shape every graph built through [add_edge] has: the keys of
    [vertices] are distinct, an edge of [out_edges] leaves the vertex that
    lists it, and an edge object of [in_edges] is also in the [out_edges] of
    its source. *)
Definition well_formed (g : tGraph) : bool :=
  nodupb (map number (vertices g))
  && forallb (fun v =>
       ids_check (heap g) (fun e => src e =? number v) (out_edges v)
       && forallb (fun i =>
            match nth_error (heap g) i with
            | Some e =>
              match find_vertex (vertices g) (src e) with
              | Some u => set_mem i (out_edges u)
              | None => false
              end
            | None => false
            end) (in_edges v))
     (vertices g).

(** Whether the object [i] has source (destination) [n]. *)
Definition has_src (h : list Edge) (n i : nat) : bool :=
  match nth_error h i with
  | Some e => src e =? n
  | None => false
  end.

Definition has_dst (h : list Edge) (n i : nat) : bool :=
  match nth_error h i with
  | Some e => dst e =? n
  | None => false
  end.

(** Whether the object [i] carries the label [l]. *)
Definition has_label (h : list Edge) (l : Regex) (i : nat) : bool :=
  match nth_error h i with
  | Some e => regex_eqb (label e) l
  | None => false
  end.

(** The two adjacency lists are views of one edge set: the objects from
    [u] to [w] are the same, in the same order, in the out-list of [u] and in
    the in-list of [w]. *)
Record linked (g : tGraph) : Prop := mkLinked {
  lk_keys : NoDup (states_of g);
  lk_out : forall v i, In v (vertices g) -> In i (out_edges v) ->
    exists e, nth_error (heap g) i = Some e /\ src e = number v /\
              In (dst e) (states_of g);
  lk_in : forall v i, In v (vertices g) -> In i (in_edges v) ->
    exists e, nth_error (heap g) i = Some e /\ dst e = number v /\
              In (src e) (states_of g);
  lk_pair : forall u w, In u (vertices g) -> In w (vertices g) ->
    filter (has_dst (heap g) (number w)) (out_edges u)
    = filter (has_src (heap g) (number u)) (in_edges w)
}.

(** The list an edge belongs in by its flag, and the other one. *)
Definition trans_of (g : tGraph) (a : bool) : list Edge :=
  if a then acc_trans g else nonacc_trans g.

(** The invariant of the graphs the importer builds. *)
Record imported (g : tGraph) : Prop := mkImported {
  imp_keys : NoDup (map number (vertices g));
  imp_out : forall v i, In v (vertices g) -> In i (out_edges v) ->
    exists e, nth_error (heap g) i = Some e /\ src e = number v /\
      (exists w, find_vertex (vertices g) (dst e) = Some w /\ In i (in_edges w)) /\
      In e (trans_of g (accepting e));
  imp_in : forall v i, In v (vertices g) -> In i (in_edges v) ->
    exists e, nth_error (heap g) i = Some e /\
      exists u, find_vertex (vertices g) (src e) = Some u /\ In i (out_edges u);
  imp_finals : forall s, In s (final_states g) <->
    exists v i e, find_vertex (vertices g) s = Some v /\ In i (out_edges v) /\
                  nth_error (heap g) i = Some e /\ accepting e = true;
  imp_flags : forall a e, In e (trans_of g a) -> accepting e = a
}.

(** The graphs built by [add_edge] alone from a fresh [tGraph]; the
    importer builds such a graph. *)
Inductive built : tGraph -> Prop :=
| built_new n initial : built (new_tGraph n initial)
| built_add g s d l a g' :
    built g -> add_edge g s d l a = Ok g' -> built g'.

(** What [Graph.add_edge] does to one vertex when it files the new object
    [id] under the source [s] and the destination [d]. *)
Definition file_edge (s d id : nat) (x : Vertex) : Vertex :=
  mkVertex (number x)
           (if number x =? s then out_edges x ++ [id] else out_edges x)
           (if number x =? d then in_edges x ++ [id] else in_edges x).

(** What [Graph.remove_edge] does to one vertex: the out-list of the source
    becomes [outs], the in-list of the destination [ins]. *)
Definition unfile_edge (s d : nat) (outs ins : list nat) (x : Vertex) : Vertex :=
  mkVertex (number x)
           (if number x =? s then outs else out_edges x)
           (if number x =? d then ins else in_edges x).

(** The edge objects of all out-lists, vertex by vertex. *)
Fixpoint all_out_edges (h : list Edge) (vs : list Vertex) : result (list Edge) :=
  match vs with
  | [] => Ok []
  | v :: vs' =>
    es <- edges_of h (out_edges v) ;;
    rest <- all_out_edges h vs' ;;
    Ok (es ++ rest)
  end.

Fixpoint distinct_keys (ks : list edge_key) : bool :=
  match ks with
  | [] => true
  | k :: ks' => negb (existsb (key_eqb k) ks') && distinct_keys ks'
  end.

(** No two edges of the graph share [(src, dst, accepting)]. *)
Definition no_duplicate_edges (g : tGraph) : bool :=
  match all_out_edges (heap g) (vertices g) with
  | Ok es => distinct_keys (map key_of es)
  | Err _ => false
  end.

(** The keys of the dict. *)
Definition keys_of (d : edge_dict) : list edge_key := map fst d.

(** The edge objects of all out-lists, by identity. *)
Definition out_ids (vs : list Vertex) : list nat := flat_map out_edges vs.

(** Whether the object [i] has the key [k]. *)
Definition has_key (h : list Edge) (k : edge_key) (i : nat) : bool :=
  match nth_error h i with
  | Some e => key_eqb k (key_of e)
  | None => false
  end.

(** The edges of the graph with the key [k], in the order of the lists. *)
Definition group (g : tGraph) (k : edge_key) : list nat :=
  filter (has_key (heap g) k) (out_ids (vertices g)).

(** Whether the object [i] carries a [Symbol]. *)
Definition sym_at (h : list Edge) (i : nat) : bool :=
  match nth_error h i with
  | Some e => is_symbol (label e)
  | None => false
  end.

(** Edges that are equal as [Edge.__eq__] has it agree on the flag. *)
Definition flags_agree (g : tGraph) : bool :=
  match all_out_edges (heap g) (vertices g) with
  | Ok es =>
    forallb (fun e1 =>
      forallb (fun e2 =>
        implb (edge_eqb e1 e2) (Bool.eqb (accepting e1) (accepting e2))) es) es
  | Err _ => false
  end.

(** The same as a property of the objects: an object equal to one that
    carries a [Symbol] has its flag. *)
Definition agree_on_symbols (h : list Edge) (ids : list nat) : Prop :=
  forall i j ei ej,
    In i ids -> In j ids ->
    nth_error h i = Some ei -> nth_error h j = Some ej ->
    is_symbol (label ei) = true -> edge_eqb ej ei = true ->
    accepting ej = accepting ei.

(** The state of [combine_duplicate_edge] between two entries: the dict
    lists the groups that are still to do, every other group has one edge
    at most, and what is still to do carries [Symbol]s. *)
Record coalescing (g : tGraph) (d : edge_dict) : Prop := mkCoalescing {
  co_linked : linked g;
  co_nodup : NoDup (out_ids (vertices g));
  co_keys : NoDup (keys_of d);
  co_in : forall k, In k (keys_of d) -> dict_get d k = group g k;
  co_out : forall k, ~ In k (keys_of d) -> length (group g k) <= 1;
  co_sym : forall k ids i, In (k, ids) d -> In i ids -> sym_at (heap g) i = true;
  co_agree : agree_on_symbols (heap g) (out_ids (vertices g))
}.

(** The state while the entry [key], with first edge [id0], is worked off:
    [others] is what is left of it. *)
Record coalescing_entry (g : tGraph) (d : edge_dict) (key : edge_key)
    (id0 : nat) (others : list nat) : Prop := mkCoalescingEntry {
  ce_linked : linked g;
  ce_nodup : NoDup (out_ids (vertices g));
  ce_keys : NoDup (keys_of d);
  ce_key : In key (keys_of d);
  ce_this : dict_get d key = id0 :: others /\ group g key = id0 :: others;
  ce_in : forall k, k <> key -> In k (keys_of d) -> dict_get d k = group g k;
  ce_out : forall k, ~ In k (keys_of d) -> length (group g k) <= 1;
  ce_sym : forall k ids i, In (k, ids) d -> In i ids -> i <> id0 ->
                           sym_at (heap g) i = true;
  ce_first : sym_at (heap g) id0 = false;
  ce_agree : agree_on_symbols (heap g) (out_ids (vertices g))
}.

(* ================================================================== *)
(** ** Properties of the edges of the adjacency lists *)
(* ================================================================== *)

(** Every identity of [ids] is allocated and its object satisfies [P]. *)
Definition ids_ok (h : list Edge) (P : Edge -> Prop) (ids : list nat) : Prop :=
  forall i, In i ids -> exists e, nth_error h i = Some e /\ P e.

(** A property of the edges of the adjacency lists: [Po n] for the objects
    in the out-list of vertex [n], [Pi n] for those in its in-list. *)
Definition vertices_ok (Po Pi : nat -> Edge -> Prop) (h : list Edge)
    (vs : list Vertex) : Prop :=
  forall v, In v vs ->
    ids_ok h (Po (number v)) (out_edges v) /\ ids_ok h (Pi (number v)) (in_edges v).

Definition graph_ok (Po Pi : nat -> Edge -> Prop) (g : tGraph) : Prop :=
  vertices_ok Po Pi (heap g) (vertices g).

(** The same for the lists of [edge_dict], whose objects come from
    out-lists and carry the key they are filed under. *)
Definition dict_ok (Po : nat -> Edge -> Prop) (h : list Edge) (d : edge_dict) : Prop :=
  forall k ids, In (k, ids) d ->
    forall i, In i ids ->
      exists e m, nth_error h i = Some e /\ Po m e /\ key_of e = k.

Definition proper_edge (_ : nat) (e : Edge) : Prop := proper (label e).

(** The word [w] starts with an edge that leaves [f] in [g] and whose
    accepting flag is [acc]: a word of that edge's label is a prefix of [w]. *)
Definition starts_with_edge (g : tGraph) (f : nat) (acc : bool)
    (w : list string) : Prop :=
  exists v i e u w',
    find_vertex (vertices g) f = Some v /\
    In i (out_edges v) /\
    nth_error (heap g) i = Some e /\
    accepting e = acc /\
    matches (label e) u /\
    w = u ++ w'.

(** The words of the label of an edge that leaves [f] start with an edge
    that leaves [f] in [g0] and has the same accepting flag. *)
Definition starts_ok (g0 : tGraph) (f : nat) (e : Edge) : Prop :=
  src e = f ->
  forall w, matches (label e) w -> starts_with_edge g0 f (accepting e) w.

Definition mode_out (g0 : tGraph) (f : nat) (n : nat) (e : Edge) : Prop :=
  src e = n /\ starts_ok g0 f e.

Definition mode_in (g0 : tGraph) (f : nat) (_ : nat) (e : Edge) : Prop :=
  starts_ok g0 f e.

(* ================================================================== *)
(** ** Bookkeeping for the dict and for fuel *)
(* ================================================================== *)

(** How often the key [k] occurs in [ks]. *)
Definition count_key (k : edge_key) (ks : list edge_key) : nat :=
  length (filter (key_eqb k) ks).

(** No list of the dict is longer than the number of edges seen with its
    key. *)
Definition bounded (d : edge_dict) (ks : list edge_key) : Prop :=
  forall k l, In (k, l) d -> length l <= count_key k ks.

(** The loop behind [m] ended within the fuel it was given. *)
Definition terminates {A : Type} (m : result A) : Prop := m <> Err OutOfFuel.

(* ================================================================== *)
(** ** Automata used as examples *)
(* ================================================================== *)

(** Initial 0 -a-> 1 non-accepting, 1 -b-> 1 accepting. *)
Definition aut_lasso : Automaton :=
  mkAutomaton 1 2 0 [mkAutEdge 0 1 "a" false; mkAutEdge 1 1 "b" true].

(** Three states, each with an accepting self-loop. *)
Definition aut_three_finals : Automaton :=
  mkAutomaton 1 3 0
    [mkAutEdge 0 0 "a" true; mkAutEdge 1 1 "b" true; mkAutEdge 2 2 "c" true].

(** Two parallel edges from 0 to 1 and an accepting self-loop on 1. *)
Definition aut_parallel_lasso : Automaton :=
  mkAutomaton 1 2 0
    [mkAutEdge 0 1 "a" false; mkAutEdge 0 1 "b" false; mkAutEdge 1 1 "c" true].

(** Two parallel non-accepting edges from 0 to 1. *)
Definition aut_parallel : Automaton :=
  mkAutomaton 1 2 0 [mkAutEdge 0 1 "a" false; mkAutEdge 0 1 "b" false].

(** Three parallel non-accepting edges from 0 to 1. *)
Definition aut_parallel3 : Automaton :=
  mkAutomaton 1 2 0
    [mkAutEdge 0 1 "a" false; mkAutEdge 0 1 "b" false; mkAutEdge 0 1 "c" false].

(** 0 -a-> 1, an accepting and a non-accepting self-loop on 1, 1 -d-> 2. *)
Definition aut_two_loops : Automaton :=
  mkAutomaton 1 3 0
    [mkAutEdge 0 1 "a" false; mkAutEdge 1 1 "b" true;
     mkAutEdge 1 1 "c" false; mkAutEdge 1 2 "d" false].

(** One accepting state against two. *)
Definition aut_one_final : Automaton :=
  mkAutomaton 1 2 0 [mkAutEdge 0 1 "a" false; mkAutEdge 1 1 "b" true].

Definition aut_two_finals : Automaton :=
  mkAutomaton 1 3 0
    [mkAutEdge 0 1 "a" false; mkAutEdge 1 2 "b" true; mkAutEdge 2 2 "b" true].

(** A single accepting edge 0 -a-> 1 into a state without out-edges. *)
Definition aut_dead_end : Automaton :=
  mkAutomaton 1 2 0 [mkAutEdge 0 1 "a" true].

(** Three parallel edges from 0 to 1: a accepting, b and a non-accepting. *)
Definition aut_same_label : Automaton :=
  mkAutomaton 1 2 0
    [mkAutEdge 0 1 "a" true; mkAutEdge 0 1 "b" false; mkAutEdge 0 1 "a" false].

(* ================================================================== *)
(** ** The words along the paths of a graph *)
(* ================================================================== *)

(** [path g a b w]: the word [w] is read along a path of [g] from state [a]
    to state [b]; one step reads a word of the label of an edge in the
    out-list of the vertex it leaves. *)
Unset Implicit Arguments.

Inductive path (g : tGraph) : nat -> nat -> list string -> Prop :=
| path_edge v i e w :
    In v (vertices g) -> In i (out_edges v) ->
    nth_error (heap g) i = Some e -> matches (label e) w ->
    path g (number v) (dst e) w
| path_app a b c w1 w2 :
    path g a b w1 -> path g b c w2 -> path g a c (w1 ++ w2).

(** The words of the label of [e] are read along paths of [g0] between the
    endpoints of [e]. *)
Definition sound_edge (g0 : tGraph) (e : Edge) : Prop :=
  forall w, matches (label e) w -> path g0 (src e) (dst e) w.

Definition sound_out (g0 : tGraph) (n : nat) (e : Edge) : Prop :=
  src e = n /\ sound_edge g0 e.

Definition sound_in (g0 : tGraph) (n : nat) (e : Edge) : Prop :=
  dst e = n /\ sound_edge g0 e.

(* ================================================================== *)
(** ** Reference notions for the length *)
(* ================================================================== *)

(** The number of [Symbol] leaves. *)
Fixpoint symbol_count (r : Regex) : nat :=
  match r with
  | Epsilon | Empty => 0
  | Symbol _ => 1
  | Concat a b | Union a b => symbol_count a + symbol_count b
  | Star a => symbol_count a
  end.

(** An expression without a [Union]. *)
Fixpoint union_free (r : Regex) : bool :=
  match r with
  | Epsilon | Empty | Symbol _ => true
  | Concat a b => union_free a && union_free b
  | Union _ _ => false
  | Star a => union_free a
  end.

(** What the traversal leaves in the deque for one expression without
    [Empty] when [size] is off: the right operand first, then the left one,
    then the operator. *)
Fixpoint length_tokens (r : Regex) : list token :=
  match r with
  | Epsilon => [Num 0]
  | Empty => []
  | Symbol _ => [Num 1]
  | Concat a b => length_tokens b ++ length_tokens a ++ [Plus]
  | Union a b => length_tokens b ++ length_tokens a ++ [Quest]
  | Star a => length_tokens a
  end.

(** The value of [len(e)]; it is always defined. *)
Definition len_value (e : Regex) : nat :=
  match regex_len e with
  | Ok n => n
  | Err _ => 0
  end.

(** What [postorderTraversalOmega] leaves in the deque for one expression
    when [size] is off; an [OmegaEmpty] leaves nothing. *)
Fixpoint omega_length_tokens (o : OmegaRegex) : list token :=
  match o with
  | OmegaEmpty => []
  | Repeat s => [Num (len_value s)]
  | ConcatOmega r1 r2 => omega_length_tokens r2 ++ [Num (len_value r1); Plus]
  | UnionOmega a b => omega_length_tokens b ++ omega_length_tokens a ++ [Quest]
  end.

(** An expression without [OmegaEmpty]. *)
Fixpoint omega_proper (o : OmegaRegex) : bool :=
  match o with
  | OmegaEmpty => false
  | Repeat _ => true
  | ConcatOmega _ r => omega_proper r
  | UnionOmega a b => omega_proper a && omega_proper b
  end.

(** The number of [OmegaEmpty] leaves. *)
Fixpoint omega_empties (o : OmegaRegex) : nat :=
  match o with
  | OmegaEmpty => 1
  | Repeat _ => 0
  | ConcatOmega _ r => omega_empties r
  | UnionOmega a b => omega_empties a + omega_empties b
  end.

(** The numbers and the operators of a token list. *)
Fixpoint count_nums (dq : list token) : nat :=
  match dq with
  | [] => 0
  | Num _ :: dq' => S (count_nums dq')
  | _ :: dq' => count_nums dq'
  end.

Fixpoint count_ops (dq : list token) : nat :=
  match dq with
  | [] => 0
  | Num _ :: dq' => count_ops dq'
  | _ :: dq' => S (count_ops dq')
  end.

(* ================================================================== *)
(** ** Reference notions for the importer *)
(* ================================================================== *)

(** The edge the importer builds from an edge of the automaton. *)
Definition imported_edge (t : AutEdge) : Edge :=
  mkEdge (t_src t) (t_dst t) (Symbol (t_cond t)) (t_acc t).

(** Every edge of the automaton runs between two of its states. *)
Definition edges_in_range (aut : Automaton) : bool :=
  forallb (fun t => (t_src t <? aut_num_states aut) && (t_dst t <? aut_num_states aut))
          (aut_edges aut).

(** The edges that leave, and that reach, the vertex numbered [n]. *)
Definition out_view (g : tGraph) (n : nat) : result (list Edge) :=
  v <- get_vertex g n ;; edges_of (heap g) (out_edges v).

Definition in_view (g : tGraph) (n : nat) : result (list Edge) :=
  v <- get_vertex g n ;; edges_of (heap g) (in_edges v).

(** A strictly ascending list, as the model keeps [final_states]. *)
Fixpoint ascending (l : list nat) : Prop :=
  match l with
  | [] => True
  | x :: l' => (forall y, In y l' -> x < y) /\ ascending l'
  end.

(** Every final state has an accepting edge in its out-list. *)
Definition finals_backed (g : tGraph) : Prop :=
  forall s, In s (final_states g) ->
    exists v i x, In v (vertices g) /\ number v = s /\ In i (out_edges v) /\
                  nth_error (heap g) i = Some x /\ accepting x = true.

(* ================================================================== *)
(** ** Reference notions for ripping *)
(* ================================================================== *)

(** The out-list and the in-list of the vertex numbered [n]; empty when
    there is no such vertex. *)
Definition out_of (g : tGraph) (n : nat) : list nat :=
  match find_vertex (vertices g) n with
  | Some x => out_edges x
  | None => []
  end.

Definition in_of (g : tGraph) (n : nat) : list nat :=
  match find_vertex (vertices g) n with
  | Some x => in_edges x
  | None => []
  end.

(** The graph without the vertex [v] ([del g.vertices[v]]). *)
Definition without_vertex (v : nat) (g : tGraph) : tGraph :=
  set_vertices g (filter (fun x => negb (number x =? v)) (vertices g)).

(** Whether the object [i] compares equal to [e] ([Edge.__eq__]). *)
Definition like_edge (h : list Edge) (e : Edge) (i : nat) : bool :=
  match nth_error h i with
  | Some x => edge_eqb x e
  | None => false
  end.

(* ================================================================== *)
(** ** Reference notions for the final states *)
(* ================================================================== *)

(** The state [s] has an accepting edge in its out-list. *)
Definition accepting_out (g : tGraph) (s : nat) : Prop :=
  exists v i x, In v (vertices g) /\ number v = s /\ In i (out_edges v) /\
                nth_error (heap g) i = Some x /\ accepting x = true.

(** [final_states] holds the states with an accepting out-edge and no
    other. *)
Definition finals_exact (g : tGraph) : Prop :=
  forall s, In s (final_states g) <-> accepting_out g s.
Unset Implicit Arguments.

(* ================================================================== *)
(** * The error monad and structural equality *)
(* ================================================================== *)

Lemma bind_Ok_inv {A B} (m : result A) (k : A -> result B) (b : B) :
  bind m k = Ok b -> exists a, m = Ok a /\ k a = Ok b.
Proof. destruct m as [a|e]; simpl; intros H; [eauto | discriminate]. Qed.

(** Inversion of a chain of binds that ends in [Ok]. *)
Ltac inv_bind H :=
  let a := fresh "a" in
  let Ha := fresh "Hm" in
  apply bind_Ok_inv in H; destruct H as (a & Ha & H).

Lemma regex_eqb_eq (a b : Regex) : regex_eqb a b = true <-> a = b.
Proof.
  revert b; induction a; destruct b; simpl; split; intros H;
    try discriminate; try reflexivity.
  - apply String.eqb_eq in H. now subst.
  - inversion H. apply String.eqb_refl.
  - apply andb_true_iff in H as [H1 H2].
    apply IHa1 in H1. apply IHa2 in H2. now subst.
  - inversion H; subst. apply andb_true_iff. split; [now apply IHa1 | now apply IHa2].
  - apply andb_true_iff in H as [H1 H2].
    apply IHa1 in H1. apply IHa2 in H2. now subst.
  - inversion H; subst. apply andb_true_iff. split; [now apply IHa1 | now apply IHa2].
  - apply IHa in H. now subst.
  - inversion H; subst. now apply IHa.
Qed.

Lemma regex_eqb_refl (a : Regex) : regex_eqb a a = true.
Proof. now apply regex_eqb_eq. Qed.

(* ================================================================== *)
(** * Properties of the measures *)
(* ================================================================== *)


Lemma weight_pos (r : Regex) : 0 < weight r.
Proof. destruct r; simpl; lia. Qed.

Lemma omega_weight_pos (o : OmegaRegex) : 0 < omega_weight o.
Proof. destruct o; simpl; lia. Qed.

(** The loop invariant of the traversal in size mode: what is already in
    the deque plus the node counts of what is still on the stack. *)
Lemma postorder_loop_size (fuel : nat) :
  forall stack ret_val,
    forallb empty_free stack = true ->
    total weight stack <= fuel ->
    exists dq, postorder_loop fuel true stack ret_val = Ok dq /\
               determine_size dq = determine_size ret_val + total node_count stack.
Proof.
  induction fuel as [|fuel IH]; intros stack ret_val Hfree Hfuel.
  - destruct stack as [|node stack'].
    + exists ret_val. simpl. split; [reflexivity | unfold total; simpl; lia].
    + unfold total in Hfuel. simpl in Hfuel. pose proof (weight_pos node). lia.
  - destruct stack as [|node stack'].
    + exists ret_val. simpl. split; [reflexivity | unfold total; simpl; lia].
    + simpl in Hfree. apply andb_true_iff in Hfree as [Hn Hs].
      unfold total in *. simpl in Hfuel.
      destruct node; simpl in Hn; try discriminate; simpl postorder_loop.
      * destruct (IH stack' (Num 0 :: ret_val) Hs) as (dq & E & D); [simpl in *; lia|].
        exists dq. split; [exact E|]. rewrite D. simpl. lia.
      * destruct (IH stack' (Num 1 :: ret_val) Hs) as (dq & E & D); [simpl in *; lia|].
        exists dq. split; [exact E|]. rewrite D. simpl. lia.
      * apply andb_true_iff in Hn as [H1 H2].
        destruct (IH (node1 :: node2 :: stack') (Plus :: ret_val)) as (dq & E & D).
        { simpl. now rewrite H1, H2, Hs. }
        { simpl in *. lia. }
        exists dq. split; [exact E|]. rewrite D. simpl. lia.
      * apply andb_true_iff in Hn as [H1 H2].
        destruct (IH (node1 :: node2 :: stack') (Quest :: ret_val)) as (dq & E & D).
        { simpl. now rewrite H1, H2, Hs. }
        { simpl in *. lia. }
        exists dq. split; [exact E|]. rewrite D. simpl. lia.
      * destruct (IH (node :: stack') (Num 1 :: ret_val)) as (dq & E & D).
        { simpl. now rewrite Hn, Hs. }
        { simpl in *. lia. }
        exists dq. split; [exact E|]. rewrite D. simpl. lia.
Qed.

Lemma regex_size_nodes (e : Regex) :
  empty_free e = true -> regex_tllen e true = Ok (node_count e).
Proof.
  intros H. unfold regex_tllen, postorderTraversal.
  destruct (@postorder_loop_size (weight e) [e] []) as (dq & E & D).
  - simpl. now rewrite H.
  - unfold total. simpl. lia.
  - rewrite E. simpl. rewrite D. unfold total. simpl. f_equal. lia.
Qed.

Lemma postorder_omega_loop_size (fuel : nat) :
  forall stack ret_val,
    forallb omega_empty_free stack = true ->
    total omega_weight stack <= fuel ->
    exists dq, postorder_omega_loop fuel true stack ret_val = Ok dq /\
               determine_size dq
               = determine_size ret_val + total omega_node_count stack.
Proof.
  induction fuel as [|fuel IH]; intros stack ret_val Hfree Hfuel.
  - destruct stack as [|node stack'].
    + exists ret_val. simpl. split; [reflexivity | unfold total; simpl; lia].
    + unfold total in Hfuel. simpl in Hfuel. pose proof (omega_weight_pos node). lia.
  - destruct stack as [|node stack'].
    + exists ret_val. simpl. split; [reflexivity | unfold total; simpl; lia].
    + simpl in Hfree. apply andb_true_iff in Hfree as [Hn Hs].
      unfold total in *. simpl in Hfuel.
      destruct node; simpl in Hn; simpl postorder_omega_loop.
      * destruct (IH stack' ret_val Hs) as (dq & E & D); [simpl in *; lia|].
        exists dq. split; [exact E|]. rewrite D. simpl. lia.
      * rewrite (regex_size_nodes _ Hn). simpl bind.
        destruct (IH stack' (Num (node_count regex) :: Num 1 :: ret_val) Hs)
          as (dq & E & D); [simpl in *; lia|].
        exists dq. split; [exact E|]. rewrite D. simpl. lia.
      * apply andb_true_iff in Hn as [H1 H2].
        rewrite (regex_size_nodes _ H1). simpl bind.
        destruct (IH (node :: stack') (Num (node_count l) :: Plus :: ret_val))
          as (dq & E & D).
        { simpl. now rewrite H2, Hs. }
        { simpl in *. lia. }
        exists dq. split; [exact E|]. rewrite D. simpl. lia.
      * apply andb_true_iff in Hn as [H1 H2].
        destruct (IH (node1 :: node2 :: stack') (Quest :: ret_val)) as (dq & E & D).
        { simpl. now rewrite H1, H2, Hs. }
        { simpl in *. lia. }
        exists dq. split; [exact E|]. rewrite D. simpl. lia.
Qed.

Lemma omega_size_nodes (o : OmegaRegex) :
  omega_empty_free o = true -> omega_regex_tllen o true = Ok (omega_node_count o).
Proof.
  intros H. unfold omega_regex_tllen, postorderTraversalOmega.
  destruct (@postorder_omega_loop_size (omega_weight o) [o] []) as (dq & E & D).
  - simpl. now rewrite H.
  - unfold total. simpl. lia.
  - rewrite E. simpl. rewrite D. unfold total. simpl. f_equal. lia.
Qed.

(** C2, as the code has it: on expressions without an [Empty] leaf the size
    is the number of nodes other than [Epsilon] and [OmegaEmpty]: one for
    every [Symbol], [Star], [Repeat], [Concat], [ConcatOmega], [Union] and
    [UnionOmega], the children of every operator added up (a union adds, it
    takes no maximum); the size of
    [ConcatOmega (Symbol "a") (Repeat (Symbol "b"))] is 4. *)
Theorem size_counts_every_node (e : Regex) (o : OmegaRegex) :
  empty_free e = true ->
  omega_empty_free o = true ->
  regex_size e = Ok (node_count e) /\
  omega_size o = Ok (omega_node_count o) /\
  omega_size (ConcatOmega (Symbol "a") (Repeat (Symbol "b"))) = Ok 4.
Proof.
  intros He Ho. split; [|split].
  - now apply regex_size_nodes.
  - now apply omega_size_nodes.
  - reflexivity.
Qed.

Lemma size_counts_every_node_witness :
  regex_size (Union (Symbol "a") (Star (Symbol "b"))) = Ok 4 /\
  omega_size (UnionOmega (Repeat (Symbol "a")) (Repeat (Symbol "b"))) = Ok 5.
Proof.
  destruct (@size_counts_every_node
              (Union (Symbol "a") (Star (Symbol "b")))
              (UnionOmega (Repeat (Symbol "a")) (Repeat (Symbol "b")))
              eq_refl eq_refl) as (H1 & H2 & _).
  split; [exact H1 | exact H2].
Defined.

(** C2 as the spec states it fails: the spec gives 3 for the size of
    [ConcatOmega (Symbol "a") (Repeat (Symbol "b"))], and a maximum over the
    branches of a union. *)
Lemma size_of_lasso_is_not_three :
  omega_size (ConcatOmega (Symbol "a") (Repeat (Symbol "b"))) <> Ok 3 /\
  regex_size (Union (Symbol "a") (Symbol "b")) <> Ok (Nat.max 1 1).
Proof. split; vm_compute; discriminate. Qed.

(** C3 at its own example and at a nested union: [length] of
    [Concat (Symbol "a") Empty] comes out as 0, where the recursive
    definition gives 1 + 0, and the length of
    [Union (Concat (Concat a b) c) d] as 2, where it gives max (3, 1). *)
Theorem length_breaks_recursive_definition :
  regex_len (Concat (Symbol "a") Empty) = Ok 0 /\
  regex_len (Symbol "a") = Ok 1 /\
  regex_len Empty = Ok 0 /\
  regex_len (Union (Concat (Concat (Symbol "a") (Symbol "b")) (Symbol "c"))
                   (Symbol "d")) = Ok 2 /\
  regex_len (Concat (Concat (Symbol "a") (Symbol "b")) (Symbol "c")) = Ok 3.
Proof. repeat split; reflexivity. Qed.

(* ================================================================== *)
(** * Unions lean to the left *)
(* ================================================================== *)

Lemma fold_left_snoc {A B} (f : A -> B -> A) (l : list B) (x : B) (a : A) :
  fold_left f (l ++ [x]) a = f (fold_left f l a) x.
Proof. revert a; induction l as [|y l IH]; intros a; simpl; [reflexivity | apply IH]. Qed.

(** C1, as the code has it: every union of the synthesis core is folded
    from the left.  One more contribution [c] after [c1, c2, cs] wraps the
    union of the earlier ones as [UnionOmega (...) c], so that three
    contributions give [UnionOmega (UnionOmega c1 c2) c3]; the same holds for
    the finite [Union] of the base case of McNaughton-Yamada and of the
    coalescing of duplicate edges. *)
Theorem unions_lean_left
    (c1 c2 c : OmegaRegex) (cs : list OmegaRegex)
    (e1 e2 e : Edge) (es : list Edge) :
  union_all (c1 :: c2 :: cs ++ [c]) = UnionOmega (union_all (c1 :: c2 :: cs)) c /\
  union_all [c1; c2; c] = UnionOmega (UnionOmega c1 c2) c /\
  union_labels (e1 :: e2 :: es ++ [e])
    = union_opt (union_labels (e1 :: e2 :: es)) (label e) /\
  union_labels [e1; e2; e] = Some (Union (Union (label e1) (label e2)) (label e)) /\
  combined_label e1 (e2 :: es ++ [e]) = Union (combined_label e1 (e2 :: es)) (label e) /\
  combined_label e1 [e2; e] = Union (Union (label e1) (label e2)) (label e).
Proof.
  split; [|split; [|split; [|split; [|split]]]]; try reflexivity.
  - unfold union_all. change (c2 :: cs ++ [c]) with ((c2 :: cs) ++ [c]).
    apply fold_left_snoc.
  - unfold union_labels, union_opt. change (e2 :: es ++ [e]) with ((e2 :: es) ++ [e]).
    now rewrite fold_left_snoc.
  - unfold combined_label. change (e2 :: es ++ [e]) with ((e2 :: es) ++ [e]).
    now rewrite fold_left_snoc.
Qed.

(** C1 as the spec states it fails on the automaton with three accepting
    self-loops: both drivers return the left-leaning union, which is not the
    right-leaning one; three parallel edges are coalesced into a left-nested
    [Union] as well. *)
Lemma union_of_three_finals_not_right_leaning :
  exists g o1 o2 g3 g3' x,
    aut_to_tgraph aut_three_finals = Ok g /\
    taut_to_regex_bmc g = Ok o1 /\
    taut_to_regex_mny g = Ok o2 /\
    returned o1 = returned o2 /\
    returned o1 = UnionOmega (UnionOmega (Repeat (Symbol "a")) (Repeat (Symbol "b")))
                             (Repeat (Symbol "c")) /\
    returned o1 <> UnionOmega (Repeat (Symbol "a"))
                              (UnionOmega (Repeat (Symbol "b")) (Repeat (Symbol "c"))) /\
    aut_to_tgraph aut_parallel3 = Ok g3 /\
    combine_duplicate_edge g3 = Ok g3' /\
    nth_error (heap g3') 0 = Some x /\
    label x = Union (Union (Symbol "a") (Symbol "b")) (Symbol "c") /\
    label x <> Union (Symbol "a") (Union (Symbol "b") (Symbol "c")).
Proof.
  do 6 eexists.
  split; [vm_compute; reflexivity|].
  split; [vm_compute; reflexivity|].
  split; [vm_compute; reflexivity|].
  split; [reflexivity|].
  split; [reflexivity|].
  split; [simpl; discriminate|].
  split; [vm_compute; reflexivity|].
  split; [vm_compute; reflexivity|].
  split; [reflexivity|].
  split; [reflexivity|].
  simpl; discriminate.
Qed.

(* ================================================================== *)
(** * The choice of the automaton shape *)
(* ================================================================== *)

(** C9, as the code has it: of two constructions that succeeded the one
    with strictly fewer accepting states is returned; with equally many
    accepting states the one with fewer states, and the state shape when
    this ties too; when exactly one construction failed the other is
    returned. *)
Theorem auto_shape_prefers_fewer_accepting_states
    (time : Type) (a_t a_s : tGraph) (t_t t_s timeout : time) (n_t n_s : nat) :
  num_accepting_states a_t = Ok n_t ->
  num_accepting_states a_s = Ok n_s ->
  (n_t < n_s ->
   transition_or_state_aut (Some (a_t, t_t)) (Some (a_s, t_s)) timeout
   = Ok (Some a_t, t_t)) /\
  (n_s < n_t ->
   transition_or_state_aut (Some (a_t, t_t)) (Some (a_s, t_s)) timeout
   = Ok (Some a_s, t_s)) /\
  (n_s = n_t -> count_states a_t < count_states a_s ->
   transition_or_state_aut (Some (a_t, t_t)) (Some (a_s, t_s)) timeout
   = Ok (Some a_t, t_t)) /\
  (n_s = n_t -> count_states a_s <= count_states a_t ->
   transition_or_state_aut (Some (a_t, t_t)) (Some (a_s, t_s)) timeout
   = Ok (Some a_s, t_s)) /\
  transition_or_state_aut None (Some (a_s, t_s)) timeout = Ok (Some a_s, t_s) /\
  transition_or_state_aut (Some (a_t, t_t)) None timeout = Ok (Some a_t, t_t).
Proof.
  intros Ht Hs. unfold transition_or_state_aut. rewrite Ht, Hs. simpl.
  split; [|split; [|split; [|split; [|split]]]]; try reflexivity.
  - intros H. apply Nat.ltb_lt in H. now rewrite H.
  - intros H.
    assert (E1 : (n_t <? n_s) = false) by (apply Nat.ltb_ge; lia).
    assert (E2 : (n_s =? n_t) = false) by (apply Nat.eqb_neq; lia).
    now rewrite E1, E2.
  - intros H1 H2. subst. rewrite Nat.ltb_irrefl, Nat.eqb_refl. simpl.
    apply Nat.ltb_lt in H2. now rewrite H2.
  - intros H1 H2. subst. rewrite Nat.ltb_irrefl, Nat.eqb_refl. simpl.
    assert (E : (count_states a_t <? count_states a_s) = false)
      by (apply Nat.ltb_ge; lia).
    now rewrite E.
Qed.

Lemma auto_shape_prefers_fewer_accepting_states_witness :
  exists g_t g_s,
    aut_to_tgraph aut_one_final = Ok g_t /\
    aut_to_tgraph aut_two_finals = Ok g_s /\
    transition_or_state_aut (Some (g_t, 1)) (Some (g_s, 2)) 0 = Ok (Some g_t, 1).
Proof.
  eexists. eexists.
  split; [vm_compute; reflexivity|].
  split; [vm_compute; reflexivity|].
  refine (proj1 (@auto_shape_prefers_fewer_accepting_states nat _ _ 1 2 0 1 2 _ _) _).
  - vm_compute; reflexivity.
  - vm_compute; reflexivity.
  - lia.
Defined.

(** C9 as the spec states it fails: the state shape has two accepting
    states, the transition shape one, and the transition shape is returned. *)
Lemma auto_shape_returns_the_one_with_fewer :
  exists g_t g_s,
    aut_to_tgraph aut_one_final = Ok g_t /\
    aut_to_tgraph aut_two_finals = Ok g_s /\
    num_accepting_states g_t = Ok 1 /\
    num_accepting_states g_s = Ok 2 /\
    transition_or_state_aut (Some (g_t, 1)) (Some (g_s, 2)) 0 = Ok (Some g_t, 1) /\
    transition_or_state_aut (Some (g_t, 1)) (Some (g_s, 2)) 0 <> Ok (Some g_s, 2).
Proof.
  eexists. eexists.
  split; [vm_compute; reflexivity|].
  split; [vm_compute; reflexivity|].
  split; [vm_compute; reflexivity|].
  split; [vm_compute; reflexivity|].
  split; [vm_compute; reflexivity|].
  vm_compute. discriminate.
Qed.

(* ================================================================== *)
(** * The queries of the drivers *)
(* ================================================================== *)

Lemma tbind_Ok_inv {A B} (m : traced A) (k : A -> traced B) qs b :
  tbind m k = Ok (qs, b) ->
  exists q1 a q2, m = Ok (q1, a) /\ k a = Ok (q2, b) /\ qs = q1 ++ q2.
Proof.
  unfold tbind. intros H.
  destruct m as [[q1 a]|e]; simpl in H; [|discriminate].
  destruct (k a) as [[q2 b']|e] eqn:E; simpl in H; [|discriminate].
  inversion H; subst. now exists q1, a, q2.
Qed.

Lemma issue_Ok_inv {A} q (m : result A) qs a :
  issue q m = Ok (qs, a) -> m = Ok a /\ qs = [q].
Proof.
  unfold issue. destruct m; simpl; intros H; [|discriminate].
  inversion H; subst. now split.
Qed.

Lemma lift_Ok_inv {A} (m : result A) qs a :
  lift m = Ok (qs, a) -> m = Ok a /\ qs = [].
Proof.
  unfold lift. destruct m; simpl; intros H; [|discriminate].
  inversion H; subst. now split.
Qed.

Lemma for_finals_queries body fs qs ps q :
  for_finals body fs = Ok (qs, ps) -> In q qs ->
  exists f qs' c, In f fs /\ body f = Ok (qs', c) /\ In q qs'.
Proof.
  revert qs ps; induction fs as [|f fs IH]; intros qs ps H Hq; simpl in H.
  - inversion H; subst. destruct Hq.
  - apply tbind_Ok_inv in H as (q1 & c & q2 & Hb & H & ->).
    apply tbind_Ok_inv in H as (q3 & cs & q4 & Hr & H & ->).
    inversion H; subst. rewrite app_nil_r in Hq.
    apply in_app_or in Hq as [Hq|Hq].
    + exists f, q1, c. simpl. auto.
    + destruct (IH _ _ Hr Hq) as (f' & qs' & c' & Hin & Hb' & Hq').
      exists f', qs', c'. simpl. auto.
Qed.

(** A body that guards the third query issues it for pseudo-accepting
    states only. *)
Lemma guarded_body_queries
    (q_pre q_acc q_non : result (option Regex)) (init : bool)
    (pseudo : result bool) (f f' : nat) qs c :
  (p1 <~ (if init then issue (PrefixQuery f) q_pre else tret None) ;;
   p2 <~ issue (AccCycleQuery f) q_acc ;;
   ps <~ lift pseudo ;;
   p3 <~ (if ps then issue (NonaccCycleQuery f) q_non else tret None) ;;
   tret (contribution p1 p2 p3)) = Ok (qs, c) ->
  In (NonaccCycleQuery f') qs -> f' = f /\ pseudo = Ok true.
Proof.
  intros H Hq.
  apply tbind_Ok_inv in H as (q1 & p1 & q2 & H1 & H & ->).
  apply tbind_Ok_inv in H as (q3 & p2 & q4 & H2 & H & ->).
  apply tbind_Ok_inv in H as (q5 & ps & q6 & H3 & H & ->).
  apply tbind_Ok_inv in H as (q7 & p3 & q8 & H4 & H & ->).
  inversion H; subst; clear H.
  apply issue_Ok_inv in H2 as [_ ->].
  apply lift_Ok_inv in H3 as [Hps ->].
  assert (Hq1 : ~ In (NonaccCycleQuery f') q1).
  { destruct init.
    - apply issue_Ok_inv in H1 as [_ ->]. simpl. intros [X|[]]. discriminate.
    - inversion H1; subst. intros []. }
  apply in_app_or in Hq as [Hq|Hq]; [contradiction|].
  simpl in Hq. destruct Hq as [Hq|Hq]; [discriminate|].
  rewrite app_nil_r in Hq.
  destruct ps.
  - apply issue_Ok_inv in H4 as [_ ->]. simpl in Hq.
    destruct Hq as [Hq|[]]. inversion Hq. now split.
  - inversion H4; subst. destruct Hq.
Qed.

Lemma drive_Ok_inv body post g o :
  drive body post g = Ok o ->
  exists all_paths,
    combine_duplicate_edge g = Ok (graph_after o) /\
    for_finals (body (graph_after o)) (final_states (graph_after o))
    = Ok (queries o, all_paths) /\
    returned o = post (union_all all_paths).
Proof.
  unfold drive. intros H. inv_bind H.
  destruct (for_finals (body a) (final_states a)) as [[qs ps]|e] eqn:E;
    simpl in H; [|discriminate].
  inversion H; subst; simpl. now exists ps.
Qed.

(** The three drivers that guard the non-accepting cycle query issue it
    for pseudo-accepting final states only. *)
Lemma guarded_drivers_query_nonacc_when_pseudoaccepting
    (simplify : OmegaRegex -> OmegaRegex) (g : tGraph) (o : outcome) (f : nat) :
  taut_to_regex_bmc g = Ok o \/ taut_to_regex_mny g = Ok o
  \/ simp_taut_to_regex_mny simplify g = Ok o ->
  In (NonaccCycleQuery f) (queries o) ->
  state_pseudoaccepting (graph_after o) f = Ok true.
Proof.
  intros H Hq.
  destruct H as [H|[H|H]]; apply drive_Ok_inv in H as (ps & _ & Hf & _);
    destruct (for_finals_queries _ _ _ _ _ Hf Hq) as (f0 & qs' & c & _ & Hb & Hq');
    unfold body_bmc, body_mny in Hb;
    destruct (guarded_body_queries _ _ _ _ _ _ _ _ _ Hb Hq') as [-> Hp]; exact Hp.
Qed.

(** C7 at the two-state lasso (0 -a-> 1, accepting self-loop b on 1): the
    final state 1 has no non-accepting out-edge, so it is not
    pseudo-accepting; [simp_taut_to_regex_bmc] issues the non-accepting cycle
    query for it all the same, the other three drivers do not. *)
Theorem simp_bmc_issues_unguarded_nonacc_query (simplify : OmegaRegex -> OmegaRegex) :
  exists g o o1 o2 o3,
    aut_to_tgraph aut_lasso = Ok g /\
    simp_taut_to_regex_bmc simplify g = Ok o /\
    final_states (graph_after o) = [1] /\
    state_pseudoaccepting (graph_after o) 1 = Ok false /\
    queries o = [PrefixQuery 1; AccCycleQuery 1; NonaccCycleQuery 1] /\
    taut_to_regex_bmc g = Ok o1 /\
    taut_to_regex_mny g = Ok o2 /\
    simp_taut_to_regex_mny simplify g = Ok o3 /\
    queries o1 = [PrefixQuery 1; AccCycleQuery 1] /\
    queries o2 = [PrefixQuery 1; AccCycleQuery 1] /\
    queries o3 = [PrefixQuery 1; AccCycleQuery 1].
Proof.
  do 5 eexists.
  split; [vm_compute; reflexivity|].
  split; [vm_compute; reflexivity|].
  split; [reflexivity|].
  split; [vm_compute; reflexivity|].
  split; [reflexivity|].
  split; [vm_compute; reflexivity|].
  split; [vm_compute; reflexivity|].
  split; [vm_compute; reflexivity|].
  split; [reflexivity|].
  split; reflexivity.
Qed.

(* ================================================================== *)
(** * Ripping a vertex with two self-loops *)
(* ================================================================== *)

(** C8 at a vertex with an accepting self-loop b and a non-accepting
    self-loop c (they have different keys, so coalescing leaves both): [rip]
    takes the label of the first self-loop alone, and the edge it adds from
    0 to 2 is a (b)* d, not a (b|c)* d. *)
Theorem rip_uses_first_self_loop_only :
  exists g g1 g' v0,
    aut_to_tgraph aut_two_loops = Ok g /\
    combine_duplicate_edge g = Ok g1 /\ g1 = g /\
    contain_self_loop g 1 = Ok (Some (mkEdge 1 1 (Symbol "b") true)) /\
    rip g 1 = Ok g' /\
    map number (vertices g') = [0; 2] /\
    get_vertex g' 0 = Ok v0 /\
    edges_of (heap g') (out_edges v0)
    = Ok [mkEdge 0 2 (Concat (Symbol "a") (Concat (Star (Symbol "b")) (Symbol "d")))
                 false] /\
    edges_of (heap g') (out_edges v0)
    <> Ok [mkEdge 0 2 (Concat (Symbol "a")
                        (Concat (Star (Union (Symbol "b") (Symbol "c"))) (Symbol "d")))
                  false] /\
    find_path g 0 2
    = Ok (Some (Concat (Symbol "a") (Concat (Star (Symbol "b")) (Symbol "d")))).
Proof.
  do 4 eexists.
  split; [vm_compute; reflexivity|].
  split; [vm_compute; reflexivity|].
  split; [reflexivity|].
  split; [vm_compute; reflexivity|].
  split; [vm_compute; reflexivity|].
  split; [reflexivity|].
  split; [vm_compute; reflexivity|].
  split; [vm_compute; reflexivity|].
  split; [vm_compute; discriminate|].
  vm_compute; reflexivity.
Qed.

(* ================================================================== *)
(** * What a driver does to the graph it is given *)
(* ================================================================== *)

Lemma key_eqb_eq (a b : edge_key) : key_eqb a b = true <-> a = b.
Proof.
  destruct a as [[s1 d1] a1], b as [[s2 d2] a2]. simpl.
  rewrite !andb_true_iff, !Nat.eqb_eq, Bool.eqb_true_iff.
  split; [intros [[-> ->] ->]; reflexivity | intros H; inversion H; auto].
Qed.

Lemma key_eqb_refl (a : edge_key) : key_eqb a a = true.
Proof. now apply key_eqb_eq. Qed.

Lemma count_key_snoc k ks key :
  count_key k (ks ++ [key]) = count_key k ks + (if key_eqb k key then 1 else 0).
Proof.
  unfold count_key. rewrite filter_app, length_app. simpl.
  destruct (key_eqb k key); reflexivity.
Qed.

Lemma dict_append_bounded key id ks d :
  bounded d ks -> bounded (dict_append key id d) (ks ++ [key]).
Proof.
  induction d as [|[k0 l0] d IH]; intros Hb k l Hin; simpl in Hin.
  - destruct Hin as [Hin|[]]. inversion Hin; subst.
    rewrite count_key_snoc, key_eqb_refl. simpl. lia.
  - destruct (key_eqb k0 key) eqn:E.
    + destruct Hin as [Hin|Hin].
      * inversion Hin; subst. rewrite count_key_snoc, E, length_app. simpl.
        specialize (Hb k l0 (or_introl eq_refl)). lia.
      * rewrite count_key_snoc. specialize (Hb k l (or_intror Hin)). lia.
    + destruct Hin as [Hin|Hin].
      * inversion Hin; subst. rewrite count_key_snoc.
        specialize (Hb k l (or_introl eq_refl)). lia.
      * apply IH; [|exact Hin]. intros k' l' H'. apply Hb. now right.
Qed.

Lemma dict_add_edges_bounded h ids : forall es d ks,
  edges_of h ids = Ok es -> bounded d ks ->
  exists d', dict_add_edges h ids d = Ok d' /\ bounded d' (ks ++ map key_of es).
Proof.
  induction ids as [|i ids IH]; intros es d ks He Hb; simpl in *.
  - inversion He; subst. exists d. simpl. rewrite app_nil_r. now split.
  - inv_bind He. inv_bind He. inversion He; subst. rewrite Hm. simpl.
    destruct (IH a0 (dict_append (key_of a) i d) (ks ++ [key_of a]) Hm0
                (dict_append_bounded (key_of a) i ks d Hb)) as (d' & E & B).
    exists d'. split; [exact E|]. simpl. now rewrite <- app_assoc in B.
Qed.

Lemma build_edge_dict_bounded h vs : forall es d ks,
  all_out_edges h vs = Ok es -> bounded d ks ->
  exists d', build_edge_dict h vs d = Ok d' /\ bounded d' (ks ++ map key_of es).
Proof.
  induction vs as [|v vs IH]; intros es d ks He Hb; simpl in *.
  - inversion He; subst. exists d. simpl. rewrite app_nil_r. now split.
  - inv_bind He. inv_bind He. inversion He; subst.
    destruct (dict_add_edges_bounded _ _ _ _ _ Hm Hb) as (d1 & E1 & B1).
    rewrite E1. simpl.
    destruct (IH a0 d1 _ Hm0 B1) as (d' & E & B).
    exists d'. split; [exact E|]. now rewrite map_app, app_assoc.
Qed.

Lemma distinct_keys_count ks :
  distinct_keys ks = true -> forall k, count_key k ks <= 1.
Proof.
  induction ks as [|k0 ks IH]; intros H k; simpl in *; [unfold count_key; simpl; lia|].
  apply andb_true_iff in H as [H1 H2]. specialize (IH H2 k).
  unfold count_key in *. simpl. destruct (key_eqb k k0) eqn:E; [|exact IH].
  apply key_eqb_eq in E. subst k0. simpl.
  destruct (filter (key_eqb k) ks) as [|x l] eqn:F; [simpl; lia|].
  assert (Hin : In x (filter (key_eqb k) ks)) by (rewrite F; now left).
  apply filter_In in Hin as [Hin Hx].
  apply negb_true_iff in H1.
  assert (existsb (key_eqb k) ks = true) by (apply existsb_exists; eauto).
  congruence.
Qed.

Lemma bounded_find_duplicate d ks :
  bounded d ks -> (forall k, count_key k ks <= 1) -> find_duplicate d = None.
Proof.
  induction d as [|[k l] d IH]; intros Hb Hc; simpl; [reflexivity|].
  assert (Hl : length l <= 1).
  { specialize (Hb k l (or_introl eq_refl)). specialize (Hc k). lia. }
  assert (E : (1 <? length l) = false) by (apply Nat.ltb_ge; exact Hl).
  rewrite E. apply IH; [|exact Hc]. intros k' l' H'. apply Hb. now right.
Qed.

(** A graph without duplicate edges comes back from
    [combine_duplicate_edge] as it went in. *)
Lemma combine_duplicate_edge_fixed (g : tGraph) :
  no_duplicate_edges g = true -> combine_duplicate_edge g = Ok g.
Proof.
  unfold no_duplicate_edges, combine_duplicate_edge. intros H.
  destruct (all_out_edges (heap g) (vertices g)) as [es|] eqn:E; [|discriminate].
  destruct (@build_edge_dict_bounded (heap g) (vertices g) es [] [] E)
    as (d & Ed & Bd).
  { intros k l []. }
  rewrite Ed. simpl bind. simpl in Bd.
  pose proof (bounded_find_duplicate _ _ Bd (distinct_keys_count _ H)) as F.
  destruct (length d); simpl; now rewrite F.
Qed.

(** C4, as the code has it: a driver coalesces the duplicate edges of the
    graph object it is given, in place, and after that only works on copies:
    when it returns, the graph is what [combine_duplicate_edge] made of it,
    and a graph without duplicate edges is unchanged. *)
Theorem drivers_leave_the_coalesced_graph
    (simplify : OmegaRegex -> OmegaRegex) (g : tGraph) (o : outcome) :
  taut_to_regex_bmc g = Ok o \/ taut_to_regex_mny g = Ok o
  \/ simp_taut_to_regex_bmc simplify g = Ok o
  \/ simp_taut_to_regex_mny simplify g = Ok o ->
  combine_duplicate_edge g = Ok (graph_after o) /\
  (no_duplicate_edges g = true -> graph_after o = g).
Proof.
  intros H.
  assert (Hc : combine_duplicate_edge g = Ok (graph_after o)).
  { destruct H as [H|[H|[H|H]]];
      apply drive_Ok_inv in H as (ps & Hc & _ & _); exact Hc. }
  split; [exact Hc|].
  intros Hn. rewrite (combine_duplicate_edge_fixed _ Hn) in Hc. now inversion Hc.
Qed.

Lemma drivers_leave_the_coalesced_graph_witness :
  exists g o,
    aut_to_tgraph aut_lasso = Ok g /\
    taut_to_regex_bmc g = Ok o /\
    combine_duplicate_edge g = Ok (graph_after o) /\
    graph_after o = g.
Proof.
  eexists. eexists.
  split; [vm_compute; reflexivity|].
  split; [vm_compute; reflexivity|].
  match goal with
  | |- combine_duplicate_edge ?g = Ok (graph_after ?o) /\ _ =>
    pose proof (@drivers_leave_the_coalesced_graph (fun p => p) g o
                  (or_introl eq_refl)) as [H1 H2]
  end.
  split; [exact H1 | apply H2; vm_compute; reflexivity].
Defined.

(** C4 as the spec states it fails: after [taut_to_regex_bmc] on the graph
    with the two parallel edges 0 -a-> 1 and 0 -b-> 1 the graph object has
    one edge 0 -(a|b)-> 1 left. *)
Lemma driver_changes_graph_with_parallel_edges :
  exists g o v0 v0',
    aut_to_tgraph aut_parallel = Ok g /\
    taut_to_regex_bmc g = Ok o /\
    get_vertex g 0 = Ok v0 /\
    get_vertex (graph_after o) 0 = Ok v0' /\
    edges_of (heap g) (out_edges v0)
    = Ok [mkEdge 0 1 (Symbol "a") false; mkEdge 0 1 (Symbol "b") false] /\
    edges_of (heap (graph_after o)) (out_edges v0')
    = Ok [mkEdge 0 1 (Union (Symbol "a") (Symbol "b")) false] /\
    graph_after o <> g.
Proof.
  do 4 eexists.
  split; [vm_compute; reflexivity|].
  split; [vm_compute; reflexivity|].
  split; [vm_compute; reflexivity|].
  split; [vm_compute; reflexivity|].
  split; [vm_compute; reflexivity|].
  split; [vm_compute; reflexivity|].
  vm_compute. discriminate.
Qed.

(* ================================================================== *)
(** * Lists, the store and the vertices *)
(* ================================================================== *)

Lemma lookup_edge_Ok h i e : lookup_edge h i = Ok e <-> nth_error h i = Some e.
Proof.
  unfold lookup_edge. destruct (nth_error h i); split; intros H;
    inversion H; reflexivity.
Qed.

Lemma edges_of_In h ids : forall es,
  edges_of h ids = Ok es ->
  forall e, In e es -> exists i, In i ids /\ nth_error h i = Some e.
Proof.
  induction ids as [|i ids IH]; intros es H e He; simpl in H.
  - inversion H; subst. destruct He.
  - inv_bind H. inv_bind H. inversion H; subst.
    apply lookup_edge_Ok in Hm. destruct He as [<-|He].
    + exists i. simpl. auto.
    + destruct (IH _ Hm0 _ He) as (j & Hj & Ej). exists j. simpl. auto.
Qed.

Lemma edges_of_ok h P ids es :
  edges_of h ids = Ok es -> ids_ok h P ids -> forall e, In e es -> P e.
Proof.
  intros H Hok e He.
  destruct (edges_of_In _ _ _ H _ He) as (i & Hi & Ei).
  destruct (Hok i Hi) as (e' & Ee' & Pe'). congruence.
Qed.

Lemma ids_ok_incl h P ids ids' :
  ids_ok h P ids -> (forall i, In i ids' -> In i ids) -> ids_ok h P ids'.
Proof. intros H Hs i Hi. apply H. now apply Hs. Qed.

Lemma ids_ok_grow h h' P ids : ids_ok h P ids -> ids_ok (h ++ h') P ids.
Proof.
  intros H i Hi. destruct (H i Hi) as (e & E & Pe). exists e. split; [|exact Pe].
  rewrite nth_error_app1; [exact E|]. apply nth_error_Some. congruence.
Qed.

Lemma ids_ok_snoc h P ids e :
  ids_ok h P ids -> P e -> ids_ok (h ++ [e]) P (ids ++ [length h]).
Proof.
  intros H Pe i Hi. apply in_app_or in Hi as [Hi|[<-|[]]].
  - exact (ids_ok_grow h [e] P ids H i Hi).
  - exists e. split; [|exact Pe].
    rewrite nth_error_app2, Nat.sub_diag; [reflexivity | lia].
Qed.

Lemma list_remove_edge_incl h e ids : forall ids',
  list_remove_edge h e ids = Ok ids' -> forall i, In i ids' -> In i ids.
Proof.
  induction ids as [|j ids IH]; intros ids' H i Hi; simpl in H; [discriminate|].
  inv_bind H. destruct (edge_eqb a e).
  - inversion H; subst. now right.
  - inv_bind H. inversion H; subst. destruct Hi as [<-|Hi]; [now left|].
    right. eapply IH; eauto.
Qed.

Lemma list_remove_edge_length h e ids : forall ids',
  list_remove_edge h e ids = Ok ids' -> length ids = S (length ids').
Proof.
  induction ids as [|j ids IH]; intros ids' H; simpl in H; [discriminate|].
  inv_bind H. destruct (edge_eqb a e).
  - inversion H; subst. reflexivity.
  - inv_bind H. inversion H; subst. simpl. f_equal. now apply IH.
Qed.

Lemma list_remove_obj_incl h id e ids : forall ids',
  list_remove_obj h id e ids = Ok ids' -> forall i, In i ids' -> In i ids.
Proof.
  induction ids as [|j ids IH]; intros ids' H i Hi; simpl in H; [discriminate|].
  destruct (j =? id).
  - inversion H; subst. now right.
  - inv_bind H. destruct (edge_eqb a e).
    + inversion H; subst. now right.
    + inv_bind H. inversion H; subst. destruct Hi as [<-|Hi]; [now left|].
      right. eapply IH; eauto.
Qed.

Lemma list_remove_obj_length h id e ids : forall ids',
  list_remove_obj h id e ids = Ok ids' -> length ids = S (length ids').
Proof.
  induction ids as [|j ids IH]; intros ids' H; simpl in H; [discriminate|].
  destruct (j =? id).
  - inversion H; subst. reflexivity.
  - inv_bind H. destruct (edge_eqb a e).
    + inversion H; subst. reflexivity.
    + inv_bind H. inversion H; subst. simpl. f_equal. now apply IH.
Qed.

Lemma find_vertex_Some vs n v :
  find_vertex vs n = Some v -> In v vs /\ number v = n.
Proof.
  unfold find_vertex. intros H. apply find_some in H as [H1 H2].
  apply Nat.eqb_eq in H2. now split.
Qed.

Lemma get_vertex_Ok g n v : get_vertex g n = Ok v -> In v (vertices g) /\ number v = n.
Proof.
  unfold get_vertex. destruct (find_vertex (vertices g) n) eqn:E; intros H;
    inversion H; subst. now apply find_vertex_Some.
Qed.

Lemma update_vertex_In n f vs v :
  In v (update_vertex n f vs) ->
  exists v0, In v0 vs /\ ((number v0 <> n /\ v = v0) \/ (number v0 = n /\ v = f v0)).
Proof.
  unfold update_vertex. intros H. apply in_map_iff in H as (v0 & E & Hin).
  exists v0. split; [exact Hin|].
  destruct (number v0 =? n) eqn:En.
  - apply Nat.eqb_eq in En. right. now split.
  - apply Nat.eqb_neq in En. left. now split.
Qed.

Lemma update_vertex_numbers n f vs :
  (forall x, number (f x) = number x) ->
  map number (update_vertex n f vs) = map number vs.
Proof.
  intros Hf. unfold update_vertex. rewrite map_map. apply map_ext.
  intros x. destruct (number x =? n); [apply Hf | reflexivity].
Qed.

Lemma set_label_same e : set_label e (label e) = e.
Proof. now destruct e. Qed.

Lemma assign_label_length h i l : length (assign_label h i l) = length h.
Proof.
  revert i; induction h as [|e h IH]; intros i; simpl; [reflexivity|].
  destruct i; simpl; [reflexivity | now rewrite IH].
Qed.

Lemma assign_label_same h i l e :
  nth_error h i = Some e -> nth_error (assign_label h i l) i = Some (set_label e l).
Proof.
  revert i; induction h as [|x h IH]; intros i H; destruct i; simpl in *;
    try discriminate.
  - now inversion H.
  - now apply IH.
Qed.

Lemma assign_label_other h i l j :
  j <> i -> nth_error (assign_label h i l) j = nth_error h j.
Proof.
  revert i j; induction h as [|x h IH]; intros i j H; simpl; [reflexivity|].
  destruct i, j; simpl; try reflexivity; try congruence.
  apply IH. congruence.
Qed.

(* ================================================================== *)
(** * Properties of the edges that ripping and coalescing keep *)
(* ================================================================== *)

Lemma ids_ok_add h P ids i e :
  ids_ok h P ids -> nth_error h i = Some e -> P e -> ids_ok h P (ids ++ [i]).
Proof.
  intros H E Pe j Hj. apply in_app_or in Hj as [Hj|[<-|[]]]; [now apply H|].
  now exists e.
Qed.

Lemma added_edges_In v_rip r_rip ins outs x :
  In x (added_edges v_rip r_rip ins outs) ->
  exists e_in e_out r',
    In e_in ins /\ In e_out outs /\
    x = (src e_in, dst e_out, Concat (label e_in) r', accepting e_in).
Proof.
  unfold added_edges. intros H.
  apply in_flat_map in H as (e_in & Hin & H).
  apply in_flat_map in H as (e_out & Hout & H).
  destruct ((src e_in =? v_rip) || (dst e_out =? v_rip)); [destruct H|].
  destruct H as [<-|[]].
  destruct r_rip as [rr|]; do 3 eexists; split; eauto.
Qed.

Section LabelInvariant.

Variables Po Pi : nat -> Edge -> Prop.

(** The edge [rip] builds from an in-edge keeps the property. *)
Hypothesis rip_closed : forall n e_in d r',
  Pi n e_in ->
  Po (src e_in) (mkEdge (src e_in) d (Concat (label e_in) r') (accepting e_in)) /\
  Pi d (mkEdge (src e_in) d (Concat (label e_in) r') (accepting e_in)).

(** So does an edge that takes up the label of another edge with its key. *)
Hypothesis union_closed_out : forall n m e0 c e,
  Po n (set_label e0 c) -> Po m e -> key_of e = key_of e0 ->
  Po n (set_label e0 (Union c (label e))).

Hypothesis union_closed_in : forall n m e0 c e,
  Pi n (set_label e0 c) -> Po m e -> key_of e = key_of e0 ->
  Pi n (set_label e0 (Union c (label e))).

Lemma vertices_ok_grow h h' vs :
  vertices_ok Po Pi h vs -> vertices_ok Po Pi (h ++ h') vs.
Proof.
  intros H v Hv. destruct (H v Hv) as [Ho Hi].
  split; now apply ids_ok_grow.
Qed.

Lemma vertices_ok_update h vs n f :
  vertices_ok Po Pi h vs ->
  (forall x, In x vs -> number x = n ->
     number (f x) = n /\ ids_ok h (Po n) (out_edges (f x))
     /\ ids_ok h (Pi n) (in_edges (f x))) ->
  vertices_ok Po Pi h (update_vertex n f vs).
Proof.
  intros H Hf v Hv.
  apply update_vertex_In in Hv as (v0 & Hin & [[Hne ->]|[He ->]]).
  - now apply H.
  - destruct (Hf v0 Hin He) as (E & O & I). rewrite E. now split.
Qed.

Lemma vertices_ok_set_out h vs n outs :
  vertices_ok Po Pi h vs -> ids_ok h (Po n) outs ->
  vertices_ok Po Pi h (update_vertex n (fun x => set_out x outs) vs).
Proof.
  intros H Ho. apply vertices_ok_update; [exact H|].
  intros x Hx Hn. simpl. split; [exact Hn|]. split; [exact Ho|].
  rewrite <- Hn. now apply H.
Qed.

Lemma vertices_ok_set_in h vs n ins :
  vertices_ok Po Pi h vs -> ids_ok h (Pi n) ins ->
  vertices_ok Po Pi h (update_vertex n (fun x => set_in x ins) vs).
Proof.
  intros H Hi. apply vertices_ok_update; [exact H|].
  intros x Hx Hn. simpl. split; [exact Hn|]. split; [|exact Hi].
  rewrite <- Hn. now apply H.
Qed.

Lemma Graph_add_edge_ok g s d l a g' :
  graph_ok Po Pi g -> Po s (mkEdge s d l a) -> Pi d (mkEdge s d l a) ->
  Graph_add_edge g s d l a = Ok g' -> graph_ok Po Pi g'.
Proof.
  unfold Graph_add_edge, graph_ok. intros H Ho Hi E.
  inv_bind E. inv_bind E. inversion E; subst; clear E. simpl.
  assert (Hnew : nth_error (heap g ++ [mkEdge s d l a]) (length (heap g))
                 = Some (mkEdge s d l a)).
  { rewrite nth_error_app2, Nat.sub_diag; [reflexivity | lia]. }
  apply vertices_ok_update.
  - apply vertices_ok_update; [now apply vertices_ok_grow|].
    intros x Hx Hn. simpl. split; [exact Hn|].
    destruct (H x Hx) as [Hxo Hxi]. rewrite Hn in Hxo, Hxi. split.
    + exact (ids_ok_add _ _ _ _ _ (ids_ok_grow _ _ _ _ Hxo) Hnew Ho).
    + now apply ids_ok_grow.
  - intros x Hx Hn. simpl. split; [exact Hn|].
    apply update_vertex_In in Hx as (x0 & Hx0 & [[Hne ->]|[He ->]]).
    + destruct (H x0 Hx0) as [Hxo Hxi]. rewrite Hn in Hxo, Hxi. split.
      * now apply ids_ok_grow.
      * exact (ids_ok_add _ _ _ _ _ (ids_ok_grow _ _ _ _ Hxi) Hnew Hi).
    + simpl in *. assert (Esd : d = s) by congruence. clear Hn. subst d.
      destruct (H x0 Hx0) as [Hxo Hxi]. rewrite He in Hxo, Hxi. split.
      * exact (ids_ok_add _ _ _ _ _ (ids_ok_grow _ _ _ _ Hxo) Hnew Ho).
      * exact (ids_ok_add _ _ _ _ _ (ids_ok_grow _ _ _ _ Hxi) Hnew Hi).
Qed.

Lemma add_edge_ok g s d l a g' :
  graph_ok Po Pi g -> Po s (mkEdge s d l a) -> Pi d (mkEdge s d l a) ->
  add_edge g s d l a = Ok g' -> graph_ok Po Pi g'.
Proof.
  unfold add_edge. intros H Ho Hi E. inv_bind E.
  pose proof (Graph_add_edge_ok _ _ _ _ _ _ H Ho Hi Hm) as H1.
  destruct a; inversion E; subst; exact H1.
Qed.

Lemma Graph_remove_edge_ok g s d l g' :
  graph_ok Po Pi g -> Graph_remove_edge g s d l = Ok g' ->
  graph_ok Po Pi g' /\ heap g' = heap g.
Proof.
  unfold Graph_remove_edge, graph_ok. intros H E.
  inv_bind E. inv_bind E. inv_bind E. inv_bind E. inversion E; subst; clear E.
  simpl in *. split; [|reflexivity].
  apply get_vertex_Ok in Hm as [Hin Hn].
  assert (H1 : vertices_ok Po Pi (heap g)
                 (update_vertex s (fun x => set_out x a0) (vertices g))).
  { apply vertices_ok_set_out; [exact H|].
    eapply ids_ok_incl; [|eapply list_remove_edge_incl; exact Hm0].
    rewrite <- Hn. now apply H. }
  apply vertices_ok_set_in; [exact H1|].
  apply get_vertex_Ok in Hm1 as [Hin1 Hn1]. simpl in Hin1.
  eapply ids_ok_incl; [|eapply list_remove_edge_incl; exact Hm2].
  rewrite <- Hn1. now apply H1.
Qed.

Lemma remove_edge_ok g s d l a g' :
  graph_ok Po Pi g -> remove_edge g s d l a = Ok g' ->
  graph_ok Po Pi g' /\ heap g' = heap g.
Proof.
  unfold remove_edge. intros H E. inv_bind E. inv_bind E.
  destruct (Graph_remove_edge_ok _ _ _ _ _ H Hm) as [H1 Hh].
  assert (H2 : graph_ok Po Pi a1 /\ heap a1 = heap g).
  { destruct a; inv_bind Hm0; inversion Hm0; subst; simpl; now split. }
  destruct H2 as [H2 Hh2].
  destruct (set_mem s (final_states a1)); [|inversion E; subst; now split].
  inv_bind E. destruct (length a2 =? 0); inversion E; subst; now split.
Qed.

Lemma detach_in_edges_ok ids : forall g g',
  graph_ok Po Pi g -> detach_in_edges g ids = Ok g' ->
  graph_ok Po Pi g' /\ heap g' = heap g.
Proof.
  induction ids as [|i ids IH]; intros g g' H E; simpl in E.
  - inversion E; subst. now split.
  - inv_bind E. inv_bind E. inv_bind E.
    apply get_vertex_Ok in Hm0 as [Hin Hn].
    assert (H1 : graph_ok Po Pi
                   (set_vertices g (update_vertex (src a) (fun x => set_out x a1)
                                                  (vertices g)))).
    { unfold graph_ok. simpl. apply vertices_ok_set_out; [exact H|].
      eapply ids_ok_incl; [|eapply list_remove_edge_incl; exact Hm1].
      rewrite <- Hn. now apply H. }
    destruct (IH _ _ H1 E) as [H2 Hh]. now split.
Qed.

Lemma detach_out_edges_ok ids : forall g g',
  graph_ok Po Pi g -> detach_out_edges g ids = Ok g' ->
  graph_ok Po Pi g' /\ heap g' = heap g.
Proof.
  induction ids as [|i ids IH]; intros g g' H E; simpl in E.
  - inversion E; subst. now split.
  - inv_bind E. inv_bind E. inv_bind E.
    apply get_vertex_Ok in Hm0 as [Hin Hn].
    assert (H1 : graph_ok Po Pi
                   (set_vertices g (update_vertex (dst a) (fun x => set_in x a1)
                                                  (vertices g)))).
    { unfold graph_ok. simpl. apply vertices_ok_set_in; [exact H|].
      eapply ids_ok_incl; [|eapply list_remove_edge_incl; exact Hm1].
      rewrite <- Hn. now apply H. }
    destruct (IH _ _ H1 E) as [H2 Hh]. now split.
Qed.

Lemma add_edges_ok l : forall g g',
  graph_ok Po Pi g ->
  (forall s t r' a, In (s, t, r', a) l ->
     Po s (mkEdge s t r' a) /\ Pi t (mkEdge s t r' a)) ->
  add_edges g l = Ok g' -> graph_ok Po Pi g'.
Proof.
  induction l as [|[[[s t] r'] a] l IH]; intros g g' H Hl E; simpl in E.
  - now inversion E; subst.
  - inv_bind E. destruct (Hl s t r' a (or_introl eq_refl)) as [Ho Hi].
    eapply IH; [| |exact E].
    + eapply add_edge_ok; eauto.
    + intros. apply Hl. now right.
Qed.

Lemma rip_ok g v_rip g' :
  graph_ok Po Pi g -> rip g v_rip = Ok g' -> graph_ok Po Pi g'.
Proof.
  unfold rip. intros H E.
  inv_bind E. inv_bind E. inv_bind E. inv_bind E. inv_bind E. inv_bind E.
  inv_bind E. inv_bind E. inversion E; subst; clear E.
  apply get_vertex_Ok in Hm0 as [Hin Hn].
  destruct (detach_in_edges_ok _ _ _ H Hm3) as [H1 Hh1].
  destruct (detach_out_edges_ok _ _ _ H1 Hm5) as [H2 Hh2].
  assert (H3 : graph_ok Po Pi a6).
  { eapply add_edges_ok; [exact H2| |exact Hm6].
    intros s t r' b Hx.
    apply added_edges_In in Hx as (e_in & e_out & r'' & Hein & _ & Ex).
    inversion Ex; subst.
    apply (rip_closed (number a0)).
    eapply edges_of_ok; [exact Hm1| |exact Hein]. now apply H. }
  unfold graph_ok. simpl. intros v Hv. apply filter_In in Hv as [Hv _].
  now apply H3.
Qed.

Lemma dict_append_ok h key id d e m :
  dict_ok Po h d -> nth_error h id = Some e -> Po m e -> key_of e = key ->
  dict_ok Po h (dict_append key id d).
Proof.
  intros Hd He Pe Ek.
  induction d as [|[k0 l0] d IH]; simpl.
  - intros k ids [Hin|[]] i Hi. inversion Hin; subst.
    destruct Hi as [<-|[]]. now exists e, m.
  - destruct (key_eqb k0 key) eqn:E.
    + apply key_eqb_eq in E. subst k0.
      intros k ids [Hin|Hin] i Hi.
      * inversion Hin; subst. apply in_app_or in Hi as [Hi|[<-|[]]].
        -- eapply Hd; [now left | exact Hi].
        -- now exists e, m.
      * eapply Hd; [right; exact Hin | exact Hi].
    + intros k ids [Hin|Hin] i Hi.
      * eapply Hd; [left; exact Hin | exact Hi].
      * eapply IH; [|exact Hin|exact Hi].
        intros k' ids' H' i' Hi'. eapply Hd; [right; exact H' | exact Hi'].
Qed.

Lemma dict_add_edges_ok h n ids : forall d d',
  ids_ok h (Po n) ids -> dict_ok Po h d ->
  dict_add_edges h ids d = Ok d' -> dict_ok Po h d'.
Proof.
  induction ids as [|i ids IH]; intros d d' Hids Hd E; simpl in E.
  - now inversion E; subst.
  - inv_bind E. apply lookup_edge_Ok in Hm.
    destruct (Hids i (or_introl eq_refl)) as (e & Ee & Pe).
    assert (e = a) by congruence. subst e.
    eapply IH; [| |exact E].
    + intros j Hj. apply Hids. now right.
    + eapply dict_append_ok; eauto.
Qed.

Lemma build_edge_dict_ok h vs : forall d d',
  vertices_ok Po Pi h vs -> dict_ok Po h d ->
  build_edge_dict h vs d = Ok d' -> dict_ok Po h d'.
Proof.
  induction vs as [|v vs IH]; intros d d' Hvs Hd E; simpl in E.
  - now inversion E; subst.
  - inv_bind E. eapply IH; [| |exact E].
    + intros x Hx. apply Hvs. now right.
    + eapply dict_add_edges_ok; [|exact Hd|exact Hm].
      apply (Hvs v). now left.
Qed.

Lemma find_duplicate_Some d k l :
  find_duplicate d = Some (k, l) -> In (k, l) d /\ 1 < length l.
Proof.
  induction d as [|[k0 l0] d IH]; simpl; [discriminate|].
  destruct (1 <? length l0) eqn:E; intros H.
  - inversion H; subst. apply Nat.ltb_lt in E. split; [now left | exact E].
  - destruct (IH H) as [H1 H2]. split; [now right | exact H2].
Qed.

Lemma dict_get_In d key i :
  In i (dict_get d key) -> exists l, In (key, l) d /\ In i l.
Proof.
  unfold dict_get. destruct (find (fun p => key_eqb (fst p) key) d) as [[k l]|] eqn:E;
    intros H; [|destruct H].
  apply find_some in E as [E1 E2]. simpl in E2. apply key_eqb_eq in E2. subst k.
  now exists l.
Qed.

Lemma dict_set_ok h key l d :
  dict_ok Po h d ->
  (forall i, In i l -> exists e m, nth_error h i = Some e /\ Po m e /\ key_of e = key) ->
  dict_ok Po h (dict_set key l d).
Proof.
  intros Hd Hl k ids Hin i Hi. unfold dict_set in Hin.
  apply in_map_iff in Hin as ([k0 l0] & E & Hin). simpl in E.
  destruct (key_eqb k0 key) eqn:Ek.
  - inversion E; subst. apply key_eqb_eq in Ek. subst. now apply Hl.
  - inversion E; subst. eapply Hd; eauto.
Qed.

Lemma dict_del_ok h key d : dict_ok Po h d -> dict_ok Po h (dict_del key d).
Proof.
  intros Hd k ids Hin i Hi. unfold dict_del in Hin.
  apply filter_In in Hin as [Hin _]. eapply Hd; eauto.
Qed.

(** Folding the labels of edges with the key of [e0] into [e0]. *)
Lemma fold_union_closed (P : Edge -> Prop) e0 es :
  (forall m c e, P (set_label e0 c) -> Po m e -> key_of e = key_of e0 ->
                 P (set_label e0 (Union c (label e)))) ->
  (forall e, In e es -> exists m, Po m e /\ key_of e = key_of e0) ->
  forall c, P (set_label e0 c) ->
            P (set_label e0 (fold_left (fun c e => Union c (label e)) es c)).
Proof.
  intros Hc. induction es as [|e es IH]; intros Hes c Pc; simpl; [exact Pc|].
  apply IH; [intros; apply Hes; now right|].
  destruct (Hes e (or_introl eq_refl)) as (m & Pe & Ek).
  eapply Hc; eauto.
Qed.

Lemma combined_label_out n e0 es :
  Po n e0 ->
  (forall e, In e es -> exists m, Po m e /\ key_of e = key_of e0) ->
  Po n (set_label e0 (combined_label e0 es)).
Proof.
  intros P0 Hes. unfold combined_label.
  apply fold_union_closed; [|exact Hes|now rewrite set_label_same].
  intros m c e. apply union_closed_out.
Qed.

Lemma combined_label_in n e0 es :
  Pi n e0 ->
  (forall e, In e es -> exists m, Po m e /\ key_of e = key_of e0) ->
  Pi n (set_label e0 (combined_label e0 es)).
Proof.
  intros P0 Hes. unfold combined_label.
  apply fold_union_closed; [|exact Hes|now rewrite set_label_same].
  intros m c e. apply union_closed_in.
Qed.

Lemma ids_ok_assign h P ids id0 e0 l :
  ids_ok h P ids -> nth_error h id0 = Some e0 ->
  (P e0 -> P (set_label e0 l)) ->
  ids_ok (assign_label h id0 l) P ids.
Proof.
  intros H E0 Hp i Hi. destruct (H i Hi) as (e & E & Pe).
  destruct (Nat.eq_dec i id0) as [->|Hne].
  - exists (set_label e0 l). split; [now apply assign_label_same|].
    apply Hp. congruence.
  - exists e. split; [|exact Pe]. now rewrite assign_label_other.
Qed.

Lemma remove_others_ok key others : forall g d g' d',
  graph_ok Po Pi g -> dict_ok Po (heap g) d ->
  remove_others g d key others = Ok (g', d') ->
  graph_ok Po Pi g' /\ dict_ok Po (heap g') d' /\ heap g' = heap g.
Proof.
  induction others as [|id rest IH]; intros g d g' d' Hg Hd E; simpl in E.
  - inversion E; subst. split; [exact Hg|split; [exact Hd|reflexivity]].
  - inv_bind E. inv_bind E. inv_bind E.
    destruct (remove_edge_ok _ _ _ _ _ _ Hg Hm0) as [Hg1 Hh1].
    assert (Hd1 : dict_ok Po (heap a0) (dict_set key a1 d)).
    { rewrite Hh1. apply dict_set_ok; [exact Hd|].
      intros i Hi.
      apply (list_remove_obj_incl _ _ _ _ _ Hm1) in Hi.
      apply dict_get_In in Hi as (l & Hl & Hi).
      eapply Hd; eauto. }
    destruct (IH _ _ _ _ Hg1 Hd1 E) as (H1 & H2 & H3).
    split; [exact H1|]. split; [exact H2|]. congruence.
Qed.

Lemma combine_entry_ok g d key edges g' d' :
  graph_ok Po Pi g -> dict_ok Po (heap g) d -> In (key, edges) d ->
  combine_entry g d key edges = Ok (g', d') ->
  graph_ok Po Pi g' /\ dict_ok Po (heap g') d'.
Proof.
  unfold combine_entry. intros Hg Hd Hin E.
  destruct edges as [|id0 others]; [discriminate|].
  inv_bind E. inv_bind E. apply lookup_edge_Ok in Hm.
  destruct (remove_others _ _ _ _) as [[g2 d2]|] eqn:Er; simpl in E; [|discriminate].
  inversion E; subst; clear E.
  destruct (Hd _ _ Hin id0 (or_introl eq_refl)) as (e0 & m0 & E0 & P0 & K0).
  assert (e0 = a) by congruence. subst e0.
  assert (Hes : forall e, In e a0 -> exists m, Po m e /\ key_of e = key_of a).
  { intros e He. destruct (edges_of_In _ _ _ Hm0 _ He) as (i & Hi & Ei).
    destruct (Hd _ _ Hin i (or_intror Hi)) as (e' & m & E' & P' & K').
    assert (e' = e) by congruence. subst e'. exists m. split; congruence. }
  set (L := combined_label a a0) in *.
  assert (Hg1 : graph_ok Po Pi (set_heap g (assign_label (heap g) id0 L))).
  { unfold graph_ok. simpl. intros v Hv. destruct (Hg v Hv) as [Ho Hi]. split.
    - eapply ids_ok_assign; eauto. intros Pa. now apply combined_label_out.
    - eapply ids_ok_assign; eauto. intros Pa. now apply combined_label_in. }
  assert (Hd1 : dict_ok Po (heap (set_heap g (assign_label (heap g) id0 L))) d).
  { simpl. intros k ids Hk i Hi.
    destruct (Hd k ids Hk i Hi) as (e & m & Ee & Pe & Ke).
    destruct (Nat.eq_dec i id0) as [->|Hne].
    - assert (e = a) by congruence. subst e.
      exists (set_label a L), m. split; [now apply assign_label_same|].
      split; [now apply combined_label_out | exact Ke].
    - exists e, m. split; [now rewrite assign_label_other | now split]. }
  destruct (remove_others_ok _ _ _ _ _ _ Hg1 Hd1 Er) as (H1 & H2 & H3).
  split; [exact H1|].
  destruct (length (dict_get d2 key) =? 1); [now apply dict_del_ok | exact H2].
Qed.

Lemma combine_loop_ok fuel : forall g d g',
  graph_ok Po Pi g -> dict_ok Po (heap g) d ->
  combine_loop fuel g d = Ok g' -> graph_ok Po Pi g'.
Proof.
  induction fuel as [|fuel IH]; intros g d g' Hg Hd E; simpl in E.
  - destruct (find_duplicate d) as [[k l]|]; [discriminate | now inversion E; subst].
  - destruct (find_duplicate d) as [[k l]|] eqn:F; [|now inversion E; subst].
    apply find_duplicate_Some in F as [Hin _].
    destruct (combine_entry g d k l) as [[g1 d1]|] eqn:Ec; simpl in E; [|discriminate].
    destruct (combine_entry_ok _ _ _ _ _ _ Hg Hd Hin Ec) as [Hg1 Hd1].
    eapply IH; eauto.
Qed.

Lemma combine_duplicate_edge_ok g g' :
  graph_ok Po Pi g -> combine_duplicate_edge g = Ok g' -> graph_ok Po Pi g'.
Proof.
  unfold combine_duplicate_edge. intros Hg E. inv_bind E.
  eapply combine_loop_ok; [exact Hg| |exact E].
  eapply build_edge_dict_ok; [exact Hg| |exact Hm].
  intros k ids [].
Qed.

Lemma rip_loop_ok fuel : forall g v_start v_end g',
  graph_ok Po Pi g -> rip_loop fuel g v_start v_end = Ok g' -> graph_ok Po Pi g'.
Proof.
  induction fuel as [|fuel IH]; intros g v_start v_end g' Hg E; simpl in E.
  - inv_bind E. destruct a; [discriminate | now inversion E; subst].
  - inv_bind E. destruct a as [v|]; [|now inversion E; subst].
    inv_bind E. inv_bind E.
    eapply IH; [|exact E].
    eapply combine_duplicate_edge_ok; [|exact Hm1].
    eapply rip_ok; eauto.
Qed.

End LabelInvariant.

(* ================================================================== *)
(** * No path query returns an expression with the empty word *)
(* ================================================================== *)

Lemma matches_nil_nullable r w : matches r w -> w = [] -> nullable r = true.
Proof.
  induction 1; intros E; simpl; try reflexivity; try discriminate.
  - apply app_eq_nil in E as [E1 E2]. now rewrite IHmatches1, IHmatches2.
  - now rewrite IHmatches.
  - rewrite IHmatches; [apply orb_true_r | exact E].
Qed.

Lemma proper_facts r : proper r -> r <> Epsilon /\ r <> Empty /\ ~ matches r [].
Proof.
  intros [Hn He]. split; [|split].
  - intros ->. discriminate.
  - exact He.
  - intros Hm. apply matches_nil_nullable in Hm; [congruence | reflexivity].
Qed.

Lemma proper_concat a b : proper a -> proper (Concat a b).
Proof. intros [Hn _]. split; [simpl; now rewrite Hn | discriminate]. Qed.

Lemma proper_concat_r a b : proper b -> proper (Concat a b).
Proof.
  intros [Hn _]. split; [simpl; rewrite Hn; apply andb_false_r | discriminate].
Qed.

Lemma proper_union a b : proper a -> proper b -> proper (Union a b).
Proof. intros [Ha _] [Hb _]. split; [simpl; now rewrite Ha, Hb | discriminate]. Qed.

Lemma opt_proper_None : opt_proper None.
Proof. intros r H. discriminate. Qed.

Lemma opt_proper_union o l : opt_proper o -> proper l -> opt_proper (union_opt o l).
Proof.
  intros Ho Hl r E. destruct o as [r1|]; simpl in E; inversion E; subst.
  - apply proper_union; [now apply Ho | exact Hl].
  - exact Hl.
Qed.

Lemma proper_rip_closed : forall n e_in d r',
  proper_edge n e_in ->
  proper_edge (src e_in)
    (mkEdge (src e_in) d (Concat (label e_in) r') (accepting e_in)) /\
  proper_edge d (mkEdge (src e_in) d (Concat (label e_in) r') (accepting e_in)).
Proof. intros n e_in d r' H. split; apply proper_concat; exact H. Qed.

Lemma proper_union_closed : forall n m e0 c e,
  proper_edge n (set_label e0 c) -> proper_edge m e -> key_of e = key_of e0 ->
  proper_edge n (set_label e0 (Union c (label e))).
Proof. intros n m e0 c e H1 H2 _. apply proper_union; assumption. Qed.

Lemma ids_check_ok h p ids :
  ids_check h p ids = true -> ids_ok h (fun e => p e = true) ids.
Proof.
  unfold ids_check. intros H i Hi.
  rewrite forallb_forall in H. specialize (H i Hi).
  destruct (nth_error h i) as [e|]; [|discriminate]. now exists e.
Qed.

Lemma is_symbol_proper r : is_symbol r = true -> proper r.
Proof. destruct r; simpl; try discriminate. intros _. split; [reflexivity | discriminate]. Qed.

Lemma symbol_labelled_ok g :
  symbol_labelled g = true -> graph_ok proper_edge proper_edge g.
Proof.
  unfold symbol_labelled, graph_ok. intros H v Hv.
  rewrite forallb_forall in H. specialize (H v Hv).
  apply andb_true_iff in H as [Ho Hi].
  apply ids_check_ok in Ho, Hi.
  split; intros i Hin.
  - destruct (Ho i Hin) as (e & E & P). exists e. split; [exact E|].
    now apply is_symbol_proper.
  - destruct (Hi i Hin) as (e & E & P). exists e. split; [exact E|].
    now apply is_symbol_proper.
Qed.

(** The three first loops keep [r1] and [r2] proper. *)
Lemma steps_proper step v_start v_end es :
  step = path_step \/ step = accpath_step \/ step = nonaccpath_step ->
  (forall e, In e es -> proper (label e)) ->
  forall r1 r2, opt_proper r1 -> opt_proper r2 ->
    opt_proper (fst (fold_left (step v_start v_end) es (r1, r2))) /\
    opt_proper (snd (fold_left (step v_start v_end) es (r1, r2))).
Proof.
  intros Hs. induction es as [|e es IH]; intros Hes r1 r2 H1 H2; simpl.
  - now split.
  - assert (He : proper (label e)) by (apply Hes; now left).
    assert (Hes' : forall e', In e' es -> proper (label e'))
      by (intros; apply Hes; now right).
    pose proof (opt_proper_union _ _ H1 He) as U1.
    pose proof (opt_proper_union _ _ H2 He) as U2.
    destruct Hs as [-> | [-> | ->]]; simpl;
      [unfold path_step | unfold accpath_step | unfold nonaccpath_step];
      destruct (dst e =? v_start), (dst e =? v_end), (src e =? v_start),
        (accepting e); simpl; apply IH; auto.
Qed.

Lemma assemble_proper step g v_start v_end res :
  step = path_step \/ step = accpath_step \/ step = nonaccpath_step ->
  graph_ok proper_edge proper_edge g ->
  assemble step g v_start v_end = Ok (Some res) -> proper res.
Proof.
  unfold assemble. intros Hs Hg E.
  inv_bind E. inv_bind E.
  apply get_vertex_Ok in Hm as [Hin Hn].
  assert (Hes : forall e, In e a0 -> proper (label e)).
  { intros e He. eapply (edges_of_ok _ (proper_edge (number a))); eauto.
    now apply Hg. }
  destruct (steps_proper step v_start v_end a0 Hs Hes None None
              opt_proper_None opt_proper_None) as [P1 P2].
  destruct (fold_left (step v_start v_end) a0 (None, None)) as [r1 r2].
  simpl in P1, P2.
  inv_bind E. inv_bind E.
  destruct (fold_left (back_step v_start v_end) a2 (None, None)) as [r3 r4].
  destruct r2 as [r2'|]; [|discriminate].
  destruct (v_start =? v_end); inversion E; subst.
  - now apply P2.
  - unfold combine_final. destruct r1 as [r1'|].
    + apply proper_concat_r. now apply P2.
    + now apply P2.
Qed.

Lemma find_queries_proper g v_start v_end res :
  graph_ok proper_edge proper_edge g ->
  find_path g v_start v_end = Ok (Some res)
  \/ find_accpath g v_start v_end = Ok (Some res)
  \/ find_nonaccpath g v_start v_end = Ok (Some res) ->
  proper res.
Proof.
  intros Hg H.
  assert (Hl : forall g', rip_loop (length (vertices g)) g v_start v_end = Ok g' ->
                          graph_ok proper_edge proper_edge g').
  { intros g' E.
    eapply (rip_loop_ok proper_edge proper_edge proper_rip_closed
              proper_union_closed proper_union_closed); eauto. }
  destruct H as [H|[H|H]];
    [unfold find_path in H | unfold find_accpath in H | unfold find_nonaccpath in H];
    inv_bind H; eapply assemble_proper; try exact H; auto.
Qed.

Lemma fold_union_proper es : forall c,
  proper c -> (forall e, In e es -> proper (label e)) ->
  proper (fold_left (fun result t' => Union result (label t')) es c).
Proof.
  induction es as [|e es IH]; intros c Hc Hes; simpl; [exact Hc|].
  apply IH; [|intros; apply Hes; now right].
  apply proper_union; [exact Hc | apply Hes; now left].
Qed.

Lemma union_labels_proper trans res :
  (forall e, In e trans -> proper (label e)) ->
  union_labels trans = Some res -> proper res.
Proof.
  destruct trans as [|t ts]; simpl; intros Hes E; inversion E; subst.
  apply fold_union_proper; [apply Hes; now left | intros; apply Hes; now right].
Qed.

Lemma precompute_find h vs : forall table n k es,
  precompute h vs = Ok table ->
  find (fun p => fst p =? n) table = Some (k, es) ->
  exists v, find_vertex vs n = Some v /\ edges_of h (out_edges v) = Ok es.
Proof.
  induction vs as [|v vs IH]; intros table n k es E F; simpl in E.
  - inversion E; subst. discriminate.
  - inv_bind E. inv_bind E. inversion E; subst; clear E.
    simpl in F. unfold find_vertex. simpl.
    destruct (number v =? n) eqn:En.
    + inversion F; subst. now exists v.
    + eapply IH; eauto.
Qed.

Lemma transitions_get_In g table i_p j_p e :
  precompute (heap g) (vertices g) = Ok table ->
  In e (transitions_get table i_p j_p) ->
  exists v i, find_vertex (vertices g) i_p = Some v /\ In i (out_edges v) /\
              nth_error (heap g) i = Some e /\ dst e = j_p.
Proof.
  unfold transitions_get. intros Ht He.
  destruct (find (fun p => fst p =? i_p) table) as [[k es]|] eqn:F; [|destruct He].
  apply filter_In in He as [He Hd]. apply Nat.eqb_eq in Hd.
  destruct (precompute_find _ _ _ _ _ _ Ht F) as (v & Fv & Ev).
  destruct (edges_of_In _ _ _ Ev _ He) as (i & Hi & Ei).
  now exists v, i.
Qed.

Lemma r_proper g table i acc :
  precompute (heap g) (vertices g) = Ok table ->
  graph_ok proper_edge proper_edge g ->
  forall kk i_p j_p res, r table i acc kk i_p j_p = Some res -> proper res.
Proof.
  intros Ht Hg.
  assert (Hbase : forall i_p j_p e, In e (transitions_get table i_p j_p) ->
                                    proper (label e)).
  { intros i_p j_p e He.
    destruct (transitions_get_In _ _ _ _ _ Ht He) as (v & j & Fv & Hj & Ej & _).
    apply find_vertex_Some in Fv as [Hv _].
    destruct (proj1 (Hg v Hv) j Hj) as (e' & Ee' & Pe').
    assert (e' = e) by congruence. subst e'. exact Pe'. }
  induction kk as [|k IH]; intros i_p j_p res E; simpl in E.
  - eapply union_labels_proper; [|exact E].
    intros e He. apply (Hbase i_p j_p).
    destruct (i_p =? i); [|exact He].
    destruct acc as [[|]|]; [| |exact He]; apply filter_In in He; tauto.
  - destruct (k =? j_p); [eapply IH; eauto|].
    destruct (k =? i_p).
    + destruct (r table i acc k i_p i_p) as [rep|] eqn:Er;
        [|eapply IH; eauto].
      destruct (r table i acc k i_p j_p) as [go|] eqn:Eg; [|discriminate].
      inversion E; subst. apply proper_concat_r. eapply IH; eauto.
    + destruct (r table i acc k i_p k) as [prev|] eqn:Ep; [|eapply IH; eauto].
      destruct (r table i acc k k j_p) as [go|] eqn:Eg; [|eapply IH; eauto].
      assert (Hres : proper (match r table i acc k k k with
                             | None => Concat prev go
                             | Some rep' => Concat prev (Concat (Star rep') go)
                             end)).
      { destruct (r table i acc k k k); apply proper_concat; eapply IH; eauto. }
      destruct (r table i acc k i_p j_p) as [i_j|] eqn:Ei; inversion E; subst.
      * apply proper_union; [eapply IH; eauto | exact Hres].
      * exact Hres.
Qed.

(** C10: on a graph whose edges all carry a [Symbol], what
    [mcnaughton_yamada], [find_path], [find_accpath] or [find_nonaccpath]
    returns for any two endpoints is, when it is not [None], neither
    [Epsilon] nor [Empty], and the empty word is not in its language. *)
Theorem path_queries_never_admit_the_empty_word
    (g : tGraph) (i j : nat) (acc : option bool) (res : Regex) :
  symbol_labelled g = true ->
  mcnaughton_yamada g i j acc = Ok (Some res)
  \/ find_path g i j = Ok (Some res)
  \/ find_accpath g i j = Ok (Some res)
  \/ find_nonaccpath g i j = Ok (Some res) ->
  res <> Epsilon /\ res <> Empty /\ ~ matches res [].
Proof.
  intros Hs H. apply symbol_labelled_ok in Hs. apply proper_facts.
  destruct H as [H|H].
  - unfold mcnaughton_yamada in H. inv_bind H. inversion H.
    eapply r_proper; eauto.
  - eapply find_queries_proper; eauto.
Qed.

Lemma path_queries_never_admit_the_empty_word_witness :
  exists g,
    aut_to_tgraph aut_two_loops = Ok g /\
    find_accpath g 1 1 = Ok (Some (Symbol "b")) /\
    ~ matches (Symbol "b") [].
Proof.
  eexists.
  split; [vm_compute; reflexivity|].
  match goal with
  | |- find_accpath ?g 1 1 = _ /\ _ =>
    pose proof (path_queries_never_admit_the_empty_word g 1 1 None (Symbol "b")) as W
  end.
  split; [vm_compute; reflexivity|].
  destruct W as (_ & _ & W).
  - vm_compute; reflexivity.
  - right. right. left. vm_compute; reflexivity.
  - exact W.
Defined.

(* ================================================================== *)
(** * The first edge of a cycle has the requested mode *)
(* ================================================================== *)

Lemma matches_concat_inv a b w :
  matches (Concat a b) w -> exists u v, w = u ++ v /\ matches a u /\ matches b v.
Proof. intros H. inversion H; subst. now exists u, v. Qed.

Lemma matches_union_inv a b w :
  matches (Union a b) w -> matches a w \/ matches b w.
Proof. intros H. inversion H; subst; auto. Qed.

Lemma matches_star_inv a w :
  matches (Star a) w ->
  w = [] \/ exists u v, w = u ++ v /\ matches a u /\ matches (Star a) v.
Proof. intros H. inversion H; subst; [now left | right; now exists u, v]. Qed.

Lemma starts_with_edge_app g f b w w2 :
  starts_with_edge g f b w -> starts_with_edge g f b (w ++ w2).
Proof.
  intros (v & i & e & u & w' & Hv & Hi & He & Ha & Hm & ->).
  exists v, i, e, u, (w' ++ w2). rewrite app_assoc. tauto.
Qed.

Section Mode.

Variable g0 : tGraph.
Variable f : nat.

Lemma mode_rip_closed : forall n e_in d r',
  mode_in g0 f n e_in ->
  mode_out g0 f (src e_in)
    (mkEdge (src e_in) d (Concat (label e_in) r') (accepting e_in)) /\
  mode_in g0 f d (mkEdge (src e_in) d (Concat (label e_in) r') (accepting e_in)).
Proof.
  intros n e_in d r' H.
  assert (S : starts_ok g0 f
                (mkEdge (src e_in) d (Concat (label e_in) r') (accepting e_in))).
  { intros Hs w Hw. simpl in *.
    apply matches_concat_inv in Hw as (u & v & -> & Hu & _).
    apply starts_with_edge_app. now apply H. }
  split; [split; [reflexivity | exact S] | exact S].
Qed.

Lemma starts_ok_union m e0 c e :
  starts_ok g0 f (set_label e0 c) -> mode_out g0 f m e -> key_of e = key_of e0 ->
  starts_ok g0 f (set_label e0 (Union c (label e))).
Proof.
  intros H0 [_ He] K Hs w Hw. simpl in *.
  unfold key_of in K. injection K as Ks Kd Ka.
  apply matches_union_inv in Hw as [Hw|Hw].
  - exact (H0 Hs w Hw).
  - rewrite <- Ka. apply He; [congruence | exact Hw].
Qed.

Lemma mode_union_closed_out : forall n m e0 c e,
  mode_out g0 f n (set_label e0 c) -> mode_out g0 f m e -> key_of e = key_of e0 ->
  mode_out g0 f n (set_label e0 (Union c (label e))).
Proof.
  intros n m e0 c e [Hn H0] He K. split; [exact Hn|].
  eapply starts_ok_union; eauto.
Qed.

Lemma mode_union_closed_in : forall n m e0 c e,
  mode_in g0 f n (set_label e0 c) -> mode_out g0 f m e -> key_of e = key_of e0 ->
  mode_in g0 f n (set_label e0 (Union c (label e))).
Proof. intros n m e0 c e H0 He K. eapply starts_ok_union; eauto. Qed.

End Mode.

Lemma set_mem_In x s : set_mem x s = true <-> In x s.
Proof.
  unfold set_mem. rewrite existsb_exists. split.
  - intros (y & Hy & E). apply Nat.eqb_eq in E. now subst.
  - intros H. exists x. split; [exact H | apply Nat.eqb_refl].
Qed.

Lemma nodupb_NoDup l : nodupb l = true -> NoDup l.
Proof.
  induction l as [|x l IH]; simpl; intros H; constructor.
  - apply andb_true_iff in H as [H _]. apply negb_true_iff in H.
    intros Hin. apply set_mem_In in Hin. congruence.
  - apply IH. now apply andb_true_iff in H as [_ H].
Qed.

Lemma find_vertex_NoDup vs v :
  NoDup (map number vs) -> In v vs -> find_vertex vs (number v) = Some v.
Proof.
  unfold find_vertex. induction vs as [|x vs IH]; intros Hn Hin; [destruct Hin|].
  simpl in *. inversion Hn as [|? ? Hx Hn']; subst.
  destruct Hin as [->|Hin]; [now rewrite Nat.eqb_refl|].
  destruct (number x =? number v) eqn:E; [|now apply IH].
  apply Nat.eqb_eq in E. exfalso. apply Hx. rewrite E. now apply in_map.
Qed.

(** A well-formed graph satisfies the mode property about itself. *)
Lemma well_formed_mode g f :
  well_formed g = true -> graph_ok (mode_out g f) (mode_in g f) g.
Proof.
  unfold well_formed. intros H. apply andb_true_iff in H as [Hnd H].
  apply nodupb_NoDup in Hnd. rewrite forallb_forall in H.
  intros v Hv. specialize (H v Hv). apply andb_true_iff in H as [Ho Hi].
  apply ids_check_ok in Ho. rewrite forallb_forall in Hi. split.
  - intros i Hin. destruct (Ho i Hin) as (e & E & Hs). apply Nat.eqb_eq in Hs.
    exists e. split; [exact E|]. split; [exact Hs|].
    intros Hf w Hw. exists v, i, e, w, []. rewrite app_nil_r.
    rewrite <- Hf, Hs. split; [now apply find_vertex_NoDup|]. tauto.
  - intros i Hin. specialize (Hi i Hin).
    destruct (nth_error (heap g) i) as [e|] eqn:E; [|discriminate].
    destruct (find_vertex (vertices g) (src e)) as [u|] eqn:Fu; [|discriminate].
    apply set_mem_In in Hi.
    exists e. split; [reflexivity|].
    intros Hf w Hw. exists u, i, e, w, []. rewrite app_nil_r.
    rewrite <- Hf. tauto.
Qed.

(** The accumulator [r2] of the cycle queries from [f] to [f]. *)
Lemma cycle_steps_mode g0 f (b : bool) es :
  (forall e, In e es -> src e = f /\ starts_ok g0 f e) ->
  forall r1 r2,
    (forall res w, r2 = Some res -> matches res w -> starts_with_edge g0 f b w) ->
    forall res w,
      snd (fold_left ((if b then accpath_step else nonaccpath_step) f f) es (r1, r2))
      = Some res ->
      matches res w -> starts_with_edge g0 f b w.
Proof.
  induction es as [|e es IH]; intros Hes r1 r2 H2 res w; simpl; [apply H2|].
  destruct (Hes e (or_introl eq_refl)) as [Hs He].
  assert (Hes' : forall e', In e' es -> src e' = f /\ starts_ok g0 f e')
    by (intros; apply Hes; now right).
  assert (U : accepting e = b ->
              forall res w, union_opt r2 (label e) = Some res -> matches res w ->
                            starts_with_edge g0 f b w).
  { intros Ha res' w' E Hw. destruct r2 as [r2'|]; simpl in E; inversion E; subst.
    - apply matches_union_inv in Hw as [Hw|Hw]; [eapply H2; eauto|].
      now apply He.
    - now apply He. }
  destruct b; [unfold accpath_step at 2 | unfold nonaccpath_step at 2];
    rewrite Hs, Nat.eqb_refl; destruct (dst e =? f), (accepting e) eqn:Ea; simpl;
    apply IH; auto; apply U; reflexivity.
Qed.

Lemma cycle_assemble_mode g0 g f (b : bool) res w :
  graph_ok (mode_out g0 f) (mode_in g0 f) g ->
  assemble (if b then accpath_step else nonaccpath_step) g f f = Ok (Some res) ->
  matches res w -> starts_with_edge g0 f b w.
Proof.
  unfold assemble. intros Hg E Hw.
  inv_bind E. inv_bind E.
  apply get_vertex_Ok in Hm as [Hin Hn].
  assert (Hes : forall e, In e a0 -> src e = f /\ starts_ok g0 f e).
  { intros e He.
    pose proof (edges_of_ok _ (mode_out g0 f (number a)) _ _ Hm0
                  (proj1 (Hg a Hin)) e He) as [H1 H2].
    split; [congruence | exact H2]. }
  pose proof (cycle_steps_mode g0 f b a0 Hes None None) as C.
  destruct (fold_left ((if b then accpath_step else nonaccpath_step) f f) a0
                      (None, None)) as [r1 r2].
  simpl in C.
  inv_bind E. inv_bind E.
  destruct (fold_left (back_step f f) a2 (None, None)) as [r3 r4].
  destruct r2 as [r2'|]; [|discriminate].
  rewrite Nat.eqb_refl in E. inversion E; subst.
  eapply C; eauto. intros ? ? X. discriminate.
Qed.

Lemma find_cycle_mode g f (b : bool) res w :
  well_formed g = true ->
  (if b then find_accpath g f f else find_nonaccpath g f f) = Ok (Some res) ->
  matches res w -> starts_with_edge g f b w.
Proof.
  intros Hwf E Hw.
  assert (E' : exists g', rip_loop (length (vertices g)) g f f = Ok g' /\
                 assemble (if b then accpath_step else nonaccpath_step) g' f f
                 = Ok (Some res)).
  { destruct b; [unfold find_accpath in E | unfold find_nonaccpath in E];
      inv_bind E; eauto. }
  destruct E' as (g' & El & Ea).
  eapply cycle_assemble_mode; [|exact Ea|exact Hw].
  eapply (rip_loop_ok (mode_out g f) (mode_in g f) (mode_rip_closed g f)
            (mode_union_closed_out g f) (mode_union_closed_in g f)); [|exact El].
  now apply well_formed_mode.
Qed.

Lemma fold_union_matches es : forall c w,
  matches (fold_left (fun result t' => Union result (label t')) es c) w ->
  matches c w \/ exists e, In e es /\ matches (label e) w.
Proof.
  induction es as [|e es IH]; intros c w H; simpl in H; [now left|].
  apply IH in H as [H|(e' & He' & Hm)].
  - apply matches_union_inv in H as [H|H]; [now left|].
    right. exists e. simpl. auto.
  - right. exists e'. simpl. auto.
Qed.

Lemma union_labels_matches trans res w :
  union_labels trans = Some res -> matches res w ->
  exists e, In e trans /\ matches (label e) w.
Proof.
  destruct trans as [|t ts]; simpl; intros E H; inversion E; subst.
  apply fold_union_matches in H as [H|(e & He & Hm)].
  - exists t. auto.
  - exists e. auto.
Qed.

(** McNaughton-Yamada with a mode: every expression for paths that leave
    the start state begins with an edge of the mode. *)
Lemma r_mode g table f (b : bool) :
  precompute (heap g) (vertices g) = Ok table ->
  forall kk j_p res w,
    r table f (Some b) kk f j_p = Some res ->
    matches res w -> starts_with_edge g f b w.
Proof.
  intros Ht.
  induction kk as [|k IH]; intros j_p res w E Hw; simpl in E.
  - rewrite Nat.eqb_refl in E.
    destruct (union_labels_matches _ _ _ E Hw) as (e & He & Hm).
    assert (He' : In e (transitions_get table f j_p) /\ accepting e = b).
    { destruct b; apply filter_In in He as [He Ha]; split; auto.
      now apply negb_true_iff in Ha. }
    destruct He' as [He' Ha].
    destruct (transitions_get_In _ _ _ _ _ Ht He') as (v & i & Fv & Hi & Ei & _).
    exists v, i, e, w, []. rewrite app_nil_r. tauto.
  - destruct (k =? j_p); [exact (IH _ _ _ E Hw)|].
    destruct (k =? f).
    + destruct (r table f (Some b) k f f) as [rep|] eqn:Er;
        [|exact (IH _ _ _ E Hw)].
      destruct (r table f (Some b) k f j_p) as [go|] eqn:Eg; [|discriminate].
      inversion E; subst.
      apply matches_concat_inv in Hw as (u & v & -> & Hu & Hv).
      apply matches_star_inv in Hu as [->|(u1 & u2 & -> & Hu1 & _)].
      * simpl. exact (IH _ _ _ Eg Hv).
      * rewrite <- app_assoc. apply starts_with_edge_app.
        exact (IH _ _ _ Er Hu1).
    + destruct (r table f (Some b) k f k) as [prev|] eqn:Ep;
        [|exact (IH _ _ _ E Hw)].
      destruct (r table f (Some b) k k j_p) as [go|] eqn:Eg;
        [|exact (IH _ _ _ E Hw)].
      assert (Hres : forall w',
                 matches (match r table f (Some b) k k k with
                          | None => Concat prev go
                          | Some rep' => Concat prev (Concat (Star rep') go)
                          end) w' -> starts_with_edge g f b w').
      { intros w' Hw'.
        destruct (r table f (Some b) k k k);
          apply matches_concat_inv in Hw' as (u & v & -> & Hu & _);
          apply starts_with_edge_app; exact (IH _ _ _ Ep Hu). }
      destruct (r table f (Some b) k f j_p) as [i_j|] eqn:Ei; inversion E; subst.
      * apply matches_union_inv in Hw as [Hw|Hw];
          [exact (IH _ _ _ Ei Hw) | now apply Hres].
      * now apply Hres.
Qed.

(** C6: for a cycle query at [f], by state elimination ([find_accpath],
    [find_nonaccpath]) or by McNaughton-Yamada with [acc] set, every word of
    the returned expression starts with an edge that leaves [f] in [g] and
    has the requested accepting flag. *)
Theorem cycle_words_start_with_an_edge_of_the_mode
    (g : tGraph) (f : nat) (b : bool) (res : Regex) (w : list string) :
  well_formed g = true ->
  (if b then find_accpath g f f else find_nonaccpath g f f) = Ok (Some res)
  \/ mcnaughton_yamada g f f (Some b) = Ok (Some res) ->
  matches res w ->
  starts_with_edge g f b w.
Proof.
  intros Hwf [H|H] Hw.
  - eapply find_cycle_mode; eauto.
  - unfold mcnaughton_yamada in H. inv_bind H. inversion H as [E].
    eapply r_mode; eauto.
Qed.

Lemma cycle_words_start_with_an_edge_of_the_mode_witness :
  exists g,
    aut_to_tgraph aut_two_loops = Ok g /\
    find_accpath g 1 1 = Ok (Some (Symbol "b")) /\
    find_nonaccpath g 1 1 = Ok (Some (Symbol "c")) /\
    starts_with_edge g 1 true ["b"] /\
    starts_with_edge g 1 false ["c"].
Proof.
  eexists.
  split; [vm_compute; reflexivity|].
  match goal with
  | |- find_accpath ?g 1 1 = _ /\ _ =>
    pose proof (cycle_words_start_with_an_edge_of_the_mode g 1 true
                  (Symbol "b") ["b"]) as W1;
    pose proof (cycle_words_start_with_an_edge_of_the_mode g 1 false
                  (Symbol "c") ["c"]) as W2
  end.
  split; [vm_compute; reflexivity|].
  split; [vm_compute; reflexivity|].
  split.
  - apply W1; [vm_compute; reflexivity | left; vm_compute; reflexivity
              | apply m_symbol].
  - apply W2; [vm_compute; reflexivity | left; vm_compute; reflexivity
              | apply m_symbol].
Defined.

(* ================================================================== *)
(** * The graphs the importer builds *)
(* ================================================================== *)

Lemma update_vertex_file s d id vs :
  update_vertex d (fun x => set_in x (in_edges x ++ [id]))
    (update_vertex s (fun x => set_out x (out_edges x ++ [id])) vs)
  = map (file_edge s d id) vs.
Proof.
  unfold update_vertex. rewrite map_map. apply map_ext. intros x.
  unfold file_edge, set_in, set_out.
  destruct (number x =? s); simpl; destruct (number x =? d); simpl;
    now destruct x.
Qed.

Lemma find_vertex_map F vs n :
  (forall x, number (F x) = number x) ->
  find_vertex (map F vs) n = option_map F (find_vertex vs n).
Proof.
  intros HF. unfold find_vertex. induction vs as [|x vs IH]; simpl; [reflexivity|].
  rewrite HF. destruct (number x =? n); [reflexivity | exact IH].
Qed.

Lemma find_vertex_update n f vs m :
  (forall x, number (f x) = number x) ->
  find_vertex (update_vertex n f vs) m
  = option_map (fun x => if number x =? n then f x else x) (find_vertex vs m).
Proof.
  intros Hf. unfold update_vertex. apply find_vertex_map.
  intros x. destruct (number x =? n); [apply Hf | reflexivity].
Qed.

Lemma set_add_In x s l : In x (set_add s l) <-> x = s \/ In x l.
Proof.
  induction l as [|y l IH]; simpl.
  - split; [intros [H|[]]; auto | intros [H|[]]; auto].
  - destruct (s <? y).
    + simpl. split; [intros [H|H]; auto | intros [H|H]; auto].
    + destruct (s =? y) eqn:E.
      * apply Nat.eqb_eq in E. subst. simpl. split; [auto | intros [H|H]; auto].
      * simpl. rewrite IH. tauto.
Qed.

(** What [tGraph.add_edge] returns, field by field. *)
Lemma add_edge_spec g s d l a g' :
  add_edge g s d l a = Ok g' ->
  (exists vd, find_vertex (vertices g) d = Some vd) /\
  (exists vs, find_vertex (vertices g) s = Some vs) /\
  heap g' = heap g ++ [mkEdge s d l a] /\
  vertices g' = map (file_edge s d (length (heap g))) (vertices g) /\
  final_states g' = (if a then set_add s (final_states g) else final_states g) /\
  acc_trans g' = (if a then acc_trans g ++ [mkEdge s d l a] else acc_trans g) /\
  nonacc_trans g'
  = (if a then nonacc_trans g else nonacc_trans g ++ [mkEdge s d l false]) /\
  num_states g' = num_states g /\ initial_state g' = initial_state g.
Proof.
  unfold add_edge, Graph_add_edge. intros E.
  inv_bind E. inv_bind Hm. inv_bind Hm. inversion Hm; subst; clear Hm.
  unfold get_vertex in Hm0, Hm1. simpl in Hm0, Hm1.
  rewrite find_vertex_update in Hm1 by reflexivity.
  destruct (find_vertex (vertices g) s) as [vs|] eqn:Fs; [|discriminate].
  destruct (find_vertex (vertices g) d) as [vd|] eqn:Fd; [|discriminate].
  split; [now exists vd|]. split; [now exists vs|].
  destruct a; inversion E; subst; simpl; rewrite update_vertex_file; tauto.
Qed.

Lemma file_edge_number s d id x : number (file_edge s d id x) = number x.
Proof. reflexivity. Qed.

Lemma imported_new n initial : imported (new_tGraph n initial).
Proof.
  assert (Hv : forall v, In v (vertices (new_tGraph n initial)) ->
                         out_edges v = [] /\ in_edges v = []).
  { simpl. intros v Hv. apply in_map_iff in Hv as (i & <- & _). now split. }
  constructor.
  - simpl. rewrite map_map. simpl. rewrite map_id. apply seq_NoDup.
  - intros v i Hin Hi. destruct (Hv v Hin) as [Ho _]. rewrite Ho in Hi. destruct Hi.
  - intros v i Hin Hi. destruct (Hv v Hin) as [_ Ho]. rewrite Ho in Hi. destruct Hi.
  - intros s. split; [intros []|].
    intros (v & i & e & Fv & Hi & _). apply find_vertex_Some in Fv as [Hin _].
    destruct (Hv v Hin) as [Ho _]. rewrite Ho in Hi. destruct Hi.
  - intros [|] e [].
Qed.

Lemma imported_add_edge g s d l a g' :
  imported g -> add_edge g s d l a = Ok g' -> imported g'.
Proof.
  intros [Hk Ho Hi Hf Hfl] E.
  apply add_edge_spec in E
    as ((vd & Fd) & (vs & Fs) & Eh & Ev & Ef & Ea & En & _ & _).
  set (id := length (heap g)) in *.
  set (e0 := mkEdge s d l a) in *.
  assert (Hold : forall i e, nth_error (heap g) i = Some e ->
                             nth_error (heap g') i = Some e).
  { intros i e Hi'. rewrite Eh, nth_error_app1; [exact Hi'|].
    apply nth_error_Some. congruence. }
  assert (Hnew : nth_error (heap g') id = Some e0).
  { rewrite Eh, nth_error_app2, Nat.sub_diag; [reflexivity | unfold id; lia]. }
  assert (Hfind : forall m, find_vertex (vertices g') m
                            = option_map (file_edge s d id) (find_vertex (vertices g) m)).
  { intros m. rewrite Ev. now apply find_vertex_map. }
  assert (Htr : forall b e, In e (trans_of g b) -> In e (trans_of g' b)).
  { intros b e He. unfold trans_of in *. rewrite Ea, En.
    destruct b, a; auto; apply in_or_app; now left. }
  assert (Htr0 : In e0 (trans_of g' a)).
  { unfold trans_of. rewrite Ea, En. unfold e0.
    destruct a; apply in_or_app; right; now left. }
  assert (Hvs : number vs = s) by (now apply find_vertex_Some in Fs).
  assert (Hvd : number vd = d) by (now apply find_vertex_Some in Fd).
  constructor.
  - rewrite Ev, map_map. simpl. exact Hk.
  - intros v' i Hv' Hi'. rewrite Ev in Hv'.
    apply in_map_iff in Hv' as (v & <- & Hv). simpl in Hi'. simpl.
    assert (Hcase : In i (out_edges v) \/ (number v = s /\ i = id)).
    { destruct (number v =? s) eqn:E; [|now left].
      apply Nat.eqb_eq in E. apply in_app_or in Hi' as [H|[H|[]]]; auto. }
    destruct Hcase as [Hi0|[Es ->]].
    + destruct (Ho v i Hv Hi0) as (e & Ee & Hs & (w & Fw & Hw) & Ht).
      exists e. split; [now apply Hold|]. split; [exact Hs|]. split.
      * exists (file_edge s d id w). rewrite Hfind, Fw. split; [reflexivity|].
        simpl. destruct (number w =? d); [apply in_or_app; now left | exact Hw].
      * now apply Htr.
    + exists e0. split; [exact Hnew|]. split; [simpl; congruence|]. split.
      * exists (file_edge s d id vd). simpl. rewrite Hfind, Fd.
        split; [reflexivity|]. simpl. rewrite Hvd, Nat.eqb_refl.
        apply in_or_app. right. now left.
      * exact Htr0.
  - intros v' i Hv' Hi'. rewrite Ev in Hv'.
    apply in_map_iff in Hv' as (v & <- & Hv). simpl in Hi'.
    assert (Hcase : In i (in_edges v) \/ (number v = d /\ i = id)).
    { destruct (number v =? d) eqn:E; [|now left].
      apply Nat.eqb_eq in E. apply in_app_or in Hi' as [H|[H|[]]]; auto. }
    destruct Hcase as [Hi0|[Es ->]].
    + destruct (Hi v i Hv Hi0) as (e & Ee & u & Fu & Hu).
      exists e. split; [now apply Hold|].
      exists (file_edge s d id u). rewrite Hfind, Fu. split; [reflexivity|].
      simpl. destruct (number u =? s); [apply in_or_app; now left | exact Hu].
    + exists e0. split; [exact Hnew|].
      exists (file_edge s d id vs). simpl. rewrite Hfind, Fs.
      split; [reflexivity|]. simpl. rewrite Hvs, Nat.eqb_refl.
      apply in_or_app. right. now left.
  - intros s'. rewrite Ef. split.
    + intros Hs'.
      assert (Hcase : (a = true /\ s' = s) \/ In s' (final_states g)).
      { destruct a; [|now right]. apply set_add_In in Hs' as [H|H]; auto. }
      destruct Hcase as [[-> ->]|Hs0].
      * exists (file_edge s d id vs), id, e0. rewrite Hfind, Fs.
        split; [reflexivity|]. split; [|now split].
        simpl. rewrite Hvs, Nat.eqb_refl. apply in_or_app. right. now left.
      * apply Hf in Hs0 as (v & i & e & Fv & Hi0 & Ee & Ha).
        exists (file_edge s d id v), i, e. rewrite Hfind, Fv.
        split; [reflexivity|]. split; [|split; [now apply Hold | exact Ha]].
        simpl. destruct (number v =? s); [apply in_or_app; now left | exact Hi0].
    + intros (v' & i & e & Fv' & Hi' & Ee & Ha).
      rewrite Hfind in Fv'.
      destruct (find_vertex (vertices g) s') as [v|] eqn:Fv; [|discriminate].
      inversion Fv'; subst v'. simpl in Hi'.
      assert (Hn : number v = s') by (now apply find_vertex_Some in Fv).
      assert (Hv : In v (vertices g)) by (now apply find_vertex_Some in Fv).
      assert (Hcase : In i (out_edges v) \/ (number v = s /\ i = id)).
      { destruct (number v =? s) eqn:E; [|now left].
        apply Nat.eqb_eq in E. apply in_app_or in Hi' as [H|[H|[]]]; auto. }
      destruct Hcase as [Hi0|[Es ->]].
      * assert (In s' (final_states g)).
        { apply Hf. exists v, i, e. split; [exact Fv|]. split; [exact Hi0|].
          destruct (Ho v i Hv Hi0) as (e' & Ee' & _).
          pose proof (Hold _ _ Ee'). split; [congruence | exact Ha]. }
        destruct a; [apply set_add_In; now right | assumption].
      * assert (e = e0) by congruence. subst e. simpl in Ha. subst a.
        apply set_add_In. left. congruence.
  - intros b e He. unfold trans_of in He. rewrite Ea, En in He.
    destruct b, a.
    + apply in_app_or in He as [He|[<-|[]]]; [exact (Hfl true e He) | reflexivity].
    + exact (Hfl true e He).
    + exact (Hfl false e He).
    + apply in_app_or in He as [He|[<-|[]]]; [exact (Hfl false e He) | reflexivity].
Qed.

Lemma imported_import_edges ts : forall g g',
  imported g -> import_edges g ts = Ok g' -> imported g'.
Proof.
  induction ts as [|t ts IH]; intros g g' Hg E; simpl in E.
  - now inversion E; subst.
  - inv_bind E. eapply IH; [|exact E]. eapply imported_add_edge; eauto.
Qed.

Lemma aut_to_tgraph_imported aut g : aut_to_tgraph aut = Ok g -> imported g.
Proof.
  unfold aut_to_tgraph. destruct (negb (aut_num_sets aut =? 1)); [discriminate|].
  apply imported_import_edges, imported_new.
Qed.

Lemma edge_eqb_refl e : edge_eqb e e = true.
Proof. unfold edge_eqb. now rewrite !Nat.eqb_refl, regex_eqb_refl. Qed.

Lemma NoDup_nodupb l : NoDup l -> nodupb l = true.
Proof.
  induction 1 as [|x l Hx Hn IH]; simpl; [reflexivity|].
  rewrite IH, andb_true_r. apply negb_true_iff.
  destruct (set_mem x l) eqn:E; [|reflexivity].
  apply set_mem_In in E. contradiction.
Qed.

Lemma imported_well_formed g : imported g -> well_formed g = true.
Proof.
  intros [Hk Ho Hi _ _]. unfold well_formed.
  rewrite (NoDup_nodupb _ Hk). simpl.
  apply forallb_forall. intros v Hv. apply andb_true_iff. split.
  - unfold ids_check. apply forallb_forall. intros i Hin.
    destruct (Ho v i Hv Hin) as (e & Ee & Hs & _). rewrite Ee.
    now apply Nat.eqb_eq.
  - apply forallb_forall. intros i Hin.
    destruct (Hi v i Hv Hin) as (e & Ee & u & Fu & Hu). rewrite Ee, Fu.
    now apply set_mem_In.
Qed.

Lemma import_edges_built ts : forall g g',
  built g -> import_edges g ts = Ok g' -> built g'.
Proof.
  induction ts as [|t ts IH]; intros g g' Hg E; simpl in E.
  - now inversion E; subst.
  - inv_bind E. eapply IH; [|exact E]. eapply built_add; eauto.
Qed.

Lemma aut_to_tgraph_built aut g : aut_to_tgraph aut = Ok g -> built g.
Proof.
  unfold aut_to_tgraph. destruct (negb (aut_num_sets aut =? 1)); [discriminate|].
  apply import_edges_built, built_new.
Qed.

Lemma built_imported g : built g -> imported g.
Proof.
  induction 1 as [n initial|g s d l a g' _ IH E].
  - apply imported_new.
  - eapply imported_add_edge; eauto.
Qed.

(* ================================================================== *)
(** * The loops end within their fuel *)
(* ================================================================== *)

Lemma terminates_bind {A B} (m : result A) (k : A -> result B) :
  terminates m -> (forall a, m = Ok a -> terminates (k a)) -> terminates (bind m k).
Proof.
  unfold terminates. intros Hm Hk. destruct m as [a|e]; simpl.
  - now apply Hk.
  - intros E. apply Hm. inversion E. reflexivity.
Qed.

Lemma terminates_Ok {A} (a : A) : terminates (Ok a).
Proof. discriminate. Qed.

Lemma terminates_Err {A} (e : exn) : e <> OutOfFuel -> terminates (@Err A e).
Proof. intros H E. inversion E. contradiction. Qed.

Lemma postorder_loop_terminates size (fuel : nat) :
  forall stack ret_val,
    total weight stack <= fuel ->
    terminates (postorder_loop fuel size stack ret_val).
Proof.
  induction fuel as [|fuel IH]; intros stack ret_val Hfuel;
    destruct stack as [|node stack']; simpl; try apply terminates_Ok.
  - unfold total in Hfuel. simpl in Hfuel. pose proof (weight_pos node). lia.
  - unfold total in *. simpl in Hfuel.
    destruct node; try apply terminates_Ok; apply IH; simpl in *; lia.
Qed.

Lemma lookup_edge_terminates h i : terminates (lookup_edge h i).
Proof. unfold lookup_edge. destruct (nth_error h i); discriminate. Qed.

Lemma edges_of_terminates h ids : terminates (edges_of h ids).
Proof.
  induction ids as [|i ids IH]; simpl; [apply terminates_Ok|].
  apply terminates_bind; [apply lookup_edge_terminates|]. intros e _.
  apply terminates_bind; [exact IH|]. intros es _. apply terminates_Ok.
Qed.

Lemma get_vertex_terminates g n : terminates (get_vertex g n).
Proof. unfold get_vertex. destruct (find_vertex (vertices g) n); discriminate. Qed.

Lemma list_remove_edge_terminates h e ids : terminates (list_remove_edge h e ids).
Proof.
  induction ids as [|i ids IH]; simpl; [discriminate|].
  apply terminates_bind; [apply lookup_edge_terminates|]. intros x _.
  destruct (edge_eqb x e); [apply terminates_Ok|].
  apply terminates_bind; [exact IH|]. intros; apply terminates_Ok.
Qed.

Lemma list_remove_obj_terminates h id e ids : terminates (list_remove_obj h id e ids).
Proof.
  induction ids as [|i ids IH]; simpl; [discriminate|].
  destruct (i =? id); [apply terminates_Ok|].
  apply terminates_bind; [apply lookup_edge_terminates|]. intros x _.
  destruct (edge_eqb x e); [apply terminates_Ok|].
  apply terminates_bind; [exact IH|]. intros; apply terminates_Ok.
Qed.

Lemma trans_remove_terminates e l : terminates (trans_remove e l).
Proof.
  induction l as [|x l IH]; simpl; [discriminate|].
  destruct (edge_eqb x e); [apply terminates_Ok|].
  apply terminates_bind; [exact IH|]. intros; apply terminates_Ok.
Qed.

Lemma filter_edges_terminates h p ids : terminates (filter_edges h p ids).
Proof.
  unfold filter_edges. apply terminates_bind; [apply edges_of_terminates|].
  intros; apply terminates_Ok.
Qed.

Lemma get_accepting_transitions_from_terminates g s :
  terminates (get_accepting_transitions_from g s).
Proof.
  unfold get_accepting_transitions_from.
  apply terminates_bind; [apply get_vertex_terminates|].
  intros; apply filter_edges_terminates.
Qed.

Lemma state_pseudoaccepting_terminates g s : terminates (state_pseudoaccepting g s).
Proof.
  unfold state_pseudoaccepting, get_nonaccepting_transitions_from.
  apply terminates_bind.
  - apply terminates_bind; [apply get_vertex_terminates|].
    intros; apply filter_edges_terminates.
  - intros non _. destruct (0 <? length non); [|apply terminates_Ok].
    apply terminates_bind; [apply get_accepting_transitions_from_terminates|].
    intros; apply terminates_Ok.
Qed.

Lemma Graph_add_edge_terminates g s d l a : terminates (Graph_add_edge g s d l a).
Proof.
  unfold Graph_add_edge.
  apply terminates_bind; [apply get_vertex_terminates|]. intros _ _.
  apply terminates_bind; [apply get_vertex_terminates|]. intros; apply terminates_Ok.
Qed.

Lemma add_edge_terminates g s d l a : terminates (add_edge g s d l a).
Proof.
  unfold add_edge. apply terminates_bind; [apply Graph_add_edge_terminates|].
  intros g1 _. destruct a; apply terminates_Ok.
Qed.

Lemma add_edges_terminates l : forall g, terminates (add_edges g l).
Proof.
  induction l as [|[[[s t] r'] a] l IH]; intros g; simpl; [apply terminates_Ok|].
  apply terminates_bind; [apply add_edge_terminates|]. intros; apply IH.
Qed.

Lemma Graph_remove_edge_terminates g s d l : terminates (Graph_remove_edge g s d l).
Proof.
  unfold Graph_remove_edge.
  apply terminates_bind; [apply get_vertex_terminates|]. intros vs _.
  apply terminates_bind; [apply list_remove_edge_terminates|]. intros outs _.
  apply terminates_bind; [apply get_vertex_terminates|]. intros vd _.
  apply terminates_bind; [apply list_remove_edge_terminates|].
  intros; apply terminates_Ok.
Qed.

Lemma remove_edge_terminates g s d l a : terminates (remove_edge g s d l a).
Proof.
  unfold remove_edge.
  apply terminates_bind; [apply Graph_remove_edge_terminates|]. intros g1 _.
  apply terminates_bind.
  - destruct a; (apply terminates_bind; [apply trans_remove_terminates|]);
      intros; apply terminates_Ok.
  - intros g2 _. destruct (set_mem s (final_states g2)); [|apply terminates_Ok].
    apply terminates_bind; [apply get_accepting_transitions_from_terminates|].
    intros acc _. destruct (length acc =? 0); apply terminates_Ok.
Qed.

Lemma detach_in_edges_terminates ids : forall g, terminates (detach_in_edges g ids).
Proof.
  induction ids as [|i ids IH]; intros g; simpl; [apply terminates_Ok|].
  apply terminates_bind; [apply lookup_edge_terminates|]. intros e _.
  apply terminates_bind; [apply get_vertex_terminates|]. intros u _.
  apply terminates_bind; [apply list_remove_edge_terminates|]. intros; apply IH.
Qed.

Lemma detach_out_edges_terminates ids : forall g, terminates (detach_out_edges g ids).
Proof.
  induction ids as [|i ids IH]; intros g; simpl; [apply terminates_Ok|].
  apply terminates_bind; [apply lookup_edge_terminates|]. intros e _.
  apply terminates_bind; [apply get_vertex_terminates|]. intros u _.
  apply terminates_bind; [apply list_remove_edge_terminates|]. intros; apply IH.
Qed.

Lemma rip_terminates g v : terminates (rip g v).
Proof.
  unfold rip, contain_self_loop.
  apply terminates_bind.
  { apply terminates_bind; [apply get_vertex_terminates|]. intros vx _.
    apply terminates_bind; [apply edges_of_terminates|]. intros; apply terminates_Ok. }
  intros loop _.
  apply terminates_bind; [apply get_vertex_terminates|]. intros vx _.
  apply terminates_bind; [apply edges_of_terminates|]. intros ins _.
  apply terminates_bind; [apply edges_of_terminates|]. intros outs _.
  apply terminates_bind; [apply detach_in_edges_terminates|]. intros g1 _.
  apply terminates_bind; [apply get_vertex_terminates|]. intros v1 _.
  apply terminates_bind; [apply detach_out_edges_terminates|]. intros g2 _.
  apply terminates_bind; [apply add_edges_terminates|]. intros; apply terminates_Ok.
Qed.

Lemma dict_add_edges_terminates h ids : forall d, terminates (dict_add_edges h ids d).
Proof.
  induction ids as [|i ids IH]; intros d; simpl; [apply terminates_Ok|].
  apply terminates_bind; [apply lookup_edge_terminates|]. intros; apply IH.
Qed.

Lemma build_edge_dict_terminates h vs : forall d, terminates (build_edge_dict h vs d).
Proof.
  induction vs as [|v vs IH]; intros d; simpl; [apply terminates_Ok|].
  apply terminates_bind; [apply dict_add_edges_terminates|]. intros; apply IH.
Qed.

Lemma remove_others_terminates key others : forall g d,
  terminates (remove_others g d key others).
Proof.
  induction others as [|id rest IH]; intros g d; simpl; [apply terminates_Ok|].
  apply terminates_bind; [apply lookup_edge_terminates|]. intros e _.
  apply terminates_bind; [apply remove_edge_terminates|]. intros g1 _.
  apply terminates_bind; [apply list_remove_obj_terminates|]. intros; apply IH.
Qed.

Lemma combine_entry_terminates g d key edges :
  terminates (combine_entry g d key edges).
Proof.
  unfold combine_entry. destruct edges as [|id0 others]; [discriminate|].
  apply terminates_bind; [apply lookup_edge_terminates|]. intros e0 _.
  apply terminates_bind; [apply edges_of_terminates|]. intros es _.
  apply terminates_bind; [apply remove_others_terminates|].
  intros [g2 d2] _. apply terminates_Ok.
Qed.

Lemma keys_dict_append_In key id d k :
  In k (keys_of (dict_append key id d)) -> In k (keys_of d) \/ k = key.
Proof.
  unfold keys_of. induction d as [|[k0 l0] d IH]; simpl.
  - intros [H|[]]; auto.
  - destruct (key_eqb k0 key); simpl; intros [H|H]; auto.
    destruct (IH H); auto.
Qed.

Lemma keys_dict_append_NoDup key id d :
  NoDup (keys_of d) -> NoDup (keys_of (dict_append key id d)).
Proof.
  unfold keys_of. induction d as [|[k0 l0] d IH]; simpl; intros H.
  - constructor; [intros [] | constructor].
  - destruct (key_eqb k0 key) eqn:E; simpl; [exact H|].
    inversion H as [|? ? Hk Hn]; subst. constructor; [|now apply IH].
    intros Hin. apply keys_dict_append_In in Hin as [Hin|Hin]; [contradiction|].
    subst. rewrite key_eqb_refl in E. discriminate.
Qed.

Lemma dict_add_edges_NoDup h ids : forall d d',
  NoDup (keys_of d) -> dict_add_edges h ids d = Ok d' -> NoDup (keys_of d').
Proof.
  induction ids as [|i ids IH]; intros d d' H E; simpl in E.
  - now inversion E; subst.
  - inv_bind E. eapply IH; [|exact E]. now apply keys_dict_append_NoDup.
Qed.

Lemma build_edge_dict_NoDup h vs : forall d d',
  NoDup (keys_of d) -> build_edge_dict h vs d = Ok d' -> NoDup (keys_of d').
Proof.
  induction vs as [|v vs IH]; intros d d' H E; simpl in E.
  - now inversion E; subst.
  - inv_bind E. eapply IH; [|exact E]. eapply dict_add_edges_NoDup; eauto.
Qed.

Lemma keys_dict_set key l d : keys_of (dict_set key l d) = keys_of d.
Proof.
  unfold keys_of, dict_set. rewrite map_map. apply map_ext.
  intros [k0 l0]. simpl. now destruct (key_eqb k0 key).
Qed.

Lemma dict_get_NoDup d key edges :
  NoDup (keys_of d) -> In (key, edges) d -> dict_get d key = edges.
Proof.
  unfold keys_of, dict_get. induction d as [|[k0 l0] d IH]; simpl; intros Hn Hin;
    [destruct Hin|].
  inversion Hn as [|? ? Hk Hn']; subst.
  destruct Hin as [Hin|Hin].
  - inversion Hin; subst. now rewrite key_eqb_refl.
  - destruct (key_eqb k0 key) eqn:E; [|now apply IH].
    apply key_eqb_eq in E. subst. exfalso. apply Hk.
    change key with (fst (key, edges)). now apply in_map.
Qed.

Lemma dict_get_set key l d :
  In key (keys_of d) -> dict_get (dict_set key l d) key = l.
Proof.
  unfold keys_of, dict_get, dict_set. induction d as [|[k0 l0] d IH]; simpl;
    intros Hin; [destruct Hin|].
  destruct (key_eqb k0 key) eqn:E; simpl.
  - now rewrite E.
  - rewrite E. apply IH. destruct Hin as [Hin|Hin]; [|exact Hin].
    subst. rewrite key_eqb_refl in E. discriminate.
Qed.

Lemma remove_others_dict key others : forall g d g' d',
  In key (keys_of d) ->
  remove_others g d key others = Ok (g', d') ->
  keys_of d' = keys_of d /\
  length (dict_get d key) = length others + length (dict_get d' key).
Proof.
  induction others as [|id rest IH]; intros g d g' d' Hk E; simpl in E.
  - inversion E; subst. now split.
  - inv_bind E. inv_bind E. inv_bind E.
    destruct (IH _ _ _ _ (eq_ind_r (fun l => In key l) Hk (keys_dict_set key a1 d)) E)
      as [K L].
    rewrite keys_dict_set in K. split; [exact K|].
    rewrite dict_get_set in L by exact Hk.
    apply list_remove_obj_length in Hm1. simpl. lia.
Qed.

Lemma dict_del_shrinks key d :
  In key (keys_of d) -> length (dict_del key d) < length d.
Proof.
  unfold keys_of, dict_del. induction d as [|[k0 l0] d IH]; simpl; intros Hin;
    [destruct Hin|].
  destruct (key_eqb k0 key) eqn:E; simpl.
  - pose proof (filter_length_le (fun p => negb (key_eqb (fst p) key)) d). lia.
  - destruct Hin as [Hin|Hin].
    + subst. rewrite key_eqb_refl in E. discriminate.
    + specialize (IH Hin). lia.
Qed.

Lemma dict_del_NoDup key d : NoDup (keys_of d) -> NoDup (keys_of (dict_del key d)).
Proof.
  unfold keys_of, dict_del. induction d as [|[k0 l0] d IH]; simpl; intros H;
    [constructor|].
  inversion H as [|? ? Hk Hn]; subst.
  destruct (negb (key_eqb k0 key)); simpl; [|now apply IH].
  constructor; [|now apply IH].
  intros Hin. apply Hk. apply in_map_iff in Hin as (p & Ep & Hp).
  apply filter_In in Hp as [Hp _]. apply in_map_iff. now exists p.
Qed.

Lemma combine_entry_shrinks g d key edges g' d' :
  NoDup (keys_of d) -> In (key, edges) d ->
  combine_entry g d key edges = Ok (g', d') ->
  length d' < length d /\ NoDup (keys_of d').
Proof.
  unfold combine_entry. intros Hn Hin E.
  destruct edges as [|id0 others]; [discriminate|].
  inv_bind E. inv_bind E.
  destruct (remove_others _ _ _ _) as [[g2 d2]|] eqn:Er; simpl in E; [|discriminate].
  inversion E; subst; clear E.
  assert (Hk : In key (keys_of d)).
  { unfold keys_of. change key with (fst (key, id0 :: others)). now apply in_map. }
  destruct (remove_others_dict _ _ _ _ _ _ Hk Er) as [K L].
  rewrite (dict_get_NoDup _ _ _ Hn Hin) in L. simpl in L.
  assert (E1 : length (dict_get d2 key) = 1) by lia.
  rewrite E1. simpl.
  assert (Hlen : length d2 = length d).
  { unfold keys_of in K. rewrite <- (length_map fst d2), K. apply length_map. }
  split.
  - rewrite <- Hlen. apply dict_del_shrinks. now rewrite K.
  - apply dict_del_NoDup. now rewrite K.
Qed.

Lemma combine_loop_terminates fuel : forall g d,
  NoDup (keys_of d) -> length d <= fuel -> terminates (combine_loop fuel g d).
Proof.
  induction fuel as [|fuel IH]; intros g d Hn Hl; simpl.
  - destruct d; [apply terminates_Ok | simpl in Hl; lia].
  - destruct (find_duplicate d) as [[key edges]|] eqn:F; [|apply terminates_Ok].
    apply find_duplicate_Some in F as [Hin _].
    apply terminates_bind; [apply combine_entry_terminates|].
    intros [g1 d1] E.
    destruct (combine_entry_shrinks _ _ _ _ _ _ Hn Hin E) as [Hs Hn1].
    apply IH; [exact Hn1 | lia].
Qed.

Lemma combine_duplicate_edge_terminates g : terminates (combine_duplicate_edge g).
Proof.
  unfold combine_duplicate_edge.
  apply terminates_bind; [apply build_edge_dict_terminates|].
  intros d E. apply combine_loop_terminates; [|lia].
  eapply build_edge_dict_NoDup; [|exact E]. constructor.
Qed.

(** The operations on edges leave the keys of [vertices] alone. *)
Lemma Graph_add_edge_states g s d l a g' :
  Graph_add_edge g s d l a = Ok g' -> states_of g' = states_of g.
Proof.
  unfold Graph_add_edge, states_of. intros E. inv_bind E. inv_bind E.
  inversion E; subst. simpl. now rewrite !update_vertex_numbers.
Qed.

Lemma add_edge_states g s d l a g' :
  add_edge g s d l a = Ok g' -> states_of g' = states_of g.
Proof.
  unfold add_edge. intros E. inv_bind E. apply Graph_add_edge_states in Hm.
  destruct a; inversion E; subst; exact Hm.
Qed.

Lemma add_edges_states l : forall g g',
  add_edges g l = Ok g' -> states_of g' = states_of g.
Proof.
  induction l as [|[[[s t] r'] a] l IH]; intros g g' E; simpl in E.
  - now inversion E.
  - inv_bind E. apply add_edge_states in Hm. rewrite <- Hm. now apply IH.
Qed.

Lemma Graph_remove_edge_states g s d l g' :
  Graph_remove_edge g s d l = Ok g' -> states_of g' = states_of g.
Proof.
  unfold Graph_remove_edge, states_of. intros E.
  inv_bind E. inv_bind E. inv_bind E. inv_bind E.
  inversion E; subst. simpl. now rewrite !update_vertex_numbers.
Qed.

Lemma remove_edge_states g s d l a g' :
  remove_edge g s d l a = Ok g' -> states_of g' = states_of g.
Proof.
  unfold remove_edge. intros E. inv_bind E. inv_bind E.
  apply Graph_remove_edge_states in Hm.
  assert (H1 : states_of a1 = states_of g).
  { destruct a; inv_bind Hm0; inversion Hm0; subst; exact Hm. }
  destruct (set_mem s (final_states a1)); [|now inversion E; subst].
  inv_bind E. destruct (length a2 =? 0); inversion E; subst; exact H1.
Qed.

Lemma detach_in_edges_states ids : forall g g',
  detach_in_edges g ids = Ok g' -> states_of g' = states_of g.
Proof.
  induction ids as [|i ids IH]; intros g g' E; simpl in E.
  - now inversion E.
  - inv_bind E. inv_bind E. inv_bind E. apply IH in E. rewrite E.
    unfold states_of. simpl. now rewrite update_vertex_numbers.
Qed.

Lemma detach_out_edges_states ids : forall g g',
  detach_out_edges g ids = Ok g' -> states_of g' = states_of g.
Proof.
  induction ids as [|i ids IH]; intros g g' E; simpl in E.
  - now inversion E.
  - inv_bind E. inv_bind E. inv_bind E. apply IH in E. rewrite E.
    unfold states_of. simpl. now rewrite update_vertex_numbers.
Qed.

Lemma remove_others_states key others : forall g d g' d',
  remove_others g d key others = Ok (g', d') -> states_of g' = states_of g.
Proof.
  induction others as [|id rest IH]; intros g d g' d' E; simpl in E.
  - now inversion E.
  - inv_bind E. inv_bind E. inv_bind E. apply IH in E. rewrite E.
    eapply remove_edge_states; eauto.
Qed.

Lemma combine_entry_states g d key edges g' d' :
  combine_entry g d key edges = Ok (g', d') -> states_of g' = states_of g.
Proof.
  unfold combine_entry. intros E. destruct edges as [|id0 others]; [discriminate|].
  inv_bind E. inv_bind E.
  destruct (remove_others _ _ _ _) as [[g2 d2]|] eqn:Er; simpl in E; [|discriminate].
  inversion E; subst. now apply remove_others_states in Er.
Qed.

Lemma combine_loop_states fuel : forall g d g',
  combine_loop fuel g d = Ok g' -> states_of g' = states_of g.
Proof.
  induction fuel as [|fuel IH]; intros g d g' E; simpl in E.
  - destruct (find_duplicate d) as [[k l]|]; [discriminate | now inversion E].
  - destruct (find_duplicate d) as [[k l]|]; [|now inversion E].
    destruct (combine_entry g d k l) as [[g1 d1]|] eqn:Ec; simpl in E; [|discriminate].
    apply IH in E. rewrite E. eapply combine_entry_states; eauto.
Qed.

Lemma combine_duplicate_edge_states g g' :
  combine_duplicate_edge g = Ok g' -> states_of g' = states_of g.
Proof.
  unfold combine_duplicate_edge. intros E. inv_bind E.
  eapply combine_loop_states; eauto.
Qed.

Lemma list_min_In l m : list_min l = Some m -> In m l.
Proof.
  revert m; induction l as [|x l IH]; intros m E; simpl in E; [discriminate|].
  destruct (list_min l) as [m'|].
  - inversion E; subst. destruct (Nat.min_spec x m') as [[_ ->]|[_ ->]].
    + now left.
    + right. now apply IH.
  - inversion E; subst. now left.
Qed.

Lemma find_rip_vertex_In g v_start v_end v :
  find_rip_vertex g v_start v_end = Ok (Some v) -> In v (states_of g).
Proof.
  unfold find_rip_vertex, states_of. intros E.
  destruct (negb (set_mem v_start (map number (vertices g)))); [discriminate|].
  destruct (negb (v_start =? v_end) && negb (set_mem v_end (map number (vertices g))));
    [discriminate|].
  inversion E as [E']. apply list_min_In in E'. now apply filter_In in E' as [E' _].
Qed.

Lemma filter_shrinks {A} (p : A -> bool) l x :
  In x l -> p x = false -> length (filter p l) < length l.
Proof.
  induction l as [|y l IH]; intros Hin Hp; [destruct Hin|]. simpl.
  destruct Hin as [->|Hin].
  - rewrite Hp. pose proof (filter_length_le p l). lia.
  - specialize (IH Hin Hp). destruct (p y); simpl; lia.
Qed.

Lemma rip_shrinks g v g' :
  In v (states_of g) -> rip g v = Ok g' ->
  length (vertices g') < length (vertices g).
Proof.
  unfold rip. intros Hin E.
  inv_bind E. inv_bind E. inv_bind E. inv_bind E. inv_bind E. inv_bind E.
  inv_bind E. inv_bind E. inversion E; subst; clear E. simpl.
  apply detach_in_edges_states in Hm3. apply detach_out_edges_states in Hm5.
  apply add_edges_states in Hm6.
  assert (Hs : states_of a6 = states_of g) by congruence.
  assert (Hl : length (vertices a6) = length (vertices g)).
  { unfold states_of in Hs. rewrite <- (length_map number (vertices a6)), Hs.
    apply length_map. }
  rewrite <- Hl. rewrite <- Hs in Hin. unfold states_of in Hin.
  apply in_map_iff in Hin as (x & Ex & Hx).
  eapply filter_shrinks; [exact Hx|]. rewrite Ex, Nat.eqb_refl. reflexivity.
Qed.

Lemma find_rip_vertex_terminates g v_start v_end :
  terminates (find_rip_vertex g v_start v_end).
Proof.
  unfold find_rip_vertex.
  destruct (negb (set_mem v_start (map number (vertices g)))); [discriminate|].
  destruct (negb (v_start =? v_end) && negb (set_mem v_end (map number (vertices g))));
    discriminate.
Qed.

Lemma rip_loop_terminates fuel : forall g v_start v_end,
  length (vertices g) <= fuel -> terminates (rip_loop fuel g v_start v_end).
Proof.
  induction fuel as [|fuel IH]; intros g v_start v_end Hl; simpl.
  - apply terminates_bind; [apply find_rip_vertex_terminates|].
    intros [v|] E; [|apply terminates_Ok].
    apply find_rip_vertex_In in E. unfold states_of in E.
    destruct (vertices g); [destruct E | simpl in Hl; lia].
  - apply terminates_bind; [apply find_rip_vertex_terminates|].
    intros [v|] E; [|apply terminates_Ok].
    apply find_rip_vertex_In in E.
    apply terminates_bind; [apply rip_terminates|]. intros g1 E1.
    apply terminates_bind; [apply combine_duplicate_edge_terminates|]. intros g2 E2.
    apply IH.
    pose proof (rip_shrinks _ _ _ E E1) as Hs.
    apply combine_duplicate_edge_states in E2.
    assert (length (vertices g2) = length (vertices g1)).
    { unfold states_of in E2. rewrite <- (length_map number (vertices g2)), E2.
      apply length_map. }
    lia.
Qed.

Lemma assemble_terminates step g v_start v_end :
  terminates (assemble step g v_start v_end).
Proof.
  unfold assemble.
  apply terminates_bind; [apply get_vertex_terminates|]. intros vs _.
  apply terminates_bind; [apply edges_of_terminates|]. intros es _.
  destruct (fold_left (step v_start v_end) es (None, None)) as [r1 r2].
  apply terminates_bind; [apply get_vertex_terminates|]. intros ve _.
  apply terminates_bind; [apply edges_of_terminates|]. intros es' _.
  destruct (fold_left (back_step v_start v_end) es' (None, None)) as [r3 r4].
  destruct r2; [|apply terminates_Ok].
  destruct (v_start =? v_end); apply terminates_Ok.
Qed.

(** No loop of the model is cut short: the traversal of an expression,
    the coalescing of duplicate edges and the three path queries never stop
    for lack of fuel. *)
Lemma loops_end_within_their_fuel (e : Regex) (size : bool) (g : tGraph)
    (v_start v_end : nat) :
  terminates (postorderTraversal e size) /\
  terminates (combine_duplicate_edge g) /\
  terminates (find_path g v_start v_end) /\
  terminates (find_accpath g v_start v_end) /\
  terminates (find_nonaccpath g v_start v_end).
Proof.
  split; [|split; [|split; [|split]]].
  - apply postorder_loop_terminates. unfold total. simpl. lia.
  - apply combine_duplicate_edge_terminates.
  - unfold find_path. apply terminates_bind; [now apply rip_loop_terminates|].
    intros; apply assemble_terminates.
  - unfold find_accpath. apply terminates_bind; [now apply rip_loop_terminates|].
    intros; apply assemble_terminates.
  - unfold find_nonaccpath. apply terminates_bind; [now apply rip_loop_terminates|].
    intros; apply assemble_terminates.
Qed.

Lemma terminates_tbind {A B} (m : traced A) (k : A -> traced B) :
  terminates m -> (forall a, terminates (k a)) -> terminates (tbind m k).
Proof.
  intros Hm Hk. unfold tbind. apply terminates_bind; [exact Hm|].
  intros [q1 a] _. apply terminates_bind; [apply Hk|].
  intros [q2 b] _. apply terminates_Ok.
Qed.

Lemma terminates_issue {A} q (m : result A) : terminates m -> terminates (issue q m).
Proof.
  intros H. unfold issue. apply terminates_bind; [exact H|].
  intros; apply terminates_Ok.
Qed.

Lemma terminates_lift {A} (m : result A) : terminates m -> terminates (lift m).
Proof.
  intros H. unfold lift. apply terminates_bind; [exact H|].
  intros; apply terminates_Ok.
Qed.

Lemma for_finals_terminates body fs :
  (forall f, terminates (body f)) -> terminates (for_finals body fs).
Proof.
  intros Hb. induction fs as [|f fs IH]; simpl; [apply terminates_Ok|].
  apply terminates_tbind; [apply Hb|]. intros c.
  apply terminates_tbind; [exact IH|]. intros cs. apply terminates_Ok.
Qed.

Lemma mcnaughton_yamada_terminates g i j acc : terminates (mcnaughton_yamada g i j acc).
Proof.
  unfold mcnaughton_yamada. apply terminates_bind; [|intros; apply terminates_Ok].
  induction (vertices g) as [|v vs IH]; simpl; [apply terminates_Ok|].
  apply terminates_bind; [apply edges_of_terminates|]. intros es _.
  apply terminates_bind; [exact IH|]. intros; apply terminates_Ok.
Qed.

Lemma drive_terminates body post g :
  (forall g' f, terminates (body g' f)) -> terminates (drive body post g).
Proof.
  intros Hb. unfold drive.
  apply terminates_bind; [apply combine_duplicate_edge_terminates|]. intros g' _.
  apply terminates_bind; [apply for_finals_terminates, Hb|].
  intros [qs ps] _. apply terminates_Ok.
Qed.

(** The four drivers never stop for lack of fuel either. *)
Lemma drivers_end_within_their_fuel (simplify : OmegaRegex -> OmegaRegex) (g : tGraph) :
  terminates (taut_to_regex_bmc g) /\
  terminates (taut_to_regex_mny g) /\
  terminates (simp_taut_to_regex_bmc simplify g) /\
  terminates (simp_taut_to_regex_mny simplify g).
Proof.
  assert (Hq : forall g' a b,
             terminates (find_path g' a b) /\ terminates (find_accpath g' a b)
             /\ terminates (find_nonaccpath g' a b)).
  { intros g' a b.
    destruct (loops_end_within_their_fuel Empty false g' a b) as (_ & _ & H). exact H. }
  assert (Hbmc : forall g' f, terminates (body_bmc g' f)).
  { intros g' f. unfold body_bmc.
    apply terminates_tbind.
    { destruct (negb (initial_state g' =? f));
        [apply terminates_issue, Hq | apply terminates_Ok]. }
    intros p1. apply terminates_tbind; [apply terminates_issue, Hq|].
    intros p2. apply terminates_tbind;
      [apply terminates_lift, state_pseudoaccepting_terminates|].
    intros [|]; (apply terminates_tbind;
      [try apply terminates_issue; try apply Hq; apply terminates_Ok|]);
      intros; apply terminates_Ok. }
  assert (Hsimp : forall g' f, terminates (body_simp_bmc g' f)).
  { intros g' f. unfold body_simp_bmc.
    apply terminates_tbind.
    { destruct (negb (initial_state g' =? f));
        [apply terminates_issue, Hq | apply terminates_Ok]. }
    intros p1. apply terminates_tbind; [apply terminates_issue, Hq|].
    intros p2. apply terminates_tbind; [apply terminates_issue, Hq|].
    intros; apply terminates_Ok. }
  assert (Hmny : forall g' f, terminates (body_mny g' f)).
  { intros g' f. unfold body_mny.
    apply terminates_tbind.
    { destruct (negb (initial_state g' =? f));
        [apply terminates_issue, mcnaughton_yamada_terminates | apply terminates_Ok]. }
    intros p1.
    apply terminates_tbind; [apply terminates_issue, mcnaughton_yamada_terminates|].
    intros p2. apply terminates_tbind;
      [apply terminates_lift, state_pseudoaccepting_terminates|].
    intros [|]; (apply terminates_tbind;
      [try apply terminates_issue; try apply mcnaughton_yamada_terminates;
       apply terminates_Ok|]);
      intros; apply terminates_Ok. }
  split; [|split; [|split]]; now apply drive_terminates.
Qed.

(* ================================================================== *)
(** * The adjacency lists stay two views of one edge set *)
(* ================================================================== *)

Lemma In_states_find g n :
  In n (states_of g) -> exists v, In v (vertices g) /\ number v = n.
Proof.
  unfold states_of. intros H. apply in_map_iff in H as (v & E & Hv). now exists v.
Qed.

Lemma linked_well_formed g : linked g -> well_formed g = true.
Proof.
  intros [Hk Ho Hi Hp]. unfold well_formed. unfold states_of in Hk.
  rewrite (NoDup_nodupb _ Hk). simpl.
  apply forallb_forall. intros v Hv. apply andb_true_iff. split.
  - unfold ids_check. apply forallb_forall. intros i Hin.
    destruct (Ho v i Hv Hin) as (e & Ee & Hs & _). rewrite Ee.
    now apply Nat.eqb_eq.
  - apply forallb_forall. intros i Hin.
    destruct (Hi v i Hv Hin) as (e & Ee & Hd & Hs). rewrite Ee.
    apply In_states_find in Hs as (u & Hu & Nu).
    rewrite <- Nu, (find_vertex_NoDup _ _ Hk Hu).
    apply set_mem_In.
    assert (Hf : In i (filter (has_src (heap g) (number u)) (in_edges v))).
    { apply filter_In. split; [exact Hin|]. unfold has_src. rewrite Ee.
      apply Nat.eqb_eq. congruence. }
    rewrite <- (Hp u v Hu Hv) in Hf. now apply filter_In in Hf as [Hf _].
Qed.

Lemma has_dst_grow h h2 n i e :
  nth_error h i = Some e -> has_dst (h ++ h2) n i = has_dst h n i.
Proof.
  intros E. unfold has_dst. rewrite nth_error_app1; [reflexivity|].
  apply nth_error_Some. congruence.
Qed.

Lemma has_src_grow h h2 n i e :
  nth_error h i = Some e -> has_src (h ++ h2) n i = has_src h n i.
Proof.
  intros E. unfold has_src. rewrite nth_error_app1; [reflexivity|].
  apply nth_error_Some. congruence.
Qed.

Lemma linked_new n initial : linked (new_tGraph n initial).
Proof.
  assert (Hv : forall v, In v (vertices (new_tGraph n initial)) ->
                         out_edges v = [] /\ in_edges v = []).
  { simpl. intros v Hv. apply in_map_iff in Hv as (i & <- & _). now split. }
  constructor.
  - unfold states_of. simpl. rewrite map_map. simpl. rewrite map_id. apply seq_NoDup.
  - intros v i Hin Hi. destruct (Hv v Hin) as [Ho _]. rewrite Ho in Hi. destruct Hi.
  - intros v i Hin Hi. destruct (Hv v Hin) as [_ Ho]. rewrite Ho in Hi. destruct Hi.
  - intros u w Hu Hw. destruct (Hv u Hu) as [-> _]. destruct (Hv w Hw) as [_ ->].
    reflexivity.
Qed.

Lemma linked_add_edge g s d l a g' :
  linked g -> add_edge g s d l a = Ok g' -> linked g'.
Proof.
  intros [Hk Ho Hi Hp] E.
  apply add_edge_spec in E
    as ((vd & Fd) & (vs & Fs) & Eh & Ev & _).
  set (id := length (heap g)) in *.
  set (e0 := mkEdge s d l a) in *.
  assert (Hst : states_of g' = states_of g).
  { unfold states_of. rewrite Ev, map_map. reflexivity. }
  assert (Hold : forall i e, nth_error (heap g) i = Some e ->
                             nth_error (heap g') i = Some e).
  { intros i e Hi'. rewrite Eh, nth_error_app1; [exact Hi'|].
    apply nth_error_Some. congruence. }
  assert (Hnew : nth_error (heap g') id = Some e0).
  { rewrite Eh, nth_error_app2, Nat.sub_diag; [reflexivity | unfold id; lia]. }
  assert (Hs_in : In s (states_of g)).
  { apply find_vertex_Some in Fs as [H1 H2]. unfold states_of. rewrite <- H2.
    now apply in_map. }
  assert (Hd_in : In d (states_of g)).
  { apply find_vertex_Some in Fd as [H1 H2]. unfold states_of. rewrite <- H2.
    now apply in_map. }
  constructor.
  - now rewrite Hst.
  - intros v' i Hv' Hi'. rewrite Ev in Hv'.
    apply in_map_iff in Hv' as (v & <- & Hv). simpl in Hi'. simpl. rewrite Hst.
    assert (Hcase : In i (out_edges v) \/ (number v = s /\ i = id)).
    { destruct (number v =? s) eqn:E; [|now left].
      apply Nat.eqb_eq in E. apply in_app_or in Hi' as [H|[H|[]]]; auto. }
    destruct Hcase as [Hi0|[Es ->]].
    + destruct (Ho v i Hv Hi0) as (e & Ee & Hs & Hd).
      exists e. split; [now apply Hold|]. now split.
    + exists e0. split; [exact Hnew|]. simpl. split; [congruence | exact Hd_in].
  - intros v' i Hv' Hi'. rewrite Ev in Hv'.
    apply in_map_iff in Hv' as (v & <- & Hv). simpl in Hi'. simpl. rewrite Hst.
    assert (Hcase : In i (in_edges v) \/ (number v = d /\ i = id)).
    { destruct (number v =? d) eqn:E; [|now left].
      apply Nat.eqb_eq in E. apply in_app_or in Hi' as [H|[H|[]]]; auto. }
    destruct Hcase as [Hi0|[Es ->]].
    + destruct (Hi v i Hv Hi0) as (e & Ee & Hs & Hd).
      exists e. split; [now apply Hold|]. now split.
    + exists e0. split; [exact Hnew|]. simpl. split; [congruence | exact Hs_in].
  - intros u' w' Hu' Hw'. rewrite Ev in Hu', Hw'.
    apply in_map_iff in Hu' as (u & <- & Hu).
    apply in_map_iff in Hw' as (w & <- & Hw). simpl.
    assert (Lo : filter (has_dst (heap g') (number w)) (out_edges u)
                 = filter (has_dst (heap g) (number w)) (out_edges u)).
    { apply filter_ext_in. intros i Hin.
      destruct (Ho u i Hu Hin) as (e & Ee & _). rewrite Eh.
      eapply has_dst_grow; eauto. }
    assert (Li : filter (has_src (heap g') (number u)) (in_edges w)
                 = filter (has_src (heap g) (number u)) (in_edges w)).
    { apply filter_ext_in. intros i Hin.
      destruct (Hi w i Hw Hin) as (e & Ee & _). rewrite Eh.
      eapply has_src_grow; eauto. }
    assert (Nd : has_dst (heap g') (number w) id = (d =? number w)).
    { unfold has_dst. now rewrite Hnew. }
    assert (Ns : has_src (heap g') (number u) id = (s =? number u)).
    { unfold has_src. now rewrite Hnew. }
    specialize (Hp u w Hu Hw).
    destruct (number u =? s) eqn:Eu, (number w =? d) eqn:Ew;
      rewrite ?filter_app; simpl; rewrite ?Nd, ?Ns, ?Lo, ?Li, Hp;
      rewrite ?(Nat.eqb_sym d), ?(Nat.eqb_sym s), ?Eu, ?Ew, ?app_nil_r; reflexivity.
Qed.

Lemma linked_import_edges ts : forall g g',
  linked g -> import_edges g ts = Ok g' -> linked g'.
Proof.
  induction ts as [|t ts IH]; intros g g' Hg E; simpl in E.
  - now inversion E; subst.
  - inv_bind E. eapply IH; [|exact E]. eapply linked_add_edge; eauto.
Qed.

Lemma aut_to_tgraph_linked aut g : aut_to_tgraph aut = Ok g -> linked g.
Proof.
  unfold aut_to_tgraph. destruct (negb (aut_num_sets aut =? 1)); [discriminate|].
  apply linked_import_edges, linked_new.
Qed.

Lemma list_remove_edge_split h e ids : forall ids',
  list_remove_edge h e ids = Ok ids' ->
  exists pre x post ex,
    ids = pre ++ x :: post /\ ids' = pre ++ post /\
    nth_error h x = Some ex /\ edge_eqb ex e = true /\
    (forall y, In y pre -> exists ey, nth_error h y = Some ey /\ edge_eqb ey e = false).
Proof.
  induction ids as [|i ids IH]; intros ids' H; simpl in H; [discriminate|].
  inv_bind H. apply lookup_edge_Ok in Hm. destruct (edge_eqb a e) eqn:E.
  - inversion H; subst. exists [], i, ids', a. simpl.
    repeat (split; [reflexivity || assumption|]). intros y [].
  - inv_bind H. inversion H; subst.
    destruct (IH _ Hm0) as (pre & x & post & ex & -> & -> & Ex & Eq & Hpre).
    exists (i :: pre), x, post, ex. simpl.
    repeat (split; [reflexivity || assumption|]).
    intros y [<-|Hy]; [now exists a | now apply Hpre].
Qed.

Lemma first_split_unique {A} (p : A -> bool) (a1 : list A) : forall x1 b1 a2 x2 b2,
  a1 ++ x1 :: b1 = a2 ++ x2 :: b2 ->
  (forall y, In y a1 -> p y = false) -> p x1 = true ->
  (forall y, In y a2 -> p y = false) -> p x2 = true ->
  a1 = a2 /\ x1 = x2 /\ b1 = b2.
Proof.
  induction a1 as [|y1 a1 IH]; intros x1 b1 a2 x2 b2 E H1 P1 H2 P2;
    destruct a2 as [|y2 a2]; simpl in E; injection E as E0 E1.
  - subst. auto.
  - subst y2. rewrite (H2 x1 (or_introl eq_refl)) in P1. discriminate.
  - subst y1. rewrite (H1 x2 (or_introl eq_refl)) in P2. discriminate.
  - subst y2. destruct (IH x1 b1 a2 x2 b2 E1) as (Ea & Ex & Eb); auto.
    + intros; apply H1; now right.
    + intros; apply H2; now right.
    + subst. auto.
Qed.

Lemma Graph_remove_edge_spec g s d l g' :
  Graph_remove_edge g s d l = Ok g' ->
  exists vs vd outs ins,
    find_vertex (vertices g) s = Some vs /\
    find_vertex (vertices g) d = Some vd /\
    list_remove_edge (heap g) (mkEdge s d l false) (out_edges vs) = Ok outs /\
    list_remove_edge (heap g) (mkEdge s d l false) (in_edges vd) = Ok ins /\
    heap g' = heap g /\
    vertices g' = map (unfile_edge s d outs ins) (vertices g).
Proof.
  unfold Graph_remove_edge. intros E.
  inv_bind E. inv_bind E. inv_bind E. inv_bind E. inversion E; subst; clear E.
  unfold get_vertex in Hm, Hm1. simpl in *.
  rewrite find_vertex_update in Hm1 by reflexivity.
  destruct (find_vertex (vertices g) s) as [vs|] eqn:Fs; [|discriminate].
  destruct (find_vertex (vertices g) d) as [vd|] eqn:Fd; [|discriminate].
  inversion Hm; subst a. simpl in Hm1. inversion Hm1; subst a1. clear Hm Hm1.
  assert (Ein : in_edges (if number vd =? s then set_out vd a0 else vd)
                = in_edges vd) by (destruct (number vd =? s); reflexivity).
  rewrite Ein in Hm2.
  exists vs, vd, a0, a2.
  split; [reflexivity|]. split; [reflexivity|].
  split; [exact Hm0|]. split; [exact Hm2|]. split; [reflexivity|].
  unfold update_vertex. rewrite map_map. apply map_ext.
  intros x. unfold unfile_edge, set_in, set_out.
  destruct (number x =? s); simpl; destruct (number x =? d); simpl;
    now destruct x.
Qed.

Lemma edge_eqb_parts ex s d l :
  edge_eqb ex (mkEdge s d l false)
  = (src ex =? s) && (dst ex =? d) && regex_eqb (label ex) l.
Proof. reflexivity. Qed.

Lemma filter_remove_middle {A} (q : A -> bool) pre x post :
  q x = false -> filter q (pre ++ x :: post) = filter q (pre ++ post).
Proof. intros H. rewrite !filter_app. simpl. now rewrite H. Qed.

Lemma linked_Graph_remove_edge g s d l g' :
  linked g -> Graph_remove_edge g s d l = Ok g' -> linked g'.
Proof.
  intros [Hk Ho Hi Hp] E.
  apply Graph_remove_edge_spec in E
    as (vs & vd & outs & ins & Fs & Fd & Eo & Ei & Eh & Ev).
  assert (Hst : states_of g' = states_of g).
  { unfold states_of. rewrite Ev, map_map. reflexivity. }
  apply find_vertex_Some in Fs as [Hvs Ns].
  apply find_vertex_Some in Fd as [Hvd Nd].
  apply list_remove_edge_split in Eo
    as (pre1 & x1 & post1 & ex1 & Eo1 & Eo2 & Ex1 & Eq1 & Hpre1).
  apply list_remove_edge_split in Ei
    as (pre2 & x2 & post2 & ex2 & Ei1 & Ei2 & Ex2 & Eq2 & Hpre2).
  rewrite edge_eqb_parts in Eq1, Eq2.
  apply andb_true_iff in Eq1 as [Eq1 L1]. apply andb_true_iff in Eq1 as [S1 D1].
  apply andb_true_iff in Eq2 as [Eq2 L2]. apply andb_true_iff in Eq2 as [S2 D2].
  assert (Hsame : forall u, In u (vertices g) -> number u = s -> u = vs).
  { intros u Hu Nu. unfold states_of in Hk.
    pose proof (find_vertex_NoDup _ _ Hk Hu) as F1.
    pose proof (find_vertex_NoDup _ _ Hk Hvs) as F2. congruence. }
  assert (Hsamed : forall w, In w (vertices g) -> number w = d -> w = vd).
  { intros w Hw Nw. unfold states_of in Hk.
    pose proof (find_vertex_NoDup _ _ Hk Hw) as F1.
    pose proof (find_vertex_NoDup _ _ Hk Hvd) as F2. congruence. }
  assert (Houts : forall i, In i outs -> In i (out_edges vs)).
  { intros i Hin. rewrite Eo1. rewrite Eo2 in Hin.
    apply in_app_or in Hin as [H|H]; apply in_or_app; [now left | right; now right]. }
  assert (Hins : forall i, In i ins -> In i (in_edges vd)).
  { intros i Hin. rewrite Ei1. rewrite Ei2 in Hin.
    apply in_app_or in Hin as [H|H]; apply in_or_app; [now left | right; now right]. }
  constructor.
  - now rewrite Hst.
  - intros v' i Hv' Hi'. rewrite Ev in Hv'.
    apply in_map_iff in Hv' as (v & <- & Hv). simpl in *. rewrite Hst, Eh.
    destruct (number v =? s) eqn:En.
    + apply Nat.eqb_eq in En. rewrite (Hsame v Hv En). apply Ho; auto.
    + now apply Ho.
  - intros v' i Hv' Hi'. rewrite Ev in Hv'.
    apply in_map_iff in Hv' as (v & <- & Hv). simpl in *. rewrite Hst, Eh.
    destruct (number v =? d) eqn:En.
    + apply Nat.eqb_eq in En. rewrite (Hsamed v Hv En). apply Hi; auto.
    + now apply Hi.
  - intros u' w' Hu' Hw'. rewrite Ev in Hu', Hw'.
    apply in_map_iff in Hu' as (u & <- & Hu).
    apply in_map_iff in Hw' as (w & <- & Hw). simpl. rewrite Eh.
    assert (Qx1 : forall n, n <> d -> has_dst (heap g) n x1 = false).
    { intros n Hn. unfold has_dst. rewrite Ex1. apply Nat.eqb_eq in D1.
      apply Nat.eqb_neq. congruence. }
    assert (Qx2 : forall n, n <> s -> has_src (heap g) n x2 = false).
    { intros n Hn. unfold has_src. rewrite Ex2. apply Nat.eqb_eq in S2.
      apply Nat.eqb_neq. congruence. }
    destruct (number u =? s) eqn:Eu, (number w =? d) eqn:Ew.
    + apply Nat.eqb_eq in Eu, Ew.
      pose proof (Hsame u Hu Eu) as ->. pose proof (Hsamed w Hw Ew) as ->.
      specialize (Hp vs vd Hvs Hvd). rewrite Eo1, Ei1, !filter_app in Hp.
      simpl in Hp.
      assert (T1 : has_dst (heap g) (number vd) x1 = true).
      { unfold has_dst. now rewrite Ex1, Nd. }
      assert (T2 : has_src (heap g) (number vs) x2 = true).
      { unfold has_src. now rewrite Ex2, Ns. }
      rewrite T1, T2 in Hp.
      destruct (first_split_unique (has_label (heap g) l) _ _ _ _ _ _ Hp)
        as (Ea & _ & Eb).
      * intros y Hy. apply filter_In in Hy as [Hy Qy].
        destruct (Hpre1 y Hy) as (ey & Ey & Ne).
        destruct (Ho vs y Hvs) as (ey' & Ey' & Sy & _).
        { rewrite Eo1. apply in_or_app. now left. }
        assert (ey' = ey) by congruence. subst ey'.
        unfold has_dst in Qy. rewrite Ey in Qy. unfold has_label. rewrite Ey.
        rewrite edge_eqb_parts in Ne. rewrite Sy, Ns, Nat.eqb_refl in Ne.
        rewrite Nd in Qy. rewrite Qy in Ne. exact Ne.
      * unfold has_label. now rewrite Ex1.
      * intros y Hy. apply filter_In in Hy as [Hy Qy].
        destruct (Hpre2 y Hy) as (ey & Ey & Ne).
        destruct (Hi vd y Hvd) as (ey' & Ey' & Dy & _).
        { rewrite Ei1. apply in_or_app. now left. }
        assert (ey' = ey) by congruence. subst ey'.
        unfold has_src in Qy. rewrite Ey in Qy. unfold has_label. rewrite Ey.
        rewrite edge_eqb_parts in Ne. rewrite Dy, Nd, Nat.eqb_refl in Ne.
        rewrite Ns in Qy. rewrite Qy in Ne. exact Ne.
      * unfold has_label. now rewrite Ex2.
      * rewrite Eo2, Ei2, !filter_app. congruence.
    + apply Nat.eqb_eq in Eu. apply Nat.eqb_neq in Ew.
      pose proof (Hsame u Hu Eu) as ->.
      rewrite <- (Hp vs w Hvs Hw), Eo1, Eo2.
      symmetry. apply filter_remove_middle. now apply Qx1.
    + apply Nat.eqb_neq in Eu. apply Nat.eqb_eq in Ew.
      pose proof (Hsamed w Hw Ew) as ->.
      rewrite (Hp u vd Hu Hvd), Ei1, Ei2.
      apply filter_remove_middle. now apply Qx2.
    + now apply Hp.
Qed.

Lemma linked_fields g g' :
  heap g' = heap g -> vertices g' = vertices g -> linked g -> linked g'.
Proof.
  intros Eh Ev [Hk Ho Hi Hp].
  constructor; unfold states_of in *; rewrite ?Eh, ?Ev; assumption.
Qed.

Lemma linked_remove_edge g s d l a g' :
  linked g -> remove_edge g s d l a = Ok g' -> linked g'.
Proof.
  unfold remove_edge. intros H E. inv_bind E. inv_bind E.
  pose proof (linked_Graph_remove_edge _ _ _ _ _ H Hm) as H1.
  assert (H2 : linked a1).
  { destruct a; inv_bind Hm0; inversion Hm0; subst;
      eapply linked_fields; try exact H1; reflexivity. }
  destruct (set_mem s (final_states a1)); [|now inversion E; subst].
  inv_bind E. destruct (length a2 =? 0); inversion E; subst; [|exact H2].
  eapply linked_fields; try exact H2; reflexivity.
Qed.

Lemma assign_label_nth h i l j e :
  nth_error h j = Some e ->
  exists e', nth_error (assign_label h i l) j = Some e' /\
             src e' = src e /\ dst e' = dst e.
Proof.
  intros E. destruct (Nat.eq_dec j i) as [->|Hne].
  - exists (set_label e l). split; [now apply assign_label_same | now split].
  - exists e. split; [now rewrite assign_label_other | now split].
Qed.

Lemma assign_label_has_dst h i l n j :
  has_dst (assign_label h i l) n j = has_dst h n j.
Proof.
  unfold has_dst. destruct (nth_error h j) as [e|] eqn:E.
  - destruct (assign_label_nth h i l j e E) as (e' & -> & _ & ->). reflexivity.
  - destruct (Nat.eq_dec j i) as [->|Hne].
    + destruct (nth_error (assign_label h i l) i) eqn:E'; [|reflexivity].
      assert (i < length (assign_label h i l)) by (apply nth_error_Some; congruence).
      rewrite assign_label_length in H. apply nth_error_None in E. lia.
    + now rewrite assign_label_other, E.
Qed.

Lemma assign_label_has_src h i l n j :
  has_src (assign_label h i l) n j = has_src h n j.
Proof.
  unfold has_src. destruct (nth_error h j) as [e|] eqn:E.
  - destruct (assign_label_nth h i l j e E) as (e' & -> & -> & _). reflexivity.
  - destruct (Nat.eq_dec j i) as [->|Hne].
    + destruct (nth_error (assign_label h i l) i) eqn:E'; [|reflexivity].
      assert (i < length (assign_label h i l)) by (apply nth_error_Some; congruence).
      rewrite assign_label_length in H. apply nth_error_None in E. lia.
    + now rewrite assign_label_other, E.
Qed.

Lemma linked_assign_label g i l :
  linked g -> linked (set_heap g (assign_label (heap g) i l)).
Proof.
  intros [Hk Ho Hi Hp]. constructor; simpl.
  - exact Hk.
  - intros v j Hv Hj. destruct (Ho v j Hv Hj) as (e & E & Hs & Hd).
    destruct (assign_label_nth _ i l _ _ E) as (e' & E' & S' & D').
    exists e'. split; [exact E'|]. unfold states_of in *. simpl.
    split; congruence.
  - intros v j Hv Hj. destruct (Hi v j Hv Hj) as (e & E & Hd & Hs).
    destruct (assign_label_nth _ i l _ _ E) as (e' & E' & S' & D').
    exists e'. split; [exact E'|]. unfold states_of in *. simpl.
    split; congruence.
  - intros u w Hu Hw.
    rewrite (filter_ext _ _ (assign_label_has_dst (heap g) i l (number w))).
    rewrite (filter_ext _ _ (assign_label_has_src (heap g) i l (number u))).
    exact (Hp u w Hu Hw).
Qed.

Lemma linked_remove_others key others : forall g d g' d',
  linked g -> remove_others g d key others = Ok (g', d') -> linked g'.
Proof.
  induction others as [|id rest IH]; intros g d g' d' H E; simpl in E.
  - now inversion E; subst.
  - inv_bind E. inv_bind E. inv_bind E.
    eapply IH; [|exact E]. eapply linked_remove_edge; eauto.
Qed.

Lemma linked_combine_entry g d key edges g' d' :
  linked g -> combine_entry g d key edges = Ok (g', d') -> linked g'.
Proof.
  unfold combine_entry. intros H E. destruct edges as [|id0 others]; [discriminate|].
  inv_bind E. inv_bind E.
  destruct (remove_others _ _ _ _) as [[g2 d2]|] eqn:Er; simpl in E; [|discriminate].
  inversion E; subst.
  eapply linked_remove_others; [|exact Er]. now apply linked_assign_label.
Qed.

Lemma linked_combine_loop fuel : forall g d g',
  linked g -> combine_loop fuel g d = Ok g' -> linked g'.
Proof.
  induction fuel as [|fuel IH]; intros g d g' H E; simpl in E.
  - destruct (find_duplicate d) as [[k l]|]; [discriminate | now inversion E; subst].
  - destruct (find_duplicate d) as [[k l]|]; [|now inversion E; subst].
    destruct (combine_entry g d k l) as [[g1 d1]|] eqn:Ec; simpl in E; [|discriminate].
    eapply IH; [|exact E]. eapply linked_combine_entry; eauto.
Qed.

Lemma linked_combine_duplicate_edge g g' :
  linked g -> combine_duplicate_edge g = Ok g' -> linked g'.
Proof.
  unfold combine_duplicate_edge. intros H E. inv_bind E.
  eapply linked_combine_loop; eauto.
Qed.

(** The graph a driver runs its queries on, the coalesced import, is
    well-formed. *)
Lemma coalesced_import_well_formed aut g g' :
  aut_to_tgraph aut = Ok g -> combine_duplicate_edge g = Ok g' ->
  well_formed g = true /\ well_formed g' = true.
Proof.
  intros Ea Ec. apply aut_to_tgraph_linked in Ea. split.
  - now apply linked_well_formed.
  - apply linked_well_formed. eapply linked_combine_duplicate_edge; eauto.
Qed.

(** So in every driver run on an imported automaton the cycle queries of a
    final state start with an edge of the requested mode. *)
Lemma driver_cycle_queries_keep_the_mode
    (simplify : OmegaRegex -> OmegaRegex) aut g o f (b : bool) res w :
  aut_to_tgraph aut = Ok g ->
  taut_to_regex_bmc g = Ok o \/ taut_to_regex_mny g = Ok o
  \/ simp_taut_to_regex_bmc simplify g = Ok o
  \/ simp_taut_to_regex_mny simplify g = Ok o ->
  (if b then find_accpath (graph_after o) f f else find_nonaccpath (graph_after o) f f)
  = Ok (Some res)
  \/ mcnaughton_yamada (graph_after o) f f (Some b) = Ok (Some res) ->
  matches res w ->
  starts_with_edge (graph_after o) f b w.
Proof.
  intros Ea Hd Hq Hw.
  assert (Hc : combine_duplicate_edge g = Ok (graph_after o)).
  { destruct Hd as [H|[H|[H|H]]];
      apply drive_Ok_inv in H as (ps & Hc & _ & _); exact Hc. }
  destruct (coalesced_import_well_formed _ _ _ Ea Hc) as [_ Hwf].
  destruct Hq as [Hq|Hq].
  - eapply find_cycle_mode; eauto.
  - unfold mcnaughton_yamada in Hq. inv_bind Hq. inversion Hq as [E].
    eapply r_mode; eauto.
Qed.

(* ================================================================== *)
(** * What [combine_duplicate_edge] leaves of parallel edges *)
(* ================================================================== *)

(** ** The dict against the out-lists *)

Lemma key_eqb_sym a b : key_eqb a b = key_eqb b a.
Proof.
  destruct (key_eqb a b) eqn:E1, (key_eqb b a) eqn:E2; try reflexivity.
  - apply key_eqb_eq in E1. subst. rewrite key_eqb_refl in E2. discriminate.
  - apply key_eqb_eq in E2. subst. rewrite key_eqb_refl in E1. discriminate.
Qed.

Lemma key_eqb_neq a b : a <> b -> key_eqb a b = false.
Proof.
  intros H. destruct (key_eqb a b) eqn:E; [|reflexivity].
  apply key_eqb_eq in E. contradiction.
Qed.

Lemma dict_get_append key id d k :
  dict_get (dict_append key id d) k
  = dict_get d k ++ (if key_eqb k key then [id] else []).
Proof.
  unfold dict_get. induction d as [|[k0 l0] d IH]; simpl.
  - rewrite (key_eqb_sym key k). now destruct (key_eqb k key).
  - destruct (key_eqb k0 key) eqn:E; simpl.
    + apply key_eqb_eq in E. subst k0. rewrite (key_eqb_sym key k).
      destruct (key_eqb k key); [reflexivity | now rewrite app_nil_r].
    + destruct (key_eqb k0 k) eqn:E'; [|exact IH].
      apply key_eqb_eq in E'. subst k0. rewrite E. now rewrite app_nil_r.
Qed.

Lemma dict_add_edges_get h ids : forall d d' k,
  dict_add_edges h ids d = Ok d' ->
  dict_get d' k = dict_get d k ++ filter (has_key h k) ids.
Proof.
  induction ids as [|i ids IH]; intros d d' k E; simpl in E.
  - inversion E; subst. simpl. now rewrite app_nil_r.
  - inv_bind E. rewrite (IH _ _ k E), dict_get_append, <- app_assoc. f_equal.
    apply lookup_edge_Ok in Hm. simpl. unfold has_key at 2. rewrite Hm.
    now destruct (key_eqb k (key_of a)).
Qed.

Lemma build_edge_dict_get h vs : forall d d' k,
  build_edge_dict h vs d = Ok d' ->
  dict_get d' k = dict_get d k ++ filter (has_key h k) (out_ids vs).
Proof.
  induction vs as [|v vs IH]; intros d d' k E; simpl in E.
  - inversion E; subst. simpl. now rewrite app_nil_r.
  - inv_bind E. rewrite (IH _ _ k E), (dict_add_edges_get _ _ _ _ k Hm).
    simpl. now rewrite filter_app, app_assoc.
Qed.

Lemma dict_get_missing d k : ~ In k (keys_of d) -> dict_get d k = [].
Proof.
  unfold keys_of, dict_get. induction d as [|[k0 l0] d IH]; simpl; intros H;
    [reflexivity|].
  destruct (key_eqb k0 k) eqn:E.
  - apply key_eqb_eq in E. subst. exfalso. apply H. now left.
  - apply IH. intros Hin. apply H. now right.
Qed.

Lemma dict_get_entry d k : In k (keys_of d) -> In (k, dict_get d k) d.
Proof.
  unfold keys_of, dict_get. induction d as [|[k0 l0] d IH]; simpl; intros H;
    [destruct H|].
  destruct (key_eqb k0 k) eqn:E.
  - apply key_eqb_eq in E. subst. now left.
  - right. apply IH. destruct H as [H|H]; [|exact H].
    subst. rewrite key_eqb_refl in E. discriminate.
Qed.

Lemma dict_get_set_other key l d k :
  k <> key -> dict_get (dict_set key l d) k = dict_get d k.
Proof.
  intros Hne. unfold dict_get, dict_set. induction d as [|[k0 l0] d IH]; simpl;
    [reflexivity|].
  destruct (key_eqb k0 key) eqn:E; simpl.
  - apply key_eqb_eq in E. subst k0.
    rewrite (key_eqb_neq key k) by congruence. exact IH.
  - destruct (key_eqb k0 k); [reflexivity | exact IH].
Qed.

Lemma dict_set_In key l d k ids :
  In (k, ids) (dict_set key l d) ->
  (k = key /\ ids = l) \/ (k <> key /\ In (k, ids) d).
Proof.
  unfold dict_set. intros H. apply in_map_iff in H as ([k0 l0] & E & Hin).
  simpl in E. destruct (key_eqb k0 key) eqn:Ek.
  - apply key_eqb_eq in Ek. inversion E; subst. now left.
  - inversion E; subst. right. split; [|exact Hin].
    intros ->. rewrite key_eqb_refl in Ek. discriminate.
Qed.

Lemma dict_get_del_other key d k :
  k <> key -> dict_get (dict_del key d) k = dict_get d k.
Proof.
  intros Hne. unfold dict_get, dict_del. induction d as [|[k0 l0] d IH]; simpl;
    [reflexivity|].
  destruct (key_eqb k0 key) eqn:E; simpl.
  - apply key_eqb_eq in E. subst k0.
    rewrite (key_eqb_neq key k) by congruence. exact IH.
  - destruct (key_eqb k0 k); [reflexivity | exact IH].
Qed.

Lemma keys_dict_del key d k :
  In k (keys_of (dict_del key d)) <-> In k (keys_of d) /\ k <> key.
Proof.
  unfold keys_of, dict_del. split.
  - intros H. apply in_map_iff in H as ([k0 l0] & E & Hin). simpl in E. subst k0.
    apply filter_In in Hin as [Hin Hq]. simpl in Hq. split.
    + apply in_map_iff. now exists (k, l0).
    + intros ->. rewrite key_eqb_refl in Hq. discriminate.
  - intros [H Hne]. apply in_map_iff in H as ([k0 l0] & E & Hin). simpl in E. subst k0.
    apply in_map_iff. exists (k, l0). split; [reflexivity|].
    apply filter_In. split; [exact Hin|]. simpl.
    now rewrite (key_eqb_neq k key).
Qed.

Lemma dict_del_In key d k ids :
  In (k, ids) (dict_del key d) -> In (k, ids) d.
Proof. unfold dict_del. intros H. now apply filter_In in H as [H _]. Qed.

(** ** The out-lists as one list *)

Lemma built_linked g : built g -> linked g.
Proof.
  induction 1 as [n initial|g s d l a g' _ IH E].
  - apply linked_new.
  - eapply linked_add_edge; eauto.
Qed.

Lemma out_ids_In vs i : In i (out_ids vs) <-> exists v, In v vs /\ In i (out_edges v).
Proof. unfold out_ids. apply in_flat_map. Qed.

Lemma out_ids_unfile_none s d outs ins vl :
  ~ In s (map number vl) ->
  out_ids (map (unfile_edge s d outs ins) vl) = out_ids vl.
Proof.
  induction vl as [|v vl IH]; simpl; intros H; [reflexivity|].
  destruct (number v =? s) eqn:E.
  - apply Nat.eqb_eq in E. exfalso. apply H. now left.
  - rewrite IH; [reflexivity|]. intros Hin. apply H. now right.
Qed.

Lemma out_ids_unfile s d ins vs pre x post vl :
  NoDup (map number vl) -> In vs vl -> number vs = s ->
  out_edges vs = pre ++ x :: post ->
  exists A0 B0,
    out_ids vl = (A0 ++ pre) ++ x :: (post ++ B0) /\
    out_ids (map (unfile_edge s d (pre ++ post) ins) vl) = (A0 ++ pre) ++ (post ++ B0).
Proof.
  intros Hn Hin Ns Eo. induction vl as [|v vl IH]; [destruct Hin|].
  simpl in Hn. inversion Hn as [|? ? Hv Hn']; subst.
  destruct Hin as [->|Hin].
  - exists [], (out_ids vl). simpl. rewrite Nat.eqb_refl, Eo.
    rewrite out_ids_unfile_none by exact Hv.
    split; now rewrite <- !app_assoc.
  - destruct (IH Hn' Hin) as (A0 & B0 & E1 & E2).
    exists (out_edges v ++ A0), B0. simpl.
    assert (En : (number v =? number vs) = false).
    { apply Nat.eqb_neq. intros E. apply Hv. rewrite E. now apply in_map. }
    rewrite En, E1, E2. split; now rewrite <- !app_assoc.
Qed.

Lemma out_ids_file_none s d id vl :
  ~ In s (map number vl) ->
  out_ids (map (file_edge s d id) vl) = out_ids vl.
Proof.
  induction vl as [|v vl IH]; simpl; intros H; [reflexivity|].
  destruct (number v =? s) eqn:E.
  - apply Nat.eqb_eq in E. exfalso. apply H. now left.
  - rewrite IH; [reflexivity|]. intros Hin. apply H. now right.
Qed.

Lemma out_ids_file s d id vl :
  NoDup (map number vl) -> In s (map number vl) ->
  exists A B, out_ids vl = A ++ B /\
              out_ids (map (file_edge s d id) vl) = A ++ id :: B.
Proof.
  induction vl as [|v vl IH]; simpl; intros Hn Hin; [destruct Hin|].
  inversion Hn as [|? ? Hv Hn']; subst.
  destruct (number v =? s) eqn:E.
  - apply Nat.eqb_eq in E. subst s.
    exists (out_edges v), (out_ids vl).
    rewrite out_ids_file_none by exact Hv.
    split; [reflexivity | now rewrite <- app_assoc].
  - destruct Hin as [Hin|Hin]; [apply Nat.eqb_neq in E; contradiction|].
    destruct (IH Hn' Hin) as (A & B & E1 & E2).
    exists (out_edges v ++ A), B. rewrite E1, E2.
    split; now rewrite <- app_assoc.
Qed.

Lemma out_ids_new n : out_ids (map (fun i => mkVertex i [] []) (seq 0 n)) = [].
Proof.
  generalize 0. induction n as [|n IH]; intros k; simpl; [reflexivity | apply IH].
Qed.

Lemma NoDup_insert {A} (a b : list A) x :
  NoDup (a ++ b) -> ~ In x (a ++ b) -> NoDup (a ++ x :: b).
Proof.
  induction a as [|y a IH]; simpl; intros Hn Hx.
  - now constructor.
  - inversion Hn as [|? ? Hy Hn']; subst. constructor.
    + intros Hin. apply in_app_or in Hin as [Hin|[Hin|Hin]].
      * apply Hy. apply in_or_app. now left.
      * subst. apply Hx. now left.
      * apply Hy. apply in_or_app. now right.
    + apply IH; [exact Hn'|]. intros Hin. apply Hx. now right.
Qed.

Lemma built_out_ids_NoDup g : built g -> NoDup (out_ids (vertices g)).
Proof.
  induction 1 as [n initial|g s d l a g' B IH E].
  - simpl. rewrite out_ids_new. constructor.
  - apply built_linked in B as L.
    apply add_edge_spec in E as (_ & (vs & Fs) & Eh & Ev & _).
    apply find_vertex_Some in Fs as [Hvs Ns].
    destruct (out_ids_file s d (length (heap g)) (vertices g)) as (A & B' & E1 & E2).
    + exact (lk_keys L).
    + rewrite <- Ns. now apply in_map.
    + rewrite Ev, E2. rewrite E1 in IH.
      apply NoDup_insert; [exact IH|].
      intros Hin. rewrite <- E1 in Hin.
      apply out_ids_In in Hin as (v & Hv & Hi).
      destruct (lk_out L v _ Hv Hi) as (e & Ee & _).
      assert (length (heap g) < length (heap g)); [|lia].
      apply nth_error_Some. congruence.
Qed.

(** ** Lists without repetition *)

Lemma NoDup_app_disjoint {A} (a b : list A) y :
  NoDup (a ++ b) -> In y a -> In y b -> False.
Proof.
  induction a as [|z a IH]; simpl; intros Hn Ha Hb; [destruct Ha|].
  inversion Hn as [|? ? Hz Hn']; subst. destruct Ha as [->|Ha].
  - apply Hz. apply in_or_app. now right.
  - now apply IH.
Qed.

Lemma filter_drop_second {A} (q : A -> bool) (a b : list A) x y0 rest :
  NoDup (a ++ x :: b) ->
  filter q (a ++ x :: b) = y0 :: x :: rest ->
  filter q (a ++ b) = y0 :: rest.
Proof.
  intros Hn E.
  assert (Ha : ~ In x a).
  { intros H. apply NoDup_remove_2 in Hn. apply Hn. apply in_or_app. now left. }
  assert (Hb : ~ In x b).
  { intros H. apply NoDup_remove_2 in Hn. apply Hn. apply in_or_app. now right. }
  rewrite filter_app in E. rewrite filter_app. simpl in E.
  destruct (q x) eqn:Q.
  - destruct (filter q a) as [|z a'] eqn:Fa; simpl in E.
    + injection E as E0 E1. exfalso. apply Hb.
      assert (H : In x (filter q b)) by (rewrite E1; now left).
      now apply filter_In in H as [H _].
    + injection E as E0 E1. subst z. destruct a' as [|w a'']; simpl in E1.
      * injection E1 as E1. simpl. now rewrite E1.
      * injection E1 as E1 E2. subst w. exfalso. apply Ha.
        assert (H : In x (filter q a)) by (rewrite Fa; right; now left).
        now apply filter_In in H as [H _].
  - exfalso.
    assert (H : In x (filter q a ++ filter q b)) by (rewrite E; right; now left).
    apply in_app_or in H as [H|H]; apply filter_In in H as [H _]; contradiction.
Qed.

Lemma filter_first_is_second {A} (q : A -> bool) (a b : list A) x id y0 rest :
  NoDup (a ++ x :: b) -> In id b ->
  filter q (a ++ x :: b) = y0 :: id :: rest ->
  q x = true -> x = y0.
Proof.
  intros Hn Hid E Q.
  rewrite filter_app in E. simpl in E. rewrite Q in E.
  destruct (filter q a) as [|z a'] eqn:Fa; simpl in E.
  - now injection E.
  - exfalso. injection E as E0 E1.
    destruct a' as [|w a'']; simpl in E1; injection E1 as E1 E2.
    + subst x. apply NoDup_remove_2 in Hn. apply Hn, in_or_app. now right.
    + subst w.
      assert (Hin : In id a).
      { assert (H : In id (filter q a)) by (rewrite Fa; right; now left).
        now apply filter_In in H as [H _]. }
      apply (NoDup_app_disjoint _ _ id Hn Hin). now right.
Qed.

(** ** Keys and labels of the objects *)

Lemma assign_label_has_key h i l k j :
  has_key (assign_label h i l) k j = has_key h k j.
Proof.
  unfold has_key. destruct (Nat.eq_dec j i) as [->|Hne].
  - destruct (nth_error h i) as [e|] eqn:E.
    + now rewrite (assign_label_same _ _ l _ E).
    + destruct (nth_error (assign_label h i l) i) eqn:E'; [|reflexivity].
      assert (i < length (assign_label h i l)) by (apply nth_error_Some; congruence).
      rewrite assign_label_length in H. apply nth_error_None in E. lia.
  - now rewrite assign_label_other.
Qed.

Lemma sym_at_assign_other h i l j :
  j <> i -> sym_at (assign_label h i l) j = sym_at h j.
Proof. intros H. unfold sym_at. now rewrite assign_label_other. Qed.

Lemma sym_at_assign_same h i l :
  is_symbol l = false -> sym_at (assign_label h i l) i = false.
Proof.
  intros Hl. unfold sym_at. destruct (nth_error h i) as [e|] eqn:E.
  - now rewrite (assign_label_same _ _ l _ E).
  - destruct (nth_error (assign_label h i l) i) eqn:E'; [|reflexivity].
    assert (i < length (assign_label h i l)) by (apply nth_error_Some; congruence).
    rewrite assign_label_length in H. apply nth_error_None in E. lia.
Qed.

Lemma edge_eqb_key ex e :
  edge_eqb ex e = true -> accepting ex = accepting e -> key_of ex = key_of e.
Proof.
  unfold edge_eqb, key_of. intros H Ha. apply andb_true_iff in H as [H _].
  apply andb_true_iff in H as [S D]. apply Nat.eqb_eq in S, D. congruence.
Qed.

Lemma edge_eqb_label ex e : edge_eqb ex e = true -> label ex = label e.
Proof.
  unfold edge_eqb. intros H. apply andb_true_iff in H as [_ H].
  now apply regex_eqb_eq.
Qed.

Lemma agree_on_symbols_incl h ids ids' :
  incl ids' ids -> agree_on_symbols h ids -> agree_on_symbols h ids'.
Proof.
  intros Hi H i j ei ej Hi' Hj'. apply H; now apply Hi.
Qed.

Lemma remove_edge_Graph g s d l a g' :
  remove_edge g s d l a = Ok g' ->
  exists g1, Graph_remove_edge g s d l = Ok g1 /\
             heap g' = heap g1 /\ vertices g' = vertices g1.
Proof.
  unfold remove_edge. intros E. inv_bind E. inv_bind E.
  exists a0. split; [exact Hm|].
  assert (H2 : heap a1 = heap a0 /\ vertices a1 = vertices a0).
  { destruct a; inv_bind Hm0; inversion Hm0; subst; split; reflexivity. }
  destruct H2 as [H2 H3].
  destruct (set_mem s (final_states a1)); [|inversion E; subst; now split].
  inv_bind E. destruct (length a2 =? 0); inversion E; subst; simpl; now split.
Qed.

(** ** One removal *)

Lemma coalescing_entry_step g d key id0 id rest e g1 l :
  coalescing_entry g d key id0 (id :: rest) ->
  lookup_edge (heap g) id = Ok e ->
  remove_edge g (src e) (dst e) (label e) (accepting e) = Ok g1 ->
  list_remove_obj (heap g1) id e (dict_get d key) = Ok l ->
  coalescing_entry g1 (dict_set key l d) key id0 rest.
Proof.
  intros [L Hn Hk Hkey [Hd Hg] Hin Hout Hsym Hfirst Hag] Ee Er El.
  apply lookup_edge_Ok in Ee.
  pose proof (linked_remove_edge _ _ _ _ _ _ L Er) as L1.
  apply remove_edge_Graph in Er as (g0 & Er & Eh1 & Ev1).
  apply Graph_remove_edge_spec in Er
    as (vs & vd & outs & ins & Fs & Fd & Eo & Ei & Eh & Ev).
  rewrite Eh in Eh1. rewrite Ev in Ev1. clear Eh Ev.
  apply find_vertex_Some in Fs as [Hvs Ns].
  apply list_remove_edge_split in Eo
    as (pre & x & post & ex & Eo1 & Eo2 & Ex & Eq & Hpre).
  subst outs.
  destruct (out_ids_unfile (src e) (dst e) ins vs pre x post (vertices g)
              (lk_keys L) Hvs Ns Eo1) as (A0 & B0 & EA & EB).
  assert (Hgid : In id (group g key)) by (rewrite Hg; right; now left).
  unfold group in Hgid. apply filter_In in Hgid as [Hido Hidk].
  assert (Ke : key_of e = key).
  { unfold has_key in Hidk. rewrite Ee in Hidk. apply key_eqb_eq in Hidk.
    now symmetry. }
  assert (Hnd : NoDup (id0 :: id :: rest)).
  { rewrite <- Hg. unfold group. now apply NoDup_filter. }
  assert (Hne : id <> id0).
  { inversion Hnd as [|? ? H0 _]; subst. intros ->. apply H0. now left. }
  assert (Sid : sym_at (heap g) id = true).
  { apply (Hsym key (dict_get d key));
      [now apply dict_get_entry | rewrite Hd; right; now left | exact Hne]. }
  assert (Sle : is_symbol (label e) = true).
  { unfold sym_at in Sid. now rewrite Ee in Sid. }
  assert (Eqe : edge_eqb ex e = true) by exact Eq.
  assert (Hxo : In x (out_ids (vertices g))).
  { rewrite EA. apply in_or_app. right. now left. }
  assert (Kx : has_key (heap g) key x = true).
  { unfold has_key. rewrite Ex, <- Ke. apply key_eqb_eq. symmetry.
    apply edge_eqb_key; [exact Eqe|]. apply (Hag id x e ex); auto. }
  assert (Hx0 : x <> id0).
  { intros ->. unfold sym_at in Hfirst.
    rewrite Ex, (edge_eqb_label _ _ Eqe) in Hfirst. congruence. }
  assert (Hxid : x = id).
  { apply out_ids_In in Hido as (v & Hv & Hiv).
    destruct (lk_out L v id Hv Hiv) as (e' & Ee' & Se' & _).
    assert (e' = e) by congruence. subst e'.
    assert (v = vs).
    { pose proof (find_vertex_NoDup _ _ (lk_keys L) Hv) as F1.
      pose proof (find_vertex_NoDup _ _ (lk_keys L) Hvs) as F2.
      congruence. }
    subst v. rewrite Eo1 in Hiv.
    apply in_app_or in Hiv as [Hiv|[Hiv|Hiv]].
    - destruct (Hpre id Hiv) as (ey & Ey & Ney).
      assert (ey = e) by congruence. subst ey.
      assert (edge_eqb e (mkEdge (src e) (dst e) (label e) false) = true).
      { unfold edge_eqb. simpl. now rewrite !Nat.eqb_refl, regex_eqb_refl. }
      congruence.
    - exact Hiv.
    - exfalso. apply Hx0.
      apply (filter_first_is_second (has_key (heap g) key)
               (A0 ++ pre) (post ++ B0) x id id0 rest).
      + rewrite <- EA. exact Hn.
      + apply in_or_app. now left.
      + rewrite <- EA. exact Hg.
      + exact Kx. }
  subst x.
  assert (NA : NoDup ((A0 ++ pre) ++ post ++ B0)).
  { rewrite EA in Hn. now apply NoDup_remove_1 in Hn. }
  assert (Gk : forall k, k <> key -> group g1 k = group g k).
  { intros k Hk'. unfold group. rewrite Eh1, Ev1, EB, EA. symmetry.
    apply filter_remove_middle. unfold has_key. rewrite Ee, Ke.
    now apply key_eqb_neq. }
  assert (Gkey : group g1 key = id0 :: rest).
  { unfold group. rewrite Eh1, Ev1, EB. apply (filter_drop_second _ _ _ id).
    - rewrite <- EA. exact Hn.
    - rewrite <- EA. exact Hg. }
  assert (El' : l = id0 :: rest).
  { rewrite Hd, Eh1 in El. simpl in El.
    assert (N0 : (id0 =? id) = false) by (apply Nat.eqb_neq; congruence).
    rewrite N0 in El.
    assert (Hid0 : In id0 (out_ids (vertices g))).
    { assert (H : In id0 (group g key)) by (rewrite Hg; now left).
      unfold group in H. now apply filter_In in H as [H _]. }
    apply out_ids_In in Hid0 as (v0 & Hv0 & Hi0).
    destruct (lk_out L v0 id0 Hv0 Hi0) as (e0 & Ee0 & _).
    rewrite (proj2 (lookup_edge_Ok _ _ _) Ee0) in El. simpl in El.
    assert (N1 : edge_eqb e0 e = false).
    { destruct (edge_eqb e0 e) eqn:Q; [|reflexivity].
      unfold sym_at in Hfirst. rewrite Ee0, (edge_eqb_label _ _ Q) in Hfirst.
      congruence. }
    rewrite N1, Nat.eqb_refl in El. simpl in El. now inversion El. }
  subst l.
  constructor.
  - exact L1.
  - rewrite Ev1, EB. exact NA.
  - now rewrite keys_dict_set.
  - now rewrite keys_dict_set.
  - split; [now apply dict_get_set | exact Gkey].
  - intros k Hk' Hink. rewrite keys_dict_set in Hink.
    rewrite dict_get_set_other by exact Hk'. rewrite Gk by exact Hk'.
    now apply Hin.
  - intros k Hnk. rewrite keys_dict_set in Hnk.
    rewrite Gk; [now apply Hout|]. intros ->. contradiction.
  - intros k ids i Hki Hi Hi0. rewrite Eh1.
    apply dict_set_In in Hki as [[-> ->]|[Hk' Hki]].
    + apply (Hsym key (dict_get d key)); [now apply dict_get_entry| |exact Hi0].
      rewrite Hd. destruct Hi as [Hi|Hi]; [congruence|]. right. now right.
    + now apply (Hsym k ids).
  - now rewrite Eh1.
  - rewrite Eh1, Ev1, EB. apply (agree_on_symbols_incl _ (out_ids (vertices g)));
      [|exact Hag].
    rewrite EA. intros i Hi. apply in_app_or in Hi as [Hi|Hi]; apply in_or_app;
      [now left | right; now right].
Qed.

(** ** One entry *)

Lemma coalescing_remove_others key id0 others : forall g d g' d',
  coalescing_entry g d key id0 others ->
  remove_others g d key others = Ok (g', d') ->
  coalescing_entry g' d' key id0 [].
Proof.
  induction others as [|id rest IH]; intros g d g' d' H E; simpl in E.
  - now inversion E; subst.
  - inv_bind E. inv_bind E. inv_bind E.
    eapply IH; [|exact E]. eapply coalescing_entry_step; eauto.
Qed.

Lemma edges_of_length h ids : forall es,
  edges_of h ids = Ok es -> length es = length ids.
Proof.
  induction ids as [|i ids IH]; intros es E; simpl in E.
  - now inversion E; subst.
  - inv_bind E. inv_bind E. inversion E; subst. simpl. f_equal. now apply IH.
Qed.

Lemma combined_label_union e0 es :
  es <> [] -> is_symbol (combined_label e0 es) = false.
Proof.
  unfold combined_label. intros H.
  destruct (exists_last H) as (es' & e & ->).
  now rewrite fold_left_snoc.
Qed.

Lemma has_key_unique h k k' i :
  has_key h k i = true -> has_key h k' i = true -> k = k'.
Proof.
  unfold has_key. destruct (nth_error h i); [|discriminate].
  intros H1 H2. apply key_eqb_eq in H1, H2. congruence.
Qed.

Lemma coalescing_combine_entry g d key edges g' d' :
  coalescing g d -> In (key, edges) d -> 1 < length edges ->
  combine_entry g d key edges = Ok (g', d') ->
  coalescing g' d'.
Proof.
  unfold combine_entry. intros [L Hn Hk Hin Hout Hsym Hag] Hke Hlen E.
  destruct edges as [|id0 others]; [discriminate|].
  inv_bind E. inv_bind E.
  destruct (remove_others _ _ _ _) as [[g2 d2]|] eqn:Er; simpl in E; [|discriminate].
  inversion E; subst g' d'; clear E.
  apply lookup_edge_Ok in Hm.
  assert (Hkey : In key (keys_of d)).
  { unfold keys_of. change key with (fst (key, id0 :: others)). now apply in_map. }
  assert (Hd : dict_get d key = id0 :: others) by now apply dict_get_NoDup.
  assert (Hl : is_symbol (combined_label a a0) = false).
  { apply combined_label_union. intros ->.
    apply edges_of_length in Hm0. simpl in *. destruct others; simpl in *; [lia|discriminate]. }
  set (lbl := combined_label a a0) in *.
  assert (Gk : forall k, group (set_heap g (assign_label (heap g) id0 lbl)) k = group g k).
  { intros k. unfold group. simpl. apply filter_ext. intros j.
    apply assign_label_has_key. }
  assert (Hce : coalescing_entry (set_heap g (assign_label (heap g) id0 lbl))
                                 d key id0 others).
  { constructor.
    - now apply linked_assign_label.
    - exact Hn.
    - exact Hk.
    - exact Hkey.
    - split; [exact Hd|]. rewrite Gk, <- Hd. symmetry. now apply Hin.
    - intros k _ Hink. rewrite Gk. now apply Hin.
    - intros k Hnk. rewrite Gk. now apply Hout.
    - intros k ids i Hki Hi Hi0. simpl. rewrite sym_at_assign_other by exact Hi0.
      now apply (Hsym k ids).
    - simpl. now apply sym_at_assign_same.
    - simpl. intros i j ei ej Hi Hj Ei Ej Si Eq.
      destruct (Nat.eq_dec i id0) as [->|Ni].
      + rewrite (assign_label_same _ _ lbl _ Hm) in Ei. inversion Ei; subst ei.
        simpl in Si. congruence.
      + rewrite assign_label_other in Ei by exact Ni.
        destruct (Nat.eq_dec j id0) as [->|Nj].
        * rewrite (assign_label_same _ _ lbl _ Hm) in Ej. inversion Ej; subst ej.
          apply edge_eqb_label in Eq. simpl in Eq. congruence.
        * rewrite assign_label_other in Ej by exact Nj.
          now apply (Hag i j). }
  apply (coalescing_remove_others _ _ _ _ _ _ _ Hce) in Er.
  destruct Er as [L2 Hn2 Hk2 Hkey2 [Hd2 Hg2] Hin2 Hout2 Hsym2 Hfirst2 Hag2].
  rewrite Hd2. simpl.
  constructor.
  - exact L2.
  - exact Hn2.
  - now apply dict_del_NoDup.
  - intros k Hink. apply keys_dict_del in Hink as [Hink Hne].
    rewrite dict_get_del_other by exact Hne. now apply Hin2.
  - intros k Hnk. destruct (key_eqb k key) eqn:Q.
    + apply key_eqb_eq in Q. subst k. rewrite Hg2. simpl. lia.
    + apply Hout2. intros Hink. apply Hnk. apply keys_dict_del. split; [exact Hink|].
      intros ->. rewrite key_eqb_refl in Q. discriminate.
  - intros k ids i Hki Hi.
    assert (Hne : k <> key).
    { unfold dict_del in Hki. apply filter_In in Hki as [_ Q]. simpl in Q.
      intros ->. rewrite key_eqb_refl in Q. discriminate. }
    apply dict_del_In in Hki.
    apply (Hsym2 k ids i Hki Hi). intros ->.
    assert (Hink : In k (keys_of d2)).
    { unfold keys_of. change k with (fst (k, ids)). now apply in_map. }
    assert (Eg : group g2 k = ids).
    { rewrite <- (Hin2 k Hne Hink). now apply dict_get_NoDup. }
    assert (H1 : has_key (heap g2) k id0 = true).
    { rewrite <- Eg in Hi. unfold group in Hi. now apply filter_In in Hi as [_ Hi]. }
    assert (H2 : has_key (heap g2) key id0 = true).
    { assert (H : In id0 (group g2 key)) by (rewrite Hg2; now left).
      unfold group in H. now apply filter_In in H as [_ H]. }
    apply Hne. eapply has_key_unique; eauto.
  - exact Hag2.
Qed.

(** ** The loop *)

Lemma find_duplicate_None d :
  find_duplicate d = None -> forall k l, In (k, l) d -> length l <= 1.
Proof.
  induction d as [|[k0 l0] d IH]; simpl; intros H k l Hin; [destruct Hin|].
  destruct (1 <? length l0) eqn:E; [discriminate|].
  destruct Hin as [Hin|Hin]; [|now apply (IH H k)].
  inversion Hin; subst. now apply Nat.ltb_ge in E.
Qed.

Lemma coalescing_combine_loop fuel : forall g d g',
  coalescing g d -> combine_loop fuel g d = Ok g' ->
  exists d', coalescing g' d' /\ find_duplicate d' = None.
Proof.
  induction fuel as [|fuel IH]; intros g d g' H E; simpl in E.
  - destruct (find_duplicate d) as [[k l]|] eqn:F; [discriminate|].
    inversion E; subst. now exists d.
  - destruct (find_duplicate d) as [[k l]|] eqn:F.
    + destruct (combine_entry g d k l) as [[g1 d1]|] eqn:Ec; simpl in E; [|discriminate].
      apply find_duplicate_Some in F as [Hin Hlen].
      eapply IH; [|exact E]. eapply coalescing_combine_entry; eauto.
    + inversion E; subst. now exists d.
Qed.

Lemma coalescing_groups g d :
  coalescing g d -> find_duplicate d = None -> forall k, length (group g k) <= 1.
Proof.
  intros [L Hn Hk Hin Hout Hsym Hag] F k.
  assert (Hdec : forall a b : edge_key, {a = b} + {a <> b}) by (repeat decide equality).
  destruct (in_dec Hdec k (keys_of d)) as [H|H].
  - rewrite <- (Hin k H). apply (find_duplicate_None _ F k). now apply dict_get_entry.
  - now apply Hout.
Qed.

(** ** Before the first entry and after the last *)

Lemma edges_of_member h ids : forall es i e,
  edges_of h ids = Ok es -> In i ids -> nth_error h i = Some e -> In e es.
Proof.
  induction ids as [|j ids IH]; intros es i e E Hi Ee; simpl in E; [destruct Hi|].
  inv_bind E. inv_bind E. inversion E; subst. apply lookup_edge_Ok in Hm.
  destruct Hi as [->|Hi].
  - left. congruence.
  - right. eapply IH; eauto.
Qed.

Lemma all_out_edges_member h vs : forall es i e,
  all_out_edges h vs = Ok es -> In i (out_ids vs) -> nth_error h i = Some e ->
  In e es.
Proof.
  induction vs as [|v vs IH]; intros es i e E Hi Ee; simpl in E, Hi; [destruct Hi|].
  inv_bind E. inv_bind E. inversion E; subst. apply in_or_app.
  apply in_app_or in Hi as [Hi|Hi].
  - left. eapply edges_of_member; eauto.
  - right. eapply IH; eauto.
Qed.

Lemma flags_agree_on_symbols g :
  flags_agree g = true -> agree_on_symbols (heap g) (out_ids (vertices g)).
Proof.
  unfold flags_agree. intros H i j ei ej Hi Hj Ei Ej _ Eq.
  destruct (all_out_edges (heap g) (vertices g)) as [es|] eqn:E; [|discriminate].
  rewrite forallb_forall in H.
  specialize (H ej (all_out_edges_member _ _ _ _ _ E Hj Ej)).
  rewrite forallb_forall in H.
  specialize (H ei (all_out_edges_member _ _ _ _ _ E Hi Ei)).
  rewrite Eq in H. simpl in H. now apply eqb_prop.
Qed.

Lemma symbol_labelled_sym_at g i :
  symbol_labelled g = true -> In i (out_ids (vertices g)) ->
  sym_at (heap g) i = true.
Proof.
  unfold symbol_labelled. intros H Hi.
  apply out_ids_In in Hi as (v & Hv & Hi).
  rewrite forallb_forall in H. specialize (H v Hv).
  apply andb_true_iff in H as [Ho _]. unfold ids_check in Ho.
  rewrite forallb_forall in Ho. exact (Ho i Hi).
Qed.

Lemma coalescing_start g d :
  linked g -> NoDup (out_ids (vertices g)) ->
  symbol_labelled g = true -> flags_agree g = true ->
  build_edge_dict (heap g) (vertices g) [] = Ok d ->
  coalescing g d.
Proof.
  intros L Hn Hs Hf E.
  assert (Hget : forall k, dict_get d k = group g k).
  { intros k. now rewrite (build_edge_dict_get _ _ _ _ k E). }
  assert (Hk : NoDup (keys_of d)).
  { eapply build_edge_dict_NoDup; [|exact E]. constructor. }
  constructor.
  - exact L.
  - exact Hn.
  - exact Hk.
  - intros k _. apply Hget.
  - intros k Hnk. rewrite <- Hget, dict_get_missing by exact Hnk. simpl. lia.
  - intros k ids i Hki Hi. apply symbol_labelled_sym_at; [exact Hs|].
    rewrite <- (dict_get_NoDup _ _ _ Hk Hki), Hget in Hi.
    unfold group in Hi. now apply filter_In in Hi as [Hi _].
  - now apply flags_agree_on_symbols.
Qed.

Lemma edges_of_keys h ids :
  (forall i, In i ids -> exists e, nth_error h i = Some e) ->
  exists es, edges_of h ids = Ok es /\
    forall k, count_key k (map key_of es) = length (filter (has_key h k) ids).
Proof.
  induction ids as [|i ids IH]; intros H.
  - exists []. split; [reflexivity|]. intros k. reflexivity.
  - destruct (H i (or_introl eq_refl)) as (e & Ee).
    destruct IH as (es & E & Hc); [intros j Hj; apply H; now right|].
    exists (e :: es). split.
    + simpl. rewrite (proj2 (lookup_edge_Ok _ _ _) Ee). simpl. now rewrite E.
    + intros k. unfold count_key in *. simpl. unfold has_key at 1. rewrite Ee.
      destruct (key_eqb k (key_of e)); simpl; now rewrite Hc.
Qed.

Lemma all_out_edges_keys h vs :
  (forall i, In i (out_ids vs) -> exists e, nth_error h i = Some e) ->
  exists es, all_out_edges h vs = Ok es /\
    forall k, count_key k (map key_of es) = length (filter (has_key h k) (out_ids vs)).
Proof.
  induction vs as [|v vs IH]; intros H.
  - exists []. split; [reflexivity|]. intros k. reflexivity.
  - destruct (edges_of_keys h (out_edges v)) as (es1 & E1 & C1).
    { intros i Hi. apply H. simpl. apply in_or_app. now left. }
    destruct IH as (es2 & E2 & C2).
    { intros i Hi. apply H. simpl. apply in_or_app. now right. }
    exists (es1 ++ es2). split.
    + simpl. rewrite E1. simpl. now rewrite E2.
    + intros k. unfold count_key in *. simpl.
      rewrite map_app, !filter_app, !length_app. now rewrite C1, C2.
Qed.

Lemma count_distinct_keys ks :
  (forall k, count_key k ks <= 1) -> distinct_keys ks = true.
Proof.
  induction ks as [|k0 ks IH]; intros H; simpl; [reflexivity|].
  apply andb_true_iff. split.
  - apply negb_true_iff. destruct (existsb (key_eqb k0) ks) eqn:Q; [|reflexivity].
    apply existsb_exists in Q as (x & Hx & Qx).
    specialize (H k0). unfold count_key in H. simpl in H.
    rewrite key_eqb_refl in H. simpl in H.
    assert (Hin : In x (filter (key_eqb k0) ks)) by (apply filter_In; now split).
    destruct (filter (key_eqb k0) ks); [destruct Hin | simpl in H; lia].
  - apply IH. intros k. specialize (H k). unfold count_key in *. simpl in H.
    destruct (key_eqb k k0); simpl in H; lia.
Qed.

Lemma groups_no_duplicate_edges g :
  linked g -> (forall k, length (group g k) <= 1) -> no_duplicate_edges g = true.
Proof.
  intros L H. unfold no_duplicate_edges.
  destruct (all_out_edges_keys (heap g) (vertices g)) as (es & E & C).
  { intros i Hi. apply out_ids_In in Hi as (v & Hv & Hi).
    destruct (lk_out L v i Hv Hi) as (e & Ee & _). now exists e. }
  rewrite E. apply count_distinct_keys. intros k. rewrite C. apply H.
Qed.

(** Coalescing an imported graph whose equal edges agree on the flag leaves
    one edge at most for each [(src, dst, accepting)]. *)
Lemma combine_duplicate_edge_coalesces g g' :
  built g -> symbol_labelled g = true -> flags_agree g = true ->
  combine_duplicate_edge g = Ok g' ->
  no_duplicate_edges g' = true.
Proof.
  unfold combine_duplicate_edge. intros B Hs Hf E. inv_bind E.
  assert (Hc : coalescing g a).
  { apply coalescing_start; auto; [now apply built_linked | now apply built_out_ids_NoDup]. }
  destruct (coalescing_combine_loop _ _ _ _ Hc E) as (d' & Hc' & F).
  apply groups_no_duplicate_edges; [exact (co_linked Hc')|].
  now apply (coalescing_groups g' d').
Qed.

(** ** Imported automata *)

Lemma graph_ok_symbol_labelled g :
  graph_ok (fun _ e => is_symbol (label e) = true)
           (fun _ e => is_symbol (label e) = true) g ->
  symbol_labelled g = true.
Proof.
  unfold graph_ok, vertices_ok, symbol_labelled. intros H.
  apply forallb_forall. intros v Hv. destruct (H v Hv) as [Ho Hi].
  apply andb_true_iff. split; unfold ids_check; apply forallb_forall; intros i Hin.
  - destruct (Ho i Hin) as (e & -> & P). exact P.
  - destruct (Hi i Hin) as (e & -> & P). exact P.
Qed.

Lemma import_edges_symbols ts : forall g g',
  graph_ok (fun _ e => is_symbol (label e) = true)
           (fun _ e => is_symbol (label e) = true) g ->
  import_edges g ts = Ok g' ->
  graph_ok (fun _ e => is_symbol (label e) = true)
           (fun _ e => is_symbol (label e) = true) g'.
Proof.
  induction ts as [|t ts IH]; intros g g' H E; simpl in E.
  - now inversion E; subst.
  - inv_bind E. eapply IH; [|exact E].
    eapply add_edge_ok; [exact H| | |exact Hm]; reflexivity.
Qed.

Lemma aut_to_tgraph_symbol_labelled aut g :
  aut_to_tgraph aut = Ok g -> symbol_labelled g = true.
Proof.
  unfold aut_to_tgraph. destruct (negb (aut_num_sets aut =? 1)); [discriminate|].
  intros E. apply graph_ok_symbol_labelled.
  eapply import_edges_symbols; [|exact E].
  intros v Hv. simpl in Hv. apply in_map_iff in Hv as (i & <- & _).
  split; intros j [].
Qed.

(** The coalesced import of an automaton whose equal edges agree on the
    flag has one edge at most for each [(src, dst, accepting)]. *)
Lemma coalesced_import_has_no_duplicates aut g g' :
  aut_to_tgraph aut = Ok g -> flags_agree g = true ->
  combine_duplicate_edge g = Ok g' ->
  no_duplicate_edges g' = true.
Proof.
  intros Ea Hf Ec. apply (combine_duplicate_edge_coalesces g g'); auto.
  - now apply (aut_to_tgraph_built aut).
  - now apply (aut_to_tgraph_symbol_labelled aut).
Qed.

(* ================================================================== *)
(** * The invariants of the graph (C5) *)
(* ================================================================== *)

(** C5, as far as the code keeps it: in a graph built by [add_edge] alone,
    as the importer builds it, every edge of an out-list has an equal edge
    (the same object) in the in-list of its destination and is, with its
    flag, in the list of that flag; [acc_trans] holds accepting edges only
    and [nonacc_trans] non-accepting ones only; a state is final exactly when
    an accepting edge leaves it; the graph is well-formed; and when its
    labels are [Symbol]s and its equal edges agree on the flag,
    [combine_duplicate_edge] leaves no two edges with the same
    [(src, dst, accepting)]. *)
Theorem built_graph_is_consistent (g : tGraph) :
  built g ->
  (forall v i, In v (vertices g) -> In i (out_edges v) ->
     exists e w j e',
       nth_error (heap g) i = Some e /\
       find_vertex (vertices g) (dst e) = Some w /\
       In j (in_edges w) /\ nth_error (heap g) j = Some e' /\
       edge_eqb e' e = true /\
       In e (if accepting e then acc_trans g else nonacc_trans g)) /\
  (forall e, In e (acc_trans g) -> accepting e = true) /\
  (forall e, In e (nonacc_trans g) -> accepting e = false) /\
  (forall s, In s (final_states g) <->
     exists v i e, find_vertex (vertices g) s = Some v /\ In i (out_edges v) /\
                   nth_error (heap g) i = Some e /\ accepting e = true) /\
  well_formed g = true /\
  (symbol_labelled g = true -> flags_agree g = true ->
   forall g', combine_duplicate_edge g = Ok g' -> no_duplicate_edges g' = true).
Proof.
  intros B. apply built_imported in B as E.
  split; [|split; [|split; [|split; [|split]]]].
  - intros v i Hv Hi.
    destruct (imp_out E v i Hv Hi) as (e & Ee & _ & (w & Fw & Hw) & Ht).
    exists e, w, i, e. repeat (split; [assumption|]).
    split; [apply edge_eqb_refl | exact Ht].
  - apply (imp_flags E true).
  - apply (imp_flags E false).
  - apply (imp_finals E).
  - now apply imported_well_formed.
  - intros Hs Hf g' Hc. now apply (combine_duplicate_edge_coalesces g g').
Qed.

Lemma built_graph_is_consistent_witness :
  exists g1 g2 g g',
    add_edge (new_tGraph 2 0) 0 1 (Symbol "a") false = Ok g1 /\
    add_edge g1 0 1 (Symbol "b") false = Ok g2 /\
    add_edge g2 1 1 (Symbol "c") true = Ok g /\
    aut_to_tgraph aut_parallel_lasso = Ok g /\
    In 1 (final_states g) /\
    well_formed g = true /\
    combine_duplicate_edge g = Ok g' /\
    no_duplicate_edges g' = true.
Proof.
  destruct (add_edge (new_tGraph 2 0) 0 1 (Symbol "a") false) as [g1|] eqn:E1;
    [|vm_compute in E1; discriminate].
  destruct (add_edge g1 0 1 (Symbol "b") false) as [g2|] eqn:E2.
  2:{ vm_compute in E1. inversion E1; subst g1. vm_compute in E2. discriminate. }
  destruct (add_edge g2 1 1 (Symbol "c") true) as [g|] eqn:E3.
  2:{ vm_compute in E1. inversion E1; subst g1. vm_compute in E2.
      inversion E2; subst g2. vm_compute in E3. discriminate. }
  pose proof (@built_add _ _ _ _ _ _
                (@built_add _ _ _ _ _ _
                   (@built_add _ _ _ _ _ _ (built_new 2 0) E1) E2) E3) as B.
  destruct (built_graph_is_consistent g B) as (_ & _ & _ & W4 & W5 & W6).
  destruct (combine_duplicate_edge g) as [g'|] eqn:Ec.
  2:{ vm_compute in E1. inversion E1; subst g1. vm_compute in E2.
      inversion E2; subst g2. vm_compute in E3. inversion E3; subst g.
      vm_compute in Ec. discriminate. }
  assert (Hs : symbol_labelled g = true).
  { vm_compute in E1. inversion E1; subst g1. vm_compute in E2.
    inversion E2; subst g2. vm_compute in E3. inversion E3; subst g.
    vm_compute. reflexivity. }
  assert (Hf : flags_agree g = true).
  { vm_compute in E1. inversion E1; subst g1. vm_compute in E2.
    inversion E2; subst g2. vm_compute in E3. inversion E3; subst g.
    vm_compute. reflexivity. }
  exists g1, g2, g, g'.
  split; [reflexivity|]. split; [exact E2|]. split; [exact E3|].
  split.
  { vm_compute in E1. inversion E1; subst g1. vm_compute in E2.
    inversion E2; subst g2. vm_compute in E3. inversion E3; subst g.
    vm_compute. reflexivity. }
  split.
  { apply W4.
    vm_compute in E1. inversion E1; subst g1. vm_compute in E2.
    inversion E2; subst g2. vm_compute in E3. inversion E3; subst g.
    do 3 eexists.
    split; [vm_compute; reflexivity|].
    split; [left; reflexivity|].
    split; reflexivity. }
  split; [exact W5|].
  split; [exact Ec|].
  exact (W6 Hs Hf g' eq_refl).
Defined.

(** C5 as the spec states it fails after [combine_duplicate_edge] and after
    [rip].  Coalescing a and b leaves the edge 0 -(a|b)-> 1 with no equal
    edge in [acc_trans] or [nonacc_trans]; ripping the dead end 1 leaves 0
    in [final_states] without an accepting out-edge; coalescing a (acc), b,
    a (non-acc), where equal edges differ in the flag, leaves two
    non-accepting edges from 0 to 1; and in that graph, as imported, the
    accepting edge a has an equal edge in both side lists, since edge
    equality leaves the flag out. *)
Lemma rip_and_combine_break_the_side_lists :
  exists g1 g1' v1 g2 g2' g3 g3' v3,
    aut_to_tgraph aut_parallel = Ok g1 /\
    combine_duplicate_edge g1 = Ok g1' /\
    get_vertex g1' 0 = Ok v1 /\
    edges_of (heap g1') (out_edges v1)
    = Ok [mkEdge 0 1 (Union (Symbol "a") (Symbol "b")) false] /\
    existsb (edge_eqb (mkEdge 0 1 (Union (Symbol "a") (Symbol "b")) false))
            (acc_trans g1' ++ nonacc_trans g1') = false /\
    aut_to_tgraph aut_dead_end = Ok g2 /\
    rip g2 1 = Ok g2' /\
    final_states g2' = [0] /\
    get_accepting_transitions_from g2' 0 = Ok [] /\
    aut_to_tgraph aut_same_label = Ok g3 /\
    combine_duplicate_edge g3 = Ok g3' /\
    get_vertex g3' 0 = Ok v3 /\
    edges_of (heap g3') (out_edges v3)
    = Ok [mkEdge 0 1 (Union (Symbol "b") (Symbol "a")) false;
          mkEdge 0 1 (Symbol "a") false] /\
    existsb (edge_eqb (mkEdge 0 1 (Symbol "a") true)) (acc_trans g3) = true /\
    existsb (edge_eqb (mkEdge 0 1 (Symbol "a") true)) (nonacc_trans g3) = true /\
    flags_agree g3 = false /\
    no_duplicate_edges g3' = false.
Proof.
  do 8 eexists.
  split; [vm_compute; reflexivity|].
  split; [vm_compute; reflexivity|].
  split; [vm_compute; reflexivity|].
  split; [vm_compute; reflexivity|].
  split; [vm_compute; reflexivity|].
  split; [vm_compute; reflexivity|].
  split; [vm_compute; reflexivity|].
  split; [vm_compute; reflexivity|].
  split; [vm_compute; reflexivity|].
  split; [vm_compute; reflexivity|].
  split; [vm_compute; reflexivity|].
  split; [vm_compute; reflexivity|].
  split; [vm_compute; reflexivity|].
  split; [vm_compute; reflexivity|].
  split; [vm_compute; reflexivity|].
  split; [vm_compute; reflexivity|].
  vm_compute; reflexivity.
Qed.

(* ================================================================== *)
(** * Further properties of the code *)
(* ================================================================== *)

(** ** The path queries return words of paths *)

Lemma star_path g k rep :
  (forall x, matches rep x -> path g k k x) ->
  forall u, matches (Star rep) u -> u = [] \/ path g k k u.
Proof.
  intros H u Hu. remember (Star rep) as s eqn:Es.
  induction Hu; inversion Es; subst.
  - now left.
  - right. destruct (IHHu2 eq_refl) as [->|Hp].
    + rewrite app_nil_r. now apply H.
    + apply (path_app g k k k); [now apply H | exact Hp].
Qed.

Lemma star_then_path g k j rep go w :
  (forall x, matches rep x -> path g k k x) ->
  (forall x, matches go x -> path g k j x) ->
  matches (Concat (Star rep) go) w -> path g k j w.
Proof.
  intros Hr Hg Hw. apply matches_concat_inv in Hw as (u & v & -> & Hu & Hv).
  destruct (star_path g k rep Hr u Hu) as [->|Hp].
  - simpl. now apply Hg.
  - apply (path_app g k k j); [exact Hp | now apply Hg].
Qed.

Lemma r_sound g table i acc :
  precompute (heap g) (vertices g) = Ok table ->
  forall kk i_p j_p res w,
    r table i acc kk i_p j_p = Some res -> matches res w -> path g i_p j_p w.
Proof.
  intros Ht.
  induction kk as [|k IH]; intros i_p j_p res w E Hw; simpl in E.
  - destruct (union_labels_matches _ _ _ E Hw) as (e & He & Hm).
    assert (He' : In e (transitions_get table i_p j_p)).
    { destruct (i_p =? i); [|exact He].
      destruct acc as [[|]|]; [| |exact He]; apply filter_In in He; tauto. }
    destruct (transitions_get_In _ _ _ _ _ Ht He') as (v & j & Fv & Hj & Ej & Ed).
    apply find_vertex_Some in Fv as [Hv Nv]. subst i_p j_p.
    now apply (path_edge g v j e).
  - destruct (k =? j_p); [exact (IH _ _ _ _ E Hw)|].
    destruct (k =? i_p).
    + destruct (r table i acc k i_p i_p) as [rep|] eqn:Er;
        [|exact (IH _ _ _ _ E Hw)].
      destruct (r table i acc k i_p j_p) as [go|] eqn:Eg; [|discriminate].
      inversion E; subst.
      apply (star_then_path g i_p j_p rep go); [| |exact Hw].
      * intros x Hx. exact (IH _ _ _ _ Er Hx).
      * intros x Hx. exact (IH _ _ _ _ Eg Hx).
    + destruct (r table i acc k i_p k) as [prev|] eqn:Ep;
        [|exact (IH _ _ _ _ E Hw)].
      destruct (r table i acc k k j_p) as [go|] eqn:Eg;
        [|exact (IH _ _ _ _ E Hw)].
      assert (Hres : forall w',
                 matches (match r table i acc k k k with
                          | None => Concat prev go
                          | Some rep' => Concat prev (Concat (Star rep') go)
                          end) w' -> path g i_p j_p w').
      { intros w' Hw'.
        destruct (r table i acc k k k) as [rep|] eqn:Er;
          apply matches_concat_inv in Hw' as (u & v & -> & Hu & Hv);
          apply (path_app g i_p k j_p); try exact (IH _ _ _ _ Ep Hu).
        - apply (star_then_path g k j_p rep go); [| |exact Hv].
          + intros x Hx. exact (IH _ _ _ _ Er Hx).
          + intros x Hx. exact (IH _ _ _ _ Eg Hx).
        - exact (IH _ _ _ _ Eg Hv). }
      destruct (r table i acc k i_p j_p) as [i_j|] eqn:Ei; inversion E; subst.
      * apply matches_union_inv in Hw as [Hw|Hw];
          [exact (IH _ _ _ _ Ei Hw) | now apply Hres].
      * now apply Hres.
Qed.

(** [mcnaughton_yamada(g, i, j, acc)] is sound for every graph and every
    mode: each word of the expression it returns is read along a path of
    [g] from [i] to [j]. *)
Theorem mcnaughton_yamada_reads_paths
    (g : tGraph) (i j : nat) (acc : option bool) (res : Regex) (w : list string) :
  mcnaughton_yamada g i j acc = Ok (Some res) ->
  matches res w ->
  path g i j w.
Proof.
  unfold mcnaughton_yamada. intros E Hw. inv_bind E. inversion E as [Er].
  exact (r_sound g a i acc Hm _ _ _ _ _ Er Hw).
Qed.

Lemma mcnaughton_yamada_reads_paths_witness :
  exists g,
    aut_to_tgraph aut_two_loops = Ok g /\
    path g 0 2 ["a"; "c"; "b"; "d"].
Proof.
  eexists. split; [vm_compute; reflexivity|].
  apply (mcnaughton_yamada_reads_paths _ 0 2 None
           (Concat (Symbol "a")
              (Concat (Star (Union (Symbol "b") (Symbol "c"))) (Symbol "d")))).
  - vm_compute. reflexivity.
  - apply (@m_concat (Symbol "a") _ ["a"] ["c"; "b"; "d"]); [constructor|].
    apply (@m_concat (Star _) (Symbol "d") ["c"; "b"] ["d"]); [|constructor].
    apply (@m_star_app _ ["c"] ["b"]); [apply m_union_r; constructor|].
    apply (@m_star_app _ ["b"] []); [apply m_union_l; constructor|].
    apply m_star_nil.
Defined.

(** *** State elimination *)

Definition opt_reads (g0 : tGraph) (a b : nat) (o : option Regex) : Prop :=
  forall res w, o = Some res -> matches res w -> path g0 a b w.

Lemma opt_reads_None g0 a b : opt_reads g0 a b None.
Proof. intros res w E. discriminate. Qed.

Lemma opt_reads_union g0 a b o l :
  opt_reads g0 a b o -> (forall w, matches l w -> path g0 a b w) ->
  opt_reads g0 a b (union_opt o l).
Proof.
  intros Ho Hl res w E Hw. destruct o as [r1|]; simpl in E; inversion E; subst.
  - apply matches_union_inv in Hw as [Hw|Hw]; [now apply (Ho r1) | now apply Hl].
  - now apply Hl.
Qed.

Lemma sound_union_closed_out g0 : forall n m e0 c e,
  sound_out g0 n (set_label e0 c) -> sound_out g0 m e -> key_of e = key_of e0 ->
  sound_out g0 n (set_label e0 (Union c (label e))).
Proof.
  intros n m e0 c e [S0 H0] [S1 H1] K. split; [exact S0|].
  intros w Hw. simpl in *. injection K as Ks Kd _.
  apply matches_union_inv in Hw as [Hw|Hw]; [now apply H0|].
  rewrite <- Ks, <- Kd. now apply H1.
Qed.

Lemma sound_union_closed_in g0 : forall n m e0 c e,
  sound_in g0 n (set_label e0 c) -> sound_out g0 m e -> key_of e = key_of e0 ->
  sound_in g0 n (set_label e0 (Union c (label e))).
Proof.
  intros n m e0 c e [S0 H0] [S1 H1] K. split; [exact S0|].
  intros w Hw. simpl in *. injection K as Ks Kd _.
  apply matches_union_inv in Hw as [Hw|Hw]; [now apply H0|].
  rewrite <- Ks, <- Kd. now apply H1.
Qed.

Lemma added_edges_shape v_rip r_rip ins outs x :
  In x (added_edges v_rip r_rip ins outs) ->
  exists e_in e_out,
    In e_in ins /\ In e_out outs /\
    x = (src e_in, dst e_out,
         match r_rip with
         | None => Concat (label e_in) (label e_out)
         | Some rr => Concat (label e_in) (Concat (Star rr) (label e_out))
         end, accepting e_in).
Proof.
  unfold added_edges. intros H.
  apply in_flat_map in H as (e_in & Hin & H).
  apply in_flat_map in H as (e_out & Hout & H).
  destruct ((src e_in =? v_rip) || (dst e_out =? v_rip)); [destruct H|].
  destruct H as [<-|[]]. now exists e_in, e_out.
Qed.

(** The edge that [rip] puts in the place of an in-edge, the self-loop and
    an out-edge of the ripped vertex reads paths through that vertex. *)
Lemma ripped_edge_sound g0 v e_in e_out r_rip :
  sound_in g0 v e_in -> sound_out g0 v e_out ->
  (forall rr, r_rip = Some rr -> forall w, matches rr w -> path g0 v v w) ->
  sound_edge g0
    (mkEdge (src e_in) (dst e_out)
       match r_rip with
       | None => Concat (label e_in) (label e_out)
       | Some rr => Concat (label e_in) (Concat (Star rr) (label e_out))
       end (accepting e_in)).
Proof.
  intros [Di Hi] [So Ho] Hr w Hw. simpl in *.
  destruct r_rip as [rr|];
    apply matches_concat_inv in Hw as (u & x & -> & Hu & Hx);
    apply (path_app g0 (src e_in) v (dst e_out)).
  - rewrite <- Di. now apply Hi.
  - apply (star_then_path g0 v (dst e_out) rr (label e_out)); [| |exact Hx].
    + now apply Hr.
    + intros y Hy. rewrite <- So. now apply Ho.
  - rewrite <- Di. now apply Hi.
  - rewrite <- So. now apply Ho.
Qed.

Lemma rip_sound g0 g v_rip g' :
  graph_ok (sound_out g0) (sound_in g0) g -> rip g v_rip = Ok g' ->
  graph_ok (sound_out g0) (sound_in g0) g'.
Proof.
  unfold rip. intros H E.
  inv_bind E. inv_bind E. inv_bind E. inv_bind E. inv_bind E. inv_bind E.
  inv_bind E. inv_bind E. inversion E; subst; clear E.
  apply get_vertex_Ok in Hm0 as [Hin Hn].
  destruct (detach_in_edges_ok _ _ _ _ _ H Hm3) as [H1 Hh1].
  destruct (detach_out_edges_ok _ _ _ _ _ H1 Hm5) as [H2 Hh2].
  assert (Hloop : forall rr, option_map label a = Some rr ->
                             forall w, matches rr w -> path g0 v_rip v_rip w).
  { intros rr Er w Hw. destruct a as [lp|]; simpl in Er; inversion Er; subst rr.
    unfold contain_self_loop in Hm.
    apply bind_Ok_inv in Hm as (vx & Hvx & Hm).
    apply bind_Ok_inv in Hm as (es & Hes & Hm).
    inversion Hm as [Hf]; clear Hm.
    apply get_vertex_Ok in Hvx as [Hin' Hn'].
    apply find_some in Hf as [Hl Hsd]. apply Nat.eqb_eq in Hsd.
    assert (Pl : sound_out g0 (number vx) lp).
    { eapply edges_of_ok; [exact Hes| |exact Hl]. now apply H. }
    destruct Pl as [Sl Pl]. specialize (Pl w Hw).
    rewrite <- Hsd, Sl, Hn' in Pl. exact Pl. }
  assert (H3 : graph_ok (sound_out g0) (sound_in g0) a6).
  { eapply add_edges_ok; [exact H2| |exact Hm6].
    intros s t r' b Hx.
    apply added_edges_shape in Hx as (e_in & e_out & Hein & Heout & Ex).
    inversion Ex; subst s t r' b.
    assert (Pi : sound_in g0 v_rip e_in).
    { rewrite <- Hn. eapply edges_of_ok; [exact Hm1| |exact Hein]. now apply H. }
    assert (Po : sound_out g0 v_rip e_out).
    { rewrite <- Hn. eapply edges_of_ok; [exact Hm2| |exact Heout]. now apply H. }
    pose proof (ripped_edge_sound g0 v_rip e_in e_out _ Pi Po Hloop) as Hs.
    split; split; try reflexivity; exact Hs. }
  unfold graph_ok. simpl. intros v Hv. apply filter_In in Hv as [Hv _].
  now apply H3.
Qed.

Lemma rip_loop_sound g0 fuel : forall g v_start v_end g',
  graph_ok (sound_out g0) (sound_in g0) g ->
  rip_loop fuel g v_start v_end = Ok g' ->
  graph_ok (sound_out g0) (sound_in g0) g'.
Proof.
  induction fuel as [|fuel IH]; intros g v_start v_end g' Hg E; simpl in E.
  - inv_bind E. destruct a; [discriminate | now inversion E; subst].
  - inv_bind E. destruct a as [v|]; [|now inversion E; subst].
    inv_bind E. inv_bind E.
    eapply IH; [|exact E].
    eapply (combine_duplicate_edge_ok (sound_out g0) (sound_in g0)
              (sound_union_closed_out g0) (sound_union_closed_in g0));
      [|exact Hm1].
    eapply rip_sound; eauto.
Qed.

(** The edges of a linked graph read paths of the graph itself. *)
Lemma linked_sound g : linked g -> graph_ok (sound_out g) (sound_in g) g.
Proof.
  intros L v Hv. split.
  - intros i Hi. destruct (lk_out L v i Hv Hi) as (e & Ee & Se & _).
    exists e. split; [exact Ee|]. split; [exact Se|].
    intros w Hw. rewrite Se. now apply (path_edge g v i e).
  - intros i Hi. destruct (lk_in L v i Hv Hi) as (e & Ee & De & Hs).
    exists e. split; [exact Ee|]. split; [exact De|].
    intros w Hw. apply In_states_find in Hs as (u & Hu & Nu).
    assert (Hio : In i (out_edges u)).
    { assert (Hf : In i (filter (has_src (heap g) (number u)) (in_edges v))).
      { apply filter_In. split; [exact Hi|]. unfold has_src. rewrite Ee.
        apply Nat.eqb_eq. now symmetry. }
      rewrite <- (lk_pair L u v Hu Hv) in Hf. now apply filter_In in Hf as [Hf _]. }
    rewrite <- Nu. now apply (path_edge g u i e).
Qed.

Lemma steps_sound g0 step v_start v_end es :
  step = path_step \/ step = accpath_step \/ step = nonaccpath_step ->
  (forall e, In e es -> src e = v_start /\ sound_edge g0 e) ->
  forall r1 r2,
    opt_reads g0 v_start v_start r1 -> opt_reads g0 v_start v_end r2 ->
    opt_reads g0 v_start v_start (fst (fold_left (step v_start v_end) es (r1, r2))) /\
    opt_reads g0 v_start v_end (snd (fold_left (step v_start v_end) es (r1, r2))).
Proof.
  intros Hs. induction es as [|e es IH]; intros Hes r1 r2 H1 H2; simpl.
  - now split.
  - destruct (Hes e (or_introl eq_refl)) as [Se He].
    assert (Hes' : forall e', In e' es -> src e' = v_start /\ sound_edge g0 e')
      by (intros; apply Hes; now right).
    assert (U1 : dst e = v_start ->
                 opt_reads g0 v_start v_start (union_opt r1 (label e))).
    { intros D. apply opt_reads_union; [exact H1|].
      intros w Hw. specialize (He w Hw). now rewrite Se, D in He. }
    assert (U2 : dst e = v_end ->
                 opt_reads g0 v_start v_end (union_opt r2 (label e))).
    { intros D. apply opt_reads_union; [exact H2|].
      intros w Hw. specialize (He w Hw). now rewrite Se, D in He. }
    destruct Hs as [-> | [-> | ->]]; simpl;
      [unfold path_step | unfold accpath_step | unfold nonaccpath_step];
      destruct (dst e =? v_start) eqn:D1, (dst e =? v_end) eqn:D2,
        (src e =? v_start), (accepting e); simpl;
      try apply Nat.eqb_eq in D1; try apply Nat.eqb_eq in D2;
      apply IH; auto.
Qed.

Lemma assemble_sound g0 step g v_start v_end res w :
  step = path_step \/ step = accpath_step \/ step = nonaccpath_step ->
  graph_ok (sound_out g0) (sound_in g0) g ->
  assemble step g v_start v_end = Ok (Some res) ->
  matches res w -> path g0 v_start v_end w.
Proof.
  unfold assemble. intros Hs Hg E Hw.
  inv_bind E. inv_bind E.
  apply get_vertex_Ok in Hm as [Hin Hn].
  assert (Hes : forall e, In e a0 -> src e = v_start /\ sound_edge g0 e).
  { intros e He. rewrite <- Hn.
    eapply (edges_of_ok _ (sound_out g0 (number a))); eauto. now apply Hg. }
  destruct (steps_sound g0 step v_start v_end a0 Hs Hes None None
              (opt_reads_None _ _ _) (opt_reads_None _ _ _)) as [P1 P2].
  destruct (fold_left (step v_start v_end) a0 (None, None)) as [r1 r2].
  simpl in P1, P2.
  inv_bind E. inv_bind E.
  destruct (fold_left (back_step v_start v_end) a2 (None, None)) as [r3 r4].
  destruct r2 as [r2'|]; [|discriminate].
  destruct (v_start =? v_end); inversion E as [Er]; subst res.
  - now apply (P2 r2').
  - unfold combine_final in Hw. destruct r1 as [r1'|].
    + apply (star_then_path g0 v_start v_end r1' r2'); [| |exact Hw].
      * intros x Hx. now apply (P1 r1').
      * intros x Hx. now apply (P2 r2').
    + now apply (P2 r2').
Qed.

(** State elimination is sound on a graph whose adjacency lists are
    paired: each word of the expression that [find_path], [find_accpath] or
    [find_nonaccpath] returns is read along a path of the graph from
    [v_start] to [v_end]. *)
Theorem state_elimination_reads_paths
    (g : tGraph) (v_start v_end : nat) (res : Regex) (w : list string) :
  linked g ->
  find_path g v_start v_end = Ok (Some res)
  \/ find_accpath g v_start v_end = Ok (Some res)
  \/ find_nonaccpath g v_start v_end = Ok (Some res) ->
  matches res w ->
  path g v_start v_end w.
Proof.
  intros L H Hw.
  assert (Hl : forall g', rip_loop (length (vertices g)) g v_start v_end = Ok g' ->
                          graph_ok (sound_out g) (sound_in g) g').
  { intros g' E. eapply rip_loop_sound; [|exact E]. now apply linked_sound. }
  destruct H as [H|[H|H]];
    [unfold find_path in H | unfold find_accpath in H | unfold find_nonaccpath in H];
    inv_bind H; eapply assemble_sound; try exact H; try exact Hw; auto.
Qed.

Lemma state_elimination_reads_paths_witness :
  exists g,
    aut_to_tgraph aut_two_loops = Ok g /\
    path g 0 2 ["a"; "b"; "b"; "d"].
Proof.
  destruct (aut_to_tgraph aut_two_loops) as [g|] eqn:E;
    [|vm_compute in E; discriminate].
  exists g. split; [reflexivity|].
  apply (state_elimination_reads_paths g 0 2
           (Concat (Symbol "a") (Concat (Star (Symbol "b")) (Symbol "d")))).
  - exact (aut_to_tgraph_linked _ _ E).
  - left. vm_compute in E. inversion E; subst g. vm_compute. reflexivity.
  - apply (@m_concat (Symbol "a") _ ["a"] ["b"; "b"; "d"]); [constructor|].
    apply (@m_concat (Star _) (Symbol "d") ["b"; "b"] ["d"]); [|constructor].
    apply (@m_star_app _ ["b"] ["b"]); [constructor|].
    apply (@m_star_app _ ["b"] []); [constructor|].
    apply m_star_nil.
Defined.

(* ------------------------------------------------------------------ *)
(** ** The measures of an expression *)

Lemma postorder_loop_empty (fuel : nat) (size : bool) :
  forall stack ret_val,
    forallb empty_free stack = false ->
    total weight stack <= fuel ->
    postorder_loop fuel size stack ret_val = Ok [].
Proof.
  induction fuel as [|fuel IH]; intros stack ret_val Hfree Hfuel.
  - destruct stack as [|node stack']; [discriminate|].
    unfold total in Hfuel. simpl in Hfuel. pose proof (weight_pos node). lia.
  - destruct stack as [|node stack']; [discriminate|].
    unfold total in *. simpl in Hfuel. simpl in Hfree.
    destruct node; simpl in Hfree; simpl postorder_loop.
    + apply IH; [exact Hfree | simpl in *; lia].
    + reflexivity.
    + apply IH; [exact Hfree | simpl in *; lia].
    + apply IH; [simpl; now rewrite andb_assoc | simpl in *; lia].
    + apply IH; [simpl; now rewrite andb_assoc | simpl in *; lia].
    + apply IH; [exact Hfree | simpl in *; lia].
Qed.

Lemma regex_tllen_empty (e : Regex) (size : bool) :
  empty_free e = false -> regex_tllen e size = Ok 0.
Proof.
  intros H. unfold regex_tllen, postorderTraversal.
  rewrite postorder_loop_empty;
    [|simpl; now rewrite H | unfold total; simpl; lia].
  now destruct size.
Qed.

(** An [Empty] anywhere in an expression makes the traversal return the
    empty list, so the length and the size of the whole expression are 0;
    under [Repeat] only that operand counts as 0. *)
Theorem empty_leaf_zeroes_the_measures (e : Regex) :
  empty_free e = false ->
  regex_len e = Ok 0 /\ regex_size e = Ok 0 /\
  omega_len (Repeat e) = Ok 0 /\ omega_size (Repeat e) = Ok 1.
Proof.
  intros H.
  pose proof (regex_tllen_empty e false H) as L.
  pose proof (regex_tllen_empty e true H) as S.
  split; [exact L|]. split; [exact S|].
  unfold omega_len, omega_size, omega_regex_tllen, postorderTraversalOmega.
  simpl. unfold regex_len in L. unfold regex_size in S. rewrite L, S.
  split; reflexivity.
Qed.

Lemma empty_leaf_zeroes_the_measures_witness :
  regex_len (Union (Symbol "a") (Star (Concat (Symbol "b") Empty))) = Ok 0 /\
  regex_size (Union (Symbol "a") (Star (Concat (Symbol "b") Empty))) = Ok 0.
Proof.
  destruct (empty_leaf_zeroes_the_measures
              (Union (Symbol "a") (Star (Concat (Symbol "b") Empty))) eq_refl)
    as (H1 & H2 & _).
  split; [exact H1 | exact H2].
Defined.

Lemma postorder_loop_tokens (fuel : nat) :
  forall stack ret_val,
    forallb empty_free stack = true ->
    total weight stack <= fuel ->
    postorder_loop fuel false stack ret_val
    = Ok (flat_map length_tokens (rev stack) ++ ret_val).
Proof.
  induction fuel as [|fuel IH]; intros stack ret_val Hfree Hfuel.
  - destruct stack as [|node stack']; [reflexivity|].
    unfold total in Hfuel. simpl in Hfuel. pose proof (weight_pos node). lia.
  - destruct stack as [|node stack']; [reflexivity|].
    simpl in Hfree. apply andb_true_iff in Hfree as [Hn Hs].
    unfold total in *. simpl in Hfuel.
    destruct node; simpl in Hn; try discriminate; simpl postorder_loop.
    + rewrite IH; [|exact Hs | simpl in *; lia].
      simpl. rewrite flat_map_app. simpl. now rewrite <- app_assoc.
    + rewrite IH; [|exact Hs | simpl in *; lia].
      simpl. rewrite flat_map_app. simpl. now rewrite <- app_assoc.
    + apply andb_true_iff in Hn as [H1 H2].
      rewrite IH; [|simpl; now rewrite H1, H2, Hs | simpl in *; lia].
      simpl. rewrite !flat_map_app. simpl. rewrite !app_nil_r.
      now rewrite <- !app_assoc.
    + apply andb_true_iff in Hn as [H1 H2].
      rewrite IH; [|simpl; now rewrite H1, H2, Hs | simpl in *; lia].
      simpl. rewrite !flat_map_app. simpl. rewrite !app_nil_r.
      now rewrite <- !app_assoc.
    + rewrite IH; [|simpl; now rewrite Hn, Hs | simpl in *; lia].
      simpl. rewrite !flat_map_app. simpl. now rewrite !app_nil_r.
Qed.

Lemma list_sum_snoc l x : list_sum (l ++ [x]) = list_sum l + x.
Proof. rewrite list_sum_app. simpl. lia. Qed.

(** The fold of [solve_postorder] over the tokens of one expression leaves
    one more number on the deque, whichever way the deque was turned. *)
Lemma solve_loop_tokens (e : Regex) :
  empty_free e = true ->
  forall rest st,
    exists st',
      solve_loop (length_tokens e ++ rest) st = solve_loop rest st' /\
      length st' = S (length st) /\
      list_sum st' <= list_sum st + symbol_count e /\
      (union_free e = true -> list_sum st' = list_sum st + symbol_count e).
Proof.
  induction e as [| |s|a IHa b IHb|a IHa b IHb|a IHa]; simpl; intros Hf rest st;
    try discriminate.
  - exists (0 :: st). simpl. repeat split; lia.
  - exists (1 :: st). simpl. repeat split; lia.
  - apply andb_true_iff in Hf as [Ha Hb].
    rewrite <- !app_assoc.
    destruct (IHb Hb (length_tokens a ++ [Plus] ++ rest) st) as (s1 & E1 & L1 & S1 & U1).
    destruct (IHa Ha ([Plus] ++ rest) s1) as (s2 & E2 & L2 & S2 & U2).
    destruct s2 as [|rgt [|lft s2']]; simpl in L2; try lia.
    exists (s2' ++ [rgt + lft]). split; [|split; [|split]].
    + rewrite E1, E2. reflexivity.
    + rewrite length_app. simpl. lia.
    + rewrite list_sum_snoc. simpl in S2. lia.
    + intros Hu. apply andb_true_iff in Hu as [Ua Ub].
      rewrite list_sum_snoc. specialize (U1 Ub). specialize (U2 Ua).
      simpl in U2. lia.
  - apply andb_true_iff in Hf as [Ha Hb].
    rewrite <- !app_assoc.
    destruct (IHb Hb (length_tokens a ++ [Quest] ++ rest) st) as (s1 & E1 & L1 & S1 & U1).
    destruct (IHa Ha ([Quest] ++ rest) s1) as (s2 & E2 & L2 & S2 & U2).
    destruct s2 as [|rgt [|lft s2']]; simpl in L2; try lia.
    exists (s2' ++ [if lft <? rgt then rgt else lft]). split; [|split; [|split]].
    + rewrite E1, E2. reflexivity.
    + rewrite length_app. simpl. lia.
    + rewrite list_sum_snoc. simpl in S2. destruct (lft <? rgt); lia.
    + discriminate.
  - apply IHa. exact Hf.
Qed.

Lemma regex_len_bound (e : Regex) :
  exists n,
    regex_tllen e false = Ok n /\ n <= symbol_count e /\
    (union_free e = true -> empty_free e = true -> n = symbol_count e).
Proof.
  destruct (empty_free e) eqn:Hf.
  - unfold regex_tllen, postorderTraversal.
    rewrite postorder_loop_tokens;
      [|simpl; now rewrite Hf | unfold total; simpl; lia].
    simpl. rewrite !app_nil_r. unfold solve_postorder.
    destruct (solve_loop_tokens e Hf [] []) as (st & E & L & S & U).
    rewrite app_nil_r in E. rewrite E.
    destruct st as [|x [|y st']]; simpl in L; try lia.
    exists x. simpl in *. split; [reflexivity|]. split; [lia|].
    intros Hu _. specialize (U Hu). lia.
  - exists 0. split; [now apply regex_tllen_empty|]. split; [lia | discriminate].
Qed.

(** [len(e)] never fails with an [IndexError], whatever the shape of [e]:
    it returns a number, at most the number of [Symbol] leaves, and exactly
    that number when [e] has neither [Union] nor [Empty]. *)
Theorem length_is_at_most_the_symbols (e : Regex) :
  exists n,
    regex_len e = Ok n /\ n <= symbol_count e /\
    (union_free e = true -> empty_free e = true -> n = symbol_count e).
Proof. exact (regex_len_bound e). Qed.

Lemma star_height_nodes (e : Regex) : regex_star_height e <= node_count e.
Proof. induction e; simpl; lia. Qed.

(** The star height of an expression without [Empty] is at most its size. *)
Theorem star_height_is_at_most_the_size (e : Regex) :
  empty_free e = true ->
  exists n, regex_size e = Ok n /\ regex_star_height e <= n.
Proof.
  intros H. exists (node_count e). split.
  - now apply regex_size_nodes.
  - apply star_height_nodes.
Qed.

Lemma star_height_is_at_most_the_size_witness :
  exists n, regex_size (Star (Union (Symbol "a") (Star (Symbol "b")))) = Ok n /\
            regex_star_height (Star (Union (Symbol "a") (Star (Symbol "b")))) <= n.
Proof.
  exact (star_height_is_at_most_the_size
           (Star (Union (Symbol "a") (Star (Symbol "b")))) eq_refl).
Defined.

(* ------------------------------------------------------------------ *)
(** ** The length of an omega-expression *)

Lemma len_value_eq (e : Regex) : regex_tllen e false = Ok (len_value e).
Proof.
  destruct (regex_len_bound e) as (n & E & _).
  unfold len_value, regex_len. now rewrite E.
Qed.

Lemma postorder_omega_loop_tokens (fuel : nat) :
  forall stack ret_val,
    total omega_weight stack <= fuel ->
    postorder_omega_loop fuel false stack ret_val
    = Ok (flat_map omega_length_tokens (rev stack) ++ ret_val).
Proof.
  induction fuel as [|fuel IH]; intros stack ret_val Hfuel.
  - destruct stack as [|node stack']; [reflexivity|].
    unfold total in Hfuel. simpl in Hfuel. pose proof (omega_weight_pos node). lia.
  - destruct stack as [|node stack']; [reflexivity|].
    unfold total in *. simpl in Hfuel.
    destruct node; simpl postorder_omega_loop.
    + rewrite IH by (simpl in *; lia).
      simpl. rewrite flat_map_app. simpl. now rewrite app_nil_r.
    + rewrite len_value_eq. simpl bind. rewrite IH by (simpl in *; lia).
      simpl. rewrite flat_map_app. simpl. now rewrite <- app_assoc.
    + rewrite len_value_eq. simpl bind. rewrite IH by (simpl in *; lia).
      simpl. rewrite !flat_map_app. simpl. rewrite !app_nil_r.
      now rewrite <- !app_assoc.
    + rewrite IH by (simpl in *; lia).
      simpl. rewrite !flat_map_app. simpl. rewrite !app_nil_r.
      now rewrite <- !app_assoc.
Qed.

Lemma omega_len_tokens (o : OmegaRegex) :
  omega_len o = solve_loop (omega_length_tokens o) [].
Proof.
  unfold omega_len, omega_regex_tllen, postorderTraversalOmega.
  rewrite postorder_omega_loop_tokens by (unfold total; simpl; lia).
  simpl. now rewrite !app_nil_r.
Qed.

Lemma solve_loop_omega_tokens (o : OmegaRegex) :
  omega_proper o = true ->
  forall rest st,
    exists st',
      solve_loop (omega_length_tokens o ++ rest) st = solve_loop rest st' /\
      length st' = S (length st).
Proof.
  induction o as [|s|r1 r2 IH|a IHa b IHb]; simpl; intros Hp rest st;
    try discriminate.
  - exists (len_value s :: st). now split.
  - rewrite <- app_assoc.
    destruct (IH Hp ([Num (len_value r1); Plus] ++ rest) st) as (s1 & E1 & L1).
    destruct s1 as [|x s1']; simpl in L1; [lia|].
    exists (s1' ++ [len_value r1 + x]). split.
    + rewrite E1. reflexivity.
    + rewrite length_app. simpl. lia.
  - apply andb_true_iff in Hp as [Ha Hb].
    rewrite <- !app_assoc.
    destruct (IHb Hb (omega_length_tokens a ++ [Quest] ++ rest) st) as (s1 & E1 & L1).
    destruct (IHa Ha ([Quest] ++ rest) s1) as (s2 & E2 & L2).
    destruct s2 as [|rgt [|lft s2']]; simpl in L2; try lia.
    exists (s2' ++ [if lft <? rgt then rgt else lft]). split.
    + rewrite E1, E2. reflexivity.
    + rewrite length_app. simpl. lia.
Qed.

Lemma omega_len_defined (o : OmegaRegex) :
  omega_proper o = true -> exists n, omega_len o = Ok n.
Proof.
  intros Hp. rewrite omega_len_tokens.
  destruct (solve_loop_omega_tokens o Hp [] []) as (st & E & L).
  rewrite app_nil_r in E. rewrite E.
  destruct st as [|x st']; simpl in L; [lia|]. now exists x.
Qed.

Lemma solve_loop_error toks : forall st e,
  solve_loop toks st = Err e -> e = IndexError.
Proof.
  induction toks as [|t toks IH]; intros st e E; simpl in E.
  - destruct st; discriminate.
  - destruct t.
    + eapply IH; eauto.
    + destruct st as [|rgt [|lft st']]; try (now inversion E). eapply IH; eauto.
    + destruct st as [|rgt [|lft st']]; try (now inversion E). eapply IH; eauto.
Qed.

(** A fold that comes to an end has met enough numbers for its operators. *)
Lemma solve_loop_operands toks : forall st x,
  solve_loop toks st = Ok x -> 1 <= count_ops toks ->
  count_ops toks + 1 <= length st + count_nums toks.
Proof.
  induction toks as [|t toks IH]; intros st x E Ho; simpl in *; [lia|].
  destruct t.
  - specialize (IH _ _ E Ho). simpl in IH. lia.
  - destruct st as [|rgt [|lft st']]; try discriminate.
    destruct (count_ops toks) as [|k] eqn:K; [simpl; lia|].
    assert (Hk : 1 <= S k) by lia.
    specialize (IH _ _ E Hk). rewrite length_app in IH. simpl in *. lia.
  - destruct st as [|rgt [|lft st']]; try discriminate.
    destruct (count_ops toks) as [|k] eqn:K; [simpl; lia|].
    assert (Hk : 1 <= S k) by lia.
    specialize (IH _ _ E Hk). rewrite length_app in IH. simpl in *. lia.
Qed.

Lemma count_nums_app a b : count_nums (a ++ b) = count_nums a + count_nums b.
Proof. induction a as [|[n| |] a IH]; simpl; lia. Qed.

Lemma count_ops_app a b : count_ops (a ++ b) = count_ops a + count_ops b.
Proof. induction a as [|[n| |] a IH]; simpl; lia. Qed.

Lemma omega_tokens_counts (o : OmegaRegex) :
  count_nums (omega_length_tokens o) + omega_empties o
  = count_ops (omega_length_tokens o) + 1.
Proof.
  induction o as [|s|r1 r2 IH|a IHa b IHb]; simpl;
    rewrite ?count_nums_app, ?count_ops_app; simpl; lia.
Qed.

Lemma omega_proper_empties (o : OmegaRegex) :
  omega_proper o = false -> 1 <= omega_empties o.
Proof.
  induction o as [|s|r1 r2 IH|a IHa b IHb]; simpl; intros H;
    try discriminate; try lia.
  - now apply IH.
  - apply andb_false_iff in H as [H|H]; [specialize (IHa H) | specialize (IHb H)]; lia.
Qed.

Lemma omega_len_fails (o : OmegaRegex) :
  omega_proper o = false -> o <> OmegaEmpty -> omega_len o = Err IndexError.
Proof.
  intros Hp Hne. rewrite omega_len_tokens.
  pose proof (omega_tokens_counts o) as C.
  pose proof (omega_proper_empties o Hp) as He.
  assert (Ho : 1 <= count_ops (omega_length_tokens o)).
  { destruct o; simpl in *; try congruence; try discriminate;
      rewrite ?count_ops_app; simpl; lia. }
  destruct (solve_loop (omega_length_tokens o) []) as [x|e] eqn:E.
  - pose proof (solve_loop_operands _ _ _ E Ho) as H. simpl in H. lia.
  - now rewrite (solve_loop_error _ _ _ E).
Qed.

(** [len] of an omega-expression raises an [IndexError] exactly when an
    [OmegaEmpty] stands below a [ConcatOmega] or a [UnionOmega]: the
    traversal leaves no number for it.  [OmegaEmpty] alone has length 0. *)
Theorem omega_length_fails_on_an_empty_operand (o : OmegaRegex) :
  match o with
  | OmegaEmpty => omega_len o = Ok 0
  | _ =>
    if omega_proper o then exists n, omega_len o = Ok n
    else omega_len o = Err IndexError
  end.
Proof.
  destruct o as [|s|r1 r2|a b]; [reflexivity| | |].
  - apply omega_len_defined. reflexivity.
  - destruct (omega_proper (ConcatOmega r1 r2)) eqn:Hp.
    + now apply omega_len_defined.
    + apply omega_len_fails; [exact Hp | discriminate].
  - destruct (omega_proper (UnionOmega a b)) eqn:Hp.
    + now apply omega_len_defined.
    + apply omega_len_fails; [exact Hp | discriminate].
Qed.

(** *** What the drivers return has a length *)

Lemma contribution_proper p1 p2 p3 :
  Forall (fun o => omega_proper o = true) (contribution p1 p2 p3).
Proof.
  unfold contribution. destruct p1, p2, p3; repeat constructor.
Qed.

Lemma for_finals_Forall (P : OmegaRegex -> Prop) body fs : forall qs ps,
  (forall f q c, body f = Ok (q, c) -> Forall P c) ->
  for_finals body fs = Ok (qs, ps) -> Forall P ps.
Proof.
  induction fs as [|f fs IH]; intros qs ps Hb H; simpl in H.
  - inversion H; subst. constructor.
  - apply tbind_Ok_inv in H as (q1 & c & q2 & Hc & H & ->).
    apply tbind_Ok_inv in H as (q3 & cs & q4 & Hr & H & ->).
    inversion H; subst. apply Forall_app. split.
    + exact (Hb _ _ _ Hc).
    + exact (IH _ _ Hb Hr).
Qed.

Lemma body_contribution g f q c :
  body_bmc g f = Ok (q, c) \/ body_mny g f = Ok (q, c)
  \/ body_simp_bmc g f = Ok (q, c) ->
  exists p1 p2 p3, c = contribution p1 p2 p3.
Proof.
  intros [H|[H|H]];
    [unfold body_bmc in H | unfold body_mny in H | unfold body_simp_bmc in H];
    apply tbind_Ok_inv in H as (q1 & p1 & q2 & H1 & H & ->);
    apply tbind_Ok_inv in H as (q3 & p2 & q4 & H2 & H & ->);
    apply tbind_Ok_inv in H as (q5 & p3 & q6 & H3 & H & ->).
  - apply tbind_Ok_inv in H as (q7 & p4 & q8 & H4 & H & ->).
    inversion H; subst. now exists p1, p2, p4.
  - apply tbind_Ok_inv in H as (q7 & p4 & q8 & H4 & H & ->).
    inversion H; subst. now exists p1, p2, p4.
  - inversion H; subst. now exists p1, p2, p3.
Qed.

Lemma fold_union_omega_proper rest : forall p,
  omega_proper p = true -> Forall (fun o => omega_proper o = true) rest ->
  omega_proper (fold_left UnionOmega rest p) = true.
Proof.
  induction rest as [|x rest IH]; intros p Hp Hr; simpl; [exact Hp|].
  inversion Hr; subst. apply IH; [|assumption]. simpl. now rewrite Hp.
Qed.

Lemma regex_tllen_defined (e : Regex) (size : bool) :
  exists n, regex_tllen e size = Ok n.
Proof.
  destruct size.
  - destruct (empty_free e) eqn:H.
    + exists (node_count e). now apply regex_size_nodes.
    + exists 0. now apply regex_tllen_empty.
  - destruct (regex_len_bound e) as (n & E & _). now exists n.
Qed.

Lemma postorder_omega_loop_defined (fuel : nat) (size : bool) :
  forall stack ret_val,
    total omega_weight stack <= fuel ->
    exists dq, postorder_omega_loop fuel size stack ret_val = Ok dq.
Proof.
  induction fuel as [|fuel IH]; intros stack ret_val Hfuel.
  - destruct stack as [|node stack']; [now exists ret_val|].
    unfold total in Hfuel. simpl in Hfuel. pose proof (omega_weight_pos node). lia.
  - destruct stack as [|node stack']; [now exists ret_val|].
    unfold total in *. simpl in Hfuel.
    destruct node; simpl postorder_omega_loop.
    + apply IH. simpl in *. lia.
    + destruct (regex_tllen_defined regex size) as (n & ->). simpl bind.
      apply IH. simpl in *. lia.
    + destruct (regex_tllen_defined l size) as (n & ->). simpl bind.
      apply IH. simpl in *. lia.
    + apply IH. simpl in *. lia.
Qed.

Lemma omega_size_defined (o : OmegaRegex) : exists n, omega_size o = Ok n.
Proof.
  unfold omega_size, omega_regex_tllen, postorderTraversalOmega.
  destruct (postorder_omega_loop_defined (omega_weight o) true [o] []) as (dq & ->).
  - unfold total. simpl. lia.
  - simpl. eauto.
Qed.

(** The two measures that walk the expression never raise on what a driver
    without a simplifier returns: [len] and [size] of the result of
    [taut_to_regex_bmc] and of [taut_to_regex_mny] are numbers. *)
Theorem driver_results_have_length_and_size (g : tGraph) (o : outcome) :
  taut_to_regex_bmc g = Ok o \/ taut_to_regex_mny g = Ok o ->
  (exists n, omega_len (returned o) = Ok n) /\
  (exists n, omega_size (returned o) = Ok n).
Proof.
  intros H. split; [|apply omega_size_defined].
  assert (Hd : exists all_paths,
             returned o = union_all all_paths /\
             Forall (fun x => omega_proper x = true) all_paths).
  { destruct H as [H|H]; apply drive_Ok_inv in H as (ps & _ & Hf & Hr);
      exists ps; (split; [exact Hr|]);
      refine (for_finals_Forall _ _ _ _ _ _ Hf);
      intros f q c Hb;
      destruct (body_contribution (graph_after o) f q c) as (p1 & p2 & p3 & ->);
      auto; apply contribution_proper. }
  destruct Hd as (ps & -> & Hps).
  destruct ps as [|p rest]; [now exists 0|].
  inversion Hps; subst. apply omega_len_defined. simpl.
  now apply fold_union_omega_proper.
Qed.

Lemma driver_results_have_length_and_size_witness :
  exists g o n,
    aut_to_tgraph aut_two_finals = Ok g /\
    taut_to_regex_bmc g = Ok o /\
    omega_len (returned o) = Ok n.
Proof.
  destruct (aut_to_tgraph aut_two_finals) as [g|] eqn:E;
    [|vm_compute in E; discriminate].
  destruct (taut_to_regex_bmc g) as [o|] eqn:D.
  2:{ vm_compute in E. inversion E; subst g. vm_compute in D. discriminate. }
  destruct (driver_results_have_length_and_size g o (or_introl D)) as [[n L] _].
  exists g, o, n. split; [reflexivity|]. split; [exact D | exact L].
Defined.

(* ------------------------------------------------------------------ *)
(** ** Errors of the graph operations *)

Lemma find_vertex_In vs n :
  In n (map number vs) -> exists v, find_vertex vs n = Some v.
Proof.
  unfold find_vertex. induction vs as [|x vs IH]; simpl; intros H; [destruct H|].
  destruct (number x =? n) eqn:E; [now exists x|].
  apply IH. destruct H as [H|H]; [|exact H].
  apply Nat.eqb_neq in E. contradiction.
Qed.

Lemma find_vertex_missing vs n :
  ~ In n (map number vs) -> find_vertex vs n = None.
Proof.
  intros H. destruct (find_vertex vs n) as [v|] eqn:E; [|reflexivity].
  apply find_vertex_Some in E as [Hv Hn]. exfalso. apply H.
  rewrite <- Hn. now apply in_map.
Qed.

Lemma add_edge_defined g s d l a :
  In s (states_of g) -> In d (states_of g) ->
  exists g', add_edge g s d l a = Ok g'.
Proof.
  intros Hs Hd. unfold states_of in *.
  destruct (find_vertex_In _ _ Hs) as (vs & Fs).
  destruct (find_vertex_In _ _ Hd) as (vd & Fd).
  unfold add_edge, Graph_add_edge, get_vertex. simpl.
  rewrite Fs. simpl. rewrite find_vertex_update by reflexivity.
  rewrite Fd. simpl. destruct a; eauto.
Qed.

Lemma add_edge_KeyError g s d l a :
  ~ (In s (states_of g) /\ In d (states_of g)) ->
  add_edge g s d l a = Err KeyError.
Proof.
  intros Hn. unfold states_of in *.
  unfold add_edge, Graph_add_edge, get_vertex. simpl.
  destruct (find_vertex (vertices g) s) as [vs|] eqn:Fs; [|reflexivity].
  simpl. rewrite find_vertex_update by reflexivity.
  destruct (find_vertex (vertices g) d) as [vd|] eqn:Fd; [|reflexivity].
  exfalso. apply Hn.
  apply find_vertex_Some in Fs as [Hs <-]. apply find_vertex_Some in Fd as [Hd <-].
  split; now apply in_map.
Qed.

(** [add_edge] raises a [KeyError] exactly when the source or the
    destination is no vertex of the graph, and returns otherwise. *)
Theorem add_edge_needs_both_endpoints
    (g : tGraph) (s d : nat) (l : Regex) (a : bool) :
  ((exists g', add_edge g s d l a = Ok g') <->
   In s (states_of g) /\ In d (states_of g)) /\
  (add_edge g s d l a = Err KeyError <->
   ~ (In s (states_of g) /\ In d (states_of g))).
Proof.
  assert (Hdec : (In s (states_of g) /\ In d (states_of g))
                 \/ ~ (In s (states_of g) /\ In d (states_of g))).
  { destruct (in_dec Nat.eq_dec s (states_of g)) as [Hs|Hs];
      destruct (in_dec Nat.eq_dec d (states_of g)) as [Hd|Hd]; tauto. }
  split; split.
  - intros (g' & E). destruct Hdec as [H|H]; [exact H|].
    rewrite (add_edge_KeyError g s d l a H) in E. discriminate.
  - intros [Hs Hd]. now apply add_edge_defined.
  - intros E [Hs Hd]. destruct (add_edge_defined g s d l a Hs Hd) as (g' & E').
    congruence.
  - apply add_edge_KeyError.
Qed.

Lemma list_remove_edge_none h e ids :
  (forall i, In i ids -> exists x, nth_error h i = Some x /\ edge_eqb x e = false) ->
  list_remove_edge h e ids = Err ValueError.
Proof.
  induction ids as [|i ids IH]; intros H; simpl; [reflexivity|].
  destruct (H i (or_introl eq_refl)) as (x & Ex & Nx).
  rewrite (proj2 (lookup_edge_Ok _ _ _) Ex). simpl. rewrite Nx.
  rewrite IH; [reflexivity|]. intros j Hj. apply H. now right.
Qed.

(** [remove_edge] raises a [KeyError] for a source that is no vertex, and
    a [ValueError] when no edge that leaves the source is equal to the one
    to remove: the flag takes no part in the search. *)
Theorem remove_edge_raises_for_a_missing_edge
    (g : tGraph) (s d : nat) (l : Regex) (a : bool) :
  linked g ->
  (forall v i e, In v (vertices g) -> number v = s -> In i (out_edges v) ->
                 nth_error (heap g) i = Some e ->
                 dst e <> d \/ label e <> l) ->
  remove_edge g s d l a
  = if in_dec Nat.eq_dec s (states_of g) then Err ValueError else Err KeyError.
Proof.
  intros L Hno. unfold remove_edge, Graph_remove_edge, get_vertex.
  destruct (in_dec Nat.eq_dec s (states_of g)) as [Hs|Hs].
  - destruct (find_vertex_In _ _ Hs) as (vs & Fs). rewrite Fs. simpl.
    apply find_vertex_Some in Fs as [Hv Hn].
    rewrite list_remove_edge_none; [reflexivity|].
    intros i Hi. destruct (lk_out L vs i Hv Hi) as (e & Ee & Se & _).
    exists e. split; [exact Ee|].
    rewrite edge_eqb_parts.
    destruct (Hno vs i e Hv Hn Hi Ee) as [Hd|Hl].
    + apply Nat.eqb_neq in Hd. rewrite Hd. now rewrite andb_false_r.
    + destruct (regex_eqb (label e) l) eqn:Q; [|now rewrite andb_false_r].
      apply regex_eqb_eq in Q. contradiction.
  - now rewrite (find_vertex_missing _ _ Hs).
Qed.

Lemma remove_edge_raises_for_a_missing_edge_witness :
  exists g,
    aut_to_tgraph aut_lasso = Ok g /\
    remove_edge g 0 1 (Symbol "b") false = Err ValueError /\
    remove_edge g 2 1 (Symbol "a") false = Err KeyError.
Proof.
  destruct (aut_to_tgraph aut_lasso) as [g|] eqn:E;
    [|vm_compute in E; discriminate].
  pose proof (aut_to_tgraph_linked _ _ E) as L.
  exists g. split; [reflexivity|].
  vm_compute in E. inversion E; subst g. split.
  - rewrite (remove_edge_raises_for_a_missing_edge _ 0 1 (Symbol "b") false L).
    + reflexivity.
    + intros v i e [<-|[<-|[]]] Hn Hi Ee; simpl in *; try discriminate.
      destruct Hi as [<-|[]]. simpl in Ee. inversion Ee; subst e. right. discriminate.
  - rewrite (remove_edge_raises_for_a_missing_edge _ 2 1 (Symbol "a") false L).
    + reflexivity.
    + intros v i e [<-|[<-|[]]] Hn Hi Ee; simpl in *; discriminate.
Defined.

(* ------------------------------------------------------------------ *)
(** ** The vertex to rip next *)




(* ------------------------------------------------------------------ *)
(** ** The importer *)

Lemma edges_of_grow h h' ids es :
  edges_of h ids = Ok es -> edges_of (h ++ h') ids = Ok es.
Proof.
  revert es; induction ids as [|i ids IH]; intros es E; simpl in *; [exact E|].
  inv_bind E. inv_bind E. inversion E; subst. apply lookup_edge_Ok in Hm.
  rewrite (proj2 (lookup_edge_Ok _ _ _)
             (eq_trans (nth_error_app1 h h' (proj1 (nth_error_Some h i) ltac:(congruence))) Hm)).
  simpl. now rewrite (IH _ Hm0).
Qed.

Lemma edges_of_snoc h ids es e :
  edges_of h ids = Ok es ->
  edges_of (h ++ [e]) (ids ++ [length h]) = Ok (es ++ [e]).
Proof.
  revert es; induction ids as [|i ids IH]; intros es E; simpl in *.
  - inversion E; subst. unfold lookup_edge.
    rewrite nth_error_app2, Nat.sub_diag by lia. reflexivity.
  - inv_bind E. inv_bind E. inversion E; subst. apply lookup_edge_Ok in Hm.
    rewrite (proj2 (lookup_edge_Ok _ _ _)
               (eq_trans (nth_error_app1 h [e] (proj1 (nth_error_Some h i) ltac:(congruence))) Hm)).
    simpl. now rewrite (IH _ Hm0).
Qed.

Lemma add_edge_out_view g s d l a g' n es :
  add_edge g s d l a = Ok g' -> out_view g n = Ok es ->
  out_view g' n = Ok (es ++ if n =? s then [mkEdge s d l a] else []).
Proof.
  intros E V. apply add_edge_spec in E as (_ & _ & Eh & Ev & _).
  unfold out_view, get_vertex in *. rewrite Ev, Eh.
  rewrite find_vertex_map by reflexivity.
  destruct (find_vertex (vertices g) n) as [v|] eqn:F; [|discriminate].
  simpl in *. apply find_vertex_Some in F as [_ Hn]. rewrite Hn.
  destruct (n =? s).
  - now apply edges_of_snoc.
  - rewrite app_nil_r. now apply edges_of_grow.
Qed.

Lemma add_edge_in_view g s d l a g' n es :
  add_edge g s d l a = Ok g' -> in_view g n = Ok es ->
  in_view g' n = Ok (es ++ if n =? d then [mkEdge s d l a] else []).
Proof.
  intros E V. apply add_edge_spec in E as (_ & _ & Eh & Ev & _).
  unfold in_view, get_vertex in *. rewrite Ev, Eh.
  rewrite find_vertex_map by reflexivity.
  destruct (find_vertex (vertices g) n) as [v|] eqn:F; [|discriminate].
  simpl in *. apply find_vertex_Some in F as [_ Hn]. rewrite Hn.
  destruct (n =? d).
  - now apply edges_of_snoc.
  - rewrite app_nil_r. now apply edges_of_grow.
Qed.

Lemma import_edges_views ts : forall g g',
  import_edges g ts = Ok g' ->
  states_of g' = states_of g /\
  num_states g' = num_states g /\ initial_state g' = initial_state g /\
  (forall n es, out_view g n = Ok es ->
     out_view g' n
     = Ok (es ++ map imported_edge (filter (fun t => t_src t =? n) ts))) /\
  (forall n es, in_view g n = Ok es ->
     in_view g' n
     = Ok (es ++ map imported_edge (filter (fun t => t_dst t =? n) ts))) /\
  acc_trans g' = acc_trans g ++ map imported_edge (filter t_acc ts) /\
  nonacc_trans g'
  = nonacc_trans g ++ map imported_edge (filter (fun t => negb (t_acc t)) ts).
Proof.
  induction ts as [|t ts IH]; intros g g' E; simpl in E.
  - inversion E; subst. simpl. rewrite !app_nil_r.
    repeat split; auto; intros n es V; now rewrite app_nil_r.
  - inv_bind E.
    destruct (IH _ _ E) as (S1 & N1 & I1 & O1 & J1 & A1 & B1).
    pose proof (add_edge_states _ _ _ _ _ _ Hm) as S0.
    pose proof (add_edge_spec _ _ _ _ _ _ Hm) as (_ & _ & _ & _ & _ & A0 & B0 & N0 & I0).
    split; [congruence|]. split; [congruence|]. split; [congruence|].
    split; [|split; [|split]].
    + intros n es V. rewrite (O1 n _ (add_edge_out_view _ _ _ _ _ _ n es Hm V)).
      simpl. rewrite (Nat.eqb_sym (t_src t) n).
      destruct (n =? t_src t); simpl; now rewrite <- app_assoc.
    + intros n es V. rewrite (J1 n _ (add_edge_in_view _ _ _ _ _ _ n es Hm V)).
      simpl. rewrite (Nat.eqb_sym (t_dst t) n).
      destruct (n =? t_dst t); simpl; now rewrite <- app_assoc.
    + rewrite A1, A0. simpl. destruct (t_acc t) eqn:Q; simpl.
      * rewrite <- app_assoc. unfold imported_edge at 2. now rewrite Q.
      * reflexivity.
    + rewrite B1, B0. simpl. destruct (t_acc t) eqn:Q; simpl.
      * reflexivity.
      * rewrite <- app_assoc. unfold imported_edge at 2. now rewrite Q.
Qed.

Lemma import_edges_defined n ts : forall g,
  states_of g = seq 0 n ->
  forallb (fun t => (t_src t <? n) && (t_dst t <? n)) ts = true ->
  exists g', import_edges g ts = Ok g'.
Proof.
  induction ts as [|t ts IH]; intros g Hs Hr; simpl in *; [eauto|].
  apply andb_true_iff in Hr as [Ht Hr]. apply andb_true_iff in Ht as [H1 H2].
  apply Nat.ltb_lt in H1, H2.
  destruct (add_edge_defined g (t_src t) (t_dst t) (Symbol (t_cond t)) (t_acc t))
    as (g1 & E1).
  - rewrite Hs. apply in_seq. lia.
  - rewrite Hs. apply in_seq. lia.
  - rewrite E1. simpl. apply IH; [|exact Hr].
    now rewrite (add_edge_states _ _ _ _ _ _ E1).
Qed.

Lemma import_edges_KeyError n ts : forall g,
  states_of g = seq 0 n ->
  forallb (fun t => (t_src t <? n) && (t_dst t <? n)) ts = false ->
  import_edges g ts = Err KeyError.
Proof.
  induction ts as [|t ts IH]; intros g Hs Hr; simpl in *; [discriminate|].
  destruct ((t_src t <? n) && (t_dst t <? n)) eqn:Ht; simpl in Hr.
  - apply andb_true_iff in Ht as [H1 H2]. apply Nat.ltb_lt in H1, H2.
    destruct (add_edge_defined g (t_src t) (t_dst t) (Symbol (t_cond t)) (t_acc t))
      as (g1 & E1).
    + rewrite Hs. apply in_seq. lia.
    + rewrite Hs. apply in_seq. lia.
    + rewrite E1. simpl. apply IH; [|exact Hr].
      now rewrite (add_edge_states _ _ _ _ _ _ E1).
  - rewrite add_edge_KeyError; [reflexivity|].
    rewrite Hs. intros [H1 H2]. apply in_seq in H1, H2.
    apply andb_false_iff in Ht as [Ht|Ht]; apply Nat.ltb_ge in Ht; lia.
Qed.

Lemma new_tGraph_states n initial : states_of (new_tGraph n initial) = seq 0 n.
Proof. unfold states_of. simpl. rewrite map_map. simpl. apply map_id. Qed.

Lemma find_fresh_vertex n : forall k v,
  k <= v < k + n ->
  find_vertex (map (fun i => mkVertex i [] []) (seq k n)) v = Some (mkVertex v [] []).
Proof.
  unfold find_vertex. induction n as [|n IH]; intros k v Hv; [lia|].
  simpl. destruct (k =? v) eqn:E.
  - apply Nat.eqb_eq in E. now subst.
  - apply Nat.eqb_neq in E. apply IH. lia.
Qed.

(** [aut_to_tgraph] in full: it raises an [AssertionError] unless the
    automaton has one acceptance set, a [KeyError] when an edge runs outside
    the states, and otherwise returns the graph on the states
    [0 .. num_states - 1] in which every state lists, in the order of the
    automaton, the edges that leave it and the edges that reach it, each
    with the printed condition as a [Symbol]; [acc_trans] and
    [nonacc_trans] are the accepting and the other edges in that order. *)
Theorem import_lists_the_edges_by_state (aut : Automaton) :
  match aut_to_tgraph aut with
  | Ok g =>
    aut_num_sets aut = 1 /\ edges_in_range aut = true /\
    states_of g = seq 0 (aut_num_states aut) /\
    num_states g = aut_num_states aut /\
    initial_state g = aut_init_state_number aut /\
    (forall v, v < aut_num_states aut ->
       out_view g v
       = Ok (map imported_edge (filter (fun t => t_src t =? v) (aut_edges aut))) /\
       in_view g v
       = Ok (map imported_edge (filter (fun t => t_dst t =? v) (aut_edges aut)))) /\
    acc_trans g = map imported_edge (filter t_acc (aut_edges aut)) /\
    nonacc_trans g
    = map imported_edge (filter (fun t => negb (t_acc t)) (aut_edges aut))
  | Err e =>
    if aut_num_sets aut =? 1 then e = KeyError /\ edges_in_range aut = false
    else e = AssertionError
  end.
Proof.
  unfold aut_to_tgraph, edges_in_range.
  destruct (aut_num_sets aut =? 1) eqn:Q; simpl; [|reflexivity].
  apply Nat.eqb_eq in Q.
  set (n := aut_num_states aut). set (g0 := new_tGraph n (aut_init_state_number aut)).
  destruct (forallb (fun t => (t_src t <? n) && (t_dst t <? n)) (aut_edges aut)) eqn:R.
  - destruct (import_edges_defined n (aut_edges aut) g0 (new_tGraph_states _ _) R)
      as (g & E).
    rewrite E.
    destruct (import_edges_views _ _ _ E) as (S1 & N1 & I1 & O1 & J1 & A1 & B1).
    split; [exact Q|]. split; [reflexivity|].
    split; [rewrite S1; apply new_tGraph_states|].
    split; [exact N1|]. split; [exact I1|].
    split; [|split; [exact A1 | exact B1]].
    intros v Hv. split.
    + rewrite (O1 v []); [reflexivity|].
      unfold out_view, get_vertex. simpl. rewrite find_fresh_vertex by lia. reflexivity.
    + rewrite (J1 v []); [reflexivity|].
      unfold in_view, get_vertex. simpl. rewrite find_fresh_vertex by lia. reflexivity.
  - rewrite (import_edges_KeyError n (aut_edges aut) g0 (new_tGraph_states _ _) R).
    now split.
Qed.

(* ------------------------------------------------------------------ *)
(** ** Adding an edge and removing it again *)

Lemma linked_in_out g w i :
  linked g -> In w (vertices g) -> In i (in_edges w) ->
  exists u e, In u (vertices g) /\ In i (out_edges u) /\
              nth_error (heap g) i = Some e.
Proof.
  intros L Hw Hi. destruct (lk_in L w i Hw Hi) as (e & Ee & De & Hs).
  apply In_states_find in Hs as (u & Hu & Nu).
  exists u, e. split; [exact Hu|]. split; [|exact Ee].
  assert (Hf : In i (filter (has_src (heap g) (number u)) (in_edges w))).
  { apply filter_In. split; [exact Hi|]. unfold has_src. rewrite Ee.
    apply Nat.eqb_eq. now symmetry. }
  rewrite <- (lk_pair L u w Hu Hw) in Hf. now apply filter_In in Hf as [Hf _].
Qed.

Lemma list_remove_edge_last h e ids j y :
  (forall i, In i ids -> exists x, nth_error h i = Some x /\ edge_eqb x e = false) ->
  nth_error h j = Some y -> edge_eqb y e = true ->
  list_remove_edge h e (ids ++ [j]) = Ok ids.
Proof.
  intros H Ej Ey. induction ids as [|i ids IH]; simpl.
  - rewrite (proj2 (lookup_edge_Ok _ _ _) Ej). simpl. now rewrite Ey.
  - destruct (H i (or_introl eq_refl)) as (x & Ex & Nx).
    rewrite (proj2 (lookup_edge_Ok _ _ _) Ex). simpl. rewrite Nx.
    rewrite IH; [reflexivity|]. intros k Hk. apply H. now right.
Qed.

Lemma trans_remove_last e l y :
  (forall x, In x l -> edge_eqb x e = false) -> edge_eqb y e = true ->
  trans_remove e (l ++ [y]) = Ok l.
Proof.
  intros H Ey. induction l as [|x l IH]; simpl.
  - now rewrite Ey.
  - rewrite (H x (or_introl eq_refl)). rewrite IH; [reflexivity|].
    intros z Hz. apply H. now right.
Qed.

Lemma set_remove_add s fs : ~ In s fs -> set_remove s (set_add s fs) = fs.
Proof.
  unfold set_remove. induction fs as [|y fs IH]; intros H; simpl.
  - now rewrite Nat.eqb_refl.
  - assert (Hy : y <> s) by (intros ->; apply H; now left).
    assert (Q : (y =? s) = false) by now apply Nat.eqb_neq.
    destruct (s <? y); [|destruct (s =? y) eqn:E].
    + simpl. rewrite Nat.eqb_refl, Q. simpl. f_equal.
      clear IH. induction fs as [|z fs IHf]; simpl; [reflexivity|].
      assert (Hz : z <> s) by (intros ->; apply H; right; now left).
      apply Nat.eqb_neq in Hz. rewrite Hz. simpl. f_equal. apply IHf.
      intros [?|?]; apply H; [now left | right; now right].
    + apply Nat.eqb_eq in E. congruence.
    + simpl. rewrite Q. simpl. f_equal. apply IH. intros Hin. apply H. now right.
Qed.

(** [final_states] as the model keeps it: strictly ascending. *)
Lemma set_add_sorted s fs : ascending fs -> ascending (set_add s fs).
Proof.
  induction fs as [|y fs IH]; intros H; simpl.
  - split; [intros z []|exact I].
  - destruct H as [Hall Hs].
    destruct (s <? y) eqn:L; [|destruct (s =? y) eqn:E].
    + apply Nat.ltb_lt in L. split; [|now split].
      intros z [<-|Hz]; [exact L|]. specialize (Hall z Hz). lia.
    + now split.
    + apply Nat.ltb_ge in L. apply Nat.eqb_neq in E.
      split; [|now apply IH].
      intros z Hz. apply set_add_In in Hz as [->|Hz]; [lia | now apply Hall].
Qed.

Lemma set_add_member s fs : ascending fs -> In s fs -> set_add s fs = fs.
Proof.
  induction fs as [|y fs IH]; intros H Hin; simpl; [destruct Hin|].
  destruct H as [Hall Hs].
  destruct (s <? y) eqn:L; [|destruct (s =? y) eqn:E].
  - apply Nat.ltb_lt in L. destruct Hin as [->|Hin]; [lia|].
    specialize (Hall s Hin). lia.
  - reflexivity.
  - apply Nat.eqb_neq in E. destruct Hin as [->|Hin]; [congruence|].
    f_equal. now apply IH.
Qed.

Lemma built_finals_sorted g : built g -> ascending (final_states g).
Proof.
  induction 1 as [n initial|g s d l a g' _ IH E].
  - exact I.
  - apply add_edge_spec in E as (_ & _ & _ & _ & Ef & _). rewrite Ef.
    destruct a; [now apply set_add_sorted | exact IH].
Qed.

(** In a graph built by [add_edge] every entry of the two side lists is an
    edge of an out-list. *)
Lemma built_trans_backed g :
  built g ->
  forall x, In x (acc_trans g) \/ In x (nonacc_trans g) ->
    exists v i, In v (vertices g) /\ In i (out_edges v) /\
                nth_error (heap g) i = Some x.
Proof.
  induction 1 as [n initial|g s d l a g' B IH E]; intros x Hx.
  - simpl in Hx. tauto.
  - pose proof (built_linked g B) as L.
    apply add_edge_spec in E as (_ & (vs & Fs) & Eh & Ev & _ & Ea & En & _).
    apply find_vertex_Some in Fs as [Hvs Ns].
    assert (Hnew : exists v i, In v (vertices g') /\ In i (out_edges v) /\
                               nth_error (heap g') i = Some (mkEdge s d l a)).
    { exists (file_edge s d (length (heap g)) vs), (length (heap g)).
      split; [rewrite Ev; now apply in_map|]. split.
      - simpl. rewrite Ns, Nat.eqb_refl. apply in_or_app. right. now left.
      - rewrite Eh, nth_error_app2, Nat.sub_diag by lia. reflexivity. }
    assert (Hold : In x (acc_trans g) \/ In x (nonacc_trans g) ->
                   exists v i, In v (vertices g') /\ In i (out_edges v) /\
                               nth_error (heap g') i = Some x).
    { intros H. destruct (IH x H) as (v & i & Hv & Hi & Ei).
      exists (file_edge s d (length (heap g)) v), i.
      split; [rewrite Ev; now apply in_map|]. split.
      - simpl. destruct (number v =? s); [apply in_or_app; now left | exact Hi].
      - rewrite Eh, nth_error_app1; [exact Ei|]. apply nth_error_Some. congruence. }
    rewrite Ea, En in Hx. destruct a.
    + destruct Hx as [Hx|Hx]; [|auto].
      apply in_app_or in Hx as [Hx|[<-|[]]]; auto.
    + destruct Hx as [Hx|Hx]; [auto|].
      apply in_app_or in Hx as [Hx|[<-|[]]]; auto.
Qed.

Lemma Graph_remove_edge_after_add g s d l a g1 :
  linked g ->
  (forall v i e, In v (vertices g) -> In i (out_edges v) ->
                 nth_error (heap g) i = Some e ->
                 edge_eqb e (mkEdge s d l a) = false) ->
  add_edge g s d l a = Ok g1 ->
  exists gA,
    Graph_remove_edge g1 s d l = Ok gA /\
    vertices gA = vertices g /\ heap gA = heap g1 /\
    final_states gA = final_states g1 /\
    acc_trans gA = acc_trans g1 /\ nonacc_trans gA = nonacc_trans g1 /\
    num_states gA = num_states g1 /\ initial_state gA = initial_state g1.
Proof.
  intros L Hno E.
  apply add_edge_spec in E as ((vd & Fd) & (vs & Fs) & Eh & Ev & _).
  set (id := length (heap g)) in *.
  set (new := mkEdge s d l a) in *.
  assert (Enew : nth_error (heap g1) id = Some new).
  { rewrite Eh. unfold id. rewrite nth_error_app2, Nat.sub_diag by lia. reflexivity. }
  assert (Qnew : edge_eqb new (mkEdge s d l false) = true).
  { unfold edge_eqb, new. simpl. now rewrite !Nat.eqb_refl, regex_eqb_refl. }
  pose proof (find_vertex_Some _ _ _ Fs) as [Hvs Ns].
  pose proof (find_vertex_Some _ _ _ Fd) as [Hvd Nd].
  assert (Hout : forall i, In i (out_edges vs) ->
                   exists x, nth_error (heap g1) i = Some x
                             /\ edge_eqb x (mkEdge s d l false) = false).
  { intros i Hi. destruct (lk_out L vs i Hvs Hi) as (e & Ee & _).
    exists e. split.
    - rewrite Eh, nth_error_app1; [exact Ee|]. apply nth_error_Some. congruence.
    - exact (Hno vs i e Hvs Hi Ee). }
  assert (Hin : forall i, In i (in_edges vd) ->
                  exists x, nth_error (heap g1) i = Some x
                            /\ edge_eqb x (mkEdge s d l false) = false).
  { intros i Hi. destruct (linked_in_out g vd i L Hvd Hi) as (u & e & Hu & Hiu & Ee).
    exists e. split.
    - rewrite Eh, nth_error_app1; [exact Ee|]. apply nth_error_Some. congruence.
    - exact (Hno u i e Hu Hiu Ee). }
  unfold Graph_remove_edge, get_vertex.
  rewrite Ev. rewrite find_vertex_map by reflexivity. rewrite Fs. simpl.
  rewrite Ns, Nat.eqb_refl.
  rewrite (list_remove_edge_last _ _ _ id new Hout Enew Qnew). simpl.
  rewrite find_vertex_update by reflexivity.
  rewrite find_vertex_map by reflexivity. rewrite Fd. simpl.
  assert (Ein : in_edges (if number vd =? s
                          then set_out (file_edge s d id vd) (out_edges vs)
                          else file_edge s d id vd)
                = in_edges vd ++ [id]).
  { destruct (number vd =? s); simpl; now rewrite Nd, Nat.eqb_refl. }
  rewrite Ein.
  rewrite (list_remove_edge_last _ _ _ id new Hin Enew Qnew). simpl.
  eexists. split; [reflexivity|]. simpl.
  split; [|repeat split].
  unfold update_vertex. rewrite !map_map.
  rewrite <- (map_id (vertices g)) at 2. apply map_ext_in.
  intros x Hx. simpl.
  assert (Hsame : number x = s -> x = vs).
  { intros Nx. pose proof (find_vertex_NoDup _ _ (lk_keys L) Hx) as F1.
    rewrite Nx in F1. congruence. }
  assert (Hsamed : number x = d -> x = vd).
  { intros Nx. pose proof (find_vertex_NoDup _ _ (lk_keys L) Hx) as F1.
    rewrite Nx in F1. congruence. }
  destruct x as [n o i]. simpl in *.
  destruct (n =? s) eqn:Q1; simpl; rewrite ?Q1; destruct (n =? d) eqn:Q2; simpl;
    rewrite ?Q1, ?Q2; simpl;
    try (apply Nat.eqb_eq in Q1; rewrite <- (Hsame Q1));
    try (apply Nat.eqb_eq in Q2; rewrite <- (Hsamed Q2));
    unfold file_edge, set_out, set_in; simpl;
    rewrite ?Q1, ?Q2, ?Nat.eqb_refl; try reflexivity;
    subst; rewrite ?Nat.eqb_refl, ?Q1, ?Q2; reflexivity.
Qed.

Lemma edges_of_defined h ids :
  (forall i, In i ids -> exists e, nth_error h i = Some e) ->
  exists es, edges_of h ids = Ok es.
Proof.
  induction ids as [|i ids IH]; intros H; [now exists []|].
  destruct (H i (or_introl eq_refl)) as (e & Ee).
  destruct IH as (es & E); [intros j Hj; apply H; now right|].
  exists (e :: es). simpl. rewrite (proj2 (lookup_edge_Ok _ _ _) Ee). simpl.
  now rewrite E.
Qed.

(** Removing the edge that was just added gives back the graph, when no
    edge of the graph was equal to it: the adjacency lists, the final
    states and the two side lists are as before. *)
Theorem add_then_remove_edge_restores
    (g : tGraph) (s d : nat) (l : Regex) (a : bool) (g1 : tGraph) :
  built g ->
  (forall v i e, In v (vertices g) -> In i (out_edges v) ->
                 nth_error (heap g) i = Some e ->
                 edge_eqb e (mkEdge s d l a) = false) ->
  add_edge g s d l a = Ok g1 ->
  exists g2,
    remove_edge g1 s d l a = Ok g2 /\
    vertices g2 = vertices g /\ final_states g2 = final_states g /\
    acc_trans g2 = acc_trans g /\ nonacc_trans g2 = nonacc_trans g /\
    num_states g2 = num_states g /\ initial_state g2 = initial_state g.
Proof.
  intros B Hno E.
  pose proof (built_linked g B) as L.
  pose proof (built_imported g B) as Im.
  pose proof (built_finals_sorted g B) as Hsorted.
  destruct (Graph_remove_edge_after_add g s d l a g1 L Hno E)
    as (gA & EA & VA & HA & FA & AA & NA & SA & IA).
  pose proof (add_edge_spec _ _ _ _ _ _ E)
    as (_ & (vs & Fs) & Eh & _ & Ef & Ea & En & Es & Ei).
  pose proof (find_vertex_Some _ _ _ Fs) as [Hvs Ns].
  destruct (edges_of_defined (heap g) (out_edges vs)) as (es & Ees).
  { intros i Hi. destruct (lk_out L vs i Hvs Hi) as (e & Ee & _). now exists e. }
  assert (Ees1 : edges_of (heap g1) (out_edges vs) = Ok es).
  { rewrite Eh. now apply edges_of_grow. }
  assert (Hfin : In s (final_states g) <-> filter accepting es <> []).
  { rewrite (imp_finals Im s). split.
    - intros (v & i & e & Fv & Hi & Ee & Ha) Hnil.
      assert (v = vs) by congruence. subst v.
      assert (Hin : In e (filter accepting es)).
      { apply filter_In. split; [|exact Ha].
        exact (edges_of_member _ _ _ i e Ees Hi Ee). }
      rewrite Hnil in Hin. destruct Hin.
    - intros Hne. destruct (filter accepting es) as [|e rest] eqn:F; [congruence|].
      assert (Hin : In e (filter accepting es)) by (rewrite F; now left).
      apply filter_In in Hin as [Hin Ha].
      destruct (edges_of_In _ _ _ Ees _ Hin) as (i & Hi & Ee).
      now exists vs, i, e. }
  assert (Hback : forall x, In x (acc_trans g) \/ In x (nonacc_trans g) ->
                            edge_eqb x (mkEdge s d l a) = false).
  { intros x Hx. destruct (built_trans_backed g B x Hx) as (v & i & Hv & Hi & Ex).
    exact (Hno v i x Hv Hi Ex). }
  assert (Qnew : edge_eqb (mkEdge s d l a) (mkEdge s d l a) = true)
    by apply edge_eqb_refl.
  assert (Hacc : forall g', vertices g' = vertices g -> heap g' = heap g1 ->
                   get_accepting_transitions_from g' s = Ok (filter accepting es)).
  { intros g' V H. unfold get_accepting_transitions_from, get_vertex, filter_edges.
    rewrite V, Fs. simpl. rewrite H, Ees1. reflexivity. }
  unfold remove_edge. rewrite EA. simpl bind.
  destruct a.
  - rewrite AA, Ea. rewrite (trans_remove_last _ _ _ (fun x Hx => Hback x (or_introl Hx)) Qnew).
    simpl bind. simpl final_states. rewrite FA, Ef.
    assert (Hm : set_mem s (set_add s (final_states g)) = true).
    { apply set_mem_In. apply set_add_In. now left. }
    rewrite Hm. rewrite Hacc by (simpl; assumption). simpl bind.
    destruct (filter accepting es) as [|e rest] eqn:F; simpl.
    + eexists. split; [reflexivity|]. simpl.
      assert (Hs : ~ In s (final_states g)) by (intros H; apply Hfin in H; congruence).
      rewrite ?FA, ?Ef, ?(set_remove_add _ _ Hs). rewrite En in NA.
      repeat split; congruence.
    + eexists. split; [reflexivity|]. simpl.
      assert (Hs : In s (final_states g)) by (apply Hfin; discriminate).
      rewrite ?FA, ?Ef, ?(set_add_member _ _ Hsorted Hs). rewrite En in NA.
      repeat split; congruence.
  - rewrite NA, En. rewrite (trans_remove_last _ _ _ (fun x Hx => Hback x (or_intror Hx)) Qnew).
    simpl bind. simpl final_states. rewrite FA, Ef.
    destruct (set_mem s (final_states g)) eqn:Hm.
    + rewrite Hacc by (simpl; assumption). simpl bind.
      apply set_mem_In in Hm. apply Hfin in Hm.
      destruct (filter accepting es) as [|e rest]; [congruence|]. simpl.
      eexists. split; [reflexivity|]. simpl. rewrite Ea in AA.
      repeat split; congruence.
    + eexists. split; [reflexivity|]. simpl. rewrite Ea in AA.
      repeat split; congruence.
Qed.

Lemma add_then_remove_edge_restores_witness :
  exists g g1 g2,
    aut_to_tgraph aut_lasso = Ok g /\
    add_edge g 1 0 (Symbol "c") true = Ok g1 /\
    remove_edge g1 1 0 (Symbol "c") true = Ok g2 /\
    vertices g2 = vertices g /\ final_states g2 = final_states g /\
    acc_trans g2 = acc_trans g.
Proof.
  destruct (aut_to_tgraph aut_lasso) as [g|] eqn:E;
    [|vm_compute in E; discriminate].
  pose proof (aut_to_tgraph_built _ _ E) as B.
  destruct (add_edge g 1 0 (Symbol "c") true) as [g1|] eqn:E1.
  2:{ vm_compute in E. inversion E; subst g. vm_compute in E1. discriminate. }
  destruct (add_then_remove_edge_restores g 1 0 (Symbol "c") true g1 B)
    as (g2 & R & V & F & A & _).
  - vm_compute in E. inversion E; subst g.
    intros v i e [<-|[<-|[]]] Hi Ee; simpl in *.
    + destruct Hi as [<-|[]]. simpl in Ee. inversion Ee; subst e. reflexivity.
    + destruct Hi as [<-|[]]. simpl in Ee. inversion Ee; subst e. reflexivity.
  - exact E1.
  - exists g, g1, g2. split; [reflexivity|]. split; [exact E1|].
    split; [exact R|]. split; [exact V|]. split; [exact F | exact A].
Defined.

(* ------------------------------------------------------------------ *)
(** ** Coalescing *)

(** [combine_duplicate_edge] keeps the two adjacency lists views of one
    edge set, in the same order, and keeps the states. *)
Theorem coalescing_keeps_the_lists_paired (g g' : tGraph) :
  linked g -> combine_duplicate_edge g = Ok g' ->
  linked g' /\ states_of g' = states_of g /\ well_formed g' = true.
Proof.
  intros L E. pose proof (linked_combine_duplicate_edge g g' L E) as L'.
  split; [exact L'|]. split.
  - now apply combine_duplicate_edge_states.
  - now apply linked_well_formed.
Qed.

Lemma coalescing_keeps_the_lists_paired_witness :
  exists g g',
    aut_to_tgraph aut_parallel3 = Ok g /\
    combine_duplicate_edge g = Ok g' /\
    linked g' /\ well_formed g' = true.
Proof.
  destruct (aut_to_tgraph aut_parallel3) as [g|] eqn:E;
    [|vm_compute in E; discriminate].
  destruct (combine_duplicate_edge g) as [g'|] eqn:C.
  2:{ vm_compute in E. inversion E; subst g. vm_compute in C. discriminate. }
  destruct (coalescing_keeps_the_lists_paired g g' (aut_to_tgraph_linked _ _ E) C)
    as (L & _ & W).
  exists g, g'. split; [reflexivity|]. split; [exact C|]. now split.
Defined.

(** Coalescing a coalesced graph changes nothing: on a graph built by
    [add_edge] with [Symbol] labels whose equal edges agree on the flag, a
    second [combine_duplicate_edge] returns its argument, and each driver
    returns on the coalesced graph what it returns on the graph itself. *)
Theorem coalescing_twice_is_coalescing_once
    (simplify : OmegaRegex -> OmegaRegex) (g g' : tGraph) :
  built g -> symbol_labelled g = true -> flags_agree g = true ->
  combine_duplicate_edge g = Ok g' ->
  combine_duplicate_edge g' = Ok g' /\
  taut_to_regex_bmc g' = taut_to_regex_bmc g /\
  taut_to_regex_mny g' = taut_to_regex_mny g /\
  simp_taut_to_regex_bmc simplify g' = simp_taut_to_regex_bmc simplify g /\
  simp_taut_to_regex_mny simplify g' = simp_taut_to_regex_mny simplify g.
Proof.
  intros B Hs Hf E.
  assert (E' : combine_duplicate_edge g' = Ok g').
  { apply combine_duplicate_edge_fixed.
    now apply (combine_duplicate_edge_coalesces g g'). }
  split; [exact E'|].
  unfold taut_to_regex_bmc, taut_to_regex_mny, simp_taut_to_regex_bmc,
    simp_taut_to_regex_mny, drive.
  rewrite E, E'. repeat split; reflexivity.
Qed.

Lemma coalescing_twice_is_coalescing_once_witness :
  exists g g',
    aut_to_tgraph aut_parallel_lasso = Ok g /\
    combine_duplicate_edge g = Ok g' /\
    combine_duplicate_edge g' = Ok g' /\
    taut_to_regex_bmc g' = taut_to_regex_bmc g.
Proof.
  destruct (aut_to_tgraph aut_parallel_lasso) as [g|] eqn:E;
    [|vm_compute in E; discriminate].
  destruct (combine_duplicate_edge g) as [g'|] eqn:C.
  2:{ vm_compute in E. inversion E; subst g. vm_compute in C. discriminate. }
  assert (Hs : symbol_labelled g = true)
    by exact (aut_to_tgraph_symbol_labelled _ _ E).
  assert (Hf : flags_agree g = true).
  { vm_compute in E. inversion E; subst g. vm_compute. reflexivity. }
  destruct (coalescing_twice_is_coalescing_once (fun o => o) g g'
              (aut_to_tgraph_built _ _ E) Hs Hf C) as (H1 & H2 & _).
  exists g, g'. split; [reflexivity|]. split; [exact C|]. now split.
Defined.

(* ------------------------------------------------------------------ *)
(** ** McNaughton-Yamada keeps the direct edges *)

Lemma fold_union_keeps es : forall c w,
  matches c w \/ (exists e, In e es /\ matches (label e) w) ->
  matches (fold_left (fun result t' => Union result (label t')) es c) w.
Proof.
  induction es as [|e es IH]; intros c w H; simpl.
  - destruct H as [H|(e & [] & _)]. exact H.
  - apply IH. destruct H as [H|(e' & [<-|He'] & Hm)].
    + left. now apply m_union_l.
    + left. now apply m_union_r.
    + right. now exists e'.
Qed.

Lemma union_labels_keeps trans e w :
  In e trans -> matches (label e) w ->
  exists res, union_labels trans = Some res /\ matches res w.
Proof.
  destruct trans as [|t ts]; intros He Hm; [destruct He|].
  simpl. eexists. split; [reflexivity|]. apply fold_union_keeps.
  destruct He as [<-|He]; [now left|]. right. now exists e.
Qed.

Lemma precompute_lists h vs : forall table n v,
  precompute h vs = Ok table -> find_vertex vs n = Some v ->
  exists es, find (fun p => fst p =? n) table = Some (number v, es) /\
             edges_of h (out_edges v) = Ok es.
Proof.
  induction vs as [|x vs IH]; intros table n v E F; simpl in E; [discriminate|].
  inv_bind E. inv_bind E. inversion E; subst; clear E.
  unfold find_vertex in F. simpl in *.
  destruct (number x =? n) eqn:En.
  - inversion F; subst. now exists a.
  - eapply IH; eauto.
Qed.

Lemma r_grows table i acc kk i_p j_p res w :
  r table i acc kk i_p j_p = Some res -> matches res w ->
  exists res', r table i acc (S kk) i_p j_p = Some res' /\ matches res' w.
Proof.
  intros E Hw. simpl.
  destruct (kk =? j_p); [now exists res|].
  destruct (kk =? i_p).
  - rewrite E. destruct (r table i acc kk i_p i_p) as [rep|]; [|now exists res].
    eexists. split; [reflexivity|].
    rewrite <- (app_nil_l w). apply m_concat; [apply m_star_nil | exact Hw].
  - rewrite E.
    destruct (r table i acc kk i_p kk) as [prev|]; [|now exists res].
    destruct (r table i acc kk kk j_p) as [go|]; [|now exists res].
    eexists. split; [reflexivity|]. now apply m_union_l.
Qed.

Lemma r_grows_to table i acc n : forall kk i_p j_p res w,
  r table i acc kk i_p j_p = Some res -> matches res w ->
  exists res', r table i acc (n + kk) i_p j_p = Some res' /\ matches res' w.
Proof.
  induction n as [|n IH]; intros kk i_p j_p res w E Hw; [now exists res|].
  destruct (IH _ _ _ _ _ E Hw) as (res1 & E1 & H1).
  exact (r_grows _ _ _ _ _ _ _ _ E1 H1).
Qed.

(** [mcnaughton_yamada(g, i, j, acc)] loses no edge from [i] to [j]: when
    such an edge has the requested flag, the result is not [None] and
    matches every word of the label of the edge. *)
Theorem mcnaughton_yamada_keeps_the_direct_edges
    (g : tGraph) (i j : nat) (acc : option bool) (o : option Regex)
    (v : Vertex) (id : nat) (e : Edge) (w : list string) :
  mcnaughton_yamada g i j acc = Ok o ->
  find_vertex (vertices g) i = Some v -> In id (out_edges v) ->
  nth_error (heap g) id = Some e -> dst e = j ->
  acc = None \/ acc = Some (accepting e) ->
  matches (label e) w ->
  exists res, o = Some res /\ matches res w.
Proof.
  unfold mcnaughton_yamada. intros E Fv Hid Ee Hd Hacc Hw.
  inv_bind E. inversion E as [Er]; clear E.
  destruct (precompute_lists _ _ _ _ _ Hm Fv) as (es & Ft & Ees).
  assert (Hin : In e (transitions_get a i j)).
  { unfold transitions_get. rewrite Ft. apply filter_In. split.
    - exact (edges_of_member _ _ _ id e Ees Hid Ee).
    - now apply Nat.eqb_eq. }
  assert (H0 : exists res0, r a i acc 0 i j = Some res0 /\ matches res0 w).
  { simpl. rewrite Nat.eqb_refl. apply (union_labels_keeps _ e); [|exact Hw].
    destruct Hacc as [->| ->]; [exact Hin|].
    destruct (accepting e) eqn:Q; apply filter_In; split; auto.
    now rewrite Q. }
  destruct H0 as (res0 & E0 & H0).
  destruct (r_grows_to a i acc (num_states g) 0 i j res0 w E0 H0) as (res & E1 & H1).
  rewrite Nat.add_0_r in E1. exists res. split; [exact E1 | exact H1].
Qed.

Lemma mcnaughton_yamada_keeps_the_direct_edges_witness :
  exists g res,
    aut_to_tgraph aut_two_loops = Ok g /\
    mcnaughton_yamada g 1 1 (Some false) = Ok (Some res) /\
    matches res ["c"].
Proof.
  destruct (aut_to_tgraph aut_two_loops) as [g|] eqn:E;
    [|vm_compute in E; discriminate].
  destruct (mcnaughton_yamada g 1 1 (Some false)) as [o|] eqn:M.
  2:{ vm_compute in E. inversion E; subst g. vm_compute in M. discriminate. }
  vm_compute in E. inversion E; subst g.
  destruct (mcnaughton_yamada_keeps_the_direct_edges _ 1 1 (Some false) o
              (mkVertex 1 [1; 2; 3] [0; 1; 2]) 2
              (mkEdge 1 1 (Symbol "c") false) ["c"] M)
    as (res & -> & Hw); try reflexivity.
  - right. now left.
  - now right.
  - constructor.
  - eexists _, res. split; [reflexivity|]. split; [exact M | exact Hw].
Defined.

(* ------------------------------------------------------------------ *)
(** ** Coalescing keeps the final states *)

(** What one removal of [combine_duplicate_edge] takes out of the graph:
    the edge it was called for, and no other. *)
Lemma coalescing_entry_removal g d key id0 id rest e g1 :
  coalescing_entry g d key id0 (id :: rest) ->
  lookup_edge (heap g) id = Ok e ->
  remove_edge g (src e) (dst e) (label e) (accepting e) = Ok g1 ->
  exists vs pre post ins,
    In vs (vertices g) /\ number vs = src e /\
    out_edges vs = pre ++ id :: post /\
    heap g1 = heap g /\
    vertices g1 = map (unfile_edge (src e) (dst e) (pre ++ post) ins) (vertices g) /\
    key_of e = key /\ id <> id0 /\ In id0 (out_edges vs).
Proof.
  intros [L Hn Hk Hkey [Hd Hg] Hin Hout Hsym Hfirst Hag] Ee Er.
  apply lookup_edge_Ok in Ee.
  apply remove_edge_Graph in Er as (g0 & Er & Eh1 & Ev1).
  apply Graph_remove_edge_spec in Er
    as (vs & vd & outs & ins & Fs & Fd & Eo & Ei & Eh & Ev).
  rewrite Eh in Eh1. rewrite Ev in Ev1. clear Eh Ev.
  apply find_vertex_Some in Fs as [Hvs Ns].
  apply list_remove_edge_split in Eo
    as (pre & x & post & ex & Eo1 & Eo2 & Ex & Eq & Hpre).
  subst outs.
  destruct (out_ids_unfile (src e) (dst e) ins vs pre x post (vertices g)
              (lk_keys L) Hvs Ns Eo1) as (A0 & B0 & EA & EB).
  assert (Hgid : In id (group g key)) by (rewrite Hg; right; now left).
  unfold group in Hgid. apply filter_In in Hgid as [Hido Hidk].
  assert (Ke : key_of e = key).
  { unfold has_key in Hidk. rewrite Ee in Hidk. apply key_eqb_eq in Hidk.
    now symmetry. }
  assert (Hnd : NoDup (id0 :: id :: rest)).
  { rewrite <- Hg. unfold group. now apply NoDup_filter. }
  assert (Hne : id <> id0).
  { inversion Hnd as [|? ? H0 _]; subst. intros ->. apply H0. now left. }
  assert (Sid : sym_at (heap g) id = true).
  { apply (Hsym key (dict_get d key));
      [now apply dict_get_entry | rewrite Hd; right; now left | exact Hne]. }
  assert (Sle : is_symbol (label e) = true).
  { unfold sym_at in Sid. now rewrite Ee in Sid. }
  assert (Eqe : edge_eqb ex e = true) by exact Eq.
  assert (Hxo : In x (out_ids (vertices g))).
  { rewrite EA. apply in_or_app. right. now left. }
  assert (Kx : has_key (heap g) key x = true).
  { unfold has_key. rewrite Ex, <- Ke. apply key_eqb_eq. symmetry.
    apply edge_eqb_key; [exact Eqe|]. apply (Hag id x e ex); auto. }
  assert (Hx0 : x <> id0).
  { intros ->. unfold sym_at in Hfirst.
    rewrite Ex, (edge_eqb_label _ _ Eqe) in Hfirst. congruence. }
  assert (Hown : forall j ej, In j (out_ids (vertices g)) ->
                   nth_error (heap g) j = Some ej -> src ej = src e ->
                   In j (out_edges vs)).
  { intros j ej Hj Ej Sj. apply out_ids_In in Hj as (v & Hv & Hjv).
    destruct (lk_out L v j Hv Hjv) as (e' & Ee' & Se' & _).
    assert (e' = ej) by congruence. subst e'.
    assert (v = vs).
    { pose proof (find_vertex_NoDup _ _ (lk_keys L) Hv) as F1.
      pose proof (find_vertex_NoDup _ _ (lk_keys L) Hvs) as F2.
      congruence. }
    now subst v. }
  assert (Hxid : x = id).
  { pose proof (Hown id e Hido Ee eq_refl) as Hiv. rewrite Eo1 in Hiv.
    apply in_app_or in Hiv as [Hiv|[Hiv|Hiv]].
    - destruct (Hpre id Hiv) as (ey & Ey & Ney).
      assert (ey = e) by congruence. subst ey.
      assert (edge_eqb e (mkEdge (src e) (dst e) (label e) false) = true).
      { unfold edge_eqb. simpl. now rewrite !Nat.eqb_refl, regex_eqb_refl. }
      congruence.
    - exact Hiv.
    - exfalso. apply Hx0.
      apply (filter_first_is_second (has_key (heap g) key)
               (A0 ++ pre) (post ++ B0) x id id0 rest).
      + rewrite <- EA. exact Hn.
      + apply in_or_app. now left.
      + rewrite <- EA. exact Hg.
      + exact Kx. }
  subst x.
  exists vs, pre, post, ins.
  repeat (split; [assumption|]).
  assert (H0 : In id0 (group g key)) by (rewrite Hg; now left).
  unfold group in H0. apply filter_In in H0 as [H0 K0].
  unfold has_key in K0. destruct (nth_error (heap g) id0) as [e0|] eqn:E0;
    [|discriminate].
  apply key_eqb_eq in K0. apply (Hown id0 e0 H0 E0).
  rewrite <- Ke in K0. unfold key_of in K0. congruence.
Qed.

Lemma Graph_remove_edge_finals g s d l g' :
  Graph_remove_edge g s d l = Ok g' -> final_states g' = final_states g.
Proof.
  unfold Graph_remove_edge. intros E.
  inv_bind E. inv_bind E. inv_bind E. inv_bind E. now inversion E; subst.
Qed.

Lemma remove_edge_finals g s d l a g1 :
  remove_edge g s d l a = Ok g1 ->
  final_states g1 = final_states g \/
  (In s (final_states g) /\
   exists g2, vertices g2 = vertices g1 /\ heap g2 = heap g1 /\
              get_accepting_transitions_from g2 s = Ok []).
Proof.
  unfold remove_edge. intros E. inv_bind E. inv_bind E.
  pose proof (Graph_remove_edge_finals _ _ _ _ _ Hm) as F0.
  assert (H1 : final_states a1 = final_states g /\ vertices a1 = vertices a0
               /\ heap a1 = heap a0).
  { destruct a; inv_bind Hm0; inversion Hm0; subst; simpl; auto. }
  destruct H1 as (F1 & V1 & H1).
  destruct (set_mem s (final_states a1)) eqn:M; [|inversion E; subst; now left].
  inv_bind E. destruct (length a2 =? 0) eqn:Q; inversion E; subst; [|now left].
  right. apply set_mem_In in M. rewrite F1 in M. split; [exact M|].
  exists a1. simpl. split; [reflexivity|]. split; [reflexivity|].
  apply Nat.eqb_eq in Q. destruct a2; [exact Hm1 | discriminate].
Qed.

Lemma coalescing_entry_step_finals g d key id0 id rest e g1 :
  coalescing_entry g d key id0 (id :: rest) -> finals_backed g ->
  lookup_edge (heap g) id = Ok e ->
  remove_edge g (src e) (dst e) (label e) (accepting e) = Ok g1 ->
  final_states g1 = final_states g /\ finals_backed g1.
Proof.
  intros C Hb Ee Er.
  pose proof (ce_linked C) as L.
  destruct (coalescing_entry_removal _ _ _ _ _ _ _ _ C Ee Er)
    as (vs & pre & post & ins & Hvs & Ns & Eo & Eh & Ev & Ke & Hne & H0).
  pose proof (proj1 (lookup_edge_Ok _ _ _) Ee) as Ee'.
  assert (Hsame : forall v, In v (vertices g) -> number v = src e -> v = vs).
  { intros v Hv Nv.
    pose proof (find_vertex_NoDup _ _ (lk_keys L) Hv) as F1.
    pose proof (find_vertex_NoDup _ _ (lk_keys L) Hvs) as F2. congruence. }
  (* the accepting edges that stay *)
  assert (Hstay : forall s v i x,
             In v (vertices g) -> number v = s -> In i (out_edges v) ->
             nth_error (heap g) i = Some x -> accepting x = true ->
             exists v' i' x', In v' (vertices g1) /\ number v' = s /\
                              In i' (out_edges v') /\
                              nth_error (heap g1) i' = Some x' /\
                              accepting x' = true).
  { intros s v i x Hv Nv Hi Ex Ha.
    destruct (Nat.eq_dec s (src e)) as [->|Es].
    - pose proof (Hsame v Hv Nv) as ->.
      exists (unfile_edge (src e) (dst e) (pre ++ post) ins vs).
      assert (Hv' : In (unfile_edge (src e) (dst e) (pre ++ post) ins vs)
                       (vertices g1)) by (rewrite Ev; now apply in_map).
      assert (Ho' : out_edges (unfile_edge (src e) (dst e) (pre ++ post) ins vs)
                    = pre ++ post) by (simpl; now rewrite Ns, Nat.eqb_refl).
      destruct (Nat.eq_dec i id) as [->|Ni].
      + assert (x = e) by congruence. subst x.
        assert (K0 : has_key (heap g) key id0 = true).
        { destruct (ce_this C) as [_ Hg].
          assert (H : In id0 (group g key)) by (rewrite Hg; now left).
          unfold group in H. now apply filter_In in H as [_ H]. }
        unfold has_key in K0.
        destruct (nth_error (heap g) id0) as [e0|] eqn:E0; [|discriminate].
        apply key_eqb_eq in K0.
        exists id0, e0. split; [exact Hv'|]. split; [exact Ns|]. split.
        * rewrite Ho'. rewrite Eo in H0.
          apply in_app_or in H0 as [H0|[H0|H0]]; apply in_or_app;
            [now left | congruence | now right].
        * split; [now rewrite Eh|].
          rewrite <- Ke in K0. unfold key_of in K0. congruence.
      + exists i, x. split; [exact Hv'|]. split; [exact Ns|]. split.
        * rewrite Ho'. rewrite Eo in Hi.
          apply in_app_or in Hi as [Hi|[Hi|Hi]]; apply in_or_app;
            [now left | congruence | now right].
        * split; [now rewrite Eh | exact Ha].
    - exists (unfile_edge (src e) (dst e) (pre ++ post) ins v), i, x.
      split; [rewrite Ev; now apply in_map|]. split; [exact Nv|]. split.
      + simpl. rewrite Nv. apply Nat.eqb_neq in Es. now rewrite Es.
      + split; [now rewrite Eh | exact Ha]. }
  assert (Hf : final_states g1 = final_states g).
  { destruct (remove_edge_finals _ _ _ _ _ _ Er) as [H|[Hs (g2 & V2 & H2 & A2)]];
      [exact H|]. exfalso.
    destruct (Hb _ Hs) as (v & i & x & Hv & Nv & Hi & Ex & Ha).
    destruct (Hstay _ v i x Hv Nv Hi Ex Ha) as (v' & i' & x' & Hv' & Nv' & Hi' & Ex' & Ha').
    unfold get_accepting_transitions_from, get_vertex, filter_edges in A2.
    rewrite V2, H2 in A2.
    assert (F' : find_vertex (vertices g1) (src e) = Some v').
    { rewrite <- Nv'. apply find_vertex_NoDup; [|exact Hv'].
      pose proof (lk_keys (linked_remove_edge _ _ _ _ _ _ L Er)) as K.
      exact K. }
    rewrite F' in A2. simpl in A2. inv_bind A2. inversion A2 as [Q].
    assert (Hin : In x' (filter accepting a)).
    { apply filter_In. split; [|exact Ha'].
      exact (edges_of_member _ _ _ i' x' Hm Hi' Ex'). }
    rewrite Q in Hin. destruct Hin. }
  split; [exact Hf|].
  intros s Hs. rewrite Hf in Hs.
  destruct (Hb _ Hs) as (v & i & x & Hv & Nv & Hi & Ex & Ha).
  exact (Hstay _ v i x Hv Nv Hi Ex Ha).
Qed.

Lemma remove_others_finals key id0 others : forall g d g' d',
  coalescing_entry g d key id0 others -> finals_backed g ->
  remove_others g d key others = Ok (g', d') ->
  final_states g' = final_states g /\ finals_backed g'.
Proof.
  induction others as [|id rest IH]; intros g d g' d' C Hb E; simpl in E.
  - inversion E; subst. now split.
  - inv_bind E. inv_bind E. inv_bind E.
    destruct (coalescing_entry_step_finals _ _ _ _ _ _ _ _ C Hb Hm Hm0) as [F1 B1].
    pose proof (coalescing_entry_step _ _ _ _ _ _ _ _ _ C Hm Hm0 Hm1) as C1.
    destruct (IH _ _ _ _ C1 B1 E) as [F2 B2]. split; [congruence | exact B2].
Qed.

Lemma coalescing_entry_start g d key id0 others e0 es :
  coalescing g d -> In (key, id0 :: others) d -> others <> [] ->
  nth_error (heap g) id0 = Some e0 -> edges_of (heap g) others = Ok es ->
  coalescing_entry (set_heap g (assign_label (heap g) id0 (combined_label e0 es)))
                   d key id0 others.
Proof.
  intros [L Hn Hk Hin Hout Hsym Hag] Hke Hne Hm Hm0.
  assert (Hkey : In key (keys_of d)).
  { unfold keys_of. change key with (fst (key, id0 :: others)). now apply in_map. }
  assert (Hd : dict_get d key = id0 :: others) by now apply dict_get_NoDup.
  assert (Hl : is_symbol (combined_label e0 es) = false).
  { apply combined_label_union. intros ->.
    apply edges_of_length in Hm0. destruct others; simpl in *; [congruence|discriminate]. }
  set (lbl := combined_label e0 es) in *.
  assert (Gk : forall k, group (set_heap g (assign_label (heap g) id0 lbl)) k = group g k).
  { intros k. unfold group. simpl. apply filter_ext. intros j.
    apply assign_label_has_key. }
  constructor.
  - now apply linked_assign_label.
  - exact Hn.
  - exact Hk.
  - exact Hkey.
  - split; [exact Hd|]. rewrite Gk, <- Hd. symmetry. now apply Hin.
  - intros k _ Hink. rewrite Gk. now apply Hin.
  - intros k Hnk. rewrite Gk. now apply Hout.
  - intros k ids i Hki Hi Hi0. simpl. rewrite sym_at_assign_other by exact Hi0.
    now apply (Hsym k ids).
  - simpl. now apply sym_at_assign_same.
  - simpl. intros i j ei ej Hi Hj Ei Ej Si Eq.
    destruct (Nat.eq_dec i id0) as [->|Ni].
    + rewrite (assign_label_same _ _ lbl _ Hm) in Ei. inversion Ei; subst ei.
      simpl in Si. congruence.
    + rewrite assign_label_other in Ei by exact Ni.
      destruct (Nat.eq_dec j id0) as [->|Nj].
      * rewrite (assign_label_same _ _ lbl _ Hm) in Ej. inversion Ej; subst ej.
        apply edge_eqb_label in Eq. simpl in Eq. congruence.
      * rewrite assign_label_other in Ej by exact Nj.
        now apply (Hag i j).
Qed.

Lemma finals_backed_assign g i l :
  finals_backed g -> finals_backed (set_heap g (assign_label (heap g) i l)).
Proof.
  intros Hb s Hs. destruct (Hb s Hs) as (v & j & x & Hv & Nv & Hj & Ex & Ha).
  destruct (Nat.eq_dec j i) as [->|Hne].
  - exists v, i, (set_label x l). simpl.
    repeat (split; [assumption|]). split; [now apply assign_label_same | exact Ha].
  - exists v, j, x. simpl.
    repeat (split; [assumption|]). split; [now rewrite assign_label_other | exact Ha].
Qed.

Lemma combine_entry_finals g d key edges g' d' :
  coalescing g d -> finals_backed g -> In (key, edges) d -> 1 < length edges ->
  combine_entry g d key edges = Ok (g', d') ->
  final_states g' = final_states g /\ finals_backed g'.
Proof.
  unfold combine_entry. intros C Hb Hke Hlen E.
  destruct edges as [|id0 others]; [discriminate|].
  inv_bind E. inv_bind E.
  destruct (remove_others _ _ _ _) as [[g2 d2]|] eqn:Er; simpl in E; [|discriminate].
  inversion E; subst g' d'; clear E.
  apply lookup_edge_Ok in Hm.
  assert (Hne : others <> []) by (intros ->; simpl in Hlen; lia).
  pose proof (coalescing_entry_start _ _ _ _ _ _ _ C Hke Hne Hm Hm0) as Ce.
  pose proof (finals_backed_assign g id0 (combined_label a a0) Hb) as Hb1.
  destruct (remove_others_finals _ _ _ _ _ _ _ Ce Hb1 Er) as [F B].
  split; [exact F | exact B].
Qed.

Lemma combine_loop_finals fuel : forall g d g',
  coalescing g d -> finals_backed g -> combine_loop fuel g d = Ok g' ->
  final_states g' = final_states g.
Proof.
  induction fuel as [|fuel IH]; intros g d g' C Hb E; simpl in E.
  - destruct (find_duplicate d) as [[k l]|] eqn:F; [discriminate|].
    now inversion E; subst.
  - destruct (find_duplicate d) as [[k l]|] eqn:F; [|now inversion E; subst].
    destruct (combine_entry g d k l) as [[g1 d1]|] eqn:Ec; simpl in E; [|discriminate].
    apply find_duplicate_Some in F as [Hin Hlen].
    destruct (combine_entry_finals _ _ _ _ _ _ C Hb Hin Hlen Ec) as [F1 B1].
    pose proof (coalescing_combine_entry _ _ _ _ _ _ C Hin Hlen Ec) as C1.
    rewrite <- F1. exact (IH _ _ _ C1 B1 E).
Qed.

Lemma built_finals_backed g : built g -> finals_backed g.
Proof.
  intros B s Hs. pose proof (built_imported g B) as Im.
  apply (imp_finals Im) in Hs as (v & i & e & Fv & Hi & Ee & Ha).
  apply find_vertex_Some in Fv as [Hv Nv]. now exists v, i, e.
Qed.

(** Coalescing drops no final state: on a graph built by [add_edge] with
    [Symbol] labels whose equal edges agree on the flag,
    [combine_duplicate_edge] leaves [final_states] as it is. *)
Theorem coalescing_keeps_the_final_states (g g' : tGraph) :
  built g -> symbol_labelled g = true -> flags_agree g = true ->
  combine_duplicate_edge g = Ok g' ->
  final_states g' = final_states g.
Proof.
  unfold combine_duplicate_edge. intros B Hs Hf E. inv_bind E.
  assert (Hc : coalescing g a).
  { apply coalescing_start; auto;
      [now apply built_linked | now apply built_out_ids_NoDup]. }
  exact (combine_loop_finals _ _ _ _ Hc (built_finals_backed g B) E).
Qed.

Lemma coalescing_keeps_the_final_states_witness :
  exists g g',
    aut_to_tgraph aut_parallel_lasso = Ok g /\
    combine_duplicate_edge g = Ok g' /\
    final_states g' = final_states g.
Proof.
  destruct (aut_to_tgraph aut_parallel_lasso) as [g|] eqn:E;
    [|vm_compute in E; discriminate].
  destruct (combine_duplicate_edge g) as [g'|] eqn:C.
  2:{ vm_compute in E. inversion E; subst g. vm_compute in C. discriminate. }
  assert (Hf : flags_agree g = true).
  { vm_compute in E. inversion E; subst g. vm_compute. reflexivity. }
  pose proof (coalescing_keeps_the_final_states g g'
                (aut_to_tgraph_built _ _ E)
                (aut_to_tgraph_symbol_labelled _ _ E) Hf C) as F.
  exists g, g'. split; [reflexivity|]. split; [exact C | exact F].
Defined.

(* ------------------------------------------------------------------ *)
(** ** Ripping keeps the adjacency lists paired *)

Lemma filter_none_all {A} (p : A -> bool) (l : list A) :
  length (filter p l) = 0 -> filter (fun x => negb (p x)) l = l.
Proof.
  induction l as [|x l IH]; simpl; intros H; [reflexivity|].
  destruct (p x); simpl in *; [discriminate|]. f_equal. now apply IH.
Qed.

Lemma filter_filter_implied {A} (p q : A -> bool) (l : list A) :
  (forall x, p x = true -> q x = true) ->
  filter p (filter q l) = filter p l.
Proof.
  intros H. induction l as [|x l IH]; simpl; [reflexivity|].
  destruct (q x) eqn:Q; simpl.
  - destruct (p x); [now f_equal | exact IH].
  - destruct (p x) eqn:P; [|exact IH]. rewrite (H x P) in Q. discriminate.
Qed.

Lemma out_of_update_out g n outs m :
  out_of (set_vertices g (update_vertex n (fun x => set_out x outs) (vertices g))) m
  = if m =? n then
      match find_vertex (vertices g) m with Some _ => outs | None => [] end
    else out_of g m.
Proof.
  unfold out_of. simpl. rewrite find_vertex_update by reflexivity.
  destruct (find_vertex (vertices g) m) as [x|] eqn:F; simpl.
  - apply find_vertex_Some in F as [_ Nx]. rewrite Nx.
    now destruct (m =? n).
  - now destruct (m =? n).
Qed.

Lemma in_of_update_out g n outs m :
  in_of (set_vertices g (update_vertex n (fun x => set_out x outs) (vertices g))) m
  = in_of g m.
Proof.
  unfold in_of. simpl. rewrite find_vertex_update by reflexivity.
  destruct (find_vertex (vertices g) m) as [x|]; simpl; [|reflexivity].
  now destruct (number x =? n).
Qed.

Lemma in_of_update_in g n ins m :
  in_of (set_vertices g (update_vertex n (fun x => set_in x ins) (vertices g))) m
  = if m =? n then
      match find_vertex (vertices g) m with Some _ => ins | None => [] end
    else in_of g m.
Proof.
  unfold in_of. simpl. rewrite find_vertex_update by reflexivity.
  destruct (find_vertex (vertices g) m) as [x|] eqn:F; simpl.
  - apply find_vertex_Some in F as [_ Nx]. rewrite Nx.
    now destruct (m =? n).
  - now destruct (m =? n).
Qed.

Lemma out_of_update_in g n ins m :
  out_of (set_vertices g (update_vertex n (fun x => set_in x ins) (vertices g))) m
  = out_of g m.
Proof.
  unfold out_of. simpl. rewrite find_vertex_update by reflexivity.
  destruct (find_vertex (vertices g) m) as [x|]; simpl; [|reflexivity].
  now destruct (number x =? n).
Qed.

(** The first loop of [rip]: when it ends, the out-lists have lost the
    edges that reach the ripped vertex and nothing else. *)
Lemma detach_in_edges_lists h v ids : forall g g',
  heap g = h ->
  (forall i, In i ids -> has_dst h v i = true) ->
  (forall n, length (filter (has_dst h v) (out_of g n))
             = length (filter (has_src h n) ids)) ->
  detach_in_edges g ids = Ok g' ->
  heap g' = h /\ states_of g' = states_of g /\
  (forall n, in_of g' n = in_of g n) /\
  (forall n, out_of g' n = filter (fun i => negb (has_dst h v i)) (out_of g n)).
Proof.
  induction ids as [|i ids IH]; intros g g' Hh Hids Hlen E; simpl in E.
  - inversion E; subst g'. split; [exact Hh|]. split; [reflexivity|].
    split; [reflexivity|]. intros n. symmetry. apply filter_none_all.
    rewrite Hlen. reflexivity.
  - inv_bind E. inv_bind E. inv_bind E.
    apply lookup_edge_Ok in Hm. rewrite Hh in Hm, Hm1.
    unfold get_vertex in Hm0.
    destruct (find_vertex (vertices g) (src a)) as [u|] eqn:Fu; [|discriminate].
    inversion Hm0; subst a0; clear Hm0.
    apply list_remove_edge_split in Hm1
      as (pre & x & post & ex & Eo1 & Eo2 & Ex & Eq & _).
    subst a1.
    assert (Hi : has_dst h v i = true) by (apply Hids; now left).
    assert (Hx : has_dst h v x = true).
    { unfold has_dst in *. rewrite Hm in Hi. rewrite Ex.
      unfold edge_eqb in Eq. apply andb_true_iff in Eq as [Eq _].
      apply andb_true_iff in Eq as [_ Eq]. apply Nat.eqb_eq in Eq.
      now rewrite Eq. }
    set (g1 := set_vertices g (update_vertex (src a)
                                 (fun x0 => set_out x0 (pre ++ post)) (vertices g))) in *.
    assert (Ho1 : forall n, out_of g1 n
                            = if n =? src a then pre ++ post else out_of g n).
    { intros n. unfold g1. rewrite out_of_update_out.
      destruct (n =? src a) eqn:Q; [|reflexivity].
      apply Nat.eqb_eq in Q. subst n. now rewrite Fu. }
    assert (Hou : out_of g (src a) = pre ++ x :: post).
    { unfold out_of. now rewrite Fu. }
    destruct (IH g1 g') as (H1 & S1 & I1 & O1).
    + exact Hh.
    + intros j Hj. apply Hids. now right.
    + intros n. rewrite Ho1. specialize (Hlen n). simpl in Hlen.
      destruct (n =? src a) eqn:Q.
      * apply Nat.eqb_eq in Q. subst n. rewrite Hou in Hlen.
        rewrite filter_app in Hlen. simpl in Hlen. rewrite Hx in Hlen.
        rewrite length_app in Hlen. simpl in Hlen.
        assert (Hs : has_src h (src a) i = true).
        { unfold has_src. rewrite Hm. apply Nat.eqb_refl. }
        rewrite Hs in Hlen. simpl in Hlen.
        rewrite filter_app, length_app. lia.
      * assert (Hs : has_src h n i = false).
        { unfold has_src. rewrite Hm. rewrite Nat.eqb_sym. exact Q. }
        rewrite Hs in Hlen. exact Hlen.
    + exact E.
    + split; [exact H1|]. split.
      { rewrite S1. unfold g1, states_of. simpl.
        apply update_vertex_numbers. reflexivity. }
      split.
      { intros n. rewrite I1. unfold g1. apply in_of_update_out. }
      intros n. rewrite O1, Ho1.
      destruct (n =? src a) eqn:Q; [|reflexivity].
      apply Nat.eqb_eq in Q. subst n. rewrite Hou.
      symmetry. apply filter_remove_middle. now rewrite Hx.
Qed.

(** The second loop of [rip]: the in-lists of the other vertices lose the
    edges that leave the ripped vertex and nothing else. *)
Lemma detach_out_edges_lists h v ids : forall g g',
  heap g = h ->
  (forall i, In i ids -> has_src h v i = true /\ has_dst h v i = false) ->
  (forall n, n <> v ->
     length (filter (has_src h v) (in_of g n))
     = length (filter (has_dst h n) ids)) ->
  detach_out_edges g ids = Ok g' ->
  heap g' = h /\ states_of g' = states_of g /\
  (forall n, out_of g' n = out_of g n) /\
  (forall n, n <> v ->
     in_of g' n = filter (fun i => negb (has_src h v i)) (in_of g n)).
Proof.
  induction ids as [|i ids IH]; intros g g' Hh Hids Hlen E; simpl in E.
  - inversion E; subst g'. split; [exact Hh|]. split; [reflexivity|].
    split; [reflexivity|]. intros n Hn. symmetry. apply filter_none_all.
    rewrite (Hlen n Hn). reflexivity.
  - inv_bind E. inv_bind E. inv_bind E.
    apply lookup_edge_Ok in Hm. rewrite Hh in Hm, Hm1.
    unfold get_vertex in Hm0.
    destruct (find_vertex (vertices g) (dst a)) as [u|] eqn:Fu; [|discriminate].
    inversion Hm0; subst a0; clear Hm0.
    apply list_remove_edge_split in Hm1
      as (pre & x & post & ex & Eo1 & Eo2 & Ex & Eq & _).
    subst a1.
    destruct (Hids i (or_introl eq_refl)) as [Hi Hiv].
    assert (Hx : has_src h v x = true).
    { unfold has_src in *. rewrite Hm in Hi. rewrite Ex.
      unfold edge_eqb in Eq. apply andb_true_iff in Eq as [Eq _].
      apply andb_true_iff in Eq as [Eq _]. apply Nat.eqb_eq in Eq.
      now rewrite Eq. }
    set (g1 := set_vertices g (update_vertex (dst a)
                                 (fun x0 => set_in x0 (pre ++ post)) (vertices g))) in *.
    assert (Hi1 : forall n, in_of g1 n
                            = if n =? dst a then pre ++ post else in_of g n).
    { intros n. unfold g1. rewrite in_of_update_in.
      destruct (n =? dst a) eqn:Q; [|reflexivity].
      apply Nat.eqb_eq in Q. subst n. now rewrite Fu. }
    assert (Hin : in_of g (dst a) = pre ++ x :: post).
    { unfold in_of. now rewrite Fu. }
    destruct (IH g1 g') as (H1 & S1 & O1 & I1).
    + exact Hh.
    + intros j Hj. apply Hids. now right.
    + intros n Hn. rewrite Hi1. specialize (Hlen n Hn). simpl in Hlen.
      destruct (n =? dst a) eqn:Q.
      * apply Nat.eqb_eq in Q. subst n. rewrite Hin in Hlen.
        rewrite filter_app in Hlen. simpl in Hlen. rewrite Hx in Hlen.
        rewrite length_app in Hlen. simpl in Hlen.
        assert (Hs : has_dst h (dst a) i = true).
        { unfold has_dst. rewrite Hm. apply Nat.eqb_refl. }
        rewrite Hs in Hlen. simpl in Hlen.
        rewrite filter_app, length_app. lia.
      * assert (Hs : has_dst h n i = false).
        { unfold has_dst. rewrite Hm. rewrite Nat.eqb_sym. exact Q. }
        rewrite Hs in Hlen. exact Hlen.
    + exact E.
    + split; [exact H1|]. split.
      { rewrite S1. unfold g1, states_of. simpl.
        apply update_vertex_numbers. reflexivity. }
      split.
      { intros n. rewrite O1. unfold g1. apply out_of_update_in. }
      intros n Hn. rewrite (I1 n Hn), Hi1.
      destruct (n =? dst a) eqn:Q; [|reflexivity].
      apply Nat.eqb_eq in Q. subst n. rewrite Hin.
      symmetry. apply filter_remove_middle. now rewrite Hx.
Qed.

Lemma states_without v g :
  states_of (without_vertex v g)
  = filter (fun n => negb (n =? v)) (states_of g).
Proof.
  unfold states_of, without_vertex. simpl.
  induction (vertices g) as [|x l IH]; simpl; [reflexivity|].
  destruct (negb (number x =? v)); simpl; now rewrite IH.
Qed.

Lemma out_of_vertex g x :
  NoDup (states_of g) -> In x (vertices g) -> out_of g (number x) = out_edges x.
Proof.
  intros Hn Hx. unfold out_of. now rewrite (find_vertex_NoDup _ _ Hn Hx).
Qed.

Lemma in_of_vertex g x :
  NoDup (states_of g) -> In x (vertices g) -> in_of g (number x) = in_edges x.
Proof.
  intros Hn Hx. unfold in_of. now rewrite (find_vertex_NoDup _ _ Hn Hx).
Qed.

(** A graph whose lists are those of a paired graph without the edges at
    [v] is paired once [v] is gone. *)
Lemma linked_without g g2 v :
  linked g -> heap g2 = heap g -> states_of g2 = states_of g ->
  (forall n, n <> v ->
     out_of g2 n = filter (fun i => negb (has_dst (heap g) v i)) (out_of g n)) ->
  (forall n, n <> v ->
     in_of g2 n = filter (fun i => negb (has_src (heap g) v i)) (in_of g n)) ->
  linked (without_vertex v g2).
Proof.
  intros L Hh Hs Ho Hi.
  assert (Hn2 : NoDup (states_of g2)) by (rewrite Hs; exact (lk_keys L)).
  assert (Hv : forall x', In x' (vertices (without_vertex v g2)) ->
             In x' (vertices g2) /\ number x' <> v /\
             exists x, In x (vertices g) /\ number x = number x').
  { intros x' Hx'. simpl in Hx'. apply filter_In in Hx' as [Hx' Q].
    apply negb_true_iff, Nat.eqb_neq in Q. split; [exact Hx'|]. split; [exact Q|].
    apply In_states_find. rewrite <- Hs. unfold states_of. now apply in_map. }
  assert (Hout : forall x' x, In x' (vertices g2) -> number x' <> v ->
             In x (vertices g) -> number x = number x' ->
             out_edges x' = filter (fun i => negb (has_dst (heap g) v i)) (out_edges x)).
  { intros x' x Hx' Q Hx Nx.
    rewrite <- (out_of_vertex g2 x' Hn2 Hx'), (Ho _ Q), <- Nx.
    now rewrite (out_of_vertex g x (lk_keys L) Hx). }
  assert (Hinn : forall x' x, In x' (vertices g2) -> number x' <> v ->
             In x (vertices g) -> number x = number x' ->
             in_edges x' = filter (fun i => negb (has_src (heap g) v i)) (in_edges x)).
  { intros x' x Hx' Q Hx Nx.
    rewrite <- (in_of_vertex g2 x' Hn2 Hx'), (Hi _ Q), <- Nx.
    now rewrite (in_of_vertex g x (lk_keys L) Hx). }
  constructor.
  - rewrite states_without. unfold states_of in *.
    rewrite Hs. clear -L. pose proof (lk_keys L) as K. unfold states_of in K.
    now apply NoDup_filter.
  - intros x' i Hx' Hi'. destruct (Hv x' Hx') as (Hx2 & Q & x & Hx & Nx).
    rewrite (Hout x' x Hx2 Q Hx Nx) in Hi'. apply filter_In in Hi' as [Hi' Hd].
    destruct (lk_out L x i Hx Hi') as (e & Ee & Se & De).
    exists e. simpl. rewrite Hh. split; [exact Ee|]. split; [congruence|].
    change (In (dst e) (states_of (without_vertex v g2))).
    rewrite states_without, Hs. apply filter_In. split; [exact De|].
    unfold has_dst in Hd. rewrite Ee in Hd. exact Hd.
  - intros x' i Hx' Hi'. destruct (Hv x' Hx') as (Hx2 & Q & x & Hx & Nx).
    rewrite (Hinn x' x Hx2 Q Hx Nx) in Hi'. apply filter_In in Hi' as [Hi' Hd].
    destruct (lk_in L x i Hx Hi') as (e & Ee & De & Se).
    exists e. simpl. rewrite Hh. split; [exact Ee|]. split; [congruence|].
    change (In (src e) (states_of (without_vertex v g2))).
    rewrite states_without, Hs. apply filter_In. split; [exact Se|].
    unfold has_src in Hd. rewrite Ee in Hd. exact Hd.
  - intros u' w' Hu' Hw'.
    destruct (Hv u' Hu') as (Hu2 & Qu & u & Hu & Nu).
    destruct (Hv w' Hw') as (Hw2 & Qw & w & Hw & Nw).
    simpl. rewrite Hh.
    rewrite (Hout u' u Hu2 Qu Hu Nu), (Hinn w' w Hw2 Qw Hw Nw).
    rewrite filter_filter_implied, filter_filter_implied.
    + rewrite <- Nu, <- Nw. exact (lk_pair L u w Hu Hw).
    + intros i Hsi. unfold has_src in *.
      destruct (nth_error (heap g) i) as [e|]; [|discriminate].
      apply Nat.eqb_eq in Hsi. apply negb_true_iff, Nat.eqb_neq. congruence.
    + intros i Hdi. unfold has_dst in *.
      destruct (nth_error (heap g) i) as [e|]; [|discriminate].
      apply Nat.eqb_eq in Hdi. apply negb_true_iff, Nat.eqb_neq. congruence.
Qed.

Lemma filter_number_map (p : nat -> bool) (f : Vertex -> Vertex) (l : list Vertex) :
  (forall x, number (f x) = number x) ->
  filter (fun x => p (number x)) (map f l) = map f (filter (fun x => p (number x)) l).
Proof.
  intros Hf. induction l as [|x l IH]; simpl; [reflexivity|].
  rewrite Hf. destruct (p (number x)); simpl; now rewrite IH.
Qed.

(** Adding an edge between two other states commutes with deleting [v]. *)
Lemma add_edge_without v g s t l a g' :
  add_edge g s t l a = Ok g' -> s <> v -> t <> v ->
  linked (without_vertex v g) -> linked (without_vertex v g').
Proof.
  intros E Hs Ht L.
  pose proof (add_edge_spec _ _ _ _ _ _ E)
    as ((vd & Fd) & (vs & Fs) & Eh & Ev & _).
  assert (Is : In s (states_of (without_vertex v g))).
  { rewrite states_without. apply filter_In. split.
    - apply find_some in Fs as [Hin Q]. apply Nat.eqb_eq in Q. subst s.
      unfold states_of. now apply in_map.
    - now apply negb_true_iff, Nat.eqb_neq. }
  assert (It : In t (states_of (without_vertex v g))).
  { rewrite states_without. apply filter_In. split.
    - apply find_some in Fd as [Hin Q]. apply Nat.eqb_eq in Q. subst t.
      unfold states_of. now apply in_map.
    - now apply negb_true_iff, Nat.eqb_neq. }
  destruct (add_edge_defined (without_vertex v g) s t l a Is It) as (g'' & E'').
  pose proof (linked_add_edge _ _ _ _ _ _ L E'') as L''.
  apply add_edge_spec in E'' as (_ & _ & Eh' & Ev' & _).
  refine (linked_fields g'' _ _ _ L'').
  - simpl. rewrite Eh, Eh'. reflexivity.
  - simpl. rewrite Ev, Ev'. simpl.
    apply (filter_number_map (fun n => negb (n =? v))).
    intros x. apply file_edge_number.
Qed.

Lemma add_edges_without v l : forall g g',
  add_edges g l = Ok g' ->
  (forall s t r a, In (s, t, r, a) l -> s <> v /\ t <> v) ->
  linked (without_vertex v g) -> linked (without_vertex v g').
Proof.
  induction l as [|[[[s t] r'] a] l IH]; intros g g' E Hl L; simpl in E.
  - now inversion E; subst.
  - apply bind_Ok_inv in E as (g1 & E1 & E).
    destruct (Hl s t r' a (or_introl eq_refl)) as [Hs Ht].
    apply (IH g1 g' E); [intros s0 t0 r0 a0 H0; apply (Hl s0 t0 r0 a0); now right|].
    exact (add_edge_without v g s t r' a g1 E1 Hs Ht L).
Qed.

Lemma added_edges_avoid v r_rip ins outs s t r a :
  In (s, t, r, a) (added_edges v r_rip ins outs) -> s <> v /\ t <> v.
Proof.
  unfold added_edges. intros H.
  apply in_flat_map in H as (e_in & Hin & H).
  apply in_flat_map in H as (e_out & Hout & H).
  destruct ((src e_in =? v) || (dst e_out =? v)) eqn:Q; [destruct H|].
  apply orb_false_iff in Q as [Q1 Q2].
  apply Nat.eqb_neq in Q1, Q2.
  destruct H as [H|[]]. inversion H; subst. now split.
Qed.

Lemma out_of_missing g n : ~ In n (states_of g) -> out_of g n = [].
Proof.
  intros Hn. unfold out_of.
  destruct (find_vertex (vertices g) n) as [x|] eqn:F; [|reflexivity].
  apply find_some in F as [Hin Q]. apply Nat.eqb_eq in Q. subst n.
  exfalso. apply Hn. unfold states_of. now apply in_map.
Qed.

Lemma in_of_missing g n : ~ In n (states_of g) -> in_of g n = [].
Proof.
  intros Hn. unfold in_of.
  destruct (find_vertex (vertices g) n) as [x|] eqn:F; [|reflexivity].
  apply find_some in F as [Hin Q]. apply Nat.eqb_eq in Q. subst n.
  exfalso. apply Hn. unfold states_of. now apply in_map.
Qed.

Lemma filter_none {A} (p : A -> bool) (l : list A) :
  (forall x, In x l -> p x = false) -> filter p l = [].
Proof.
  induction l as [|x l IH]; simpl; intros H; [reflexivity|].
  rewrite (H x (or_introl eq_refl)). apply IH. intros y Hy. apply H. now right.
Qed.

(** What the first detaching loop of [rip] leaves in the lists. *)
Lemma rip_detached_in g v vx g1 :
  linked g -> get_vertex g v = Ok vx ->
  detach_in_edges g (in_edges vx) = Ok g1 ->
  heap g1 = heap g /\ states_of g1 = states_of g /\
  (forall n, in_of g1 n = in_of g n) /\
  (forall n, out_of g1 n
             = filter (fun i => negb (has_dst (heap g) v i)) (out_of g n)).
Proof.
  intros L Hvx D1.
  apply get_vertex_Ok in Hvx as [Hin Nv].
  pose proof (lk_keys L) as K.
  apply (detach_in_edges_lists (heap g) v (in_edges vx) g g1 eq_refl);
    [| |exact D1].
  - intros i Hi. destruct (lk_in L vx i Hin Hi) as (e & Ee & De & _).
    unfold has_dst. rewrite Ee. apply Nat.eqb_eq. congruence.
  - intros n. destruct (in_dec Nat.eq_dec n (states_of g)) as [Hn|Hn].
    + apply In_states_find in Hn as (u & Hu & Nu). subst n.
      rewrite (out_of_vertex g u K Hu), <- Nv.
      now rewrite (lk_pair L u vx Hu Hin).
    + rewrite (out_of_missing g n Hn). simpl.
      rewrite filter_none; [reflexivity|].
      intros i Hi. destruct (lk_in L vx i Hin Hi) as (e & Ee & _ & Se).
      unfold has_src. rewrite Ee. apply Nat.eqb_neq. intros Q. now subst n.
Qed.

(** The out-list of the ripped vertex after the first loop: its
    self-loops are gone. *)
Lemma rip_detached_out_list g v vx g1 v1 :
  linked g -> get_vertex g v = Ok vx ->
  detach_in_edges g (in_edges vx) = Ok g1 ->
  get_vertex g1 v = Ok v1 ->
  out_edges v1 = filter (fun i => negb (has_dst (heap g) v i)) (out_edges vx).
Proof.
  intros L Hvx D1 Hv1.
  destruct (rip_detached_in g v vx g1 L Hvx D1) as (Hh1 & Hs1 & Hi1 & Ho1).
  apply get_vertex_Ok in Hvx as [Hin Nv].
  apply get_vertex_Ok in Hv1 as [Hin1 Nv1].
  pose proof (lk_keys L) as K.
  assert (K1 : NoDup (states_of g1)) by (now rewrite Hs1).
  rewrite <- (out_of_vertex g1 v1 K1 Hin1), Nv1, Ho1, <- Nv.
  now rewrite (out_of_vertex g vx K Hin).
Qed.

(** What the two detaching loops of [rip] leave in the lists of the other
    states. *)
Lemma rip_detached g v vx g1 v1 g2 :
  linked g -> get_vertex g v = Ok vx ->
  detach_in_edges g (in_edges vx) = Ok g1 ->
  get_vertex g1 v = Ok v1 ->
  detach_out_edges g1 (out_edges v1) = Ok g2 ->
  heap g2 = heap g /\ states_of g2 = states_of g /\
  (forall n, n <> v ->
     out_of g2 n = filter (fun i => negb (has_dst (heap g) v i)) (out_of g n)) /\
  (forall n, n <> v ->
     in_of g2 n = filter (fun i => negb (has_src (heap g) v i)) (in_of g n)).
Proof.
  intros L Hvx D1 Hv1 D2.
  destruct (rip_detached_in g v vx g1 L Hvx D1) as (Hh1 & Hs1 & Hi1 & Ho1).
  pose proof (rip_detached_out_list g v vx g1 v1 L Hvx D1 Hv1) as Eo.
  apply get_vertex_Ok in Hvx as [Hin Nv].
  pose proof (lk_keys L) as K.
  destruct (detach_out_edges_lists (heap g) v (out_edges v1) g1 g2 Hh1)
    as (Hh2 & Hs2 & Ho2 & Hi2); [| |exact D2|].
  { intros i Hi. rewrite Eo in Hi. apply filter_In in Hi as [Hi Q].
    apply negb_true_iff in Q. split; [|exact Q].
    destruct (lk_out L vx i Hin Hi) as (e & Ee & Se & _).
    unfold has_src. rewrite Ee. apply Nat.eqb_eq. congruence. }
  { intros n Qn. rewrite Hi1, Eo.
    rewrite filter_filter_implied.
    2:{ intros i Hd. unfold has_dst in *.
        destruct (nth_error (heap g) i) as [e|]; [|discriminate].
        apply Nat.eqb_eq in Hd. apply negb_true_iff, Nat.eqb_neq. congruence. }
    destruct (in_dec Nat.eq_dec n (states_of g)) as [Hn|Hn].
    - apply In_states_find in Hn as (w & Hw & Nw). subst n.
      rewrite (in_of_vertex g w K Hw), <- Nv.
      now rewrite (lk_pair L vx w Hin Hw).
    - rewrite (in_of_missing g n Hn). simpl.
      rewrite filter_none; [reflexivity|].
      intros i Hi. destruct (lk_out L vx i Hin Hi) as (e & Ee & _ & De).
      unfold has_dst. rewrite Ee. apply Nat.eqb_neq. intros Q. now subst n. }
  split; [exact Hh2|]. split; [congruence|]. split.
  - intros n Qn. now rewrite Ho2, Ho1.
  - intros n Qn. now rewrite (Hi2 n Qn), Hi1.
Qed.

(** ** Ripping a state of a paired graph succeeds *)

Lemma edge_eqb_congr a b c : edge_eqb a b = true -> edge_eqb a c = edge_eqb b c.
Proof.
  unfold edge_eqb. intros H. apply andb_true_iff in H as [H L].
  apply andb_true_iff in H as [S D]. apply Nat.eqb_eq in S, D.
  apply regex_eqb_eq in L. now rewrite S, D, L.
Qed.

Lemma list_remove_edge_defined h e l :
  (forall j, In j l -> exists x, nth_error h j = Some x) ->
  0 < length (filter (like_edge h e) l) ->
  exists l', list_remove_edge h e l = Ok l'.
Proof.
  induction l as [|j l IH]; simpl; intros Hh Hc; [lia|].
  destruct (Hh j (or_introl eq_refl)) as (x & Ex).
  rewrite (proj2 (lookup_edge_Ok _ _ _) Ex). simpl.
  unfold like_edge in Hc at 1. rewrite Ex in Hc.
  destruct (edge_eqb x e); [now exists l|].
  destruct IH as (l' & E'); [intros k Hk; apply Hh; now right | exact Hc |].
  rewrite E'. simpl. now exists (j :: l').
Qed.

(** The first loop of [rip] ends when every edge it looks for is still
    in the out-list it is removed from. *)
Lemma detach_in_edges_defined h ids : forall g,
  heap g = h ->
  (forall i, In i ids ->
     exists e, nth_error h i = Some e /\ In (src e) (states_of g)) ->
  (forall n j, In j (out_of g n) -> exists x, nth_error h j = Some x) ->
  (forall e, length (filter (like_edge h e) ids)
             <= length (filter (like_edge h e) (out_of g (src e)))) ->
  exists g', detach_in_edges g ids = Ok g'.
Proof.
  induction ids as [|i ids IH]; intros g Hh Hids Hall Hc; [now exists g|].
  destruct (Hids i (or_introl eq_refl)) as (e & Ei & Se).
  destruct (find_vertex_In _ _ Se) as (u & Fu).
  assert (Hou : out_of g (src e) = out_edges u) by (unfold out_of; now rewrite Fu).
  destruct (list_remove_edge_defined h e (out_edges u)) as (outs & Er).
  { intros j Hj. apply (Hall (src e)). now rewrite Hou. }
  { specialize (Hc e). simpl in Hc. unfold like_edge in Hc at 1.
    rewrite Ei, edge_eqb_refl in Hc. simpl in Hc. rewrite Hou in Hc. lia. }
  simpl. rewrite Hh, (proj2 (lookup_edge_Ok _ _ _) Ei). simpl.
  unfold get_vertex. rewrite Fu. simpl. rewrite Er. simpl.
  apply list_remove_edge_split in Er
    as (pre & x & post & ex & Eo1 & Eo2 & Ex & Eq & _).
  subst outs.
  set (g1 := set_vertices g (update_vertex (src e)
                               (fun x0 => set_out x0 (pre ++ post)) (vertices g))).
  assert (Ho1 : forall n, out_of g1 n
                          = if n =? src e then pre ++ post else out_of g n).
  { intros n. unfold g1. rewrite out_of_update_out.
    destruct (n =? src e) eqn:Q; [|reflexivity].
    apply Nat.eqb_eq in Q. subst n. now rewrite Fu. }
  apply IH.
  - exact Hh.
  - intros j Hj. destruct (Hids j (or_intror Hj)) as (ej & Ej & Sj).
    exists ej. split; [exact Ej|]. unfold g1, states_of. simpl.
    rewrite update_vertex_numbers; [exact Sj | reflexivity].
  - intros n j Hj. rewrite Ho1 in Hj. destruct (n =? src e) eqn:Q.
    + apply Nat.eqb_eq in Q. subst n. apply (Hall (src e)).
      rewrite Hou, Eo1. apply in_app_or in Hj as [Hj|Hj]; apply in_or_app;
        [now left | right; now right].
    + now apply (Hall n).
  - intros e'. rewrite Ho1. specialize (Hc e'). simpl in Hc.
    unfold like_edge in Hc at 1. rewrite Ei in Hc.
    destruct (src e' =? src e) eqn:Q.
    + apply Nat.eqb_eq in Q. rewrite Q, Hou, Eo1 in Hc.
      rewrite filter_app in Hc. simpl in Hc.
      unfold like_edge in Hc at 4. rewrite Ex in Hc.
      rewrite (edge_eqb_congr ex e e' Eq) in Hc.
      rewrite filter_app. rewrite length_app in *.
      destruct (edge_eqb e e'); simpl in Hc; lia.
    + destruct (edge_eqb e e'); simpl in Hc; lia.
Qed.

(** The same for the second loop of [rip]. *)
Lemma detach_out_edges_defined h ids : forall g,
  heap g = h ->
  (forall i, In i ids ->
     exists e, nth_error h i = Some e /\ In (dst e) (states_of g)) ->
  (forall n j, In j (in_of g n) -> exists x, nth_error h j = Some x) ->
  (forall e, length (filter (like_edge h e) ids)
             <= length (filter (like_edge h e) (in_of g (dst e)))) ->
  exists g', detach_out_edges g ids = Ok g'.
Proof.
  induction ids as [|i ids IH]; intros g Hh Hids Hall Hc; [now exists g|].
  destruct (Hids i (or_introl eq_refl)) as (e & Ei & Se).
  destruct (find_vertex_In _ _ Se) as (u & Fu).
  assert (Hou : in_of g (dst e) = in_edges u) by (unfold in_of; now rewrite Fu).
  destruct (list_remove_edge_defined h e (in_edges u)) as (ins & Er).
  { intros j Hj. apply (Hall (dst e)). now rewrite Hou. }
  { specialize (Hc e). simpl in Hc. unfold like_edge in Hc at 1.
    rewrite Ei, edge_eqb_refl in Hc. simpl in Hc. rewrite Hou in Hc. lia. }
  simpl. rewrite Hh, (proj2 (lookup_edge_Ok _ _ _) Ei). simpl.
  unfold get_vertex. rewrite Fu. simpl. rewrite Er. simpl.
  apply list_remove_edge_split in Er
    as (pre & x & post & ex & Eo1 & Eo2 & Ex & Eq & _).
  subst ins.
  set (g1 := set_vertices g (update_vertex (dst e)
                               (fun x0 => set_in x0 (pre ++ post)) (vertices g))).
  assert (Ho1 : forall n, in_of g1 n
                          = if n =? dst e then pre ++ post else in_of g n).
  { intros n. unfold g1. rewrite in_of_update_in.
    destruct (n =? dst e) eqn:Q; [|reflexivity].
    apply Nat.eqb_eq in Q. subst n. now rewrite Fu. }
  apply IH.
  - exact Hh.
  - intros j Hj. destruct (Hids j (or_intror Hj)) as (ej & Ej & Sj).
    exists ej. split; [exact Ej|]. unfold g1, states_of. simpl.
    rewrite update_vertex_numbers; [exact Sj | reflexivity].
  - intros n j Hj. rewrite Ho1 in Hj. destruct (n =? dst e) eqn:Q.
    + apply Nat.eqb_eq in Q. subst n. apply (Hall (dst e)).
      rewrite Hou, Eo1. apply in_app_or in Hj as [Hj|Hj]; apply in_or_app;
        [now left | right; now right].
    + now apply (Hall n).
  - intros e'. rewrite Ho1. specialize (Hc e'). simpl in Hc.
    unfold like_edge in Hc at 1. rewrite Ei in Hc.
    destruct (dst e' =? dst e) eqn:Q.
    + apply Nat.eqb_eq in Q. rewrite Q, Hou, Eo1 in Hc.
      rewrite filter_app in Hc. simpl in Hc.
      unfold like_edge in Hc at 4. rewrite Ex in Hc.
      rewrite (edge_eqb_congr ex e e' Eq) in Hc.
      rewrite filter_app. rewrite length_app in *.
      destruct (edge_eqb e e'); simpl in Hc; lia.
    + destruct (edge_eqb e e'); simpl in Hc; lia.
Qed.

Lemma like_edge_ends h e i :
  like_edge h e i = true ->
  has_src h (src e) i = true /\ has_dst h (dst e) i = true.
Proof.
  unfold like_edge, has_src, has_dst, edge_eqb.
  destruct (nth_error h i) as [x|]; [|discriminate]. intros H.
  apply andb_true_iff in H as [H _]. now apply andb_true_iff in H.
Qed.

Lemma out_of_In g n j :
  In j (out_of g n) ->
  exists u, In u (vertices g) /\ number u = n /\ In j (out_edges u).
Proof.
  unfold out_of. destruct (find_vertex (vertices g) n) as [u|] eqn:F; [|intros []].
  apply find_vertex_Some in F as [Hu Nu]. intros Hj. now exists u.
Qed.

Lemma in_of_In g n j :
  In j (in_of g n) ->
  exists u, In u (vertices g) /\ number u = n /\ In j (in_edges u).
Proof.
  unfold in_of. destruct (find_vertex (vertices g) n) as [u|] eqn:F; [|intros []].
  apply find_vertex_Some in F as [Hu Nu]. intros Hj. now exists u.
Qed.

(** In a paired graph the objects equal to [e] are as many in the in-list of
    its destination as in the out-list of its source. *)
Lemma in_list_counts g vx e :
  linked g -> In vx (vertices g) ->
  length (filter (like_edge (heap g) e) (in_edges vx))
  <= length (filter (like_edge (heap g) e) (out_of g (src e))).
Proof.
  intros L Hin.
  destruct (in_dec Nat.eq_dec (src e) (states_of g)) as [Hs|Hs];
    [destruct (Nat.eq_dec (dst e) (number vx)) as [Hd|Hd]|].
  - apply In_states_find in Hs as (u & Hu & Nu).
    rewrite <- Nu, (out_of_vertex g u (lk_keys L) Hu).
    rewrite <- (filter_filter_implied (like_edge (heap g) e)
                  (has_src (heap g) (number u)) (in_edges vx)).
    2:{ intros i Hi. rewrite Nu. now apply like_edge_ends. }
    rewrite <- (lk_pair L u vx Hu Hin).
    rewrite filter_filter_implied; [apply Nat.le_refl|].
    intros i Hi. rewrite <- Hd. now apply like_edge_ends.
  - rewrite filter_none; [simpl; lia|].
    intros i Hi. destruct (lk_in L vx i Hin Hi) as (x & Ex & Dx & _).
    destruct (like_edge (heap g) e i) eqn:Q; [|reflexivity].
    apply like_edge_ends in Q as [_ Q]. unfold has_dst in Q. rewrite Ex in Q.
    apply Nat.eqb_eq in Q. congruence.
  - rewrite filter_none; [simpl; lia|].
    intros i Hi. destruct (lk_in L vx i Hin Hi) as (x & Ex & _ & Sx).
    destruct (like_edge (heap g) e i) eqn:Q; [|reflexivity].
    apply like_edge_ends in Q as [Q _]. unfold has_src in Q. rewrite Ex in Q.
    apply Nat.eqb_eq in Q. congruence.
Qed.

Lemma out_list_counts g vx e :
  linked g -> In vx (vertices g) ->
  length (filter (like_edge (heap g) e)
            (filter (fun i => negb (has_dst (heap g) (number vx) i)) (out_edges vx)))
  <= length (filter (like_edge (heap g) e) (in_of g (dst e))).
Proof.
  intros L Hin.
  destruct (Nat.eq_dec (dst e) (number vx)) as [Hv|Hv].
  { rewrite filter_none; [simpl; lia|].
    intros i Hi. apply filter_In in Hi as [_ Hi]. apply negb_true_iff in Hi.
    destruct (like_edge (heap g) e i) eqn:Q; [|reflexivity].
    apply like_edge_ends in Q as [_ Q]. rewrite Hv in Q. congruence. }
  rewrite filter_filter_implied.
  2:{ intros i Q. apply like_edge_ends in Q as [_ Q]. unfold has_dst in *.
      destruct (nth_error (heap g) i) as [x|]; [|discriminate].
      apply Nat.eqb_eq in Q. apply negb_true_iff, Nat.eqb_neq. congruence. }
  destruct (in_dec Nat.eq_dec (dst e) (states_of g)) as [Hs|Hs];
    [destruct (Nat.eq_dec (src e) (number vx)) as [Hd|Hd]|].
  - apply In_states_find in Hs as (w & Hw & Nw).
    rewrite <- Nw, (in_of_vertex g w (lk_keys L) Hw).
    rewrite <- (filter_filter_implied (like_edge (heap g) e)
                  (has_dst (heap g) (number w)) (out_edges vx)).
    2:{ intros i Hi. rewrite Nw. now apply like_edge_ends. }
    rewrite (lk_pair L vx w Hin Hw).
    rewrite filter_filter_implied; [apply Nat.le_refl|].
    intros i Hi. rewrite <- Hd. now apply like_edge_ends.
  - rewrite filter_none; [simpl; lia|].
    intros i Hi. destruct (lk_out L vx i Hin Hi) as (x & Ex & Sx & _).
    destruct (like_edge (heap g) e i) eqn:Q; [|reflexivity].
    apply like_edge_ends in Q as [Q _]. unfold has_src in Q. rewrite Ex in Q.
    apply Nat.eqb_eq in Q. congruence.
  - rewrite filter_none; [simpl; lia|].
    intros i Hi. destruct (lk_out L vx i Hin Hi) as (x & Ex & _ & Dx).
    destruct (like_edge (heap g) e i) eqn:Q; [|reflexivity].
    apply like_edge_ends in Q as [_ Q]. unfold has_dst in Q. rewrite Ex in Q.
    apply Nat.eqb_eq in Q. congruence.
Qed.

Lemma add_edges_defined l : forall g,
  (forall s t r a, In (s, t, r, a) l -> In s (states_of g) /\ In t (states_of g)) ->
  exists g', add_edges g l = Ok g'.
Proof.
  induction l as [|[[[s t] r'] a] l IH]; intros g Hl; [now exists g|].
  destruct (Hl s t r' a (or_introl eq_refl)) as [Hs Ht].
  destruct (add_edge_defined g s t r' a Hs Ht) as (g1 & E1).
  simpl. rewrite E1. simpl. apply IH.
  intros s0 t0 r0 a0 H0. rewrite (add_edge_states _ _ _ _ _ _ E1).
  apply (Hl s0 t0 r0 a0). now right.
Qed.

(** [rip] of a state of a paired graph raises nothing. *)
Lemma rip_defined g v :
  linked g -> In v (states_of g) -> exists g', rip g v = Ok g'.
Proof.
  intros L Hv.
  destruct (find_vertex_In _ _ Hv) as (vx & Fv).
  assert (Gv : get_vertex g v = Ok vx) by (unfold get_vertex; now rewrite Fv).
  destruct (find_vertex_Some _ _ _ Fv) as [Hin Nv].
  destruct (edges_of_defined (heap g) (out_edges vx)) as (outs & Eouts).
  { intros i Hi. destruct (lk_out L vx i Hin Hi) as (e & Ee & _). now exists e. }
  destruct (edges_of_defined (heap g) (in_edges vx)) as (ins & Eins).
  { intros i Hi. destruct (lk_in L vx i Hin Hi) as (e & Ee & _). now exists e. }
  destruct (detach_in_edges_defined (heap g) (in_edges vx) g eq_refl)
    as (g1 & D1).
  { intros i Hi. destruct (lk_in L vx i Hin Hi) as (e & Ee & _ & Se). now exists e. }
  { intros n j Hj. apply out_of_In in Hj as (u & Hu & _ & Hj).
    destruct (lk_out L u j Hu Hj) as (e & Ee & _). now exists e. }
  { intros e. now apply in_list_counts. }
  destruct (rip_detached_in g v vx g1 L Gv D1) as (Hh1 & Hs1 & Hi1 & Ho1).
  assert (Hv1 : In v (states_of g1)) by (now rewrite Hs1).
  destruct (find_vertex_In _ _ Hv1) as (v1 & Fv1).
  assert (Gv1 : get_vertex g1 v = Ok v1) by (unfold get_vertex; now rewrite Fv1).
  pose proof (rip_detached_out_list g v vx g1 v1 L Gv D1 Gv1) as Eo.
  destruct (detach_out_edges_defined (heap g) (out_edges v1) g1 Hh1)
    as (g2 & D2).
  { intros i Hi. rewrite Eo in Hi. apply filter_In in Hi as [Hi _].
    destruct (lk_out L vx i Hin Hi) as (e & Ee & _ & De).
    exists e. split; [exact Ee | now rewrite Hs1]. }
  { intros n j Hj. rewrite Hi1 in Hj. apply in_of_In in Hj as (u & Hu & _ & Hj).
    destruct (lk_in L u j Hu Hj) as (e & Ee & _). now exists e. }
  { intros e. rewrite Eo, Hi1, <- Nv. now apply out_list_counts. }
  destruct (add_edges_defined
              (added_edges v (option_map label (find (fun e => src e =? dst e) outs))
                           ins outs) g2) as (g3 & A3).
  { intros s t r a Hx.
    apply added_edges_shape in Hx as (e_in & e_out & Hein & Heout & Ex).
    inversion Ex; subst s t r a.
    rewrite (detach_out_edges_states _ _ _ D2), Hs1.
    destruct (edges_of_In _ _ _ Eins _ Hein) as (i & Hi & Ei).
    destruct (edges_of_In _ _ _ Eouts _ Heout) as (j & Hj & Ej).
    destruct (lk_in L vx i Hin Hi) as (e & Ee & _ & Se).
    destruct (lk_out L vx j Hin Hj) as (e' & Ee' & _ & De).
    split; congruence. }
  unfold rip, contain_self_loop. rewrite Gv. simpl. rewrite Eouts. simpl.
  rewrite Eins. simpl. rewrite D1. simpl. rewrite Gv1. simpl.
  rewrite D2. simpl. rewrite A3. simpl. eauto.
Qed.

Lemma detach_in_edges_num_states ids : forall g g',
  detach_in_edges g ids = Ok g' -> num_states g' = num_states g.
Proof.
  induction ids as [|i ids IH]; intros g g' E; simpl in E.
  - now inversion E; subst.
  - apply bind_Ok_inv in E as (e & _ & E).
    apply bind_Ok_inv in E as (u & _ & E).
    apply bind_Ok_inv in E as (outs & _ & E).
    now rewrite (IH _ _ E).
Qed.

Lemma detach_out_edges_num_states ids : forall g g',
  detach_out_edges g ids = Ok g' -> num_states g' = num_states g.
Proof.
  induction ids as [|i ids IH]; intros g g' E; simpl in E.
  - now inversion E; subst.
  - apply bind_Ok_inv in E as (e & _ & E).
    apply bind_Ok_inv in E as (u & _ & E).
    apply bind_Ok_inv in E as (outs & _ & E).
    now rewrite (IH _ _ E).
Qed.

Lemma add_edges_num_states l : forall g g',
  add_edges g l = Ok g' -> num_states g' = num_states g.
Proof.
  induction l as [|[[[s t] r'] a] l IH]; intros g g' E; simpl in E.
  - now inversion E; subst.
  - apply bind_Ok_inv in E as (g1 & E1 & E).
    rewrite (IH _ _ E).
    now apply add_edge_spec in E1 as (_ & _ & _ & _ & _ & _ & _ & N & _).
Qed.

(** [rip] of a state [v] of a graph whose adjacency lists are paired raises
    nothing and returns a graph whose lists are paired again: [v] is gone
    from the states, the other states are kept in their order, and
    [num_states] is one less.  For a number that is no state it raises
    [KeyError]. *)
Theorem rip_keeps_the_lists_paired (g : tGraph) (v : nat) :
  linked g ->
  if in_dec Nat.eq_dec v (states_of g) then
    exists g', rip g v = Ok g' /\ linked g' /\
      states_of g' = filter (fun n => negb (n =? v)) (states_of g) /\
      num_states g' = num_states g - 1
  else rip g v = Err KeyError.
Proof.
  intros L. destruct (in_dec Nat.eq_dec v (states_of g)) as [Hv|Hv].
  - destruct (rip_defined g v L Hv) as (g' & E). exists g'. split; [exact E|].
    unfold rip in E.
    apply bind_Ok_inv in E as (lp & Hlp & E).
    apply bind_Ok_inv in E as (vx & Gv & E).
    apply bind_Ok_inv in E as (ins & Eins & E).
    apply bind_Ok_inv in E as (outs & Eouts & E).
    apply bind_Ok_inv in E as (g1 & D1 & E).
    apply bind_Ok_inv in E as (v1 & Gv1 & E).
    apply bind_Ok_inv in E as (g2 & D2 & E).
    apply bind_Ok_inv in E as (g3 & A3 & E).
    inversion E; subst g'; clear E.
    destruct (rip_detached g v vx g1 v1 g2 L Gv D1 Gv1 D2) as (Hh & Hs & Ho & Hi).
    pose proof (linked_without g g2 v L Hh Hs Ho Hi) as L2.
    assert (L3 : linked (without_vertex v g3)).
    { apply (add_edges_without v _ g2 g3 A3); [|exact L2].
      intros s t r a Hx. exact (added_edges_avoid _ _ _ _ _ _ _ _ Hx). }
    split; [|split].
    + refine (linked_fields (without_vertex v g3) _ _ _ L3); reflexivity.
    + change (states_of (without_vertex v g3)
              = filter (fun n => negb (n =? v)) (states_of g)).
      rewrite states_without, (add_edges_states _ _ _ A3), Hs. reflexivity.
    + simpl. rewrite (add_edges_num_states _ _ _ A3).
      rewrite (detach_out_edges_num_states _ _ _ D2).
      now rewrite (detach_in_edges_num_states _ _ _ D1).
  - unfold rip, contain_self_loop, get_vertex.
    now rewrite (find_vertex_missing _ _ Hv).
Qed.

Lemma rip_keeps_the_lists_paired_witness :
  exists g g',
    aut_to_tgraph aut_two_loops = Ok g /\
    rip g 1 = Ok g' /\ linked g' /\ states_of g' = [0; 2] /\ num_states g' = 2.
Proof.
  destruct (aut_to_tgraph aut_two_loops) as [g|] eqn:E;
    [|vm_compute in E; discriminate].
  pose proof (rip_keeps_the_lists_paired g 1 (aut_to_tgraph_linked _ _ E)) as R.
  vm_compute in E. inversion E; subst g.
  destruct (in_dec Nat.eq_dec 1 _) as [_|N] in R; [|exfalso; apply N; simpl; tauto].
  destruct R as (g' & R & L' & S' & N').
  eexists. exists g'. split; [reflexivity|]. split; [exact R|].
  split; [exact L'|]. split; [exact S' | exact N'].
Defined.

(** ** The final states follow the accepting edges *)

Lemma set_remove_In x s l : In x (set_remove s l) <-> In x l /\ x <> s.
Proof.
  unfold set_remove. rewrite filter_In. split; intros [H Q]; split; try exact H.
  - now apply negb_true_iff, Nat.eqb_neq in Q.
  - now apply negb_true_iff, Nat.eqb_neq.
Qed.

Lemma accepting_out_add g s d l a g' :
  linked g -> add_edge g s d l a = Ok g' ->
  forall s', accepting_out g' s' <-> accepting_out g s' \/ (a = true /\ s' = s).
Proof.
  intros L E s'.
  apply add_edge_spec in E as (_ & (vs & Fs) & Eh & Ev & _).
  apply find_vertex_Some in Fs as [Hvs Nvs].
  split.
  - intros (v' & i & x & Hv' & Nv' & Hi & Ex & Ax).
    rewrite Ev in Hv'. apply in_map_iff in Hv' as (v & <- & Hv).
    rewrite file_edge_number in Nv'. unfold file_edge in Hi. simpl in Hi.
    assert (Hold : In i (out_edges v) -> accepting_out g s').
    { intros Hi'. destruct (lk_out L v i Hv Hi') as (e & Ee & _).
      exists v, i, x. repeat split; try assumption.
      rewrite Eh, nth_error_app1 in Ex; [exact Ex|].
      apply nth_error_Some. congruence. }
    destruct (number v =? s) eqn:Q; [|left; now apply Hold].
    apply in_app_or in Hi as [Hi|[<-|[]]]; [left; now apply Hold|].
    right. rewrite Eh, nth_error_app2, Nat.sub_diag in Ex by lia.
    simpl in Ex. inversion Ex; subst x. simpl in Ax.
    apply Nat.eqb_eq in Q. split; congruence.
  - intros [(v & i & x & Hv & Nv & Hi & Ex & Ax)|[-> ->]].
    + exists (file_edge s d (length (heap g)) v), i, x.
      split; [rewrite Ev; now apply in_map|].
      split; [now rewrite file_edge_number|]. split.
      * unfold file_edge. simpl. destruct (number v =? s); [|exact Hi].
        apply in_or_app. now left.
      * split; [|exact Ax]. rewrite Eh, nth_error_app1; [exact Ex|].
        apply nth_error_Some. congruence.
    + exists (file_edge s d (length (heap g)) vs), (length (heap g)),
             (mkEdge s d l true).
      split; [rewrite Ev; now apply in_map|].
      split; [now rewrite file_edge_number|]. split.
      * unfold file_edge. simpl. rewrite Nvs, Nat.eqb_refl.
        apply in_or_app. right. now left.
      * split; [|reflexivity].
        rewrite Eh, nth_error_app2, Nat.sub_diag by lia. reflexivity.
Qed.

(** The out-lists after [tGraph.remove_edge]: the one of [s] has lost one
    entry, and [s] stays a final state exactly when an accepting entry is
    left. *)
Lemma remove_edge_out_lists g s d l a g' :
  remove_edge g s d l a = Ok g' ->
  exists vs outs ins,
    In vs (vertices g) /\ number vs = s /\
    (forall i, In i outs -> In i (out_edges vs)) /\
    heap g' = heap g /\
    vertices g' = map (unfile_edge s d outs ins) (vertices g) /\
    (final_states g' = final_states g \/
     final_states g' = set_remove s (final_states g)) /\
    (In s (final_states g) ->
     (In s (final_states g') <->
      exists i x, In i outs /\ nth_error (heap g) i = Some x /\ accepting x = true)).
Proof.
  unfold remove_edge. intros E.
  apply bind_Ok_inv in E as (g1 & G1 & E).
  apply bind_Ok_inv in E as (g2 & G2 & E).
  pose proof (Graph_remove_edge_finals _ _ _ _ _ G1) as F1.
  apply Graph_remove_edge_spec in G1
    as (vs & vd & outs & ins & Fs & Fd & Ro & Ri & Eh & Ev).
  assert (H2 : final_states g2 = final_states g /\ vertices g2 = vertices g1
               /\ heap g2 = heap g1).
  { destruct a; apply bind_Ok_inv in G2 as (t & _ & G2);
      inversion G2; subst g2; simpl; auto. }
  destruct H2 as (F2 & V2 & H2).
  pose proof (find_vertex_Some _ _ _ Fs) as [Hvs Nvs].
  exists vs, outs, ins.
  split; [exact Hvs|]. split; [exact Nvs|].
  split; [exact (list_remove_edge_incl _ _ _ _ Ro)|].
  destruct (set_mem s (final_states g2)) eqn:M.
  - apply bind_Ok_inv in E as (acc & Ga & E).
    unfold get_accepting_transitions_from in Ga.
    apply bind_Ok_inv in Ga as (v2 & Gv2 & Ga).
    apply get_vertex_Ok in Gv2 as [Hv2 Nv2].
    rewrite V2, Ev in Hv2. apply in_map_iff in Hv2 as (v0 & E0 & Hv0).
    assert (Eo : out_edges v2 = outs).
    { subst v2. simpl in *. rewrite Nv2, Nat.eqb_refl. reflexivity. }
    unfold filter_edges in Ga. apply bind_Ok_inv in Ga as (es & Ees & Ga).
    inversion Ga; subst acc; clear Ga. rewrite Eo, H2, Eh in Ees.
    assert (Hacc : (exists i x, In i outs /\ nth_error (heap g) i = Some x
                                /\ accepting x = true)
                   <-> filter accepting es <> []).
    { split.
      - intros (i & x & Hi & Ex & Ax) Q.
        pose proof (edges_of_member _ _ _ i x Ees Hi Ex) as Hx.
        assert (Hf : In x (filter accepting es)) by (apply filter_In; now split).
        rewrite Q in Hf. destruct Hf.
      - intros Q. destruct (filter accepting es) as [|x t] eqn:Ef; [congruence|].
        assert (Hf : In x (filter accepting es)) by (rewrite Ef; now left).
        apply filter_In in Hf as [Hx Ax].
        destruct (edges_of_In _ _ _ Ees _ Hx) as (i & Hi & Ex).
        now exists i, x. }
    destruct (length (filter accepting es) =? 0) eqn:Z; inversion E; subst g';
      simpl; (split; [congruence|]); (split; [congruence|]).
    + apply Nat.eqb_eq in Z. split; [right; now rewrite F2|]. intros _.
      rewrite F2, set_remove_In, Hacc. split; [intros [_ Q]; congruence|].
      intros Q. destruct (filter accepting es); [congruence | discriminate].
    + apply Nat.eqb_neq in Z. split; [left; exact F2|]. intros Hs.
      rewrite F2, Hacc. split; [|intros _; exact Hs].
      intros _ Q. rewrite Q in Z. now apply Z.
  - inversion E; subst g'. split; [congruence|]. split; [congruence|].
    split; [left; exact F2|]. intros Hs. apply set_mem_In in Hs.
    rewrite <- F2 in Hs. congruence.
Qed.

(** [final_states] is the set of the states with an accepting out-edge: it
    is so in a new graph, and [add_edge] and [remove_edge] keep it so on a
    graph whose adjacency lists are paired, also when [remove_edge] takes
    another object than the one asked for out of the out-list. *)
Theorem final_states_follow_the_accepting_edges :
  (forall n initial, finals_exact (new_tGraph n initial)) /\
  (forall g s d l a g',
     linked g -> finals_exact g ->
     add_edge g s d l a = Ok g' \/ remove_edge g s d l a = Ok g' ->
     finals_exact g').
Proof.
  split.
  - intros n initial s'. simpl. split; [intros []|].
    intros (v & i & x & Hv & _ & Hi & _). simpl in Hv.
    apply in_map_iff in Hv as (k & <- & _). destruct Hi.
  - intros g s d l a g' L Hf [E|E] s'.
    + rewrite (accepting_out_add g s d l a g' L E s'), <- (Hf s').
      apply add_edge_spec in E as (_ & _ & _ & _ & Ef & _).
      rewrite Ef. destruct a.
      * rewrite set_add_In. split; [intros [->|H]; auto | intros [H|[_ ->]]; auto].
      * split; [auto | intros [H|[Q _]]; [exact H | discriminate]].
    + destruct (remove_edge_out_lists g s d l a g' E)
        as (vs & outs & ins & Hvs & Nvs & Hincl & Eh & Ev & Efin & Hs).
      assert (Hother : s' <> s -> (accepting_out g' s' <-> accepting_out g s')).
      { intros Q. split.
        - intros (v' & i & x & Hv' & Nv' & Hi & Ex & Ax).
          rewrite Ev in Hv'. apply in_map_iff in Hv' as (v & <- & Hv).
          simpl in Nv', Hi. rewrite Nv' in Hi.
          apply Nat.eqb_neq in Q. rewrite Q in Hi.
          exists v, i, x. rewrite <- Eh. now repeat split.
        - intros (v & i & x & Hv & Nv & Hi & Ex & Ax).
          exists (unfile_edge s d outs ins v), i, x.
          split; [rewrite Ev; now apply in_map|].
          split; [exact Nv|]. split.
          + simpl. rewrite Nv. apply Nat.eqb_neq in Q. now rewrite Q.
          + rewrite Eh. now split. }
      assert (Hsame : accepting_out g' s <->
                      exists i x, In i outs /\ nth_error (heap g) i = Some x
                                  /\ accepting x = true).
      { split.
        - intros (v' & i & x & Hv' & Nv' & Hi & Ex & Ax).
          rewrite Ev in Hv'. apply in_map_iff in Hv' as (v & <- & Hv).
          simpl in Nv', Hi. rewrite Nv', Nat.eqb_refl in Hi.
          exists i, x. rewrite <- Eh. now repeat split.
        - intros (i & x & Hi & Ex & Ax).
          exists (unfile_edge s d outs ins vs), i, x.
          split; [rewrite Ev; now apply in_map|].
          split; [exact Nvs|]. split.
          + simpl. now rewrite Nvs, Nat.eqb_refl.
          + rewrite Eh. now split. }
      destruct (Nat.eq_dec s' s) as [->|Q].
      * rewrite Hsame. split.
        -- intros H. apply Hs; [|exact H].
           destruct Efin as [Ef|Ef]; rewrite Ef in H; [exact H|].
           now apply set_remove_In in H.
        -- intros H. apply Hs; [|exact H].
           apply Hf. destruct H as (i & x & Hi & Ex & Ax).
           exists vs, i, x. repeat split; auto.
      * rewrite (Hother Q), <- (Hf s').
        destruct Efin as [Ef|Ef]; rewrite Ef; [reflexivity|].
        rewrite set_remove_In. tauto.
Qed.

Lemma final_states_follow_the_accepting_edges_witness :
  exists g1 g2,
    add_edge (new_tGraph 2 0) 0 1 (Symbol "a") true = Ok g1 /\
    remove_edge g1 0 1 (Symbol "a") true = Ok g2 /\
    finals_exact g1 /\ finals_exact g2 /\
    final_states g1 = [0] /\ final_states g2 = [].
Proof.
  destruct final_states_follow_the_accepting_edges as [B S].
  destruct (add_edge (new_tGraph 2 0) 0 1 (Symbol "a") true) as [g1|] eqn:A;
    [|vm_compute in A; discriminate].
  destruct (remove_edge g1 0 1 (Symbol "a") true) as [g2|] eqn:R.
  2:{ vm_compute in A. inversion A; subst g1. vm_compute in R. discriminate. }
  pose proof (linked_new 2 0) as L0.
  pose proof (linked_add_edge _ _ _ _ _ _ L0 A) as L1.
  pose proof (S _ _ _ _ _ _ L0 (B 2 0) (or_introl A)) as F1.
  pose proof (S _ _ _ _ _ _ L1 F1 (or_intror R)) as F2.
  exists g1, g2. split; [reflexivity|]. split; [exact R|].
  split; [exact F1|]. split; [exact F2|].
  vm_compute in A. inversion A; subst g1.
  vm_compute in R. inversion R; subst g2. split; reflexivity.
Defined.
